(** * The infinite maze contraption: a shallow embedding of inifinite_maze_09.js

    The engine is a JavaScript program that keeps everything in global
    variables and in objects shared by reference: a Block object is
    reachable from the maze rows, from the adjacentBlocks list of its
    neighbours, from the subPath array of every path that crosses it,
    from the seed arrays and from the character.  The embedding keeps
    that sharing: Block objects, Path objects and the seed arrays live
    in three stores and everything else holds addresses into them.

    Not modelled: the canvas, the drawing functions and the pixel
    geometry of a block (points, centerPoint), which are floating-point
    values that no engine decision reads. *)

From stdpp Require Import base list.
From Stdlib Require Import ZArith Lia Bool.

Open Scope Z_scope.

(** ** Objects *)

(** Addresses of Block objects, Path objects and seed arrays. *)
Abbreviation ref := nat.
Abbreviation pref := nat.
Abbreviation aref := nat.

(** [function Point(newPointX, newPointY)].  A coordinate is kept as a
    multiple of squareLength. *)
Record Point := mkPoint { point_x : Z; point_y : Z }.

(** [function Block(fourPoints)]. *)
Record Block := mkBlock {
  isWall : bool;
  rowIndex : Z;
  blockIndex : Z;
  adjacentBlocks : list ref;
  numberOfAdjacentWalls : Z
}.

(** [function Path()]. *)
Record Path := mkPath {
  subPath : list ref;
  distance : Z
}.

(** The global variables of the script, the three object stores and the
    supply of random draws still to be consumed by [Math.random]. *)
Record Engine := mkEngine {
  numberOfRowBlocks : Z;
  numberOfRowPoints : Z;
  pointGrid : list (list Point);
  maze : list (list ref);
  mainPath : option pref;
  paths : list pref;
  pathSeeds : aref;
  secondSeeds : aref;
  pathsToSplice : list pref;
  character : option ref;
  blockStore : list Block;
  pathStore : list Path;
  arrayStore : list (list ref);
  rng : list nat
}.

(** The script as loaded, before [start] runs: [paths], [pathSeeds],
    [secondSeeds] and [pathsToSplice] are three distinct empty arrays. *)
Definition loaded (n : Z) (draws : list nat) : Engine :=
  {| numberOfRowBlocks := n; numberOfRowPoints := 0; pointGrid := [];
     maze := []; mainPath := None; paths := [];
     pathSeeds := 0%nat; secondSeeds := 1%nat; pathsToSplice := [];
     character := None; blockStore := []; pathStore := [];
     arrayStore := [[]; []]; rng := draws |}.

Definition set_numberOfRowPoints (v : Z) (w : Engine) : Engine :=
  {| numberOfRowBlocks := numberOfRowBlocks w; numberOfRowPoints := v;
     pointGrid := pointGrid w; maze := maze w; mainPath := mainPath w;
     paths := paths w; pathSeeds := pathSeeds w; secondSeeds := secondSeeds w;
     pathsToSplice := pathsToSplice w; character := character w;
     blockStore := blockStore w; pathStore := pathStore w;
     arrayStore := arrayStore w; rng := rng w |}.

Definition set_pointGrid (v : list (list Point)) (w : Engine) : Engine :=
  {| numberOfRowBlocks := numberOfRowBlocks w;
     numberOfRowPoints := numberOfRowPoints w;
     pointGrid := v; maze := maze w; mainPath := mainPath w;
     paths := paths w; pathSeeds := pathSeeds w; secondSeeds := secondSeeds w;
     pathsToSplice := pathsToSplice w; character := character w;
     blockStore := blockStore w; pathStore := pathStore w;
     arrayStore := arrayStore w; rng := rng w |}.

Definition set_maze (v : list (list ref)) (w : Engine) : Engine :=
  {| numberOfRowBlocks := numberOfRowBlocks w;
     numberOfRowPoints := numberOfRowPoints w;
     pointGrid := pointGrid w; maze := v; mainPath := mainPath w;
     paths := paths w; pathSeeds := pathSeeds w; secondSeeds := secondSeeds w;
     pathsToSplice := pathsToSplice w; character := character w;
     blockStore := blockStore w; pathStore := pathStore w;
     arrayStore := arrayStore w; rng := rng w |}.

Definition set_mainPath (v : option pref) (w : Engine) : Engine :=
  {| numberOfRowBlocks := numberOfRowBlocks w;
     numberOfRowPoints := numberOfRowPoints w;
     pointGrid := pointGrid w; maze := maze w; mainPath := v;
     paths := paths w; pathSeeds := pathSeeds w; secondSeeds := secondSeeds w;
     pathsToSplice := pathsToSplice w; character := character w;
     blockStore := blockStore w; pathStore := pathStore w;
     arrayStore := arrayStore w; rng := rng w |}.

Definition set_paths (v : list pref) (w : Engine) : Engine :=
  {| numberOfRowBlocks := numberOfRowBlocks w;
     numberOfRowPoints := numberOfRowPoints w;
     pointGrid := pointGrid w; maze := maze w; mainPath := mainPath w;
     paths := v; pathSeeds := pathSeeds w; secondSeeds := secondSeeds w;
     pathsToSplice := pathsToSplice w; character := character w;
     blockStore := blockStore w; pathStore := pathStore w;
     arrayStore := arrayStore w; rng := rng w |}.

Definition set_pathSeeds (v : aref) (w : Engine) : Engine :=
  {| numberOfRowBlocks := numberOfRowBlocks w;
     numberOfRowPoints := numberOfRowPoints w;
     pointGrid := pointGrid w; maze := maze w; mainPath := mainPath w;
     paths := paths w; pathSeeds := v; secondSeeds := secondSeeds w;
     pathsToSplice := pathsToSplice w; character := character w;
     blockStore := blockStore w; pathStore := pathStore w;
     arrayStore := arrayStore w; rng := rng w |}.

Definition set_secondSeeds (v : aref) (w : Engine) : Engine :=
  {| numberOfRowBlocks := numberOfRowBlocks w;
     numberOfRowPoints := numberOfRowPoints w;
     pointGrid := pointGrid w; maze := maze w; mainPath := mainPath w;
     paths := paths w; pathSeeds := pathSeeds w; secondSeeds := v;
     pathsToSplice := pathsToSplice w; character := character w;
     blockStore := blockStore w; pathStore := pathStore w;
     arrayStore := arrayStore w; rng := rng w |}.

Definition set_pathsToSplice (v : list pref) (w : Engine) : Engine :=
  {| numberOfRowBlocks := numberOfRowBlocks w;
     numberOfRowPoints := numberOfRowPoints w;
     pointGrid := pointGrid w; maze := maze w; mainPath := mainPath w;
     paths := paths w; pathSeeds := pathSeeds w; secondSeeds := secondSeeds w;
     pathsToSplice := v; character := character w;
     blockStore := blockStore w; pathStore := pathStore w;
     arrayStore := arrayStore w; rng := rng w |}.

Definition set_character (v : option ref) (w : Engine) : Engine :=
  {| numberOfRowBlocks := numberOfRowBlocks w;
     numberOfRowPoints := numberOfRowPoints w;
     pointGrid := pointGrid w; maze := maze w; mainPath := mainPath w;
     paths := paths w; pathSeeds := pathSeeds w; secondSeeds := secondSeeds w;
     pathsToSplice := pathsToSplice w; character := v;
     blockStore := blockStore w; pathStore := pathStore w;
     arrayStore := arrayStore w; rng := rng w |}.

Definition set_blockStore (v : list Block) (w : Engine) : Engine :=
  {| numberOfRowBlocks := numberOfRowBlocks w;
     numberOfRowPoints := numberOfRowPoints w;
     pointGrid := pointGrid w; maze := maze w; mainPath := mainPath w;
     paths := paths w; pathSeeds := pathSeeds w; secondSeeds := secondSeeds w;
     pathsToSplice := pathsToSplice w; character := character w;
     blockStore := v; pathStore := pathStore w;
     arrayStore := arrayStore w; rng := rng w |}.

Definition set_pathStore (v : list Path) (w : Engine) : Engine :=
  {| numberOfRowBlocks := numberOfRowBlocks w;
     numberOfRowPoints := numberOfRowPoints w;
     pointGrid := pointGrid w; maze := maze w; mainPath := mainPath w;
     paths := paths w; pathSeeds := pathSeeds w; secondSeeds := secondSeeds w;
     pathsToSplice := pathsToSplice w; character := character w;
     blockStore := blockStore w; pathStore := v;
     arrayStore := arrayStore w; rng := rng w |}.

Definition set_arrayStore (v : list (list ref)) (w : Engine) : Engine :=
  {| numberOfRowBlocks := numberOfRowBlocks w;
     numberOfRowPoints := numberOfRowPoints w;
     pointGrid := pointGrid w; maze := maze w; mainPath := mainPath w;
     paths := paths w; pathSeeds := pathSeeds w; secondSeeds := secondSeeds w;
     pathsToSplice := pathsToSplice w; character := character w;
     blockStore := blockStore w; pathStore := pathStore w;
     arrayStore := v; rng := rng w |}.

Definition set_rng (v : list nat) (w : Engine) : Engine :=
  {| numberOfRowBlocks := numberOfRowBlocks w;
     numberOfRowPoints := numberOfRowPoints w;
     pointGrid := pointGrid w; maze := maze w; mainPath := mainPath w;
     paths := paths w; pathSeeds := pathSeeds w; secondSeeds := secondSeeds w;
     pathsToSplice := pathsToSplice w; character := character w;
     blockStore := blockStore w; pathStore := pathStore w;
     arrayStore := arrayStore w; rng := v |}.

Definition set_isWall (v : bool) (b : Block) : Block :=
  {| isWall := v; rowIndex := rowIndex b; blockIndex := blockIndex b;
     adjacentBlocks := adjacentBlocks b;
     numberOfAdjacentWalls := numberOfAdjacentWalls b |}.

Definition set_rowIndex (v : Z) (b : Block) : Block :=
  {| isWall := isWall b; rowIndex := v; blockIndex := blockIndex b;
     adjacentBlocks := adjacentBlocks b;
     numberOfAdjacentWalls := numberOfAdjacentWalls b |}.

Definition set_blockIndex (v : Z) (b : Block) : Block :=
  {| isWall := isWall b; rowIndex := rowIndex b; blockIndex := v;
     adjacentBlocks := adjacentBlocks b;
     numberOfAdjacentWalls := numberOfAdjacentWalls b |}.

Definition set_adjacentBlocks (v : list ref) (b : Block) : Block :=
  {| isWall := isWall b; rowIndex := rowIndex b; blockIndex := blockIndex b;
     adjacentBlocks := v;
     numberOfAdjacentWalls := numberOfAdjacentWalls b |}.

Definition set_numberOfAdjacentWalls (v : Z) (b : Block) : Block :=
  {| isWall := isWall b; rowIndex := rowIndex b; blockIndex := blockIndex b;
     adjacentBlocks := adjacentBlocks b;
     numberOfAdjacentWalls := v |}.

Definition set_subPath (v : list ref) (p : Path) : Path :=
  {| subPath := v; distance := distance p |}.

Definition set_distance (v : Z) (p : Path) : Path :=
  {| subPath := subPath p; distance := v |}.

(** ** The monad of engine code

    A piece of engine code transforms the engine and either returns,
    throws (an uncaught TypeError: a property read on [undefined]; the
    globals keep whatever was written before the throw) or exhausts the
    iteration budget of a [while] loop. *)

Inductive outcome (A : Type) : Type :=
| Ret (a : A)
| Throw
| Diverge.
Arguments Ret {A} a.
Arguments Throw {A}.
Arguments Diverge {A}.

Definition M (A : Type) : Type := Engine -> outcome A * Engine.

Definition ret {A} (a : A) : M A := fun w => (Ret a, w).

Definition bind {A B} (m : M A) (f : A -> M B) : M B :=
  fun w => match m w with
           | (Ret a, w') => f a w'
           | (Throw, w') => (Throw, w')
           | (Diverge, w') => (Diverge, w')
           end.

Notation "x <- c1 ;; c2" := (bind c1 (fun x => c2))
  (at level 100, c1 at next level, right associativity).
Notation "c1 ;; c2" := (bind c1 (fun _ => c2))
  (at level 100, right associativity).

Definition throw {A} : M A := fun w => (Throw, w).
Definition diverge {A} : M A := fun w => (Diverge, w).
Definition gets {A} (f : Engine -> A) : M A := fun w => (Ret (f w), w).
Definition modify (f : Engine -> Engine) : M unit := fun w => (Ret tt, f w).

(** A value that may be [undefined], at the point where a property of it
    is read. *)
Definition defined {A} (o : option A) : M A :=
  match o with Some a => ret a | None => throw end.

(** [for] over the elements of an array that the body leaves alone. *)
Fixpoint forEach {A} (l : list A) (body : A -> M unit) : M unit :=
  match l with
  | [] => ret tt
  | a :: l' => body a ;; forEach l' body
  end.

(** [while (createPath == true) { ... }]: the body returns [inl s] to go
    round again with the loop variables [s], [inr r] once it has set
    [createPath = false]. *)
Fixpoint while {S R} (fuel : nat) (body : S -> M (S + R)) (s : S) : M R :=
  match fuel with
  | O => diverge
  | Datatypes.S fuel' =>
      r <- body s ;;
      match r with
      | inl s' => while fuel' body s'
      | inr r => ret r
      end
  end.

(** ** JavaScript arrays *)

(** [a[i]] for a number [i]: [undefined] outside the array. *)
Definition at_index {A} (l : list A) (i : Z) : option A :=
  if i <? 0 then None else l !! Z.to_nat i.

(** [a[i] = v].  Every such write of the script has [i <= a.length]
    (in place, or one past the end), so no array gets holes. *)
Definition js_set {A} (i : nat) (v : A) (l : list A) : list A :=
  if (i <? length l)%nat then <[i:=v]> l else l ++ [v].

(** [a.indexOf(v)], [-1] being [None]. *)
Fixpoint indexOf (v : nat) (l : list nat) : option nat :=
  match l with
  | [] => None
  | a :: l' => if (a =? v)%nat then Some 0%nat else S <$> indexOf v l'
  end.

(** [a.splice(a.indexOf(v), 1)]: a start of [-1] counts from the end, so
    a value that is not in the array takes the last element out. *)
Definition spliceOut (v : nat) (l : list nat) : list nat :=
  match indexOf v l with
  | Some i => delete i l
  | None => removelast l
  end.

(** [Math.floor(Math.random() * k)] for the draw [o]: any of [0..k-1]
    when [k] is positive, [0] when [k] is [0], any of [k..0] when [k] is
    negative. *)
Definition scaled (o : nat) (k : Z) : Z :=
  if 0 <? k then Z.of_nat o mod k
  else if k =? 0 then 0
  else - (Z.of_nat o mod (1 - k)).

(** [Math.random()]: the next draw of the supply. *)
Definition mathRandom : M nat :=
  fun w => match rng w with
           | [] => (Ret 0%nat, w)
           | o :: t => (Ret o, set_rng t w)
           end.

(** ** Object stores *)

Definition getBlock (b : ref) : M Block :=
  w <- gets blockStore ;; defined (w !! b).

Definition modifyBlock (b : ref) (f : Block -> Block) : M unit :=
  blk <- getBlock b ;;
  modify (fun w => set_blockStore (<[b := f blk]> (blockStore w)) w).

Definition getPath (p : pref) : M Path :=
  w <- gets pathStore ;; defined (w !! p).

Definition modifyPath (p : pref) (f : Path -> Path) : M unit :=
  pth <- getPath p ;;
  modify (fun w => set_pathStore (<[p := f pth]> (pathStore w)) w).

Definition getArray (a : aref) : M (list ref) :=
  w <- gets arrayStore ;; defined (w !! a).

(** [a[a.length] = v] on a seed array. *)
Definition pushArray (a : aref) (v : ref) : M unit :=
  arr <- getArray a ;;
  modify (fun w => set_arrayStore (<[a := arr ++ [v]]> (arrayStore w)) w).

(** [[]]: a fresh empty array. *)
Definition newArray : M aref :=
  a <- gets (fun w => length (arrayStore w)) ;;
  modify (fun w => set_arrayStore (arrayStore w ++ [[]]) w) ;;
  ret a.

(** [new Block(fourPoints)]: a wall with no neighbours yet; the two
    indices are assigned by the caller right after. *)
Definition newBlock : M ref :=
  b <- gets (fun w => length (blockStore w)) ;;
  modify (fun w => set_blockStore (blockStore w ++ [mkBlock true 0 0 [] 0]) w) ;;
  ret b.

(** [new Path()]: the constructor registers the path in [paths]. *)
Definition newPath : M pref :=
  p <- gets (fun w => length (pathStore w)) ;;
  modify (fun w => set_pathStore (pathStore w ++ [mkPath [] 0]) w) ;;
  modify (fun w => set_paths (paths w ++ [p]) w) ;;
  ret p.

(** [maze.rows[i]] where [.blocks] is read next. *)
Definition rowAt (i : Z) : M (list ref) :=
  rows <- gets maze ;; defined (at_index rows i).

(** [maze.rows[i].blocks[k]] where a property of the block is read or
    stored next. *)
Definition cellAt (i k : Z) : M ref :=
  row <- rowAt i ;; defined (at_index row k).

(** [path.subPath[path.subPath.length] = b]. *)
Definition pushSubPath (p : pref) (b : ref) : M unit :=
  modifyPath p (fun pth => set_subPath (subPath pth ++ [b]) pth).

(** The iterations [0 .. n-1] of a counting [for] loop. *)
Definition upto (n : nat) : list Z := Z.of_nat <$> seq 0 n.

(** A [for] over the neighbours of a block that pushes blocks on the
    local array [possibleNextBlocks]: the blocks pushed, in order. *)
Fixpoint collect (l : list ref) (f : ref -> M (list ref)) : M (list ref) :=
  match l with
  | [] => ret []
  | a :: l' => xs <- f a ;; ys <- collect l' f ;; ret (xs ++ ys)
  end.

(** The global [mainPath], where a property of it is read. *)
Definition theMainPath : M pref := p <- gets mainPath ;; defined p.

(** ** Setting up the grid *)

(** [calculateDimensions]. *)
Definition calculateDimensions : M unit :=
  modify (fun w => set_numberOfRowPoints (numberOfRowBlocks w + 1) w).

(** [makePointGrid]: [numberOfRowPoints * 3] rows of [numberOfRowPoints]
    points.  The script stores the doubles [k * squareLength] and
    [i * squareLength - numberOfRowPoints * 2 * squareLength]; no
    decision of the engine reads a coordinate (only the drawing does),
    and a point is kept here as the pair of exact multipliers
    [(k, i - 2 * numberOfRowPoints)], not as those doubles. *)
Definition makePointGrid : M unit :=
  modify (fun w =>
    let np := numberOfRowPoints w in
    set_pointGrid
      ((fun i => (fun k => mkPoint k (i - np * 2)) <$> upto (Z.to_nat np))
         <$> upto (Z.to_nat (np * 3))) w).

(** [pointGrid.rows[i].points[k]] where [.x] and [.y] are read. *)
Definition pointAt (i k : Z) : M Point :=
  pg <- gets pointGrid ;;
  row <- defined (at_index pg i) ;;
  defined (at_index row k).

(** [getAdjacentBlocks(middleBlock)]: up, right, down, left, each only if
    the test on the block's own indices passes.  A block of the grid has
    its blockIndex inside the row, so the four reads always find a block;
    a read outside a row, which would store [undefined] in the list, is
    taken as the TypeError that the first use of that entry raises. *)
Definition getAdjacentBlocks (middleBlock : ref) : M unit :=
  blk <- getBlock middleBlock ;;
  let thisRowIndex := rowIndex blk in
  let thisBlockIndex := blockIndex blk in
  n <- gets numberOfRowBlocks ;;
  rows <- gets maze ;;
  up <- (if 0 <? thisRowIndex
         then (b <- cellAt (thisRowIndex - 1) thisBlockIndex ;; ret [b])
         else ret []) ;;
  right <- (if thisBlockIndex <? n - 2
            then (b <- cellAt thisRowIndex (thisBlockIndex + 1) ;; ret [b])
            else ret []) ;;
  down <- (if thisRowIndex <? Z.of_nat (length rows) - 3
           then (b <- cellAt (thisRowIndex + 1) thisBlockIndex ;; ret [b])
           else ret []) ;;
  left <- (if 0 <? thisBlockIndex
           then (b <- cellAt thisRowIndex (thisBlockIndex - 1) ;; ret [b])
           else ret []) ;;
  modifyBlock middleBlock (set_adjacentBlocks (up ++ right ++ down ++ left)).

(** The inner loop shared, word for word, by [makeMaze] (row [i]) and
    [createNewRow] (row [0]): one new wall block per column, over the
    points of rows [i] and [i + 1] of the point grid. *)
Definition fillRow (i : Z) : M unit :=
  pg <- gets pointGrid ;;
  prow <- defined (at_index pg i) ;;
  forEach (upto (length prow - 2)) (fun k =>
    pointAt i k ;; pointAt i (k + 1) ;;
    pointAt (i + 1) (k + 1) ;; pointAt (i + 1) k ;;
    b <- newBlock ;;
    row <- rowAt i ;;
    modify (fun w => set_maze (<[Z.to_nat i := js_set (Z.to_nat k) b row]> (maze w)) w) ;;
    modifyBlock b (set_rowIndex i) ;;
    modifyBlock b (set_blockIndex k)).

(** [makeMaze]. *)
Definition makeMaze : M unit :=
  modify (set_maze []) ;;
  pg <- gets pointGrid ;;
  forEach (upto (length pg - 2)) (fun i =>
    modify (fun w => set_maze (js_set (Z.to_nat i) [] (maze w)) w) ;;
    fillRow i) ;;
  rows <- gets maze ;;
  forEach rows (fun row => forEach row getAdjacentBlocks).

(** [resetAdjacentBlocks]: rows [maze.rows.length - 1] down to [1]. *)
Definition resetAdjacentBlocks : M unit :=
  rows <- gets maze ;;
  forEach (reverse (drop 1 (upto (length rows)))) (fun i =>
    row <- rowAt i ;;
    forEach row getAdjacentBlocks).

(** [checkForWallBlocks(thisBlock)]. *)
Definition checkForWallBlocks (thisBlock : ref) : M unit :=
  modifyBlock thisBlock (set_numberOfAdjacentWalls 0) ;;
  blk <- getBlock thisBlock ;;
  forEach (adjacentBlocks blk) (fun a =>
    ab <- getBlock a ;;
    if isWall ab
    then modifyBlock thisBlock
           (fun x => set_numberOfAdjacentWalls (numberOfAdjacentWalls x + 1) x)
    else ret tt).

(** [possibleNextBlocks[Math.floor(Math.random() * possibleNextBlocks.length)]]. *)
Definition pick (possibleNextBlocks : list ref) : M ref :=
  o <- mathRandom ;;
  defined (at_index possibleNextBlocks
             (scaled o (Z.of_nat (length possibleNextBlocks)))).

(** ** Growing paths *)

(** The neighbour test of [makeSubPath]: what one neighbour contributes
    to [possibleNextBlocks]. *)
Definition subPathCandidate (nBlock : ref) : M (list ref) :=
  checkForWallBlocks nBlock ;;
  nb <- getBlock nBlock ;;
  n <- gets numberOfRowBlocks ;;
  rows <- gets maze ;;
  if (0 <? rowIndex nb) && (rowIndex nb <=? Z.of_nat (length rows) - 3)
     && (0 <? blockIndex nb) && (blockIndex nb <? n - 1)
     && isWall nb && (2 <? numberOfAdjacentWalls nb)
  then ret [nBlock]
  else if (rowIndex nb =? 1) && (1 <? numberOfAdjacentWalls nb)
  then ret [nBlock]
  else ret [].

(** One round of the [while] loop of [makeSubPath]; the loop variable is
    [currentBlock]. *)
Definition makeSubPath_round (newPath_ : pref) (currentBlock : ref)
  : M (ref + unit) :=
  cur <- getBlock currentBlock ;;
  possibleNextBlocks <- collect (adjacentBlocks cur) subPathCandidate ;;
  currentBlock <-
    (if (0 <? length possibleNextBlocks)%nat
     then (b <- pick possibleNextBlocks ;;
           modifyBlock b (set_isWall false) ;;
           pushSubPath newPath_ b ;;
           ret b)
     else ret currentBlock) ;;
  cur <- getBlock currentBlock ;;
  pth <- getPath newPath_ ;;
  let tooLong := distance pth <=? Z.of_nat (length (subPath pth)) in
  let stuck := (length possibleNextBlocks =? 0)%nat in
  if (rowIndex cur =? 1) || stuck || tooLong
  then
    (if stuck || tooLong
     then modify (fun w => set_pathsToSplice (pathsToSplice w ++ [newPath_]) w)
     else ret tt) ;;
    ret (inr tt)
  else
    o <- mathRandom ;;
    (if scaled o 20 <? 3
     then (a <- gets secondSeeds ;; pushArray a currentBlock)
     else ret tt) ;;
    ret (inl currentBlock).

(** [makeSubPath(firstBlock)]. *)
Definition makeSubPath (fuel : nat) (firstBlock : ref) : M unit :=
  newPath_ <- newPath ;;
  o <- mathRandom ;;
  n <- gets numberOfRowBlocks ;;
  modifyPath newPath_ (set_distance (scaled o (n * 2))) ;;
  modifyPath newPath_ (fun pth => set_subPath (js_set 0 firstBlock (subPath pth)) pth) ;;
  while fuel (makeSubPath_round newPath_) firstBlock.

(** [for (var i = 0; i < pathSeeds.length; i++) makeSubPath(pathSeeds[i])]:
    the global [pathSeeds] and the length of the array it points to are
    read afresh on every round. *)
Definition growSeeds (fuel : nat) : M unit :=
  while fuel (fun i : nat =>
    a <- gets pathSeeds ;;
    arr <- getArray a ;;
    match arr !! i with
    | Some seed => makeSubPath fuel seed ;; ret (inl (S i))
    | None => ret (inr tt)
    end) 0%nat.

(** The neighbour test of [makePath]: an eligible neighbour goes in once,
    twice or three times. *)
Definition mainCandidate (currentBlock nBlock : ref) : M (list ref) :=
  nb <- getBlock nBlock ;;
  cur <- getBlock currentBlock ;;
  n <- gets numberOfRowBlocks ;;
  if (0 <? rowIndex nb) && (rowIndex nb <=? rowIndex cur)
     && (0 <? blockIndex nb) && (blockIndex nb <? n - 1) && isWall nb
  then
    checkForWallBlocks nBlock ;;
    nb <- getBlock nBlock ;;
    ret ([nBlock]
         ++ (if 1 <? numberOfAdjacentWalls nb then [nBlock] else [])
         ++ (if 2 <? numberOfAdjacentWalls nb then [nBlock] else []))
  else ret [].

(** One round of the [while] loop of [makePath]. *)
Definition makePath_round (currentBlock : ref) : M (ref + unit) :=
  cur <- getBlock currentBlock ;;
  possibleNextBlocks <- collect (adjacentBlocks cur) (mainCandidate currentBlock) ;;
  cur <- getBlock currentBlock ;;
  if (rowIndex cur =? 1) || (length possibleNextBlocks =? 0)%nat
  then ret (inr tt)
  else
    b <- pick possibleNextBlocks ;;
    modifyBlock b (set_isWall false) ;;
    p <- theMainPath ;;
    pushSubPath p b ;;
    o <- mathRandom ;;
    (if scaled o 21 <? 4
     then (a <- gets pathSeeds ;; pushArray a b)
     else ret tt) ;;
    ret (inl b).

(** [paths.splice(paths.indexOf(pathsToSplice[i]), 1)] for every [i]. *)
Definition splicePaths : M unit :=
  dead <- gets pathsToSplice ;;
  forEach dead (fun p => modify (fun w => set_paths (spliceOut p (paths w)) w)).

(** [makePath], first part: the main path, from the bottom row up to
    row 1 (the statements before the two [for] loops over the seeds). *)
Definition makePath_trunk (fuel : nat) : M unit :=
  p <- newPath ;;
  modify (set_mainPath (Some p)) ;;
  n <- gets numberOfRowBlocks ;;
  modifyPath p (set_distance (n * 20)) ;;
  a <- newArray ;;
  modify (set_pathSeeds a) ;;
  rows <- gets maze ;;
  o <- mathRandom ;;
  currentRow <- rowAt (Z.of_nat (length rows) - 1) ;;
  let randomBlockIndex := scaled o (Z.of_nat (length currentRow) - 1) + 1 in
  currentBlock <- defined (at_index currentRow randomBlockIndex) ;;
  modifyBlock currentBlock (set_isWall false) ;;
  modifyPath p (fun pth => set_subPath (js_set 0 currentBlock (subPath pth)) pth) ;;
  currentBlock <- cellAt (Z.of_nat (length rows) - 2) randomBlockIndex ;;
  modifyBlock currentBlock (set_isWall false) ;;
  modifyPath p (fun pth => set_subPath (js_set 1 currentBlock (subPath pth)) pth) ;;
  while fuel makePath_round currentBlock.

(** [pathSeeds = secondSeeds]: from here on the two globals name one
    array. *)
Definition shareSecondSeeds : M unit :=
  s <- gets secondSeeds ;;
  modify (set_pathSeeds s).

(** [pathSeeds = []; secondSeeds = [];]. *)
Definition clearSeeds : M unit :=
  a <- newArray ;;
  modify (set_pathSeeds a) ;;
  a <- newArray ;;
  modify (set_secondSeeds a).

(** [makePath]: the main path, then the branches grown from its seeds,
    then the branches grown from the second seeds. *)
Definition makePath (fuel : nat) : M unit :=
  makePath_trunk fuel ;;
  growSeeds fuel ;;
  shareSecondSeeds ;;
  growSeeds fuel ;;
  splicePaths ;;
  clearSeeds ;;
  modify (set_pathsToSplice []).

(** [makeCharacter].  [mainPath.subPath[0]] has been assigned by
    [makePath]. *)
Definition makeCharacter : M unit :=
  p <- theMainPath ;;
  pth <- getPath p ;;
  b <- defined (at_index (subPath pth) 0) ;;
  modify (set_character (Some b)).

(** [start], without the canvas and the drawing. *)
Definition start (fuel : nat) : M unit :=
  calculateDimensions ;;
  makePointGrid ;;
  makeMaze ;;
  makePath fuel ;;
  makeCharacter.

(** ** Moving the window *)

(** The neighbour test of [extendMainPath]. *)
Definition extendMainCandidate (latestBlock nBlock : ref) : M (list ref) :=
  checkForWallBlocks nBlock ;;
  nb <- getBlock nBlock ;;
  lb <- getBlock latestBlock ;;
  n <- gets numberOfRowBlocks ;;
  if (0 <? rowIndex nb) && (rowIndex nb <=? rowIndex lb)
     && (0 <? blockIndex nb) && (blockIndex nb <? n)
     && isWall nb && (1 <? numberOfAdjacentWalls nb)
  then ret [nBlock]
  else if (rowIndex nb =? 1) && (2 <? numberOfAdjacentWalls nb)
  then ret [nBlock]
  else ret [].

(** One round of the [while] loop of [extendMainPath]; the loop variable
    is [latestBlock]. *)
Definition extendMainPath_round (latestBlock : ref) : M (ref + unit) :=
  lb <- getBlock latestBlock ;;
  possibleNextBlocks <-
    collect (adjacentBlocks lb) (extendMainCandidate latestBlock) ;;
  latestBlock <-
    (if (0 <? length possibleNextBlocks)%nat
     then (b <- pick possibleNextBlocks ;;
           modifyBlock b (set_isWall false) ;;
           p <- theMainPath ;;
           pushSubPath p b ;;
           modifyPath p (fun pth => set_subPath (drop 1 (subPath pth)) pth) ;;
           ret b)
     else ret latestBlock) ;;
  lb <- getBlock latestBlock ;;
  if (rowIndex lb =? 1) || (length possibleNextBlocks =? 0)%nat
  then ret (inr tt)
  else
    o <- mathRandom ;;
    (if scaled o 7 <? 1
     then (a <- gets pathSeeds ;; pushArray a latestBlock)
     else ret tt) ;;
    ret (inl latestBlock).

(** [extendMainPath].  The last block of the main path is read before the
    loop and dereferenced at the top of its first round. *)
Definition extendMainPath (fuel : nat) : M unit :=
  p <- theMainPath ;;
  pth <- getPath p ;;
  latestBlock <-
    defined (at_index (subPath pth) (Z.of_nat (length (subPath pth)) - 1)) ;;
  while fuel extendMainPath_round latestBlock.

(** The neighbour test of [extendPaths]. *)
Definition extendCandidate (nBlock : ref) : M (list ref) :=
  checkForWallBlocks nBlock ;;
  nb <- getBlock nBlock ;;
  n <- gets numberOfRowBlocks ;;
  rows <- gets maze ;;
  if (0 <? rowIndex nb) && (rowIndex nb <=? Z.of_nat (length rows) - 3)
     && (0 <? blockIndex nb) && (blockIndex nb <? n - 1)
     && isWall nb && (2 <? numberOfAdjacentWalls nb)
  then ret [nBlock]
  else ret [].

(** One round of the [while] loop of [extendPaths].  After the [for] over
    the neighbours, [nBlock] is the last neighbour scanned; its rowIndex
    is read only when the two tests before it in the [||] are false, and
    then [possibleNextBlocks] is not empty, so there was a neighbour. *)
Definition extendPaths_round (thisPath : pref) (latestBlock : ref)
  : M (ref + unit) :=
  lb <- getBlock latestBlock ;;
  possibleNextBlocks <- collect (adjacentBlocks lb) extendCandidate ;;
  latestBlock <-
    (if (0 <? length possibleNextBlocks)%nat
     then (b <- pick possibleNextBlocks ;;
           modifyBlock b (set_isWall false) ;;
           pushSubPath thisPath b ;;
           o <- mathRandom ;;
           (if scaled o 9 <? 1
            then (a <- gets secondSeeds ;; pushArray a b)
            else ret tt) ;;
           ret b)
     else ret latestBlock) ;;
  cur <- getBlock latestBlock ;;
  pth <- getPath thisPath ;;
  rows <- gets maze ;;
  let tooLong := distance pth <=? Z.of_nat (length (subPath pth)) in
  let stuck := (length possibleNextBlocks =? 0)%nat in
  if (rowIndex cur =? 1) || stuck || tooLong
  then
    low <- (if tooLong || stuck then ret true
            else (nBlock <- defined (last (adjacentBlocks lb)) ;;
                  nb <- getBlock nBlock ;;
                  ret (Z.of_nat (length rows) - 3 <=? rowIndex nb))) ;;
    (if low : bool
     then modify (fun w => set_pathsToSplice (pathsToSplice w ++ [thisPath]) w)
     else ret tt) ;;
    ret (inr tt)
  else ret (inl latestBlock).

(** [extendPaths(thisPath)]. *)
Definition extendPaths (fuel : nat) (thisPath : pref) : M unit :=
  pth <- getPath thisPath ;;
  latestBlock <-
    defined (at_index (subPath pth) (Z.of_nat (length (subPath pth)) - 1)) ;;
  getAdjacentBlocks latestBlock ;;
  while fuel (extendPaths_round thisPath) latestBlock.

(** [shiftPaths].  After [pathSeeds = secondSeeds] the loop over
    [pathSeeds] walks the array that [makeSubPath] pushes second seeds
    on. *)
Definition shiftPaths (fuel : nat) : M unit :=
  splicePaths ;;
  modify (set_pathsToSplice []) ;;
  extendMainPath fuel ;;
  growSeeds fuel ;;
  a <- newArray ;;
  modify (set_pathSeeds a) ;;
  ps <- gets paths ;;
  forEach (drop 1 ps) (fun p =>
    extendPaths fuel p ;;
    pth <- getPath p ;;
    if (length (subPath pth) =? 0)%nat
    then modify (fun w => set_pathsToSplice (pathsToSplice w ++ [p]) w)
    else ret tt) ;;
  shareSecondSeeds ;;
  growSeeds fuel ;;
  clearSeeds.

(** [moveBlockDown(mBlock)], without the pixel coordinates. *)
Definition moveBlockDown (mBlock : ref) : M unit :=
  modifyBlock mBlock (fun b => set_rowIndex (rowIndex b + 1) b).

(** [createNewRow]. *)
Definition createNewRow : M unit :=
  modify (fun w => set_maze (js_set 0 [] (maze w)) w) ;;
  fillRow 0 ;;
  resetAdjacentBlocks.

(** [shiftMaze]. *)
Definition shiftMaze (fuel : nat) : M unit :=
  rows <- gets maze ;;
  bottom <- rowAt (Z.of_nat (length rows) - 1) ;;
  forEach bottom (fun b => modifyBlock b (set_adjacentBlocks [])) ;;
  forEach (reverse (drop 1 (upto (length rows)))) (fun i =>
    above <- rowAt (i - 1) ;;
    modify (fun w => set_maze (js_set (Z.to_nat i) above (maze w)) w) ;;
    forEach above moveBlockDown) ;;
  createNewRow ;;
  resetAdjacentBlocks ;;
  shiftPaths fuel.

(** ** The four keys *)

(** [character.location]. *)
Definition theLocation : M ref := c <- gets character ;; defined c.

(** [possibleNewLocation.rowIndex < (maze.rows.length * (5 / 6)) - 1]:
    for a row count that is not a multiple of six (and [3 * n + 1] never
    is) the bound is at least a sixth away from every integer, so the
    double arithmetic decides as the exact one does. *)
Definition pastHalfway (row : Z) (rows : list (list ref)) : bool :=
  6 * (row + 1) <? 5 * Z.of_nat (length rows).

(** [moveUp]. *)
Definition moveUp (fuel : nat) : M unit :=
  currentLocation <- theLocation ;;
  cl <- getBlock currentLocation ;;
  possibleNewLocation <- cellAt (rowIndex cl - 1) (blockIndex cl) ;;
  pb <- getBlock possibleNewLocation ;;
  if negb (isWall pb)
  then
    rows <- gets maze ;;
    (if pastHalfway (rowIndex pb) rows then shiftMaze fuel else ret tt) ;;
    modify (set_character (Some possibleNewLocation))
  else ret tt.

(** [moveDown]. *)
Definition moveDown : M unit :=
  currentLocation <- theLocation ;;
  cl <- getBlock currentLocation ;;
  possibleNewLocation <- cellAt (rowIndex cl + 1) (blockIndex cl) ;;
  pb <- getBlock possibleNewLocation ;;
  if negb (isWall pb)
  then modify (set_character (Some possibleNewLocation))
  else ret tt.

(** [moveLeft]. *)
Definition moveLeft : M unit :=
  currentLocation <- theLocation ;;
  cl <- getBlock currentLocation ;;
  possibleNewLocation <- cellAt (rowIndex cl) (blockIndex cl - 1) ;;
  pb <- getBlock possibleNewLocation ;;
  if negb (isWall pb)
  then modify (set_character (Some possibleNewLocation))
  else ret tt.

(** [moveRight]. *)
Definition moveRight : M unit :=
  currentLocation <- theLocation ;;
  cl <- getBlock currentLocation ;;
  possibleNewLocation <- cellAt (rowIndex cl) (blockIndex cl + 1) ;;
  pb <- getBlock possibleNewLocation ;;
  if negb (isWall pb)
  then modify (set_character (Some possibleNewLocation))
  else ret tt.

(** The key listener: W, A, S, D. *)
Inductive key := KeyW | KeyA | KeyS | KeyD.

Definition keydown (fuel : nat) (k : key) : M unit :=
  match k with
  | KeyW => moveUp fuel
  | KeyA => moveLeft
  | KeyS => moveDown
  | KeyD => moveRight
  end.

(** The states the engine can be in between two events: [start] has
    returned, and every key since has been handled to its end (by a
    return or by an uncaught TypeError).  The draws that [Math.random]
    will hand out during an event are arbitrary. *)
Inductive reachable (n : Z) : Engine -> Prop :=
| reach_start draws fuel w :
    start fuel (loaded n draws) = (Ret tt, w) ->
    reachable n w
| reach_key w draws fuel k o w' :
    reachable n w ->
    keydown fuel k (set_rng draws w) = (o, w') ->
    o <> Diverge ->
    reachable n w'.

(** * Reasoning about engine code *)

(** ** Weakest preconditions

    [wpd D m Q E w]: run from [w], [m] ends in a state satisfying [Q] if
    it returns and [E] if it throws, and [D] holds if it exhausts the
    budget of a [while] loop. *)
Definition wpd {A} (D : Prop) (m : M A) (Q : A -> Engine -> Prop)
  (E : Engine -> Prop) (w : Engine) : Prop :=
  match m w with
  | (Ret a, w') => Q a w'
  | (Throw, w') => E w'
  | (Diverge, _) => D
  end.

(** Partial correctness: nothing is said of a run that exhausts its
    budget.  Total correctness: there is no such run. *)
Abbreviation wp := (wpd True).
Abbreviation twp := (wpd False).

Lemma wp_ret {D} {A} (a : A) Q E w : Q a w -> wpd D (ret a) Q E w.
Proof. done. Qed.

Lemma wp_throw {D} {A} (Q : A -> Engine -> Prop) E w : E w -> wpd D throw Q E w.
Proof. done. Qed.

Lemma wp_diverge {A} (Q : A -> Engine -> Prop) E w : wp diverge Q E w.
Proof. done. Qed.

Lemma wp_gets {D} {A} (f : Engine -> A) Q E w : Q (f w) w -> wpd D (gets f) Q E w.
Proof. done. Qed.

Lemma wp_modify {D} f Q E w : Q tt (f w) -> wpd D (modify f) Q E w.
Proof. done. Qed.

Lemma wp_bind {D} {A B} (m : M A) (f : A -> M B) Q E w :
  wpd D m (fun a => wpd D (f a) Q E) E w -> wpd D (bind m f) Q E w.
Proof.
  unfold wpd, bind. destruct (m w) as [[a| |] w']; done.
Qed.

Lemma wp_bind_inv {D} {A B} (m : M A) (f : A -> M B) Q E w :
  wpd D (bind m f) Q E w -> wpd D m (fun a => wpd D (f a) Q E) E w.
Proof.
  unfold wpd, bind. destruct (m w) as [[a| |] w']; done.
Qed.

Lemma wp_mono {D} {A} (m : M A) (Q Q' : A -> Engine -> Prop) (E E' : Engine -> Prop) w :
  wpd D m Q E w ->
  (forall a w', Q a w' -> Q' a w') ->
  (forall w', E w' -> E' w') ->
  wpd D m Q' E' w.
Proof.
  unfold wpd. destruct (m w) as [[a| |] w']; auto.
Qed.

Lemma wp_and {D} {A} (m : M A) (Q1 Q2 : A -> Engine -> Prop) (E1 E2 : Engine -> Prop) w :
  wpd D m Q1 E1 w -> wpd D m Q2 E2 w ->
  wpd D m (fun a w' => Q1 a w' /\ Q2 a w') (fun w' => E1 w' /\ E2 w') w.
Proof.
  unfold wpd. destruct (m w) as [[a| |] w']; auto.
Qed.

Lemma wp_defined {D} {A} (o : option A) Q E w :
  (forall a, o = Some a -> Q a w) -> (o = None -> E w) ->
  wpd D (defined o) Q E w.
Proof.
  intros HS HN. destruct o as [a|]; [by apply HS | by apply HN].
Qed.

Lemma wp_run {D} {A} (m : M A) Q E w o w' :
  m w = (o, w') -> wpd D m Q E w ->
  match o with Ret a => Q a w' | Throw => E w' | Diverge => D end.
Proof. unfold wpd. intros ->. done. Qed.

Lemma wp_forEach {D} {A} (l : list A) (body : A -> M unit) (I : Engine -> Prop) E w :
  I w ->
  (forall a w, a ∈ l -> I w -> wpd D (body a) (fun _ => I) E w) ->
  wpd D (forEach l body) (fun _ => I) E w.
Proof.
  revert w. induction l as [|a l IH]; intros w Hw Hbody; simpl.
  - done.
  - apply wp_bind. eapply wp_mono.
    + apply Hbody; [left | done].
    + intros ? w' Hw'. apply IH; [done|].
      intros b w'' Hb. apply Hbody. by right.
    + done.
Qed.

Lemma wp_while {S R} fuel (body : S -> M (S + R)) (I : S -> Engine -> Prop)
    (Q : R -> Engine -> Prop) E s w :
  I s w ->
  (forall s w, I s w ->
     wp (body s) (fun r w' => match r with inl s' => I s' w' | inr r => Q r w' end) E w) ->
  wp (while fuel body s) Q E w.
Proof.
  intros Hs Hbody. revert s w Hs.
  induction fuel as [|fuel IH]; intros s w Hs; simpl.
  - done.
  - apply wp_bind. eapply wp_mono.
    + by apply Hbody.
    + intros [s'|r] w' H; [by apply IH | done].
    + done.
Qed.

Lemma wp_collect {D} (l : list ref) (f : ref -> M (list ref)) (I : Engine -> Prop)
    (P : ref -> Prop) E w :
  I w ->
  (forall a w, a ∈ l -> I w ->
     wpd D (f a) (fun xs w' => I w' /\ Forall P xs) E w) ->
  wpd D (collect l f) (fun xs w' => I w' /\ Forall P xs) E w.
Proof.
  revert w. induction l as [|a l IH]; intros w Hw Hf; simpl.
  - by split.
  - apply wp_bind. eapply wp_mono.
    + apply Hf; [left | done].
    + intros xs w' [Hw' Hxs]. apply wp_bind. eapply wp_mono.
      * apply IH; [done|]. intros b w'' Hb. apply Hf. by right.
      * intros ys w'' [Hw'' Hys]. split; [done | by apply Forall_app].
      * done.
    + done.
Qed.

(** One step of symbolic execution through the monad's own operations. *)
Ltac wp_step :=
  lazymatch goal with
  | |- wpd _ (bind _ _) _ _ _ => apply wp_bind
  | |- wpd _ (ret _) _ _ _ => apply wp_ret
  | |- wpd _ throw _ _ _ => apply wp_throw
  | |- wpd True diverge _ _ _ => apply wp_diverge
  | |- wpd _ (gets _) _ _ _ => apply wp_gets
  | |- wpd _ (modify _) _ _ _ => apply wp_modify
  | |- wpd _ (defined _) _ _ _ => apply wp_defined; [intros ? ? | intros ?]
  end; cbv beta.

Ltac wp_steps := repeat wp_step.

(** * Rejected moves *)

(** The cell next to the block [cl] in the direction of the key, as the
    four move functions look it up: [None] when it is outside the grid. *)
Definition target (k : key) (cl : Block) (w : Engine) : option ref :=
  let '(r, c) :=
    match k with
    | KeyW => (rowIndex cl - 1, blockIndex cl)
    | KeyS => (rowIndex cl + 1, blockIndex cl)
    | KeyA => (rowIndex cl, blockIndex cl - 1)
    | KeyD => (rowIndex cl, blockIndex cl + 1)
    end in
  match at_index (maze w) r with
  | Some row => at_index row c
  | None => None
  end.

Lemma cellAt_run i k w :
  cellAt i k w =
  match at_index (maze w) i with
  | Some row => match at_index row k with
                | Some b => (Ret b, w)
                | None => (Throw, w)
                end
  | None => (Throw, w)
  end.
Proof.
  unfold cellAt, rowAt, bind, gets, defined.
  destruct (at_index (maze w) i) as [row|]; [|done].
  simpl. by destruct (at_index row k).
Qed.

Lemma getBlock_run b w :
  getBlock b w =
  match blockStore w !! b with
  | Some blk => (Ret blk, w)
  | None => (Throw, w)
  end.
Proof.
  unfold getBlock, bind, gets, defined. by destruct (blockStore w !! b).
Qed.

(** The common shape of the four move functions. *)
Definition moveTo (fi fj : Block -> Z) (after : ref -> Block -> M unit) : M unit :=
  currentLocation <- theLocation ;;
  cl <- getBlock currentLocation ;;
  possibleNewLocation <- cellAt (fi cl) (fj cl) ;;
  pb <- getBlock possibleNewLocation ;;
  if negb (isWall pb) then after possibleNewLocation pb else ret tt.

Lemma moveTo_rejected fi fj after w c cl :
  character w = Some c ->
  blockStore w !! c = Some cl ->
  (match at_index (maze w) (fi cl) with
   | Some row => at_index row (fj cl)
   | None => None
   end = None \/
   exists p blk,
     match at_index (maze w) (fi cl) with
     | Some row => at_index row (fj cl)
     | None => None
     end = Some p /\ blockStore w !! p = Some blk /\ isWall blk = true) ->
  exists o, moveTo fi fj after w = (o, w) /\ o <> Diverge.
Proof.
  intros Hc Hcl Ht. unfold moveTo.
  unfold bind at 1. unfold theLocation, bind at 1, gets, defined. rewrite Hc. simpl.
  unfold bind at 1. rewrite getBlock_run, Hcl.
  unfold bind at 1. rewrite cellAt_run.
  destruct Ht as [Hnone | (p & blk & Hp & Hblk & Hwall)].
  - destruct (at_index (maze w) (fi cl)) as [row|]; [|by eexists].
    rewrite Hnone. by eexists.
  - destruct (at_index (maze w) (fi cl)) as [row|]; [|done].
    rewrite Hp. unfold bind. rewrite getBlock_run, Hblk, Hwall. simpl.
    by eexists.
Qed.

(** A move onto a wall: the handler returns, and nothing has changed. *)
Lemma moveTo_wall fi fj after w c cl p blk :
  character w = Some c ->
  blockStore w !! c = Some cl ->
  match at_index (maze w) (fi cl) with
  | Some row => at_index row (fj cl)
  | None => None
  end = Some p ->
  blockStore w !! p = Some blk -> isWall blk = true ->
  moveTo fi fj after w = (Ret tt, w).
Proof.
  intros Hc Hcl Hp Hblk Hwall. unfold moveTo.
  unfold bind at 1. unfold theLocation, bind at 1, gets, defined. rewrite Hc. simpl.
  unfold bind at 1. rewrite getBlock_run, Hcl.
  unfold bind at 1. rewrite cellAt_run.
  destruct (at_index (maze w) (fi cl)) as [row|]; [|done].
  rewrite Hp. unfold bind. by rewrite getBlock_run, Hblk, Hwall.
Qed.

(** A move off the grid: the look-up finds nothing, and reading a
    property of [undefined] is a TypeError; nothing has changed. *)
Lemma moveTo_off_grid fi fj after w c cl :
  character w = Some c ->
  blockStore w !! c = Some cl ->
  match at_index (maze w) (fi cl) with
  | Some row => at_index row (fj cl)
  | None => None
  end = None ->
  moveTo fi fj after w = (Throw, w).
Proof.
  intros Hc Hcl Hnone. unfold moveTo.
  unfold bind at 1. unfold theLocation, bind at 1, gets, defined. rewrite Hc. simpl.
  unfold bind at 1. rewrite getBlock_run, Hcl.
  unfold bind at 1. rewrite cellAt_run.
  destruct (at_index (maze w) (fi cl)) as [row|]; [|done].
  by rewrite Hnone.
Qed.

(** C3 (as amended).  For each of the four keys and wherever the
    character stands: if the cell in that direction is a wall, the
    handler returns and leaves the whole engine as it was, the
    character's location, every block and the path collection included.
    If the cell lies outside the grid, the handler does not return: the
    look-up finds nothing, reading a property of it is an uncaught
    TypeError, and the engine is as it was. *)
Theorem move_rejected (fuel : nat) (k : key) (w : Engine) (c : ref) (cl : Block) :
  character w = Some c ->
  blockStore w !! c = Some cl ->
  (forall p blk,
     target k cl w = Some p -> blockStore w !! p = Some blk ->
     isWall blk = true ->
     keydown fuel k w = (Ret tt, w)) /\
  (target k cl w = None -> keydown fuel k w = (Throw, w)).
Proof.
  intros Hc Hcl. split.
  - intros p blk Hp Hblk Hwall. destruct k; simpl.
    + exact (moveTo_wall (fun cl => rowIndex cl - 1) blockIndex
        (fun p pb =>
           rows <- gets maze ;;
           (if pastHalfway (rowIndex pb) rows then shiftMaze fuel else ret tt) ;;
           modify (set_character (Some p))) w c cl p blk Hc Hcl Hp Hblk Hwall).
    + exact (moveTo_wall rowIndex (fun cl => blockIndex cl - 1)
        (fun p _ => modify (set_character (Some p))) w c cl p blk Hc Hcl Hp Hblk Hwall).
    + exact (moveTo_wall (fun cl => rowIndex cl + 1) blockIndex
        (fun p _ => modify (set_character (Some p))) w c cl p blk Hc Hcl Hp Hblk Hwall).
    + exact (moveTo_wall rowIndex (fun cl => blockIndex cl + 1)
        (fun p _ => modify (set_character (Some p))) w c cl p blk Hc Hcl Hp Hblk Hwall).
  - intros Hnone. destruct k; simpl.
    + exact (moveTo_off_grid (fun cl => rowIndex cl - 1) blockIndex
        (fun p pb =>
           rows <- gets maze ;;
           (if pastHalfway (rowIndex pb) rows then shiftMaze fuel else ret tt) ;;
           modify (set_character (Some p))) w c cl Hc Hcl Hnone).
    + exact (moveTo_off_grid rowIndex (fun cl => blockIndex cl - 1)
        (fun p _ => modify (set_character (Some p))) w c cl Hc Hcl Hnone).
    + exact (moveTo_off_grid (fun cl => rowIndex cl + 1) blockIndex
        (fun p _ => modify (set_character (Some p))) w c cl Hc Hcl Hnone).
    + exact (moveTo_off_grid rowIndex (fun cl => blockIndex cl + 1)
        (fun p _ => modify (set_character (Some p))) w c cl Hc Hcl Hnone).
Qed.

(** * Concrete runs *)

(** Keys pressed one after the other; [None] if a handler does not end. *)
Fixpoint press (fuel : nat) (ks : list key) (w : Engine) : option Engine :=
  match ks with
  | [] => Some w
  | k :: ks' =>
      match keydown fuel k w with
      | (Diverge, _) => None
      | (_, w') => press fuel ks' w'
      end
  end.

Definition orElse (w : Engine) (o : option Engine) : Engine :=
  match o with Some w' => w' | None => w end.

(** Width 4 (13 rows of 3 blocks).  The draws make the main path start
    in column 1, step right once in the row above the bottom row, then
    climb column 2 to row 1, without setting a seed aside. *)
Definition draws4 : list nat :=
  ([0; 3; 20] ++ concat (repeat [0; 20] 10))%nat.

Definition maze4 : Engine := snd (start 100 (loaded 4 draws4)).

(** Up, right, up, up: the last move crosses the threshold and shifts
    the maze once; one more move up shifts it a second time. *)
Definition maze4_shifted : Engine :=
  orElse maze4 (press 100 [KeyW; KeyD; KeyW; KeyW] maze4).

Definition maze4_shifted_twice : Engine :=
  orElse maze4 (press 100 [KeyW] maze4_shifted).

(** The same start, but on the first shift the main path steps left
    before it climbs, and sets that block aside as a seed. *)
Definition maze4_branch : Engine :=
  orElse maze4 (press 100 [KeyW; KeyD; KeyW; KeyW] (set_rng [1%nat] maze4)).

(** Width 6.  The main path climbs column 1 and sets the block of row 9
    aside; the branch grown from it sets its third block aside; the
    branch grown from that one sets its second block aside. *)
Definition draws6 : list nat :=
  ([0] ++ concat (repeat [0; 20] 7) ++ [0; 0] ++ concat (repeat [0; 20] 8)
   ++ [4; 0; 19; 0; 0; 0] ++ [3; 0; 0; 0] ++ [0])%nat.

(** [start] at width 6 up to and including [pathSeeds = secondSeeds] in
    [makePath]. *)
Definition maze6_sharing : Engine :=
  snd ((calculateDimensions ;; makePointGrid ;; makeMaze ;;
        makePath_trunk 100 ;; growSeeds 100 ;; shareSecondSeeds)
         (loaded 6 draws6)).

(** Width 10, the main path sweeping every row from side to side. *)
Definition maze10 : Engine := snd (start 1000 (loaded 10 (repeat 2519%nat 600))).

Lemma set_rng_same w : set_rng (rng w) w = w.
Proof. by destruct w. Qed.

Lemma reachable_press n fuel ks w w' :
  reachable n w -> press fuel ks w = Some w' -> reachable n w'.
Proof.
  revert w. induction ks as [|k ks IH]; intros w Hw Hp; simpl in Hp.
  - by injection Hp as <-.
  - destruct (keydown fuel k w) as [o w1] eqn:Hk.
    assert (Hne : o <> Diverge -> reachable n w1).
    { intros Hne. eapply reach_key; [exact Hw | | exact Hne].
      rewrite set_rng_same. exact Hk. }
    destruct o; [apply (IH w1) | apply (IH w1) | done]; auto.
Qed.

Lemma reachable_maze4 : reachable 4 maze4.
Proof. apply (reach_start 4 draws4 100). by vm_compute. Qed.

Lemma reachable_maze4_shifted : reachable 4 maze4_shifted.
Proof.
  apply (reachable_press 4 100 [KeyW; KeyD; KeyW; KeyW] maze4);
    [apply reachable_maze4 | by vm_compute].
Qed.

Lemma reachable_maze4_shifted_twice : reachable 4 maze4_shifted_twice.
Proof.
  apply (reachable_press 4 100 [KeyW] maze4_shifted);
    [apply reachable_maze4_shifted | by vm_compute].
Qed.

Lemma reachable_maze4_branch : reachable 4 maze4_branch.
Proof.
  pose proof (reach_key 4 maze4 [1%nat] 100 KeyW) as H.
  destruct (keydown 100 KeyW (set_rng [1%nat] maze4)) as [o w1] eqn:Hk.
  specialize (H o w1 reachable_maze4 eq_refl).
  apply (reachable_press 4 100 [KeyD; KeyW; KeyW] w1).
  - apply H. intros ->. vm_compute in Hk. discriminate.
  - replace w1 with (snd (keydown 100 KeyW (set_rng [1%nat] maze4))) by (by rewrite Hk).
    by vm_compute.
Qed.

Lemma reachable_maze10 : reachable 10 maze10.
Proof. apply (reach_start 10 (repeat 2519%nat 600) 1000). by vm_compute. Qed.

(** Width 6 (19 rows of 5 blocks), the main path climbing column 1
    without setting a seed aside.  Three moves up; on the fourth, which
    shifts the maze, the main path steps right before it climbs and sets
    that block aside as a seed. *)
Definition maze6 : Engine :=
  snd (start 100 (loaded 6 ([0] ++ concat (repeat [0; 20] 17))%nat)).

Definition maze6_branch : Engine :=
  snd (keydown 100 KeyW
         (set_rng [1%nat] (orElse maze6 (press 100 [KeyW; KeyW; KeyW] maze6)))).

Lemma reachable_maze6_branch : reachable 6 maze6_branch.
Proof.
  apply (reach_key 6 (orElse maze6 (press 100 [KeyW; KeyW; KeyW] maze6))
           [1%nat] 100 KeyW (Ret tt)); [| by vm_compute | done].
  apply (reachable_press 6 100 [KeyW; KeyW; KeyW] maze6); [|by vm_compute].
  apply (reach_start 6 ([0] ++ concat (repeat [0; 20] 17))%nat 100).
  by vm_compute.
Qed.

(** A block of the grid as it stands: one that some row of [maze] holds. *)
Definition inGrid (w : Engine) (b : ref) : Prop := b ∈ concat (maze w).

(** Two blocks one step apart: their row and column indices differ by
    exactly one step in one direction. *)
Definition stepApart (a b : Block) : Prop :=
  Z.abs (rowIndex a - rowIndex b) + Z.abs (blockIndex a - blockIndex b) = 1.

(** Membership in a list of numbers given in full. *)
Ltac in_list := apply list_elem_of_In; simpl; tauto.
Ltac not_in_list :=
  let H := fresh in
  intros H; apply list_elem_of_In in H; simpl in H;
  repeat (destruct H as [H|H]; [discriminate H|]); exact H.

(** C1, as stated, fails: at width 4 the grid built by [start] has 13 rows
    of 3 blocks, not 12 rows of 4. *)
Lemma grid_is_not_3n_by_n :
  reachable 4 maze4 /\
  length (maze maze4) <> Z.to_nat (3 * 4) /\
  exists row, row ∈ maze maze4 /\ length row <> Z.to_nat 4.
Proof.
  split; [apply reachable_maze4|]. split; [by vm_compute|].
  exists [0; 1; 2]%nat. split; [|by vm_compute].
  apply list_elem_of_In. vm_compute. tauto.
Qed.

(** C3, as stated, fails: the character stands in the bottom row, the
    step down looks up a row that does not exist, and the handler ends
    in an uncaught TypeError instead of returning with the move
    rejected. *)
Lemma move_off_grid_throws :
  reachable 4 maze4 /\
  character maze4 = Some 37%nat /\
  blockStore maze4 !! 37%nat = Some (mkBlock false 12 1 [34; 38; 36]%nat 0) /\
  target KeyS (mkBlock false 12 1 [34; 38; 36]%nat 0) maze4 = None /\
  keydown 100 KeyS maze4 = (Throw, maze4) /\
  keydown 100 KeyS maze4 <> (Ret tt, maze4).
Proof.
  split; [apply reachable_maze4|].
  repeat (split; [by vm_compute|]). by vm_compute.
Qed.

(** C2, as stated, fails: the second shift of this run drops the bottom
    row, and the main path, still in [paths], begins with a block of
    that dropped row. *)
Lemma main_path_keeps_dropped_block :
  reachable 4 maze4_shifted /\
  keydown 100 KeyW maze4_shifted = (Ret tt, maze4_shifted_twice) /\
  maze maze4_shifted_twice <> maze maze4_shifted /\
  exists p pth b bottom,
    p ∈ paths maze4_shifted_twice /\
    pathStore maze4_shifted_twice !! p = Some pth /\
    b ∈ subPath pth /\
    last (maze maze4_shifted) = Some bottom /\
    b ∈ bottom /\
    ~ inGrid maze4_shifted_twice b.
Proof.
  split; [apply reachable_maze4_shifted|].
  split; [by vm_compute|]. split; [by vm_compute|].
  exists 0%nat, (mkPath [35; 32; 29; 26; 23; 20; 17; 14; 11; 8; 5; 2; 41]%nat 80),
    35%nat, [33; 34; 35]%nat.
  split; [vm_compute; in_list|].
  split; [by vm_compute|].
  split; [in_list|].
  split; [by vm_compute|].
  split; [in_list|].
  unfold inGrid. vm_compute. not_in_list.
Qed.

(** C5, as stated, fails: in the same state the first two blocks of the
    main path carry the same indices (row 12, column 2), the first being
    a dropped block whose rowIndex is no longer updated. *)
Lemma main_path_blocks_not_neighbours :
  reachable 4 maze4_shifted_twice /\
  exists p pth a b blka blkb,
    p ∈ paths maze4_shifted_twice /\
    pathStore maze4_shifted_twice !! p = Some pth /\
    subPath pth !! 0%nat = Some a /\
    subPath pth !! 1%nat = Some b /\
    blockStore maze4_shifted_twice !! a = Some blka /\
    blockStore maze4_shifted_twice !! b = Some blkb /\
    ~ stepApart blka blkb.
Proof.
  split; [apply reachable_maze4_shifted_twice|].
  exists 0%nat, (mkPath [35; 32; 29; 26; 23; 20; 17; 14; 11; 8; 5; 2; 41]%nat 80),
    35%nat, 32%nat, (mkBlock false 12 2 [] 1), (mkBlock false 12 2 [29; 31]%nat 2).
  split; [vm_compute; in_list|].
  repeat (split; [by vm_compute|]).
  by vm_compute.
Qed.

(** C6 at a failing input: after the shift of this run, the block in row
    0, column 0 of the grid has an empty adjacentBlocks list, although
    its column is below [numberOfRowBlocks - 2] and its row is below
    [maze.rows.length - 3]. *)
Lemma new_row_has_no_neighbours :
  reachable 4 maze4_shifted /\
  exists row b blk,
    maze maze4_shifted !! 0%nat = Some row /\
    row !! 0%nat = Some b /\
    blockStore maze4_shifted !! b = Some blk /\
    rowIndex blk = 0 /\ blockIndex blk = 0 /\
    blockIndex blk < numberOfRowBlocks maze4_shifted - 2 /\
    rowIndex blk < Z.of_nat (length (maze maze4_shifted)) - 3 /\
    adjacentBlocks blk = [].
Proof.
  split; [apply reachable_maze4_shifted|].
  exists [39; 40; 41]%nat, 39%nat, (mkBlock true 0 0 [] 0).
  repeat (split; [by vm_compute|]). done.
Qed.

(** C7, as stated, fails: when the second loop of [makePath] starts in
    this run, the shared seed array holds one seed; the loop grows two
    branches, the second from a seed that the first pushed on the
    array. *)
Lemma third_generation_grown :
  pathSeeds maze6_sharing = secondSeeds maze6_sharing /\
  arrayStore maze6_sharing !! pathSeeds maze6_sharing = Some [48%nat] /\
  exists w,
    growSeeds 100 maze6_sharing = (Ret tt, w) /\
    length (pathStore w) = (length (pathStore maze6_sharing) + 2)%nat /\
    arrayStore w !! pathSeeds w = Some [48; 53]%nat /\
    (subPath <$> pathStore w !! 2%nat) = Some [48; 53; 58]%nat /\
    (subPath <$> pathStore w !! 3%nat) = Some [53%nat].
Proof.
  split; [by vm_compute|]. split; [by vm_compute|].
  eexists. split; [by vm_compute|].
  repeat (split; [by vm_compute|]). by vm_compute.
Qed.

(** C8, as stated, fails: after the shift of the branching run, [paths]
    holds a branch of length 2 whose distance is 0; and at width 10 the
    main path built by [start] has 226 blocks against a distance of
    200. *)
Lemma paths_longer_than_distance :
  (reachable 4 maze4_branch /\
   exists p pth,
     p ∈ paths maze4_branch /\
     pathStore maze4_branch !! p = Some pth /\
     distance pth < Z.of_nat (length (subPath pth))) /\
  (reachable 10 maze10 /\
   exists p pth,
     mainPath maze10 = Some p /\
     pathStore maze10 !! p = Some pth /\
     distance pth < Z.of_nat (length (subPath pth))).
Proof.
  split.
  - split; [apply reachable_maze4_branch|].
    exists 1%nat, (mkPath [4; 1]%nat 0).
    split; [vm_compute; in_list|]. split; by vm_compute.
  - split; [apply reachable_maze10|].
    exists 0%nat. eexists.
    split; [by vm_compute|]. split; [by vm_compute|]. by vm_compute.
Qed.

(** * What engine code leaves alone *)

(** [keeps R m]: however [m] ends, the state it ends in is related by [R]
    to the state it started from. *)
Definition keeps {A} (R : Engine -> Engine -> Prop) (m : M A) : Prop :=
  forall w, wp m (fun _ w' => R w w') (fun w' => R w w') w.

Section Keeps.
Context (R : Engine -> Engine -> Prop) `{!PreOrder R}.

Lemma keeps_ret {A} (a : A) : keeps R (ret a).
Proof. intros w. by apply wp_ret. Qed.

Lemma keeps_throw {A} : keeps R (@throw A).
Proof. intros w. by apply wp_throw. Qed.

Lemma keeps_diverge {A} : keeps R (@diverge A).
Proof. intros w. apply wp_diverge. Qed.

Lemma keeps_gets {A} (f : Engine -> A) : keeps R (gets f).
Proof. intros w. by apply wp_gets. Qed.

Lemma keeps_defined {A} (o : option A) : keeps R (defined o).
Proof. intros w. by apply wp_defined. Qed.

Lemma keeps_modify f : (forall w, R w (f w)) -> keeps R (modify f).
Proof. intros H w. apply wp_modify, H. Qed.

Lemma keeps_bind {A B} (m : M A) (f : A -> M B) :
  keeps R m -> (forall a, keeps R (f a)) -> keeps R (bind m f).
Proof.
  intros Hm Hf w. apply wp_bind. eapply wp_mono; [apply Hm | | done].
  intros a w1 H1. simpl in H1.
  eapply wp_mono; [apply Hf | |]; simpl; intros; etrans; eassumption.
Qed.

Lemma keeps_forEach {A} (l : list A) (body : A -> M unit) :
  (forall a, keeps R (body a)) -> keeps R (forEach l body).
Proof.
  intros Hb. induction l as [|a l IH]; simpl.
  - apply keeps_ret.
  - apply keeps_bind; [apply Hb | by intros _].
Qed.

Lemma keeps_collect (l : list ref) (f : ref -> M (list ref)) :
  (forall a, keeps R (f a)) -> keeps R (collect l f).
Proof.
  intros Hf. induction l as [|a l IH]; simpl.
  - apply keeps_ret.
  - apply keeps_bind; [apply Hf | intros xs].
    apply keeps_bind; [apply IH | intros ys]. apply keeps_ret.
Qed.

Lemma keeps_while {S T} fuel (body : S -> M (S + T)) s :
  (forall s, keeps R (body s)) -> keeps R (while fuel body s).
Proof.
  intros Hb. revert s. induction fuel as [|fuel IH]; intros s; simpl.
  - apply keeps_diverge.
  - apply keeps_bind; [apply Hb | intros [s'|r]]; [apply IH | apply keeps_ret].
Qed.

Lemma keeps_mathRandom :
  (forall w v, R w (set_rng v w)) -> keeps R mathRandom.
Proof.
  intros H w. unfold wpd, mathRandom. destruct (rng w); [done | apply H].
Qed.

(** Using a [keeps] fact inside a weakest precondition. *)
Lemma wp_keeps {A} (m : M A) (Q : A -> Engine -> Prop) E w :
  keeps R m ->
  (forall a w', R w w' -> Q a w') ->
  (forall w', R w w' -> E w') ->
  wp m Q E w.
Proof. intros Hm HQ HE. eapply wp_mono; [apply Hm | |]; auto. Qed.

End Keeps.

Lemma keeps_weaken {A} (R R' : Engine -> Engine -> Prop) (m : M A) :
  (forall w w', R w w' -> R' w w') -> keeps R m -> keeps R' m.
Proof. intros HR Hm w. eapply wp_mono; [apply Hm | |]; auto. Qed.

(** The structural steps of a [keeps] proof; what remains are the
    operations that write to the engine. *)
Ltac keeps_step :=
  lazymatch goal with
  | |- keeps _ (bind _ _) => apply keeps_bind; [try apply _ .. | intros ?]
  | |- keeps _ (ret _) => apply keeps_ret; try apply _
  | |- keeps _ throw => apply keeps_throw; try apply _
  | |- keeps _ (gets _) => apply keeps_gets; try apply _
  | |- keeps _ (defined _) => apply keeps_defined; try apply _
  | |- keeps _ (forEach _ _) => apply keeps_forEach; [try apply _ .. | intros ?]
  | |- keeps _ (collect _ _) => apply keeps_collect; [try apply _ .. | intros ?]
  | |- keeps _ (while _ _ _) => apply keeps_while; [try apply _ .. | intros ?]
  | |- keeps _ (if ?c then _ else _) => destruct c
  | |- keeps _ (match ?c with _ => _ end) => destruct c
  end.

(** ** The frames of path generation *)

(** What growing paths may do to a block: carve it (a wall becomes a
    floor, never the reverse) and recompute its neighbour list and wall
    count; its indices stay. *)
Definition carved (b b' : Block) : Prop :=
  rowIndex b' = rowIndex b /\ blockIndex b' = blockIndex b /\
  (isWall b = false -> isWall b' = false).

(** What one round of a path-growing loop leaves alone. *)
Record round_frame (w w' : Engine) : Prop := {
  rf_n : numberOfRowBlocks w' = numberOfRowBlocks w;
  rf_np : numberOfRowPoints w' = numberOfRowPoints w;
  rf_pg : pointGrid w' = pointGrid w;
  rf_maze : maze w' = maze w;
  rf_main : mainPath w' = mainPath w;
  rf_paths : paths w' = paths w;
  rf_seeds : pathSeeds w' = pathSeeds w;
  rf_second : secondSeeds w' = secondSeeds w;
  rf_char : character w' = character w;
  rf_blocks : Forall2 carved (blockStore w) (blockStore w');
  rf_pathStore :
    Forall2 (fun p p' => distance p' = distance p) (pathStore w) (pathStore w');
  rf_arrays : Forall2 prefix (arrayStore w) (arrayStore w')
}.

(** What a whole generation pass leaves alone: it may also create paths
    and arrays and rebind the seed globals. *)
Record gen_frame (w w' : Engine) : Prop := {
  gf_n : numberOfRowBlocks w' = numberOfRowBlocks w;
  gf_np : numberOfRowPoints w' = numberOfRowPoints w;
  gf_pg : pointGrid w' = pointGrid w;
  gf_maze : maze w' = maze w;
  gf_char : character w' = character w;
  gf_blocks : Forall2 carved (blockStore w) (blockStore w');
  gf_pathStore : (length (pathStore w) <= length (pathStore w'))%nat;
  gf_arrays :
    forall a arr, arrayStore w !! a = Some arr ->
      exists arr', arrayStore w' !! a = Some arr' /\ arr `prefix_of` arr'
}.

(** What every operation after the set-up leaves alone, shifting the
    maze included: the width, the point grid, and the floors. *)
Record evolve (w w' : Engine) : Prop := {
  ev_n : numberOfRowBlocks w' = numberOfRowBlocks w;
  ev_np : numberOfRowPoints w' = numberOfRowPoints w;
  ev_pg : pointGrid w' = pointGrid w;
  ev_floor :
    forall b blk, blockStore w !! b = Some blk -> isWall blk = false ->
      exists blk', blockStore w' !! b = Some blk' /\ isWall blk' = false
}.

#[export] Instance carved_preorder : PreOrder carved.
Proof.
  split.
  - by intros b.
  - intros a b c (?&?&?) (?&?&?). repeat split; try congruence. auto.
Qed.

#[export] Instance same_distance_preorder :
  PreOrder (fun p p' : Path => distance p' = distance p).
Proof. split; [by intros p | intros a b c; congruence]. Qed.

#[export] Instance round_frame_preorder : PreOrder round_frame.
Proof.
  split.
  - intros w. by split.
  - intros a b c [] []. split; try congruence; by etrans.
Qed.

#[export] Instance gen_frame_preorder : PreOrder gen_frame.
Proof.
  split.
  - intros w. split; try done. intros a arr ?. by exists arr.
  - intros a b c [] []. split; try congruence; try (by etrans).
    intros x arr Hx.
    destruct (gf_arrays0 x arr Hx) as (arr1 & H1 & Hp1).
    destruct (gf_arrays1 x arr1 H1) as (arr2 & H2 & Hp2).
    exists arr2. split; [done | by etrans].
Qed.

#[export] Instance evolve_preorder : PreOrder evolve.
Proof.
  split.
  - intros w. split; try done. intros b blk ? ?. by exists blk.
  - intros a b c [] []. split; try congruence.
    intros x blk Hx Hf.
    destruct (ev_floor0 x blk Hx Hf) as (blk1 & H1 & Hf1).
    by apply (ev_floor1 x blk1).
Qed.

Lemma round_frame_gen w w' : round_frame w w' -> gen_frame w w'.
Proof.
  intros []. split; try done.
  - by rewrite (Forall2_length _ _ _ rf_pathStore0).
  - intros a arr Ha.
    destruct (Forall2_lookup_l _ _ _ _ _ rf_arrays0 Ha) as (arr' & ? & ?).
    by exists arr'.
Qed.

Lemma gen_frame_evolve w w' : gen_frame w w' -> evolve w w'.
Proof.
  intros []. split; try done.
  intros b blk Hb Hf.
  destruct (Forall2_lookup_l _ _ _ _ _ gf_blocks0 Hb) as (blk' & ? & (?&?&?)).
  exists blk'. auto.
Qed.

(** Replacing one entry of a store by a related one. *)
Lemma Forall2_insert_r {A} (P : A -> A -> Prop) `{!Reflexive P} (l : list A) i x y :
  l !! i = Some x -> P x y -> Forall2 P l (<[i:=y]> l).
Proof.
  intros Hi Hxy. rewrite <- (list_insert_id l i x Hi) at 1.
  apply Forall2_insert; [|done].
  apply Forall2_same_length_lookup_2; [done|].
  intros j a b Ha Hb. rewrite Ha in Hb. by injection Hb as ->.
Qed.

(** ** Operations that only read *)

Create HintDb keeps discriminated.
#[export] Hint Resolve round_frame_preorder gen_frame_preorder evolve_preorder : keeps.

Ltac keeps_auto :=
  repeat first [ progress keeps_step | solve [eauto 4 with keeps] ].

Section Reads.
Context (R : Engine -> Engine -> Prop) `{!PreOrder R}.

Lemma keeps_getBlock b : keeps R (getBlock b).
Proof. unfold getBlock. keeps_auto. Qed.

Lemma keeps_getPath p : keeps R (getPath p).
Proof. unfold getPath. keeps_auto. Qed.

Lemma keeps_getArray a : keeps R (getArray a).
Proof. unfold getArray. keeps_auto. Qed.

Lemma keeps_rowAt i : keeps R (rowAt i).
Proof. unfold rowAt. keeps_auto. Qed.

Lemma keeps_cellAt i k : keeps R (cellAt i k).
Proof. unfold cellAt. keeps_auto. apply keeps_rowAt. Qed.

Lemma keeps_pointAt i k : keeps R (pointAt i k).
Proof. unfold pointAt. keeps_auto. Qed.

Lemma keeps_theMainPath : keeps R theMainPath.
Proof. unfold theMainPath. keeps_auto. Qed.

Lemma keeps_theLocation : keeps R theLocation.
Proof. unfold theLocation. keeps_auto. Qed.

End Reads.

#[export] Hint Resolve keeps_getBlock keeps_getPath keeps_getArray keeps_rowAt
  keeps_cellAt keeps_pointAt keeps_theMainPath keeps_theLocation : keeps.

(** ** Operations that write, inside a round *)

Lemma wp_getBlock {D} b Q E w :
  (forall blk, blockStore w !! b = Some blk -> Q blk w) ->
  (blockStore w !! b = None -> E w) ->
  wpd D (getBlock b) Q E w.
Proof. intros HS HN. unfold getBlock. wp_steps; auto. Qed.

Lemma wp_getPath {D} p Q E w :
  (forall pth, pathStore w !! p = Some pth -> Q pth w) ->
  (pathStore w !! p = None -> E w) ->
  wpd D (getPath p) Q E w.
Proof. intros HS HN. unfold getPath. wp_steps; auto. Qed.

Lemma wp_getArray {D} a Q E w :
  (forall arr, arrayStore w !! a = Some arr -> Q arr w) ->
  (arrayStore w !! a = None -> E w) ->
  wpd D (getArray a) Q E w.
Proof. intros HS HN. unfold getArray. wp_steps; auto. Qed.

Lemma wp_modifyBlock {D} b f Q E w :
  (forall blk, blockStore w !! b = Some blk ->
     Q tt (set_blockStore (<[b := f blk]> (blockStore w)) w)) ->
  (blockStore w !! b = None -> E w) ->
  wpd D (modifyBlock b f) Q E w.
Proof.
  intros HS HN. unfold modifyBlock. wp_step. apply wp_getBlock; [|done].
  intros blk Hb. wp_steps. by apply HS.
Qed.

Lemma wp_modifyPath {D} p f Q E w :
  (forall pth, pathStore w !! p = Some pth ->
     Q tt (set_pathStore (<[p := f pth]> (pathStore w)) w)) ->
  (pathStore w !! p = None -> E w) ->
  wpd D (modifyPath p f) Q E w.
Proof.
  intros HS HN. unfold modifyPath. wp_step. apply wp_getPath; [|done].
  intros pth Hp. wp_steps. by apply HS.
Qed.

Lemma wp_pushArray {D} a v Q E w :
  (forall arr, arrayStore w !! a = Some arr ->
     Q tt (set_arrayStore (<[a := arr ++ [v]]> (arrayStore w)) w)) ->
  (arrayStore w !! a = None -> E w) ->
  wpd D (pushArray a v) Q E w.
Proof.
  intros HS HN. unfold pushArray. wp_step. apply wp_getArray; [|done].
  intros arr Ha. wp_steps. by apply HS.
Qed.

Lemma wp_mathRandom {D} Q E w :
  (forall o v, Q o (set_rng v w)) -> Q 0%nat w -> wpd D mathRandom Q E w.
Proof.
  intros H1 H2. unfold wpd, mathRandom. destruct (rng w); [done | apply H1].
Qed.

Lemma round_modifyBlock b f :
  (forall blk, carved blk (f blk)) -> keeps round_frame (modifyBlock b f).
Proof.
  intros Hf w. apply wp_modifyBlock; [|by intros; reflexivity].
  intros blk Hb. split; try done; simpl.
  by apply Forall2_insert_r with blk; [apply _ | |].
Qed.

Lemma round_modifyPath p f :
  (forall pth, distance (f pth) = distance pth) ->
  keeps round_frame (modifyPath p f).
Proof.
  intros Hf w. apply wp_modifyPath; [|by intros; reflexivity].
  intros pth Hp. split; try done; simpl.
  by apply Forall2_insert_r with pth; [apply _ | |].
Qed.

Lemma round_pushArray a v : keeps round_frame (pushArray a v).
Proof.
  intros w. apply wp_pushArray; [|by intros; reflexivity].
  intros arr Ha. split; try done; simpl.
  apply Forall2_insert_r with arr; [apply _ | done | by apply prefix_app_r].
Qed.

Lemma round_mathRandom : keeps round_frame mathRandom.
Proof. apply keeps_mathRandom; [apply _|]. intros w v. by split. Qed.

Lemma round_markPath p :
  keeps round_frame
    (modify (fun w => set_pathsToSplice (pathsToSplice w ++ [p]) w)).
Proof. apply keeps_modify. intros w. by split. Qed.

#[export] Hint Resolve round_modifyPath round_pushArray round_mathRandom
  round_markPath : keeps.

Lemma round_pushSubPath p b : keeps round_frame (pushSubPath p b).
Proof. unfold pushSubPath. by apply round_modifyPath. Qed.

Lemma carved_set_isWall blk : carved blk (set_isWall false blk).
Proof. by repeat split. Qed.

Lemma carved_set_numberOfAdjacentWalls v blk :
  carved blk (set_numberOfAdjacentWalls v blk).
Proof. by repeat split. Qed.

Lemma carved_set_adjacentBlocks v blk : carved blk (set_adjacentBlocks v blk).
Proof. by repeat split. Qed.

Lemma round_carve b : keeps round_frame (modifyBlock b (set_isWall false)).
Proof. apply round_modifyBlock, carved_set_isWall. Qed.

Lemma round_checkForWallBlocks b : keeps round_frame (checkForWallBlocks b).
Proof.
  unfold checkForWallBlocks. keeps_auto;
    apply round_modifyBlock; intros; apply carved_set_numberOfAdjacentWalls.
Qed.

Lemma round_getAdjacentBlocks b : keeps round_frame (getAdjacentBlocks b).
Proof.
  unfold getAdjacentBlocks. keeps_auto;
    apply round_modifyBlock; intros; apply carved_set_adjacentBlocks.
Qed.

Lemma round_pick l : keeps round_frame (pick l).
Proof. unfold pick. keeps_auto. Qed.

#[export] Hint Resolve round_pushSubPath round_carve round_checkForWallBlocks
  round_getAdjacentBlocks round_pick : keeps.

Lemma round_subPathCandidate b : keeps round_frame (subPathCandidate b).
Proof. unfold subPathCandidate. keeps_auto. Qed.

Lemma round_mainCandidate c b : keeps round_frame (mainCandidate c b).
Proof. unfold mainCandidate. keeps_auto. Qed.

Lemma round_extendMainCandidate c b : keeps round_frame (extendMainCandidate c b).
Proof. unfold extendMainCandidate. keeps_auto. Qed.

Lemma round_extendCandidate b : keeps round_frame (extendCandidate b).
Proof. unfold extendCandidate. keeps_auto. Qed.

#[export] Hint Resolve round_subPathCandidate round_mainCandidate
  round_extendMainCandidate round_extendCandidate : keeps.

Lemma round_makeSubPath_round p c : keeps round_frame (makeSubPath_round p c).
Proof. unfold makeSubPath_round. keeps_auto. Qed.

Lemma round_makePath_round c : keeps round_frame (makePath_round c).
Proof. unfold makePath_round. keeps_auto. Qed.

Lemma round_extendMainPath_round c : keeps round_frame (extendMainPath_round c).
Proof. unfold extendMainPath_round. keeps_auto. Qed.

Lemma round_extendPaths_round p c : keeps round_frame (extendPaths_round p c).
Proof. unfold extendPaths_round. keeps_auto. Qed.

(** ** Whole passes *)

Lemma gen_of_round {A} (m : M A) : keeps round_frame m -> keeps gen_frame m.
Proof. apply keeps_weaken, round_frame_gen. Qed.

Lemma evolve_of_gen {A} (m : M A) : keeps gen_frame m -> keeps evolve m.
Proof. apply keeps_weaken, gen_frame_evolve. Qed.

Lemma gen_frame_globals w w' :
  numberOfRowBlocks w' = numberOfRowBlocks w ->
  numberOfRowPoints w' = numberOfRowPoints w ->
  pointGrid w' = pointGrid w ->
  maze w' = maze w ->
  character w' = character w ->
  blockStore w' = blockStore w ->
  pathStore w' = pathStore w ->
  arrayStore w' = arrayStore w ->
  gen_frame w w'.
Proof.
  intros ? ? ? ? ? Hb Hp Ha. split; try done.
  - by rewrite Hb.
  - by rewrite Hp.
  - rewrite Ha. intros a arr ?. by exists arr.
Qed.

Lemma gen_newPath : keeps gen_frame newPath.
Proof.
  intros w. unfold newPath. wp_steps.
  split; try done; simpl.
  - rewrite length_app. lia.
  - intros a arr ?. by exists arr.
Qed.

Lemma gen_newArray : keeps gen_frame newArray.
Proof.
  intros w. unfold newArray. wp_steps.
  split; try done; simpl.
  intros a arr Ha. exists arr. split; [|done].
  by apply lookup_app_l_Some.
Qed.

Lemma gen_modifyPath p f : keeps gen_frame (modifyPath p f).
Proof.
  intros w. apply wp_modifyPath; [|by intros; reflexivity].
  intros pth Hp. split; try done; simpl.
  - by rewrite length_insert.
  - intros a arr ?. by exists arr.
Qed.

Lemma gen_set_pathSeeds a : keeps gen_frame (modify (set_pathSeeds a)).
Proof. apply keeps_modify. intros w. by apply gen_frame_globals. Qed.

Lemma gen_set_secondSeeds a : keeps gen_frame (modify (set_secondSeeds a)).
Proof. apply keeps_modify. intros w. by apply gen_frame_globals. Qed.

Lemma gen_set_pathsToSplice v : keeps gen_frame (modify (set_pathsToSplice v)).
Proof. apply keeps_modify. intros w. by apply gen_frame_globals. Qed.

Lemma gen_set_mainPath v : keeps gen_frame (modify (set_mainPath v)).
Proof. apply keeps_modify. intros w. by apply gen_frame_globals. Qed.

Lemma gen_set_paths f : keeps gen_frame (modify (fun w => set_paths (f w) w)).
Proof. apply keeps_modify. intros w. by apply gen_frame_globals. Qed.

Lemma gen_markPath f :
  keeps gen_frame (modify (fun w => set_pathsToSplice (f w) w)).
Proof. apply keeps_modify. intros w. by apply gen_frame_globals. Qed.

#[export] Hint Resolve gen_newPath gen_newArray gen_modifyPath gen_set_pathSeeds
  gen_set_secondSeeds gen_set_pathsToSplice gen_set_mainPath gen_set_paths
  gen_markPath : keeps.
#[export] Hint Resolve round_makeSubPath_round round_makePath_round
  round_extendMainPath_round round_extendPaths_round : keeps.
#[export] Hint Resolve gen_of_round | 10 : keeps.

Lemma gen_makeSubPath fuel b : keeps gen_frame (makeSubPath fuel b).
Proof. unfold makeSubPath. keeps_auto. Qed.
#[export] Hint Resolve gen_makeSubPath : keeps.

Lemma gen_growSeeds fuel : keeps gen_frame (growSeeds fuel).
Proof. unfold growSeeds. keeps_auto. Qed.

Lemma gen_splicePaths : keeps gen_frame splicePaths.
Proof. unfold splicePaths. keeps_auto. Qed.

Lemma gen_shareSecondSeeds : keeps gen_frame shareSecondSeeds.
Proof. unfold shareSecondSeeds. keeps_auto. Qed.

Lemma gen_clearSeeds : keeps gen_frame clearSeeds.
Proof. unfold clearSeeds. keeps_auto. Qed.

Lemma gen_makePath_trunk fuel : keeps gen_frame (makePath_trunk fuel).
Proof. unfold makePath_trunk. keeps_auto. Qed.

#[export] Hint Resolve gen_growSeeds gen_splicePaths gen_shareSecondSeeds
  gen_clearSeeds gen_makePath_trunk : keeps.

Lemma gen_makePath fuel : keeps gen_frame (makePath fuel).
Proof. unfold makePath. keeps_auto. Qed.

Lemma gen_extendMainPath fuel : keeps gen_frame (extendMainPath fuel).
Proof. unfold extendMainPath. keeps_auto. Qed.

Lemma gen_extendPaths fuel p : keeps gen_frame (extendPaths fuel p).
Proof. unfold extendPaths. keeps_auto. Qed.

#[export] Hint Resolve gen_makePath gen_extendMainPath gen_extendPaths : keeps.

Lemma gen_shiftPaths fuel : keeps gen_frame (shiftPaths fuel).
Proof. unfold shiftPaths. keeps_auto. Qed.

Lemma gen_resetAdjacentBlocks : keeps gen_frame resetAdjacentBlocks.
Proof. unfold resetAdjacentBlocks. keeps_auto. Qed.

#[export] Hint Resolve gen_shiftPaths gen_resetAdjacentBlocks : keeps.

(** ** Shifting the maze and moving *)

Lemma evolve_modifyBlock b f :
  (forall blk, isWall (f blk) = isWall blk) -> keeps evolve (modifyBlock b f).
Proof.
  intros Hf w. apply wp_modifyBlock; [|by intros; reflexivity].
  intros blk Hb. split; try done; simpl.
  intros c cblk Hc Hfloor.
  destruct (decide (c = b)) as [->|Hne].
  - rewrite Hb in Hc. injection Hc as <-.
    exists (f blk). rewrite list_lookup_insert_eq by (by eapply lookup_lt_Some).
    split; [done|]. by rewrite Hf.
  - exists cblk. by rewrite list_lookup_insert_ne.
Qed.

Lemma evolve_newBlock : keeps evolve newBlock.
Proof.
  intros w. unfold newBlock. wp_steps. split; try done; simpl.
  intros c cblk Hc Hfloor. exists cblk. split; [|done].
  by apply lookup_app_l_Some.
Qed.

Lemma evolve_set_maze f : keeps evolve (modify (fun w => set_maze (f w) w)).
Proof. apply keeps_modify. intros w. split; try done. intros b blk ? ?. by exists blk. Qed.

Lemma evolve_set_character v : keeps evolve (modify (set_character v)).
Proof. apply keeps_modify. intros w. split; try done. intros b blk ? ?. by exists blk. Qed.

Lemma evolve_moveBlockDown b : keeps evolve (moveBlockDown b).
Proof. unfold moveBlockDown. by apply evolve_modifyBlock. Qed.

#[export] Hint Resolve evolve_newBlock evolve_set_maze evolve_set_character
  evolve_moveBlockDown : keeps.
#[export] Hint Resolve evolve_of_gen | 10 : keeps.

Lemma evolve_fillRow i : keeps evolve (fillRow i).
Proof.
  unfold fillRow. keeps_auto; by apply evolve_modifyBlock.
Qed.
#[export] Hint Resolve evolve_fillRow : keeps.

Lemma evolve_createNewRow : keeps evolve createNewRow.
Proof. unfold createNewRow. keeps_auto. Qed.
#[export] Hint Resolve evolve_createNewRow : keeps.

Lemma evolve_shiftMaze fuel : keeps evolve (shiftMaze fuel).
Proof.
  unfold shiftMaze. keeps_auto. by apply evolve_modifyBlock.
Qed.
#[export] Hint Resolve evolve_shiftMaze : keeps.

Lemma evolve_keydown fuel k : keeps evolve (keydown fuel k).
Proof.
  destruct k; simpl; [unfold moveUp | unfold moveLeft | unfold moveDown | unfold moveRight];
    keeps_auto.
Qed.

(** * The grid *)

(** The point grid that [makePointGrid] builds for width [n]. *)
Definition pointGridOf (n : Z) : list (list Point) :=
  (fun i => (fun k => mkPoint k (i - (n + 1) * 2)) <$> upto (Z.to_nat (n + 1)))
    <$> upto (Z.to_nat ((n + 1) * 3)).

(** The globals that [calculateDimensions] and [makePointGrid] set once
    and for all. *)
Record setup (n : Z) (w : Engine) : Prop := {
  su_n : numberOfRowBlocks w = n;
  su_np : numberOfRowPoints w = n + 1;
  su_pg : pointGrid w = pointGridOf n
}.

(** The number of rows and of blocks per row of the grid for width [n]. *)
Definition rowCount (n : Z) : nat := Z.to_nat (3 * n + 1).
Definition rowWidth (n : Z) : nat := Z.to_nat (n - 1).

Definition shape (n : Z) (w : Engine) : Prop :=
  length (maze w) = rowCount n /\
  Forall (fun row => length row = rowWidth n) (maze w).

(** The blocks that [fillRow i] creates. *)
Definition freshRow (i : Z) (k : nat) : list Block :=
  (fun c => mkBlock true i c [] 0) <$> upto k.

(** What leaves the grid and the set-up alone. *)
Record same_grid (w w' : Engine) : Prop := {
  sg_n : numberOfRowBlocks w' = numberOfRowBlocks w;
  sg_np : numberOfRowPoints w' = numberOfRowPoints w;
  sg_pg : pointGrid w' = pointGrid w;
  sg_maze : maze w' = maze w
}.

#[export] Instance same_grid_preorder : PreOrder same_grid.
Proof.
  split; [by intros w | intros a b c [] []; split; congruence].
Qed.
#[export] Hint Resolve same_grid_preorder : keeps.

Lemma gen_frame_same_grid w w' : gen_frame w w' -> same_grid w w'.
Proof. by intros []. Qed.

Lemma same_grid_of_gen {A} (m : M A) : keeps gen_frame m -> keeps same_grid m.
Proof. apply keeps_weaken, gen_frame_same_grid. Qed.
#[export] Hint Resolve same_grid_of_gen | 10 : keeps.

Lemma same_grid_modifyBlock b f : keeps same_grid (modifyBlock b f).
Proof.
  intros w. apply wp_modifyBlock; [|by intros; reflexivity]. by intros blk Hb.
Qed.

Lemma same_grid_set_character v : keeps same_grid (modify (set_character v)).
Proof. by apply keeps_modify. Qed.

Lemma same_grid_moveBlockDown b : keeps same_grid (moveBlockDown b).
Proof. apply same_grid_modifyBlock. Qed.
#[export] Hint Resolve same_grid_modifyBlock same_grid_set_character
  same_grid_moveBlockDown : keeps.

Lemma setup_same_grid n w w' : same_grid w w' -> setup n w -> setup n w'.
Proof. intros [] []. split; congruence. Qed.

Lemma shape_same_grid n w w' : same_grid w w' -> shape n w -> shape n w'.
Proof. intros [] H. unfold shape in *. by rewrite sg_maze0. Qed.

(** ** Counting loops *)

Lemma at_index_nat {A} (l : list A) (i : nat) : at_index l (Z.of_nat i) = l !! i.
Proof.
  unfold at_index. destruct (Z.ltb_spec (Z.of_nat i) 0); [lia|].
  by rewrite Nat2Z.id.
Qed.

Lemma at_index_Some {A} (l : list A) (i : Z) a :
  at_index l i = Some a -> 0 <= i /\ l !! Z.to_nat i = Some a.
Proof.
  unfold at_index. destruct (Z.ltb_spec i 0); [done|]. by split.
Qed.

Lemma upto_length n : length (upto n) = n.
Proof. unfold upto. by rewrite length_fmap, length_seq. Qed.

Lemma upto_lookup n i : (i < n)%nat -> upto n !! i = Some (Z.of_nat i).
Proof.
  intros Hi. unfold upto. rewrite list_lookup_fmap, lookup_seq_lt by done.
  done.
Qed.

Lemma upto_S n : upto (S n) = upto n ++ [Z.of_nat n].
Proof. unfold upto. by rewrite seq_S, fmap_app. Qed.

Lemma elem_of_upto n (a : Z) : a ∈ upto n <-> 0 <= a < Z.of_nat n.
Proof.
  unfold upto. rewrite list_elem_of_fmap. split.
  - intros (i & -> & Hi). apply elem_of_seq in Hi. lia.
  - intros Ha. exists (Z.to_nat a). split; [lia|]. apply elem_of_seq. lia.
Qed.

Lemma wp_forEach_seq {D} s len (body : Z -> M unit) (I : nat -> Engine -> Prop) E w :
  I s w ->
  (forall k w, (s <= k < s + len)%nat -> I k w ->
     wpd D (body (Z.of_nat k)) (fun _ => I (S k)) E w) ->
  wpd D (forEach (Z.of_nat <$> seq s len) body) (fun _ => I (s + len)%nat) E w.
Proof.
  revert s w. induction len as [|len IH]; intros s w Hs Hbody; simpl.
  - by rewrite Nat.add_0_r.
  - apply wp_bind. eapply wp_mono; [apply Hbody; [lia | done] | | done].
    intros ? w' Hw'. simpl in Hw'.
    replace (s + S len)%nat with (S s + len)%nat by lia.
    apply IH; [done|]. intros k w'' Hk. apply Hbody. lia.
Qed.

(** [for (var k = 0; k < n; k++)]. *)
Lemma wp_upto {D} n (body : Z -> M unit) (I : nat -> Engine -> Prop) E w :
  I 0%nat w ->
  (forall k w, (k < n)%nat -> I k w ->
     wpd D (body (Z.of_nat k)) (fun _ => I (S k)) E w) ->
  wpd D (forEach (upto n) body) (fun _ => I n) E w.
Proof.
  intros H0 Hbody. apply (wp_forEach_seq 0 n body I); [done|].
  intros k w' Hk. apply Hbody. lia.
Qed.

(** [for (var i = n - 1; i > 0; i--)]: the invariant [I k] holds when the
    indices from [k] up have been dealt with. *)
Lemma wp_downto {D} n (body : Z -> M unit) (I : nat -> Engine -> Prop) E w :
  I n w ->
  (forall k w, (1 <= k < n)%nat -> I (S k) w ->
     wpd D (body (Z.of_nat k)) (fun _ => I k) E w) ->
  wpd D (forEach (reverse (drop 1 (upto n))) body) (fun _ => I (Nat.min 1 n)) E w.
Proof.
  intros Hn Hbody. destruct n as [|n]; [done|].
  replace (drop 1 (upto (S n))) with (Z.of_nat <$> seq 1 n)
    by (unfold upto; simpl; by rewrite drop_0).
  simpl Nat.min.
  clear -Hn Hbody. revert w Hn.
  induction n as [|n IH]; intros w Hn; [done|].
  rewrite seq_S, fmap_app, reverse_app. simpl.
  apply wp_bind. eapply wp_mono; [apply Hbody; [lia | done] | | done].
  intros ? w' Hw'. simpl in Hw'. apply IH; [|done].
  intros k w'' Hk. apply Hbody. lia.
Qed.

(** ** Filling a row *)

Lemma pointGridOf_length n : length (pointGridOf n) = Z.to_nat ((n + 1) * 3).
Proof. unfold pointGridOf. by rewrite length_fmap, upto_length. Qed.

Lemma pointGridOf_lookup n i :
  (i < Z.to_nat ((n + 1) * 3))%nat ->
  exists prow, pointGridOf n !! i = Some prow /\ length prow = Z.to_nat (n + 1).
Proof.
  intros Hi. unfold pointGridOf. rewrite list_lookup_fmap, upto_lookup by done.
  simpl. eexists. split; [done|]. by rewrite length_fmap, upto_length.
Qed.

Lemma wp_pointAt {D} n i k Q E w :
  setup n w ->
  (i < Z.to_nat ((n + 1) * 3))%nat -> (k < Z.to_nat (n + 1))%nat ->
  (forall p, Q p w) ->
  wpd D (pointAt (Z.of_nat i) (Z.of_nat k)) Q E w.
Proof.
  intros [_ _ Hpg] Hi Hk HQ. unfold pointAt. wp_step. wp_step.
  destruct (pointGridOf_lookup n i Hi) as (prow & Hrow & Hlen).
  wp_step. rewrite at_index_nat, Hpg, Hrow. wp_step.
  - wp_step.
    + apply HQ.
    + injection H as <-. rewrite at_index_nat in H0.
      apply lookup_ge_None in H0. lia.
  - done.
Qed.

(** The engine after [k] rounds of the loop of [fillRow i]. *)
Definition fillState (w : Engine) (i k : nat) : Engine :=
  set_blockStore (blockStore w ++ freshRow (Z.of_nat i) k)
    (set_maze (<[i := seq (length (blockStore w)) k]> (maze w)) w).

Lemma freshRow_S i k :
  freshRow i (S k) = freshRow i k ++ [mkBlock true i (Z.of_nat k) [] 0].
Proof. unfold freshRow. by rewrite upto_S, fmap_app. Qed.

Lemma freshRow_length i k : length (freshRow i k) = k.
Proof. unfold freshRow. by rewrite length_fmap, upto_length. Qed.

Lemma freshRow_lookup i k c :
  (c < k)%nat -> freshRow i k !! c = Some (mkBlock true i (Z.of_nat c) [] 0).
Proof.
  intros Hc. unfold freshRow. by rewrite list_lookup_fmap, upto_lookup.
Qed.

Lemma fillRow_spec {D} n i w :
  setup n w ->
  maze w !! i = Some [] ->
  (i + 1 < Z.to_nat ((n + 1) * 3))%nat ->
  wpd D (fillRow (Z.of_nat i))
     (fun _ w' => w' = fillState w i (rowWidth n)) (fun _ => False) w.
Proof.
  intros Hsu Hrow Hi. unfold fillRow. wp_step. wp_step.
  destruct (pointGridOf_lookup n i ltac:(lia)) as (prow & Hprow & Hlen).
  wp_step. rewrite at_index_nat, (su_pg _ _ Hsu), Hprow. wp_step; [|done].
  injection H as <-.
  replace (length prow - 2)%nat with (rowWidth n) by (unfold rowWidth; lia).
  apply (wp_upto _ _ (fun k w' => w' = fillState w i k)).
  { unfold fillState, freshRow. simpl. rewrite app_nil_r.
    rewrite list_insert_id by done. by destruct w. }
  intros k w' Hk ->.
  assert (Hsu' : setup n (fillState w i k)) by (by destruct Hsu).
  unfold rowWidth in Hk.
  wp_step. apply (wp_pointAt n); [done | lia | lia | intros _].
  wp_step. replace (Z.of_nat k + 1) with (Z.of_nat (S k)) by lia.
  apply (wp_pointAt n); [done | lia | lia | intros _].
  wp_step. replace (Z.of_nat i + 1) with (Z.of_nat (S i)) by lia.
  apply (wp_pointAt n); [done | lia | lia | intros _].
  wp_step. apply (wp_pointAt n); [done | lia | lia | intros _].
  unfold newBlock, rowAt. wp_steps; simpl.
  - simpl in H. rewrite at_index_nat in H.
    rewrite list_lookup_insert_eq in H by (by eapply lookup_lt_Some).
    injection H as <-.
    rewrite !Nat2Z.id.
    set (bs := blockStore w ++ freshRow (Z.of_nat i) k).
    assert (Hnew : forall blk, (bs ++ [blk]) !! length bs = Some blk).
    { intros blk. rewrite lookup_app_r by lia. by rewrite Nat.sub_diag. }
    apply wp_modifyBlock; simpl; [|by rewrite Hnew].
    intros blk Hblk. rewrite Hnew in Hblk. injection Hblk as <-.
    apply wp_modifyBlock; simpl;
      [|by rewrite list_lookup_insert_eq by (rewrite length_app; simpl; lia)].
    intros blk Hblk.
    rewrite list_lookup_insert_eq in Hblk by (rewrite length_app; simpl; lia).
    injection Hblk as <-.
    unfold fillState. rewrite freshRow_S.
    rewrite list_insert_insert_eq.
    replace (<[length bs:=set_blockIndex (Z.of_nat k)
                 (set_rowIndex (Z.of_nat i) (mkBlock true 0 0 [] 0))]>
               (bs ++ [mkBlock true 0 0 [] 0]))
      with (bs ++ [mkBlock true (Z.of_nat i) (Z.of_nat k) [] 0]).
    2:{ replace (length bs) with (length bs + 0)%nat at 1 by lia.
        by rewrite insert_app_r. }
    rewrite list_insert_insert_eq.
    unfold js_set. rewrite length_seq, Nat.ltb_irrefl.
    replace (length bs) with (length (blockStore w) + k)%nat
      by (unfold bs; rewrite length_app, freshRow_length; lia).
    rewrite <- seq_S. unfold bs. rewrite <- app_assoc.
    by destruct w.
  - simpl in H. rewrite at_index_nat in H.
    rewrite list_lookup_insert_eq in H by (by eapply lookup_lt_Some). done.
Qed.

(** ** Cells, indices and neighbours *)

(** [maze.rows[i].blocks[k]], [None] when there is no such cell. *)
Definition cell (w : Engine) (i k : Z) : option ref :=
  match at_index (maze w) i with
  | Some row => at_index row k
  | None => None
  end.

(** Every block of the grid carries the indices of the cell it is in. *)
Definition indexed (w : Engine) : Prop :=
  forall i k b, cell w (Z.of_nat i) (Z.of_nat k) = Some b ->
    exists blk, blockStore w !! b = Some blk /\
                rowIndex blk = Z.of_nat i /\ blockIndex blk = Z.of_nat k.

(** The neighbour list that [getAdjacentBlocks] computes for a block
    with indices [(r, k)]: up, right, down, left, each under its test. *)
Definition neighbours (w : Engine) (r k : Z) : list ref :=
  option_list (if 0 <? r then cell w (r - 1) k else None)
  ++ option_list (if k <? numberOfRowBlocks w - 2 then cell w r (k + 1) else None)
  ++ option_list (if r <? Z.of_nat (length (maze w)) - 3 then cell w (r + 1) k else None)
  ++ option_list (if 0 <? k then cell w r (k - 1) else None).

(** The adjacentBlocks list of [b] is the one its indices call for. *)
Definition wiredAt (w : Engine) (b : ref) : Prop :=
  forall blk, blockStore w !! b = Some blk ->
    adjacentBlocks blk = neighbours w (rowIndex blk) (blockIndex blk).

(** What building and shifting the grid leave alone: everything but the
    grid and the blocks. *)
Record grid_only (w w' : Engine) : Prop := {
  go_n : numberOfRowBlocks w' = numberOfRowBlocks w;
  go_np : numberOfRowPoints w' = numberOfRowPoints w;
  go_pg : pointGrid w' = pointGrid w;
  go_main : mainPath w' = mainPath w;
  go_paths : paths w' = paths w;
  go_seeds : pathSeeds w' = pathSeeds w;
  go_second : secondSeeds w' = secondSeeds w;
  go_splice : pathsToSplice w' = pathsToSplice w;
  go_char : character w' = character w;
  go_pathStore : pathStore w' = pathStore w;
  go_arrays : arrayStore w' = arrayStore w;
  go_rng : rng w' = rng w
}.

#[export] Instance grid_only_preorder : PreOrder grid_only.
Proof.
  split; [by intros w | intros a b c [] []; split; congruence].
Qed.
#[export] Hint Resolve grid_only_preorder : keeps.

Lemma cell_Some w i k b :
  cell w i k = Some b ->
  exists row, 0 <= i /\ 0 <= k /\
    maze w !! Z.to_nat i = Some row /\ row !! Z.to_nat k = Some b.
Proof.
  unfold cell. destruct (at_index (maze w) i) as [row|] eqn:Hrow; [|done].
  intros Hk. apply at_index_Some in Hrow as [? ?].
  apply at_index_Some in Hk as [? ?]. by exists row.
Qed.

Lemma cell_lookup w i k row b :
  maze w !! i = Some row -> row !! k = Some b ->
  cell w (Z.of_nat i) (Z.of_nat k) = Some b.
Proof.
  intros Hrow Hb. unfold cell. by rewrite at_index_nat, Hrow, at_index_nat.
Qed.

Lemma elem_of_concat {A} (x : A) (ls : list (list A)) :
  x ∈ concat ls <-> exists l, x ∈ l /\ l ∈ ls.
Proof.
  rewrite list_elem_of_In, in_concat. split.
  - intros (l & ? & ?). exists l. by rewrite !list_elem_of_In.
  - intros (l & ? & ?). exists l. by rewrite <- !list_elem_of_In.
Qed.

Lemma cell_inGrid w i k b : cell w i k = Some b -> inGrid w b.
Proof.
  intros (row & _ & _ & Hrow & Hb)%cell_Some. unfold inGrid.
  apply elem_of_concat. exists row.
  split; by eapply list_elem_of_lookup_2.
Qed.

Lemma inGrid_cell w b :
  inGrid w b -> exists i k, cell w (Z.of_nat i) (Z.of_nat k) = Some b.
Proof.
  unfold inGrid. intros (row & Hb & Hrow)%elem_of_concat.
  apply list_elem_of_lookup in Hb as [k Hk].
  apply list_elem_of_lookup in Hrow as [i Hi].
  exists i, k. by eapply cell_lookup.
Qed.

Lemma shape_cell n w i k :
  shape n w ->
  0 <= i < Z.of_nat (rowCount n) -> 0 <= k < Z.of_nat (rowWidth n) ->
  exists b, cell w i k = Some b.
Proof.
  intros [Hlen Hrows] Hi Hk. unfold cell, at_index.
  destruct (Z.ltb_spec i 0); [lia|].
  destruct (lookup_lt_is_Some_2 (maze w) (Z.to_nat i)) as [row Hrow]; [lia|].
  rewrite Hrow. destruct (Z.ltb_spec k 0); [lia|].
  rewrite Forall_lookup in Hrows. specialize (Hrows _ _ Hrow).
  destruct (lookup_lt_is_Some_2 row (Z.to_nat k)) as [b Hb]; [lia|].
  by exists b.
Qed.

Lemma cell_shape n w i k b :
  shape n w -> cell w i k = Some b ->
  0 <= i < Z.of_nat (rowCount n) /\ 0 <= k < Z.of_nat (rowWidth n).
Proof.
  intros [Hlen Hrows] (row & ? & ? & Hrow & Hb)%cell_Some.
  rewrite Forall_lookup in Hrows. specialize (Hrows _ _ Hrow).
  apply lookup_lt_Some in Hrow, Hb. lia.
Qed.

Lemma wp_cellAt {D} i k b Q E w :
  cell w i k = Some b -> Q b w -> wpd D (cellAt i k) Q E w.
Proof.
  intros Hc HQ. unfold cell in Hc. unfold cellAt, rowAt. wp_steps.
  - rewrite H in Hc. rewrite Hc in H0. by injection H0 as <-.
  - rewrite H in Hc. by rewrite Hc in H0.
  - by rewrite H in Hc.
Qed.

(** Distinct cells hold distinct blocks. *)
Lemma indexed_inj w i k i' k' b :
  indexed w ->
  cell w (Z.of_nat i) (Z.of_nat k) = Some b ->
  cell w (Z.of_nat i') (Z.of_nat k') = Some b ->
  i = i' /\ k = k'.
Proof.
  intros Hix H1 H2.
  destruct (Hix _ _ _ H1) as (blk & Hb & ? & ?).
  destruct (Hix _ _ _ H2) as (blk' & Hb' & ? & ?).
  rewrite Hb in Hb'. injection Hb' as <-. lia.
Qed.

Lemma indexed_frame w w' :
  maze w' = maze w -> Forall2 carved (blockStore w) (blockStore w') ->
  indexed w -> indexed w'.
Proof.
  intros Hm Hbs Hix i k b Hc.
  unfold cell in Hc. rewrite Hm in Hc.
  destruct (Hix i k b Hc) as (blk & Hb & ? & ?).
  destruct (Forall2_lookup_l _ _ _ _ _ Hbs Hb) as (blk' & Hb' & (? & ? & _)).
  exists blk'. repeat split; congruence.
Qed.

Lemma neighbours_frame w w' r k :
  maze w' = maze w -> numberOfRowBlocks w' = numberOfRowBlocks w ->
  neighbours w' r k = neighbours w r k.
Proof. intros Hm Hn. unfold neighbours, cell. by rewrite Hm, Hn. Qed.

(** ** Wiring a block to its neighbours *)

Lemma getAdjacentBlocks_spec {D} n b blk w :
  setup n w -> shape n w ->
  blockStore w !! b = Some blk ->
  0 <= rowIndex blk < Z.of_nat (rowCount n) ->
  0 <= blockIndex blk < Z.of_nat (rowWidth n) ->
  wpd D (getAdjacentBlocks b)
    (fun _ w' =>
       w' = set_blockStore
              (<[b := set_adjacentBlocks
                        (neighbours w (rowIndex blk) (blockIndex blk)) blk]>
                 (blockStore w)) w)
    (fun _ => False) w.
Proof.
  intros Hsu Hsh Hb Hr Hk.
  pose proof (proj1 Hsh) as Hlen.
  assert (Hn : numberOfRowBlocks w = n) by (by destruct Hsu).
  assert (HW : Z.of_nat (rowWidth n) = n - 1) by (unfold rowWidth in *; lia).
  unfold getAdjacentBlocks. wp_step. apply wp_getBlock; [|congruence].
  intros blk' Hb'. rewrite Hb in Hb'. injection Hb' as <-.
  unfold neighbours.
  wp_step. wp_step. wp_step. wp_step.
  assert (Hcell : forall (c : bool) i k (Q : list ref -> Engine -> Prop),
    (c = true -> 0 <= i < Z.of_nat (rowCount n) /\ 0 <= k < Z.of_nat (rowWidth n)) ->
    Q (option_list (if c then cell w i k else None)) w ->
    wpd D (if c then b0 <- cellAt i k;; ret [b0] else ret []) Q (fun _ => False) w).
  { intros c i k Q Hc HQ. destruct c; [|by wp_step].
    destruct (shape_cell n w i k Hsh) as [u Hu]; [by apply Hc | by apply Hc |].
    rewrite Hu in HQ. wp_step. apply (wp_cellAt _ _ u); [done|]. by wp_step. }
  wp_step. apply Hcell; [intros ?%Z.ltb_lt; lia|].
  wp_step. apply Hcell; [intros ?%Z.ltb_lt; lia|].
  wp_step. apply Hcell; [intros ?%Z.ltb_lt; lia|].
  wp_step. apply Hcell; [intros ?%Z.ltb_lt; lia|].
  apply wp_modifyBlock; [|congruence].
  intros blk' Hb'. rewrite Hb in Hb'. by injection Hb' as <-.
Qed.

Lemma grid_only_modifyBlock b f : keeps grid_only (modifyBlock b f).
Proof.
  intros w. apply wp_modifyBlock; [|by intros; reflexivity]. by intros blk Hb.
Qed.

Lemma grid_only_newBlock : keeps grid_only newBlock.
Proof. intros w. unfold newBlock. by wp_steps. Qed.

Lemma grid_only_set_maze f : keeps grid_only (modify (fun w => set_maze (f w) w)).
Proof. by apply keeps_modify. Qed.

Lemma grid_only_reset_maze v : keeps grid_only (modify (set_maze v)).
Proof. by apply keeps_modify. Qed.

#[export] Hint Resolve grid_only_modifyBlock grid_only_newBlock
  grid_only_set_maze grid_only_reset_maze : keeps.

Lemma grid_only_getAdjacentBlocks b : keeps grid_only (getAdjacentBlocks b).
Proof. unfold getAdjacentBlocks. keeps_auto. Qed.

Lemma grid_only_fillRow i : keeps grid_only (fillRow i).
Proof. unfold fillRow. keeps_auto. Qed.

Lemma grid_only_moveBlockDown b : keeps grid_only (moveBlockDown b).
Proof. apply grid_only_modifyBlock. Qed.

#[export] Hint Resolve grid_only_getAdjacentBlocks grid_only_fillRow
  grid_only_moveBlockDown : keeps.

Lemma grid_only_resetAdjacentBlocks : keeps grid_only resetAdjacentBlocks.
Proof. unfold resetAdjacentBlocks. keeps_auto. Qed.
#[export] Hint Resolve grid_only_resetAdjacentBlocks : keeps.

Lemma grid_only_createNewRow : keeps grid_only createNewRow.
Proof. unfold createNewRow. keeps_auto. Qed.

Lemma grid_only_makeMaze : keeps grid_only makeMaze.
Proof. unfold makeMaze. keeps_auto. Qed.

(** ** The grid as a whole *)

(** The grid is set up for width [n], has the shape that goes with it,
    and its blocks carry the indices of their cells. *)
Record grid_ok (n : Z) (w : Engine) : Prop := {
  gk_setup : setup n w;
  gk_shape : shape n w;
  gk_indexed : indexed w
}.

Lemma grid_ok_round n w w' : round_frame w w' -> grid_ok n w -> grid_ok n w'.
Proof.
  intros Hf [Hsu Hsh Hix].
  pose proof (gen_frame_same_grid _ _ (round_frame_gen _ _ Hf)) as Hsg.
  split.
  - by eapply setup_same_grid.
  - by eapply shape_same_grid.
  - eapply indexed_frame; [| |done]; by destruct Hf.
Qed.

Lemma grid_ok_gen n w w' : gen_frame w w' -> grid_ok n w -> grid_ok n w'.
Proof.
  intros Hf [Hsu Hsh Hix].
  pose proof (gen_frame_same_grid _ _ Hf) as Hsg.
  split.
  - by eapply setup_same_grid.
  - by eapply shape_same_grid.
  - eapply indexed_frame; [| |done]; by destruct Hf.
Qed.

(** A block of the grid has its indices within the grid. *)
Lemma grid_ok_block n w b :
  grid_ok n w -> inGrid w b ->
  exists blk, blockStore w !! b = Some blk /\
    0 <= rowIndex blk < Z.of_nat (rowCount n) /\
    0 <= blockIndex blk < Z.of_nat (rowWidth n) /\
    cell w (rowIndex blk) (blockIndex blk) = Some b.
Proof.
  intros [Hsu Hsh Hix] (i & k & Hc)%inGrid_cell.
  destruct (Hix i k b Hc) as (blk & Hb & Hi & Hk).
  destruct (cell_shape n w _ _ _ Hsh Hc) as [? ?].
  exists blk. rewrite Hi, Hk. repeat split; try done; lia.
Qed.

Lemma inGrid_frame w w' b : maze w' = maze w -> inGrid w b -> inGrid w' b.
Proof. unfold inGrid. by intros ->. Qed.

Lemma getAdjacentBlocks_wires {D} n b w :
  grid_ok n w -> inGrid w b ->
  wpd D (getAdjacentBlocks b)
    (fun _ w' =>
       round_frame w w' /\ grid_only w w' /\ wiredAt w' b /\
       (forall c, wiredAt w c -> wiredAt w' c) /\
       (forall c, c <> b -> blockStore w' !! c = blockStore w !! c))
    (fun _ => False) w.
Proof.
  intros Hok Hin.
  destruct (grid_ok_block n w b Hok Hin) as (blk & Hb & Hr & Hk & _).
  eapply wp_mono;
    [apply (getAdjacentBlocks_spec n b blk); by destruct Hok | | done].
  intros _ w' ->. simpl.
  assert (Hsame : forall r k,
    neighbours (set_blockStore
      (<[b:=set_adjacentBlocks (neighbours w (rowIndex blk) (blockIndex blk)) blk]>
         (blockStore w)) w) r k = neighbours w r k).
  { intros r k. by apply neighbours_frame. }
  assert (Hwired : wiredAt (set_blockStore
      (<[b:=set_adjacentBlocks (neighbours w (rowIndex blk) (blockIndex blk)) blk]>
         (blockStore w)) w) b).
  { intros blk'. simpl.
    rewrite list_lookup_insert_eq by (by eapply lookup_lt_Some).
    intros [= <-]. simpl. by rewrite Hsame. }
  split; [|split; [|split; [|split]]].
  - split; try done; simpl.
    eapply Forall2_insert_r; [apply _ | done | apply carved_set_adjacentBlocks].
  - by split.
  - done.
  - intros c Hc. destruct (decide (c = b)) as [->|Hne]; [done|].
    intros blk'. simpl. rewrite list_lookup_insert_ne by done.
    intros Hblk'. rewrite Hsame. by apply Hc.
  - intros c Hne. simpl. rewrite list_lookup_insert_ne; [done | congruence].
Qed.

Lemma rewire_list {D} n l w :
  grid_ok n w -> (forall b, b ∈ l -> inGrid w b) ->
  wpd D (forEach l getAdjacentBlocks)
    (fun _ w' =>
       round_frame w w' /\ grid_only w w' /\
       (forall b, b ∈ l -> wiredAt w' b) /\
       (forall c, wiredAt w c -> wiredAt w' c) /\
       (forall c, c ∉ l -> blockStore w' !! c = blockStore w !! c))
    (fun _ => False) w.
Proof.
  revert w. induction l as [|a l IH]; intros w Hok Hin; simpl.
  - wp_step. repeat split; try done. intros b Hb. by apply elem_of_nil in Hb.
  - wp_step. eapply wp_mono;
      [apply (getAdjacentBlocks_wires n a w Hok); apply Hin; left | | done].
    intros _ w1 (Hr1 & Hg1 & Ha & Hst1 & Hun1). simpl.
    eapply wp_mono; [apply (IH w1) | | done].
    + by eapply grid_ok_round.
    + intros b Hb. eapply inGrid_frame; [by destruct Hr1 | apply Hin; by right].
    + intros _ w2 (Hr2 & Hg2 & Hl & Hst2 & Hun2). simpl.
      split; [by etrans|]. split; [by etrans|]. split; [|split; [by auto|]].
      * intros b [->|Hb]%elem_of_cons; [by apply Hst2 | by apply Hl].
      * intros c Hc. apply not_elem_of_cons in Hc as [Hca Hcl].
        by rewrite Hun2, Hun1.
Qed.

(** Every block of the rows from [from] on is wired to its neighbours. *)
Definition wiredFrom (from : nat) (w : Engine) : Prop :=
  forall i k b, (from <= i)%nat ->
    cell w (Z.of_nat i) (Z.of_nat k) = Some b -> wiredAt w b.

Lemma wp_rowAt {D} i row Q E w :
  maze w !! i = Some row -> Q row w -> wpd D (rowAt (Z.of_nat i)) Q E w.
Proof.
  intros Hrow HQ. unfold rowAt. wp_steps; rewrite at_index_nat, Hrow in H;
    [by injection H as <- | done].
Qed.

Lemma cell_frame w w' i k : maze w' = maze w -> cell w' i k = cell w i k.
Proof. unfold cell. by intros ->. Qed.

Lemma resetAdjacentBlocks_spec {D} n w :
  grid_ok n w ->
  wpd D resetAdjacentBlocks
    (fun _ w' =>
       round_frame w w' /\ grid_only w w' /\ wiredFrom 1 w' /\
       (forall c, wiredAt w c -> wiredAt w' c) /\
       (forall c, (forall i k, (1 <= i)%nat ->
                     cell w (Z.of_nat i) (Z.of_nat k) <> Some c) ->
                  blockStore w' !! c = blockStore w !! c))
    (fun _ => False) w.
Proof.
  intros Hok. unfold resetAdjacentBlocks. wp_step. wp_step.
  eapply wp_mono;
    [apply (wp_downto _ _ (fun j w1 =>
       round_frame w w1 /\ grid_only w w1 /\ wiredFrom j w1 /\
       (forall c, wiredAt w c -> wiredAt w1 c) /\
       (forall c, (forall i k, (1 <= i)%nat ->
                     cell w (Z.of_nat i) (Z.of_nat k) <> Some c) ->
                  blockStore w1 !! c = blockStore w !! c))) | |].
  - split; [done|]. split; [done|]. split; [|done].
    intros i k b Hi (row & _ & _ & Hrow & _)%cell_Some.
    apply lookup_lt_Some in Hrow. lia.
  - intros j w1 Hj (Hr1 & Hg1 & Hw1 & Hst1 & Hun1).
    assert (Hm1 : maze w1 = maze w) by (by destruct Hr1).
    destruct (lookup_lt_is_Some_2 (maze w1) j) as [row Hrow];
      [rewrite Hm1; lia|].
    wp_step. apply (wp_rowAt j row); [done|].
    eapply wp_mono; [apply (rewire_list n row w1) | | done].
    + by eapply grid_ok_round.
    + intros b Hb. apply elem_of_concat. exists row.
      split; [done | by eapply list_elem_of_lookup_2].
    + intros _ w2 (Hr2 & Hg2 & Hl & Hst2 & Hun2). simpl.
      assert (Hm2 : maze w2 = maze w1) by (by destruct Hr2).
      split; [by etrans|]. split; [by etrans|]. split; [|split; [by auto|]].
      * intros i k b Hi Hc. rewrite (cell_frame _ _ _ _ Hm2) in Hc.
        destruct (decide (i = j)) as [->|Hne].
        -- apply Hl. apply cell_Some in Hc as (row' & _ & _ & Hrow' & Hb).
           rewrite Nat2Z.id in Hrow', Hb. rewrite Hrow in Hrow'.
           injection Hrow' as <-. by eapply list_elem_of_lookup_2.
        -- apply Hst2, (Hw1 i k); [lia | done].
      * intros c Hc. rewrite Hun2; [by apply Hun1|].
        intros [k Hk]%list_elem_of_lookup. apply (Hc j k); [lia|].
        rewrite <- (cell_frame w w1) by done. by eapply cell_lookup.
  - intros _ w' (Hr & Hg & Hw & Hst & Hun).
    split; [done|]. split; [done|]. split; [|done].
    intros i k b Hi. apply Hw. lia.
  - done.
Qed.

Lemma indexed_fillState w i k :
  indexed w -> maze w !! i = Some [] -> indexed (fillState w i k).
Proof.
  intros Hix Hrow i' k' b Hc.
  apply cell_Some in Hc as (row & _ & _ & Hrow' & Hb).
  rewrite !Nat2Z.id in Hrow', Hb. simpl in Hrow'. simpl.
  destruct (decide (i' = i)) as [->|Hne].
  - rewrite list_lookup_insert_eq in Hrow' by (by eapply lookup_lt_Some).
    injection Hrow' as <-.
    pose proof (lookup_lt_Some _ _ _ Hb) as Hlt. rewrite length_seq in Hlt.
    rewrite lookup_seq_lt in Hb by done. injection Hb as <-.
    exists (mkBlock true (Z.of_nat i) (Z.of_nat k') [] 0).
    rewrite lookup_app_r by lia.
    replace (length (blockStore w) + k' - length (blockStore w))%nat with k' by lia.
    by rewrite freshRow_lookup.
  - rewrite list_lookup_insert_ne in Hrow' by done.
    destruct (Hix i' k' b (cell_lookup _ _ _ _ _ Hrow' Hb)) as (blk & Hblk & ? & ?).
    exists blk. split; [|done]. by apply lookup_app_l_Some.
Qed.

Lemma forEach_app_inv {D A} (l1 l2 : list A) (f : A -> M unit) Q E w :
  wpd D (forEach (l1 ++ l2) f) Q E w ->
  wpd D (forEach l1 f) (fun _ => wpd D (forEach l2 f) Q E) E w.
Proof.
  revert w. induction l1 as [|a l1 IH]; intros w H; simpl in *.
  - done.
  - apply wp_bind. apply wp_bind_inv in H.
    eapply wp_mono; [exact H | | done]. intros ? w'. apply IH.
Qed.

Lemma forEach_concat {D A} (ls : list (list A)) (f : A -> M unit) Q E w :
  wpd D (forEach (concat ls) f) Q E w ->
  wpd D (forEach ls (fun l => forEach l f)) Q E w.
Proof.
  revert w. induction ls as [|l ls IH]; intros w H; simpl in *.
  - done.
  - apply wp_bind. apply forEach_app_inv in H.
    eapply wp_mono; [exact H | | done]. intros ? w'. apply IH.
Qed.

Lemma makeMaze_spec {D} n w :
  setup n w ->
  wpd D makeMaze
    (fun _ w' => grid_ok n w' /\ grid_only w w' /\ wiredFrom 0 w' /\
       (blockStore w = [] ->
        forall b, (b < length (blockStore w'))%nat -> inGrid w' b))
    (fun _ => False) w.
Proof.
  intros Hsu. unfold makeMaze. wp_step. wp_step. wp_step. wp_step. wp_step.
  replace (length (pointGrid (set_maze [] w)) - 2)%nat with (rowCount n).
  2:{ simpl. rewrite (su_pg _ _ Hsu), pointGridOf_length. unfold rowCount. lia. }
  eapply wp_mono;
    [apply (wp_upto _ _ (fun i w1 =>
       setup n w1 /\ grid_only w w1 /\ length (maze w1) = i /\
       Forall (fun row => length row = rowWidth n) (maze w1) /\
       indexed w1 /\
       (blockStore w = [] ->
        forall b, (b < length (blockStore w1))%nat -> inGrid w1 b))) | |].
  - split; [by destruct Hsu|]. split; [done|]. split; [done|]. split; [done|].
    split.
    + intros i k b (row & _ & _ & Hrow & _)%cell_Some. done.
    + simpl. intros -> b Hb. simpl in Hb. lia.
  - intros i w1 Hi (Hsu1 & Hg1 & Hlen & Hrows & Hix & Hlive).
    wp_step. wp_step.
    rewrite Nat2Z.id. unfold js_set. rewrite Hlen, Nat.ltb_irrefl.
    set (w2 := set_maze (maze w1 ++ [[]]) w1).
    assert (Hrow2 : maze w2 !! i = Some []).
    { simpl. rewrite lookup_app_r by lia. by rewrite Hlen, Nat.sub_diag. }
    eapply wp_mono; [apply (fillRow_spec n i w2) | | done].
    + by destruct Hsu1.
    + done.
    + unfold rowCount in Hi. lia.
    + intros _ w3 ->.
      assert (Hmaze : maze (fillState w2 i (rowWidth n)) =
                      maze w1 ++ [seq (length (blockStore w1)) (rowWidth n)]).
      { simpl. replace i with (length (maze w1) + 0)%nat at 1 by lia.
        by rewrite insert_app_r. }
      split; [by destruct Hsu1|]. split.
      { etrans; [exact Hg1|]. by split. }
      split; [rewrite Hmaze, length_app; simpl; lia|].
      split.
      { rewrite Hmaze. apply Forall_app. split; [done|].
        apply Forall_singleton. by rewrite length_seq. }
      split.
      { apply indexed_fillState; [|done].
        intros i' k' b Hc. apply (Hix i' k' b).
        apply cell_Some in Hc as (row & _ & _ & Hrow & Hb). simpl in Hrow.
        rewrite !Nat2Z.id in Hrow, Hb.
        destruct (decide (i' < length (maze w1))%nat) as [Hlt|Hge].
        * rewrite lookup_app_l in Hrow by lia. by eapply cell_lookup.
        * rewrite lookup_app_r in Hrow by lia.
          destruct (i' - length (maze w1))%nat; simpl in Hrow; [|done].
          injection Hrow as <-. done. }
      intros Hnil b Hb. unfold inGrid. rewrite Hmaze, concat_app.
      apply elem_of_app. simpl in Hb. rewrite length_app, freshRow_length in Hb.
      destruct (decide (b < length (blockStore w1))%nat) as [Hlt|Hge].
      * left. by apply Hlive.
      * right. simpl. rewrite app_nil_r. apply elem_of_seq. lia.
  - intros _ w1 (Hsu1 & Hg1 & Hlen & Hrows & Hix & Hlive).
    assert (Hok1 : grid_ok n w1) by (split; [done | by split | done]).
    wp_step. wp_step. apply forEach_concat.
    eapply wp_mono; [apply (rewire_list n (concat (maze w1)) w1 Hok1) | | done].
    + by intros b Hb.
    + intros _ w2 (Hr2 & Hg2 & Hl & _).
      split; [by eapply grid_ok_round|]. split; [by etrans|]. split.
      * intros i k b _ Hc. apply Hl.
        rewrite (cell_frame w1 w2) in Hc by (by destruct Hr2).
        by eapply cell_inGrid.
      * intros Hnil b Hb.
        rewrite <- (Forall2_length _ _ _ (rf_blocks _ _ Hr2)) in Hb.
        eapply inGrid_frame; [apply Hr2 | by apply Hlive].
  - done.
Qed.

(** ** Shifting the rows *)

(** [moveBlockDown] on a block. *)
Definition lowered (blk : Block) : Block := set_rowIndex (rowIndex blk + 1) blk.

Lemma lower_list {D} (l : list ref) w :
  NoDup l -> (forall b, b ∈ l -> is_Some (blockStore w !! b)) ->
  wpd D (forEach l moveBlockDown)
    (fun _ w' =>
       grid_only w w' /\ maze w' = maze w /\
       length (blockStore w') = length (blockStore w) /\
       (forall b blk, blockStore w !! b = Some blk ->
          blockStore w' !! b =
          Some (if decide (b ∈ l) then lowered blk else blk)))
    (fun _ => False) w.
Proof.
  revert w. induction l as [|a l IH]; intros w Hnd Hval; simpl.
  - wp_step. repeat split; try done.
  - apply NoDup_cons in Hnd as [Ha Hnd].
    destruct (Hval a) as [ablk Hablk]; [left|].
    wp_step. unfold moveBlockDown at 1.
    apply wp_modifyBlock; [|congruence].
    intros blk' Hblk'. rewrite Hablk in Hblk'. injection Hblk' as <-.
    set (w1 := set_blockStore _ w).
    eapply wp_mono; [apply (IH w1 Hnd) | | done].
    + intros b Hb. simpl. apply lookup_lt_is_Some. rewrite length_insert.
      apply lookup_lt_is_Some. apply Hval. by right.
    + intros _ w2 (Hg & Hm & Hlen & Hbs). simpl in *.
      split; [etrans; [|exact Hg]; by split|].
      split; [done|]. split; [by rewrite Hlen, length_insert|].
      intros b blk Hb. destruct (decide (b = a)) as [->|Hne].
      * rewrite Hablk in Hb. injection Hb as <-.
        rewrite decide_True by left.
        rewrite (Hbs a (lowered ablk)).
        -- by rewrite decide_False.
        -- by rewrite list_lookup_insert_eq by (by eapply lookup_lt_Some).
      * rewrite (Hbs b blk) by (by rewrite list_lookup_insert_ne).
        destruct (decide (b ∈ l)) as [Hin|Hnin].
        -- by rewrite decide_True by (by right).
        -- rewrite decide_False; [done|]. by intros [?|?]%elem_of_cons.
Qed.

(** A row of an indexed grid holds each of its blocks once. *)
Lemma indexed_row_NoDup w i row :
  indexed w -> maze w !! i = Some row -> NoDup row.
Proof.
  intros Hix Hrow. apply NoDup_alt. intros k k' b Hk Hk'.
  by destruct (indexed_inj w i k i k' b Hix
                 (cell_lookup _ _ _ _ _ Hrow Hk) (cell_lookup _ _ _ _ _ Hrow Hk')).
Qed.

(** The engine while [shiftMaze] copies rows downwards: the rows from
    [j] on have been overwritten by the row above them, whose blocks have
    been lowered. *)
Record shifting (n : Z) (w : Engine) (j : nat) (w1 : Engine) : Prop := {
  sh_setup : setup n w1;
  sh_only : grid_only w w1;
  sh_length : length (blockStore w1) = length (blockStore w);
  sh_maze : forall p,
    maze w1 !! p =
    if decide (p < j)%nat then maze w !! p
    else if decide (p < length (maze w))%nat then maze w !! (p - 1)%nat
    else None;
  sh_blocks : forall q c b,
    cell w (Z.of_nat q) (Z.of_nat c) = Some b ->
    exists blk, blockStore w1 !! b = Some blk /\
      blockIndex blk = Z.of_nat c /\
      rowIndex blk =
        Z.of_nat (if decide (j - 1 <= q < length (maze w) - 1)%nat then S q else q);
  sh_kept : forall b blk,
    blockStore w !! b = Some blk ->
    exists blk', blockStore w1 !! b = Some blk' /\
      isWall blk' = isWall blk /\ rowIndex blk <= rowIndex blk'
}.

Lemma shifting_start n w :
  grid_ok n w -> shifting n w (length (maze w)) w.
Proof.
  intros [Hsu Hsh Hix]. split; try done.
  - intros p. destruct (decide (p < length (maze w))%nat); [done|].
    apply lookup_ge_None. lia.
  - intros q c b Hc. destruct (Hix q c b Hc) as (blk & ? & ? & ?).
    exists blk. rewrite decide_False by lia. done.
  - intros b blk Hb. exists blk. split; [done|]. split; [done | lia].
Qed.

Lemma shifting_length n w j w1 :
  shifting n w j w1 -> length (maze w1) = length (maze w).
Proof.
  intros Hs. pose proof (sh_maze _ _ _ _ Hs) as Hm.
  apply Nat.le_antisymm.
  - apply Nat.nlt_ge. intros Hlt.
    destruct (lookup_lt_is_Some_2 (maze w1) (length (maze w))) as [x Hx]; [done|].
    rewrite Hm in Hx.
    destruct (decide (length (maze w) < j)%nat) as [Hj|Hj].
    + apply lookup_lt_Some in Hx. lia.
    + by rewrite decide_False in Hx by lia.
  - apply Nat.nlt_ge. intros Hlt.
    assert (Hnone : maze w1 !! (length (maze w) - 1)%nat = None).
    { apply lookup_ge_None. lia. }
    rewrite Hm in Hnone.
    destruct (decide (length (maze w) - 1 < j)%nat).
    + apply lookup_ge_None in Hnone. lia.
    + rewrite decide_True in Hnone by lia.
      apply lookup_ge_None in Hnone. lia.
Qed.

Lemma shifting_round {D} n w j w1 :
  grid_ok n w -> (1 <= j < length (maze w))%nat ->
  shifting n w (S j) w1 ->
  wpd D
    (above <- rowAt (Z.of_nat j - 1) ;;
     modify (fun w0 => set_maze (js_set (Z.to_nat (Z.of_nat j)) above (maze w0)) w0) ;;
     forEach above moveBlockDown)
    (fun _ w' => shifting n w j w') (fun _ => False) w1.
Proof.
  intros Hok Hj Hs.
  pose proof (shifting_length _ _ _ _ Hs) as Hlen.
  destruct (lookup_lt_is_Some_2 (maze w) (j - 1)) as [above Habove]; [lia|].
  assert (Habove1 : maze w1 !! (j - 1)%nat = Some above).
  { rewrite (sh_maze _ _ _ _ Hs). by rewrite decide_True by lia. }
  replace (Z.of_nat j - 1) with (Z.of_nat (j - 1)) by lia.
  wp_step. apply (wp_rowAt (j - 1) above); [done|].
  wp_step. wp_step. rewrite Nat2Z.id. unfold js_set.
  destruct (Nat.ltb_spec j (length (maze w1))) as [_|?]; [|lia].
  set (w2 := set_maze (<[j:=above]> (maze w1)) w1).
  assert (Hin : forall b, b ∈ above <->
            exists c, cell w (Z.of_nat (j - 1)) (Z.of_nat c) = Some b).
  { intros b. split.
    - intros [c Hc]%list_elem_of_lookup. exists c. by eapply cell_lookup.
    - intros [c (row & _ & _ & Hrow & Hb)%cell_Some].
      rewrite !Nat2Z.id in Hrow, Hb. rewrite Habove in Hrow.
      injection Hrow as <-. by eapply list_elem_of_lookup_2. }
  eapply wp_mono; [apply (lower_list above w2) | | done].
  - eapply indexed_row_NoDup; [apply Hok | done].
  - intros b [c Hc]%Hin.
    destruct (sh_blocks _ _ _ _ Hs _ _ _ Hc) as (blk & Hblk & _). by exists blk.
  - intros _ w3 (Hg & Hm & Hl & Hbs). destruct Hs as [Hsu1 Hg1 Hl1 Hm1 Hb1 Hk1].
    split.
    + destruct Hsu1, Hg. split; simpl in *; congruence.
    + etrans; [exact Hg1|]. etrans; [|exact Hg]. by split.
    + by rewrite Hl.
    + intros p. rewrite Hm. simpl.
      destruct (decide (p = j)) as [->|Hne].
      * rewrite list_lookup_insert_eq by lia.
        rewrite decide_False by lia. by rewrite decide_True by lia.
      * rewrite list_lookup_insert_ne by done. rewrite Hm1.
        destruct (decide (p < S j)%nat), (decide (p < j)%nat); try done; lia.
    + intros q c b Hc.
      destruct (Hb1 q c b Hc) as (blk & Hblk & Hci & Hri).
      exists (if decide (b ∈ above) then lowered blk else blk).
      split; [by apply Hbs|].
      destruct (decide (b ∈ above)) as [Hb|Hb].
      * apply Hin in Hb as [c' Hc'].
        destruct (indexed_inj w q c (j - 1) c' b (gk_indexed _ _ Hok) Hc Hc')
          as [-> ->].
        simpl. split; [done|]. rewrite Hri.
        rewrite decide_False by lia. rewrite decide_True by lia. lia.
      * split; [done|]. rewrite Hri.
        assert (q <> (j - 1)%nat).
        { intros ->. apply Hb, Hin. by exists c. }
        destruct (decide (S j - 1 <= q < length (maze w) - 1)%nat),
                 (decide (j - 1 <= q < length (maze w) - 1)%nat); try done; lia.
    + intros b blk Hb. destruct (Hk1 b blk Hb) as (blk1 & Hblk1 & Hw1 & Hr1).
      exists (if decide (b ∈ above) then lowered blk1 else blk1).
      split; [by apply Hbs|].
      destruct (decide (b ∈ above)); simpl; (split; [done | lia]).
Qed.

(** The engine after the grid part of [shiftMaze] (everything before
    [shiftPaths]), against the engine before. *)
Record shifted (n : Z) (w w' : Engine) : Prop := {
  sd_ok : grid_ok n w';
  sd_only : grid_only w w';
  sd_wired : wiredFrom 1 w';
  sd_down : forall q c b,
    cell w (Z.of_nat q) (Z.of_nat c) = Some b ->
    (S q < length (maze w))%nat ->
    cell w' (Z.of_nat (S q)) (Z.of_nat c) = Some b;
  sd_up : forall p c b,
    cell w' (Z.of_nat (S p)) (Z.of_nat c) = Some b ->
    cell w (Z.of_nat p) (Z.of_nat c) = Some b /\ (S p < length (maze w))%nat;
  sd_fresh : forall c b,
    cell w' 0 (Z.of_nat c) = Some b -> (length (blockStore w) <= b)%nat;
  sd_kept : forall b blk,
    blockStore w !! b = Some blk ->
    exists blk', blockStore w' !! b = Some blk' /\
      (isWall blk = false -> isWall blk' = false) /\
      rowIndex blk <= rowIndex blk';
  sd_top : forall c b,
    cell w' 0 (Z.of_nat c) = Some b ->
    exists blk, blockStore w' !! b = Some blk /\
      adjacentBlocks blk = [] /\ isWall blk = true
}.

(** [shiftMaze] up to the call of [shiftPaths]. *)
Definition shiftGrid : M unit :=
  rows <- gets maze ;;
  bottom <- rowAt (Z.of_nat (length rows) - 1) ;;
  forEach bottom (fun b => modifyBlock b (set_adjacentBlocks [])) ;;
  forEach (reverse (drop 1 (upto (length rows)))) (fun i =>
    above <- rowAt (i - 1) ;;
    modify (fun w => set_maze (js_set (Z.to_nat i) above (maze w)) w) ;;
    forEach above moveBlockDown) ;;
  createNewRow ;;
  resetAdjacentBlocks.

Lemma bind_assoc {A B C} (m : M A) (f : A -> M B) (g : B -> M C) w :
  bind (bind m f) g w = bind m (fun a => bind (f a) g) w.
Proof. unfold bind. by destruct (m w) as [[]]. Qed.

Lemma bind_ext {A B} (m : M A) (f g : A -> M B) w :
  (forall a w', f a w' = g a w') -> bind m f w = bind m g w.
Proof. intros H. unfold bind. by destruct (m w) as [[]]. Qed.

Lemma shiftMaze_split fuel w :
  shiftMaze fuel w = (shiftGrid ;; shiftPaths fuel) w.
Proof.
  unfold shiftMaze, shiftGrid. symmetry.
  rewrite bind_assoc. apply bind_ext. intros rows w1.
  rewrite bind_assoc. apply bind_ext. intros bottom w2.
  rewrite bind_assoc. apply bind_ext. intros ? w3.
  rewrite bind_assoc. apply bind_ext. intros ? w4.
  rewrite bind_assoc. apply bind_ext. intros ? w5.
  done.
Qed.

Lemma carved_kept_floor w w' b blk :
  Forall2 carved (blockStore w) (blockStore w') ->
  blockStore w !! b = Some blk ->
  exists blk', blockStore w' !! b = Some blk' /\
    (isWall blk = false -> isWall blk' = false) /\
    rowIndex blk <= rowIndex blk'.
Proof.
  intros Hbs Hb.
  destruct (Forall2_lookup_l _ _ _ _ _ Hbs Hb) as (blk' & Hb' & (Hri & _ & Hw)).
  exists blk'. split; [done|]. split; [done | lia].
Qed.

Lemma wp_post {D A} (m : M A) (Q Q' : A -> Engine -> Prop) E w :
  wpd D m Q (fun _ => False) w ->
  (forall a w', Q a w' -> Q' a w') ->
  wpd D m Q' E w.
Proof. intros H HQ. eapply wp_mono; [exact H | exact HQ | done]. Qed.

Lemma clear_list {D} (l : list ref) w :
  (forall b, b ∈ l -> is_Some (blockStore w !! b)) ->
  wpd D (forEach l (fun b => modifyBlock b (set_adjacentBlocks [])))
    (fun _ w' => round_frame w w' /\ grid_only w w') (fun _ => False) w.
Proof.
  intros Hval.
  apply (wp_forEach l _ (fun w' => round_frame w w' /\ grid_only w w')).
  { by split. }
  intros b w1 Hb [Hr Hg].
  destruct (Hval b Hb) as [blk Hblk].
  destruct (Forall2_lookup_l _ _ _ _ _ (rf_blocks _ _ Hr) Hblk) as (blk1 & Hblk1 & _).
  apply wp_modifyBlock; [|congruence].
  intros blk' Hblk'. rewrite Hblk1 in Hblk'. injection Hblk' as <-.
  split.
  - etrans; [exact Hr|]. split; try done; simpl.
    eapply Forall2_insert_r; [apply _ | done | apply carved_set_adjacentBlocks].
  - etrans; [exact Hg|]. by split.
Qed.

Lemma shiftGrid_spec {D} n w :
  grid_ok n w -> 0 <= n ->
  wpd D shiftGrid (fun _ w1 => shifted n w w1) (fun _ => False) w.
Proof.
  intros Hok Hn.
  assert (HL : length (maze w) = rowCount n) by apply Hok.
  assert (HL1 : (1 <= length (maze w))%nat) by (unfold rowCount in HL; lia).
  destruct (lookup_lt_is_Some_2 (maze w) (length (maze w) - 1)) as [bottom Hbottom];
    [lia|].
  unfold shiftGrid. wp_step. wp_step. wp_step.
  replace (Z.of_nat (length (maze w)) - 1) with (Z.of_nat (length (maze w) - 1)) by lia.
  apply (wp_rowAt _ bottom); [done|].
  (* the ties of the bottom row *)
  wp_step. eapply wp_post; [apply (clear_list bottom w) |].
  { intros b Hb.
    destruct (grid_ok_block n w b Hok) as (blk & Hblk & _); [|by exists blk].
    apply elem_of_concat. exists bottom.
    split; [done | by eapply list_elem_of_lookup_2]. }
  intros ? w1 [Hr1 Hg1]. simpl.
  assert (Hok1 : grid_ok n w1) by (by eapply grid_ok_round).
  assert (Hm1 : maze w1 = maze w) by apply Hr1.
  (* the rows move down *)
  wp_step. eapply wp_post;
    [apply (wp_downto _ _ (fun j w2 => shifting n w1 j w2)) |].
  { rewrite <- Hm1. by apply shifting_start. }
  { intros j w2 Hj Hs. apply (shifting_round n w1 j w2 Hok1); [|done].
    rewrite Hm1. lia. }
  intros ? w2 Hs. simpl. rewrite Nat.min_l in Hs by lia.
  pose proof (shifting_length _ _ _ _ Hs) as Hlen2. rewrite Hm1 in Hlen2.
  (* the new row *)
  unfold createNewRow. wp_step. wp_step. wp_step. wp_step.
  unfold js_set.
  destruct (Nat.ltb_spec 0 (length (maze w2))) as [_|?]; [|lia].
  set (w3 := set_maze (<[0%nat:=[]]> (maze w2)) w2).
  assert (Hrow : forall p row, maze w2 !! S p = Some row <->
                    maze w !! p = Some row /\ (S p < length (maze w))%nat).
  { intros p row. rewrite (sh_maze _ _ _ _ Hs), Hm1.
    rewrite decide_False by lia. simpl. rewrite Nat.sub_0_r.
    destruct (decide (S p < length (maze w))%nat); [by intuition|].
    split; [done | by intros [_ ?]]. }
  assert (Hsu3 : setup n w3).
  { destruct (sh_setup _ _ _ _ Hs). by split. }
  assert (Hix3 : indexed w3).
  { intros i k b (row & _ & _ & Hi & Hk)%cell_Some.
    rewrite !Nat2Z.id in Hi, Hk. simpl in Hi.
    destruct i as [|p].
    { rewrite list_lookup_insert_eq in Hi by lia. injection Hi as <-. done. }
    rewrite list_lookup_insert_ne in Hi by done.
    apply Hrow in Hi as [Hi Hlt].
    assert (Hc : cell w1 (Z.of_nat p) (Z.of_nat k) = Some b).
    { rewrite (cell_frame w w1) by done. by eapply cell_lookup. }
    destruct (sh_blocks _ _ _ _ Hs _ _ _ Hc) as (blk & Hblk & Hbi & Hri).
    exists blk. split; [done|]. split; [|done].
    rewrite Hri. rewrite decide_True; [done|]. rewrite Hm1. lia. }
  replace 0 with (Z.of_nat 0) by done.
  eapply wp_post; [apply (fillRow_spec n 0 w3 Hsu3) |].
  { simpl. by rewrite list_lookup_insert_eq by lia. }
  { lia. }
  intros ? w4 ->. set (w4 := fillState w3 0 (rowWidth n)).
  assert (Hmaze4 : forall p row, maze w4 !! S p = Some row <->
                      maze w !! p = Some row /\ (S p < length (maze w))%nat).
  { intros p row. simpl. rewrite list_insert_insert_eq.
    rewrite list_lookup_insert_ne by done. apply Hrow. }
  assert (Hmaze40 : maze w4 !! 0%nat =
                    Some (seq (length (blockStore w2)) (rowWidth n))).
  { simpl. rewrite list_insert_insert_eq.
    by rewrite list_lookup_insert_eq by lia. }
  assert (Hok4 : grid_ok n w4).
  { split.
    - destruct Hsu3. by split.
    - split.
      + simpl. rewrite !length_insert, Hlen2. apply Hok.
      + apply Forall_lookup. intros [|p] row Hp.
        * rewrite Hmaze40 in Hp. injection Hp as <-. by rewrite length_seq.
        * apply Hmaze4 in Hp as [Hp _].
          destruct Hok as [_ [_ Hrows] _]. rewrite Forall_lookup in Hrows.
          by eapply Hrows.
    - apply indexed_fillState; [done|].
      simpl. by rewrite list_lookup_insert_eq by lia. }
  (* the neighbour lists, twice *)
  eapply wp_post; [apply (resetAdjacentBlocks_spec n w4 Hok4) |].
  intros ? w5 (Hr5 & Hg5 & _ & _ & Hun5). simpl.
  assert (Hok5 : grid_ok n w5) by (by eapply grid_ok_round).
  eapply wp_post; [apply (resetAdjacentBlocks_spec n w5 Hok5) |].
  intros ? w6 (Hr6 & Hg6 & Hw6 & _ & Hun6). simpl.
  assert (Hm5 : maze w5 = maze w4) by apply Hr5.
  assert (Hm6 : maze w6 = maze w4).
  { etrans; [apply Hr6 | apply Hr5]. }
  assert (Htop : forall c b, cell w4 0 (Z.of_nat c) = Some b ->
            (c < rowWidth n)%nat /\ b = (length (blockStore w2) + c)%nat).
  { intros c b (row & _ & _ & Hp & Hc)%cell_Some.
    rewrite Nat2Z.id in Hc. change (Z.to_nat 0) with 0%nat in Hp.
    rewrite Hmaze40 in Hp. injection Hp as <-.
    pose proof (lookup_lt_Some _ _ _ Hc) as Hlt. rewrite length_seq in Hlt.
    rewrite lookup_seq_lt in Hc by done. by injection Hc as <-. }
  split.
  - by eapply grid_ok_round.
  - etrans; [exact Hg1|]. etrans; [apply Hs|].
    etrans; [|exact Hg6]. etrans; [|exact Hg5]. by split.
  - done.
  - intros q c b (row & _ & _ & Hq & Hc)%cell_Some Hlt.
    rewrite !Nat2Z.id in Hq, Hc.
    apply (cell_lookup _ _ _ row); [|done]. rewrite Hm6. by apply Hmaze4.
  - intros p c b (row & _ & _ & Hp & Hc)%cell_Some.
    rewrite !Nat2Z.id in Hp, Hc. rewrite Hm6 in Hp.
    apply Hmaze4 in Hp as [Hp Hlt].
    split; [|done]. by apply (cell_lookup _ _ _ row).
  - intros c b Hcb. rewrite (cell_frame w4 w6) in Hcb by done.
    destruct (Htop c b Hcb) as [_ ->].
    rewrite (sh_length _ _ _ _ Hs).
    rewrite <- (Forall2_length _ _ _ (rf_blocks _ _ Hr1)). lia.
  - intros b blk Hb.
    destruct (carved_kept_floor w w1 b blk (rf_blocks _ _ Hr1) Hb)
      as (blk1 & Hb1 & Hw1 & Hri1).
    destruct (sh_kept _ _ _ _ Hs b blk1 Hb1) as (blk2 & Hb2 & Hw2 & Hri2).
    assert (Hb4 : blockStore w4 !! b = Some blk2).
    { simpl. by apply lookup_app_l_Some. }
    destruct (carved_kept_floor w4 w5 b blk2 (rf_blocks _ _ Hr5) Hb4)
      as (blk5 & Hb5 & Hw5 & Hri5).
    destruct (carved_kept_floor w5 w6 b blk5 (rf_blocks _ _ Hr6) Hb5)
      as (blk6 & Hb6 & Hw6' & Hri6).
    exists blk6. split; [done|]. split; [|lia].
    intros Hf. apply Hw6', Hw5. rewrite Hw2. by apply Hw1.
  - intros c b Hcb. rewrite (cell_frame w4 w6) in Hcb by done.
    destruct (Htop c b Hcb) as [Hc ->].
    exists (mkBlock true 0 (Z.of_nat c) [] 0). split; [|done].
    rewrite Hun6, Hun5.
    + simpl. rewrite lookup_app_r by lia.
      replace (length (blockStore w2) + c - length (blockStore w2))%nat
        with c by lia.
      by apply freshRow_lookup.
    + intros i k Hi Hik.
      destruct (indexed_inj w4 i k 0 c _ (gk_indexed _ _ Hok4) Hik Hcb). lia.
    + intros i k Hi Hik. rewrite (cell_frame w4 w5) in Hik by done.
      destruct (indexed_inj w4 i k 0 c _ (gk_indexed _ _ Hok4) Hik Hcb). lia.
Qed.

Lemma shiftMaze_unfold {D} n fuel w (Q : unit -> Engine -> Prop) E :
  grid_ok n w -> 0 <= n ->
  (forall w1, shifted n w w1 -> wpd D (shiftPaths fuel) Q E w1) ->
  wpd D (shiftMaze fuel) Q E w.
Proof.
  intros Hok Hn Hrest. unfold wpd. rewrite shiftMaze_split.
  change (wpd D (shiftGrid ;; shiftPaths fuel) Q E w).
  apply wp_bind. eapply wp_post; [by apply shiftGrid_spec|].
  intros ? w1 Hs. by apply Hrest.
Qed.

(** * Paths *)

(** [b] is below the top row, going by its own rowIndex. *)
Definition belowTop (w : Engine) (b : ref) : Prop :=
  forall blk, blockStore w !! b = Some blk -> 1 <= rowIndex blk.

(** [b] is a floor block, and below the top row. *)
Definition floor (w : Engine) (b : ref) : Prop :=
  exists blk, blockStore w !! b = Some blk /\ isWall blk = false /\
              1 <= rowIndex blk.

(** The neighbour list of every block of the grid holds blocks one step
    away from it. *)
Definition adjacent_ok (w : Engine) : Prop :=
  forall a blk x,
    inGrid w a -> blockStore w !! a = Some blk -> x ∈ adjacentBlocks blk ->
    exists xblk, blockStore w !! x = Some xblk /\ stepApart blk xblk.

(** Consecutive blocks of [l] that are both still in the grid are one
    step apart. *)
Definition linked (w : Engine) (l : list ref) : Prop :=
  forall i a b ablk bblk,
    l !! i = Some a -> l !! S i = Some b ->
    inGrid w a -> inGrid w b ->
    blockStore w !! a = Some ablk -> blockStore w !! b = Some bblk ->
    stepApart ablk bblk.

(** What holds of every Path object and every seed array at every point
    of a generation pass. *)
Record paths_ok (w : Engine) : Prop := {
  po_floor : forall p pth b,
    pathStore w !! p = Some pth -> b ∈ subPath pth -> floor w b;
  po_seeds : forall a arr b,
    arrayStore w !! a = Some arr -> b ∈ arr -> floor w b;
  po_linked : forall p pth,
    pathStore w !! p = Some pth -> linked w (subPath pth);
  po_adjacent : adjacent_ok w
}.

(** A block after a change that leaves its indices and its neighbour
    list alone and does not wall it up. *)
Definition kept (b b' : Block) : Prop :=
  rowIndex b' = rowIndex b /\ blockIndex b' = blockIndex b /\
  adjacentBlocks b' = adjacentBlocks b /\
  (isWall b = false -> isWall b' = false).

#[export] Instance kept_preorder : PreOrder kept.
Proof.
  split.
  - by intros b.
  - intros a b c (?&?&?&?) (?&?&?&?). repeat split; try congruence. auto.
Qed.

(** What scanning the neighbours of a block changes: wall counts. *)
Record scan_frame (w w' : Engine) : Prop := {
  sc_n : numberOfRowBlocks w' = numberOfRowBlocks w;
  sc_maze : maze w' = maze w;
  sc_main : mainPath w' = mainPath w;
  sc_seeds : pathSeeds w' = pathSeeds w;
  sc_second : secondSeeds w' = secondSeeds w;
  sc_splice : pathsToSplice w' = pathsToSplice w;
  sc_paths : paths w' = paths w;
  sc_pathStore : pathStore w' = pathStore w;
  sc_arrays : arrayStore w' = arrayStore w;
  sc_rng : rng w' = rng w;
  sc_blocks :
    Forall2 (fun b b' => kept b b' /\ isWall b' = isWall b)
      (blockStore w) (blockStore w')
}.

#[export] Instance scan_frame_preorder : PreOrder scan_frame.
Proof.
  split.
  - intros w. split; try done. apply Forall2_same_length_lookup_2; [done|].
    intros i a b Ha Hb. rewrite Ha in Hb. injection Hb as <-. by split.
  - intros a b c [] []. split; try congruence.
    eapply Forall2_trans; [|done|done].
    intros x y z [? ?] [? ?]. split; [by etrans | congruence].
Qed.
#[export] Hint Resolve scan_frame_preorder : keeps.

Lemma floor_kept w w' b :
  Forall2 kept (blockStore w) (blockStore w') -> floor w b -> floor w' b.
Proof.
  intros Hbs (blk & Hb & Hf & Hr).
  destruct (Forall2_lookup_l _ _ _ _ _ Hbs Hb) as (blk' & Hb' & (Hri&_&_&Hw)).
  exists blk'. rewrite Hri. auto.
Qed.

Lemma stepApart_kept a a' b b' :
  kept a a' -> kept b b' -> stepApart a b -> stepApart a' b'.
Proof.
  intros (Ha1 & Ha2 & _) (Hb1 & Hb2 & _). unfold stepApart.
  by rewrite Ha1, Ha2, Hb1, Hb2.
Qed.

Lemma paths_ok_kept w w' :
  maze w' = maze w -> pathStore w' = pathStore w ->
  arrayStore w' = arrayStore w ->
  Forall2 kept (blockStore w) (blockStore w') ->
  paths_ok w -> paths_ok w'.
Proof.
  intros Hm Hp Ha Hbs [Hfl Hse Hli Had].
  assert (Hback : forall b blk', blockStore w' !! b = Some blk' ->
            exists blk, blockStore w !! b = Some blk /\ kept blk blk').
  { intros b blk' Hb'. by apply (Forall2_lookup_r _ _ _ _ _ Hbs). }
  split.
  - intros p pth b Hpth Hb. rewrite Hp in Hpth.
    eapply floor_kept; [done|]. by eapply Hfl.
  - intros a arr b Harr Hb. rewrite Ha in Harr.
    eapply floor_kept; [done|]. by eapply Hse.
  - intros p pth Hpth i a b ablk' bblk' Hi HSi Hga Hgb Ha' Hb'.
    rewrite Hp in Hpth. unfold inGrid in *. rewrite Hm in Hga, Hgb.
    destruct (Hback a ablk' Ha') as (ablk & Hablk & Hka).
    destruct (Hback b bblk' Hb') as (bblk & Hbblk & Hkb).
    eapply stepApart_kept; [done | done |].
    by eapply (Hli p pth Hpth i a b).
  - intros a ablk' x Hga Ha' Hx. unfold inGrid in Hga. rewrite Hm in Hga.
    destruct (Hback a ablk' Ha') as (ablk & Hablk & Hka).
    assert (Hx' : x ∈ adjacentBlocks ablk).
    { destruct Hka as (_&_&<-&_). done. }
    destruct (Had a ablk x Hga Hablk Hx') as (xblk & Hxblk & Hstep).
    destruct (Forall2_lookup_l _ _ _ _ _ Hbs Hxblk) as (xblk' & Hxblk' & Hkx).
    exists xblk'. split; [done|]. by eapply stepApart_kept.
Qed.

Lemma paths_ok_scan w w' : scan_frame w w' -> paths_ok w -> paths_ok w'.
Proof.
  intros []. apply paths_ok_kept; try done.
  eapply Forall2_impl; [done|]. by intros ? ? [? ?].
Qed.

(** Changes to the globals only. *)
Lemma paths_ok_globals w w' :
  maze w' = maze w -> blockStore w' = blockStore w ->
  pathStore w' = pathStore w -> arrayStore w' = arrayStore w ->
  paths_ok w -> paths_ok w'.
Proof.
  intros Hm Hb Hp Ha. apply paths_ok_kept; try done.
  rewrite Hb. apply Forall2_same_length_lookup_2; [done|].
  intros i a b Hi Hi'. rewrite Hi in Hi'. by injection Hi' as <-.
Qed.

(** ** Scanning the neighbours *)

Lemma scan_modifyBlock b f :
  (forall blk, kept blk (f blk) /\ isWall (f blk) = isWall blk) ->
  keeps scan_frame (modifyBlock b f).
Proof.
  intros Hf w. apply wp_modifyBlock; [|by intros; reflexivity].
  intros blk Hb. split; try done; simpl.
  assert (HR : Reflexive (fun b b' : Block => kept b b' /\ isWall b' = isWall b))
    by (intros x; by split).
  by eapply (@Forall2_insert_r _ _ HR _ _ blk).
Qed.

Lemma scan_checkForWallBlocks b : keeps scan_frame (checkForWallBlocks b).
Proof.
  unfold checkForWallBlocks. keeps_auto; apply scan_modifyBlock; by intros.
Qed.
#[export] Hint Resolve scan_checkForWallBlocks : keeps.

Lemma scan_subPathCandidate b : keeps scan_frame (subPathCandidate b).
Proof. unfold subPathCandidate. keeps_auto. Qed.

Lemma scan_mainCandidate c b : keeps scan_frame (mainCandidate c b).
Proof. unfold mainCandidate. keeps_auto. Qed.

Lemma scan_extendMainCandidate c b : keeps scan_frame (extendMainCandidate c b).
Proof. unfold extendMainCandidate. keeps_auto. Qed.

Lemma scan_extendCandidate b : keeps scan_frame (extendCandidate b).
Proof. unfold extendCandidate. keeps_auto. Qed.

Lemma keeps_anything {A} (m : M A) : keeps (fun _ _ => True) m.
Proof. intros w. unfold wpd. by destruct (m w) as [[]]. Qed.

(** The conjuncts of a test that passed. *)
Ltac split_tests H :=
  repeat match type of H with
         | _ && _ = true => let H' := fresh H in apply andb_prop in H as [H H']
         end.

(** Both ways out of the [if] the code is at. *)
Ltac case_test H :=
  match goal with
  | |- wpd _ (if ?c then _ else _) _ _ _ => destruct c eqn:H
  end; cbv iota.

(** What a neighbour test contributes is copies of the neighbour, which
    is then below the top row. *)
Lemma subPathCandidate_self b w :
  wp (subPathCandidate b)
    (fun xs w' => Forall (fun x => x = b) xs /\ (xs <> [] -> belowTop w' b))
    (fun _ => True) w.
Proof.
  unfold subPathCandidate. wp_step.
  apply (wp_keeps (fun _ _ => True)); [apply keeps_anything | intros ? w1 _ | done].
  wp_step. apply wp_getBlock; [|done]. intros nb Hnb.
  wp_step. wp_step. wp_step. wp_step.
  case_test H1.
  { wp_step. split; [by repeat constructor|]. intros _ blk Hblk.
    rewrite Hnb in Hblk. injection Hblk as <-. split_tests H1. lia. }
  case_test H2; wp_step; (split; [by repeat constructor|]); [|done].
  intros _ blk Hblk. rewrite Hnb in Hblk. injection Hblk as <-.
  split_tests H2. lia.
Qed.

Lemma extendCandidate_self b w :
  wp (extendCandidate b)
    (fun xs w' => Forall (fun x => x = b) xs /\ (xs <> [] -> belowTop w' b))
    (fun _ => True) w.
Proof.
  unfold extendCandidate. wp_step.
  apply (wp_keeps (fun _ _ => True)); [apply keeps_anything | intros ? w1 _ | done].
  wp_step. apply wp_getBlock; [|done]. intros nb Hnb.
  wp_step. wp_step. wp_step. wp_step.
  case_test H1; wp_step; (split; [by repeat constructor|]); [|done].
  intros _ blk Hblk. rewrite Hnb in Hblk. injection Hblk as <-.
  split_tests H1. lia.
Qed.

Lemma extendMainCandidate_self c b w :
  wp (extendMainCandidate c b)
    (fun xs w' => Forall (fun x => x = b) xs /\ (xs <> [] -> belowTop w' b))
    (fun _ => True) w.
Proof.
  unfold extendMainCandidate. wp_step.
  apply (wp_keeps (fun _ _ => True)); [apply keeps_anything | intros ? w1 _ | done].
  wp_step. apply wp_getBlock; [|done]. intros nb Hnb.
  wp_step. apply wp_getBlock; [|done]. intros lb Hlb.
  wp_step. wp_step.
  case_test H1.
  { wp_step. split; [by repeat constructor|]. intros _ blk Hblk.
    rewrite Hnb in Hblk. injection Hblk as <-. split_tests H1. lia. }
  case_test H2; wp_step; (split; [by repeat constructor|]); [|done].
  intros _ blk Hblk. rewrite Hnb in Hblk. injection Hblk as <-.
  split_tests H2. lia.
Qed.

Lemma mainCandidate_self c b w :
  wp (mainCandidate c b)
    (fun xs w' => Forall (fun x => x = b) xs /\ (xs <> [] -> belowTop w' b))
    (fun _ => True) w.
Proof.
  unfold mainCandidate. wp_step. apply wp_getBlock; [|done]. intros nb Hnb.
  wp_step. apply wp_getBlock; [|done]. intros cur Hcur.
  wp_step. wp_step.
  case_test H1; [|wp_step; by split].
  wp_step.
  apply (wp_keeps scan_frame); [apply scan_checkForWallBlocks | | done].
  intros ? w3 Hs. cbv beta.
  wp_step. apply wp_getBlock; [|done]. intros nb' Hnb'.
  wp_step. split.
  - repeat (apply Forall_app; split);
      repeat match goal with |- context [if ?c then _ else _] => destruct c end;
      by repeat constructor.
  - intros _ blk Hblk. rewrite Hnb' in Hblk. injection Hblk as <-.
    destruct (Forall2_lookup_l _ _ _ _ _ (sc_blocks _ _ Hs) Hnb)
      as (blk' & Hblk' & ((Hri & _) & _)).
    rewrite Hnb' in Hblk'. injection Hblk' as <-. rewrite Hri.
    split_tests H1. lia.
Qed.

Lemma belowTop_scan w w' b : scan_frame w w' -> belowTop w b <-> belowTop w' b.
Proof.
  intros Hs. split; intros Hb blk Hblk.
  - destruct (Forall2_lookup_r _ _ _ _ _ (sc_blocks _ _ Hs) Hblk)
      as (blk0 & Hblk0 & ((Hri & _) & _)).
    rewrite Hri. by apply Hb.
  - destruct (Forall2_lookup_l _ _ _ _ _ (sc_blocks _ _ Hs) Hblk)
      as (blk' & Hblk' & ((Hri & _) & _)).
    rewrite <- Hri. by apply Hb.
Qed.

(** Scanning the neighbours [l] of a block: the candidates are among
    [l] and below the top row, and only wall counts change. *)
Lemma scan_collect (f : ref -> M (list ref)) l w :
  (forall a, keeps scan_frame (f a)) ->
  (forall a w, wp (f a)
     (fun xs w' => Forall (fun x => x = a) xs /\ (xs <> [] -> belowTop w' a))
     (fun _ => True) w) ->
  wp (collect l f)
    (fun xs w' => scan_frame w w' /\ Forall (fun x => x ∈ l /\ belowTop w' x) xs)
    (fun w' => scan_frame w w') w.
Proof.
  intros Hk Hself.
  eapply wp_mono;
    [apply (wp_collect l f (fun w' => scan_frame w w')
              (fun x => x ∈ l /\ belowTop w x)); [done|] | | done].
  - intros a w1 Ha Hw1.
    eapply wp_mono; [apply (wp_and _ _ _ _ _ _ (Hk a w1) (Hself a w1)) | |].
    + intros xs w2 [H2 [Hxs Hrow]]. simpl in *. split; [by etrans|].
      destruct xs as [|x xs']; [constructor|].
      assert (Hba : belowTop w a).
      { apply (belowTop_scan w w2); [by etrans | by apply Hrow]. }
      eapply Forall_impl; [exact Hxs|]. by intros y ->.
    + intros w2 [H2 _]. simpl in *. by etrans.
  - intros xs w' [Hs Hxs]. split; [done|].
    eapply Forall_impl; [exact Hxs|]. intros x [? ?]. split; [done|].
    by apply (belowTop_scan w w').
Qed.

(** ** Growing a path by one block *)

(** The path [p] ends with the block [c]. *)
Definition endsWith (w : Engine) (p : pref) (c : ref) : Prop :=
  exists pth, pathStore w !! p = Some pth /\ last (subPath pth) = Some c.

Lemma linked_app w l b :
  linked w l ->
  (forall a ablk bblk, last l = Some a -> inGrid w a -> inGrid w b ->
     blockStore w !! a = Some ablk -> blockStore w !! b = Some bblk ->
     stepApart ablk bblk) ->
  linked w (l ++ [b]).
Proof.
  intros Hl Hlast i x y xblk yblk Hi HSi Hgx Hgy Hx Hy.
  destruct (decide (S i < length l)%nat) as [Hlt|Hge].
  - rewrite lookup_app_l in Hi, HSi by lia. by eapply (Hl i x y).
  - assert (S i = length l).
    { apply lookup_lt_Some in HSi. rewrite length_app in HSi. simpl in HSi. lia. }
    rewrite lookup_app_l in Hi by lia.
    rewrite lookup_app_r in HSi by lia.
    replace (S i - length l)%nat with 0%nat in HSi by lia.
    injection HSi as <-.
    apply (Hlast x xblk yblk); try done.
    rewrite last_lookup. by replace (Nat.pred (length l)) with i by lia.
Qed.

Lemma linked_drop w l : linked w l -> linked w (drop 1 l).
Proof.
  intros Hl i x y xblk yblk Hi HSi. rewrite lookup_drop in Hi, HSi.
  by apply (Hl (1 + i)%nat x y).
Qed.

Lemma paths_ok_setPath w p pth :
  paths_ok w ->
  (forall b, b ∈ subPath pth -> floor w b) ->
  linked w (subPath pth) ->
  paths_ok (set_pathStore (<[p := pth]> (pathStore w)) w).
Proof.
  intros [Hfl Hse Hli Had] Hf Hl. split; try done; simpl.
  - intros q qth b Hq Hb. destruct (decide (q = p)) as [->|Hne].
    + pose proof (lookup_lt_Some _ _ _ Hq) as Hlt. rewrite length_insert in Hlt.
      rewrite list_lookup_insert_eq in Hq by done. injection Hq as <-. by apply Hf.
    + rewrite list_lookup_insert_ne in Hq by done. by eapply Hfl.
  - intros q qth Hq. destruct (decide (q = p)) as [->|Hne].
    + pose proof (lookup_lt_Some _ _ _ Hq) as Hlt. rewrite length_insert in Hlt.
      rewrite list_lookup_insert_eq in Hq by done. by injection Hq as <-.
    + rewrite list_lookup_insert_ne in Hq by done. by eapply Hli.
Qed.

Lemma paths_ok_newPath w :
  paths_ok w -> paths_ok (set_pathStore (pathStore w ++ [mkPath [] 0]) w).
Proof.
  intros [Hfl Hse Hli Had]. split; try done; simpl.
  - intros q qth b Hq Hb. apply lookup_app_Some in Hq as [Hq|[_ Hq]].
    + by eapply Hfl.
    + apply list_lookup_singleton_Some in Hq as [_ <-]. by apply elem_of_nil in Hb.
  - intros q qth Hq. apply lookup_app_Some in Hq as [Hq|[_ Hq]].
    + by eapply Hli.
    + apply list_lookup_singleton_Some in Hq as [_ <-]. by intros i x y ? ? Hi.
Qed.

Lemma paths_ok_pushArray w a arr b :
  paths_ok w -> arrayStore w !! a = Some arr -> floor w b ->
  paths_ok (set_arrayStore (<[a := arr ++ [b]]> (arrayStore w)) w).
Proof.
  intros [Hfl Hse Hli Had] Ha Hb. split; try done; simpl.
  intros a' arr' x Ha' Hx. destruct (decide (a' = a)) as [->|Hne].
  - rewrite list_lookup_insert_eq in Ha' by (by eapply lookup_lt_Some).
    injection Ha' as <-. apply elem_of_app in Hx as [Hx|Hx%list_elem_of_singleton].
    + by eapply Hse.
    + by subst.
  - rewrite list_lookup_insert_ne in Ha' by done. by eapply Hse.
Qed.

Lemma paths_ok_newArray w :
  paths_ok w -> paths_ok (set_arrayStore (arrayStore w ++ [[]]) w).
Proof.
  intros [Hfl Hse Hli Had]. split; try done; simpl.
  intros a arr x Ha Hx. apply lookup_app_Some in Ha as [Ha|[_ Ha]].
  - by eapply Hse.
  - apply list_lookup_singleton_Some in Ha as [_ <-]. by apply elem_of_nil in Hx.
Qed.

Lemma paths_ok_carve w b blk :
  paths_ok w -> blockStore w !! b = Some blk ->
  paths_ok (set_blockStore (<[b := set_isWall false blk]> (blockStore w)) w).
Proof.
  intros Hok Hb. eapply paths_ok_kept; [| | | |exact Hok]; try done. simpl.
  eapply Forall2_insert_r; [apply _ | done | by repeat split].
Qed.

(** The engine after some draws. *)
Definition rng_only (w w' : Engine) : Prop := w' = set_rng (rng w') w.

Lemma wp_draw (Q : nat -> Engine -> Prop) (E : Engine -> Prop) w :
  (forall o w', rng_only w w' -> Q o w') -> wp mathRandom Q E w.
Proof.
  intros HQ. apply wp_mathRandom.
  - intros o v. by apply HQ.
  - apply HQ. unfold rng_only. by rewrite set_rng_same.
Qed.

(** [pick] hands out one of the candidates. *)
Lemma wp_pick l (Q : ref -> Engine -> Prop) (E : Engine -> Prop) w :
  (forall b w', b ∈ l -> rng_only w w' -> Q b w') ->
  (forall w', rng_only w w' -> E w') ->
  wp (pick l) Q E w.
Proof.
  intros HQ HE. unfold pick. wp_step.
  apply wp_draw. intros o w' Hw'. wp_step; [|by apply HE].
  apply HQ; [|done].
  apply at_index_Some in H as [_ H]. by eapply list_elem_of_lookup_2.
Qed.

(** States that differ in globals only. *)
Definition same_stores (w w' : Engine) : Prop :=
  maze w' = maze w /\ blockStore w' = blockStore w /\
  pathStore w' = pathStore w /\ arrayStore w' = arrayStore w.

Lemma rng_only_same w w' : rng_only w w' -> same_stores w w'.
Proof. unfold rng_only. intros ->. by repeat split. Qed.

Lemma paths_ok_same w w' : same_stores w w' -> paths_ok w -> paths_ok w'.
Proof. intros (?&?&?&?). by apply paths_ok_globals. Qed.

Lemma endsWith_same w w' p c : same_stores w w' -> endsWith w p c -> endsWith w' p c.
Proof. intros (?&?&Hp&?) (pth & ? & ?). exists pth. by rewrite Hp. Qed.

Lemma floor_same w w' b : same_stores w w' -> floor w b -> floor w' b.
Proof. intros (?&Hb&?&?) (blk & ? & ?). exists blk. by rewrite Hb. Qed.

(** Carving the block picked among the neighbours of [c]. *)
Lemma carve_ok w c b (Q : unit -> Engine -> Prop) (E : Engine -> Prop) :
  paths_ok w ->
  (forall cblk, blockStore w !! c = Some cblk -> b ∈ adjacentBlocks cblk) ->
  belowTop w b ->
  (forall w', paths_ok w' -> floor w' b ->
     (forall cblk', blockStore w' !! c = Some cblk' -> b ∈ adjacentBlocks cblk') ->
     w' = set_blockStore (blockStore w') w ->
     Q tt w') ->
  E w ->
  wp (modifyBlock b (set_isWall false)) Q E w.
Proof.
  intros Hok Hb Hrow HQ HE. apply wp_modifyBlock; [|done].
  intros blk Hblk. apply HQ; try done.
  - by apply paths_ok_carve.
  - exists (set_isWall false blk). split; [|split; [done | simpl; by apply Hrow]]. simpl.
    by rewrite list_lookup_insert_eq by (by eapply lookup_lt_Some).
  - simpl. intros cblk' Hc'. destruct (decide (c = b)) as [->|Hne].
    + rewrite list_lookup_insert_eq in Hc' by (by eapply lookup_lt_Some).
      injection Hc' as <-. simpl. by apply Hb.
    + rewrite list_lookup_insert_ne in Hc' by done. by apply Hb.
Qed.

(** Pushing a carved neighbour of the last block on the path. *)
Lemma push_ok w p c b (Q : unit -> Engine -> Prop) (E : Engine -> Prop) :
  paths_ok w -> endsWith w p c -> floor w b ->
  (forall cblk, blockStore w !! c = Some cblk -> b ∈ adjacentBlocks cblk) ->
  (forall w', paths_ok w' -> endsWith w' p b -> floor w' b ->
     w' = set_pathStore (pathStore w') w ->
     (forall pth, pathStore w' !! p = Some pth -> (2 <= length (subPath pth))%nat) ->
     Q tt w') ->
  E w ->
  wp (pushSubPath p b) Q E w.
Proof.
  intros Hok (pth & Hp & Hlast) Hfloor Hadj HQ HE.
  unfold pushSubPath. apply wp_modifyPath; [|done].
  intros pth' Hp'. rewrite Hp in Hp'. injection Hp' as <-.
  apply HQ; try done.
  - apply paths_ok_setPath; [done | |].
    + simpl. intros x [Hx|Hx%list_elem_of_singleton]%elem_of_app; [|by subst].
      by eapply (po_floor _ Hok p pth).
    + simpl. apply linked_app; [by eapply (po_linked _ Hok p)|].
      intros a ablk bblk Ha Hga Hgb Hablk Hbblk.
      rewrite Hlast in Ha. injection Ha as <-.
      destruct (po_adjacent _ Hok c ablk b Hga Hablk (Hadj _ Hablk))
        as (xblk & Hx & Hstep).
      congruence.
  - exists (set_subPath (subPath pth ++ [b]) pth). simpl. split.
    + by rewrite list_lookup_insert_eq by (by eapply lookup_lt_Some).
    + by rewrite last_snoc.
  - simpl. intros pth' Hp'.
    rewrite list_lookup_insert_eq in Hp' by (by eapply lookup_lt_Some).
    injection Hp' as <-. simpl. rewrite length_app. simpl.
    destruct (subPath pth); [done | simpl; lia].
Qed.

(** Setting a floor block aside as a seed. *)
Lemma seed_ok w a b (Q : unit -> Engine -> Prop) (E : Engine -> Prop) :
  paths_ok w -> floor w b ->
  (forall w', paths_ok w' -> w' = set_arrayStore (arrayStore w') w -> Q tt w') ->
  E w ->
  wp (pushArray a b) Q E w.
Proof.
  intros Hok Hb HQ HE. apply wp_pushArray; [|done].
  intros arr Ha. apply HQ; [|done]. by apply paths_ok_pushArray.
Qed.

(** The state of a loop that grows the path [p], whose last block is
    [c]. *)
Definition growing (p : pref) (c : ref) (w : Engine) : Prop :=
  paths_ok w /\ endsWith w p c.

Lemma growing_same w w' p c : same_stores w w' -> growing p c w -> growing p c w'.
Proof.
  intros Hs [? ?]. split; [by eapply paths_ok_same | by eapply endsWith_same].
Qed.

Lemma scan_frame_growing w w' p c :
  scan_frame w w' -> growing p c w -> growing p c w'.
Proof.
  intros Hs [Hok (pth & Hp & Hl)]. split; [by eapply paths_ok_scan|].
  exists pth. by rewrite (sc_pathStore _ _ Hs).
Qed.

Lemma scan_frame_adjacent w w' c cblk cblk' :
  scan_frame w w' -> blockStore w !! c = Some cblk ->
  blockStore w' !! c = Some cblk' -> adjacentBlocks cblk' = adjacentBlocks cblk.
Proof.
  intros Hs Hc Hc'.
  destruct (Forall2_lookup_l _ _ _ _ _ (sc_blocks _ _ Hs) Hc)
    as (x & Hx & (_&_&?&_) & _).
  congruence.
Qed.

Lemma endsWith_arrays w w' p c :
  w' = set_arrayStore (arrayStore w') w -> endsWith w p c -> endsWith w' p c.
Proof. intros -> (pth & ? & ?). by exists pth. Qed.

Lemma markPath_same w p :
  same_stores w (set_pathsToSplice (pathsToSplice w ++ [p]) w).
Proof. by repeat split. Qed.

(** The end of a round of [makeSubPath]: stop, or go on and perhaps set
    the block aside as a second seed. *)
Lemma makeSubPath_finish p (possible : list ref) a w :
  paths_ok w -> endsWith w p a -> (possible <> [] -> floor w a) ->
  wp (cur <- getBlock a;;
      pth <- getPath p;;
      (if (rowIndex cur =? 1) || (length possible =? 0)%nat
          || (distance pth <=? Z.of_nat (length (subPath pth)))
       then
         (if (length possible =? 0)%nat
             || (distance pth <=? Z.of_nat (length (subPath pth)))
          then modify (fun w0 => set_pathsToSplice (pathsToSplice w0 ++ [p]) w0)
          else ret ());;
         ret (inr ())
       else
         o <- mathRandom;;
         (if scaled o 20 <? 3
          then a0 <- gets secondSeeds;; pushArray a0 a
          else ret ());;
         ret (inl a)))
    (fun (r : ref + ()) w' =>
       paths_ok w' /\ match r with inl c' => endsWith w' p c' | inr _ => True end)
    paths_ok w.
Proof.
  intros Hok Hend Hfloor.
  wp_step. apply wp_getBlock; [|done]. intros cur Hcur.
  wp_step. apply wp_getPath; [|done]. intros pth Hpth.
  destruct ((rowIndex cur =? 1) || (length possible =? 0)%nat
            || (distance pth <=? Z.of_nat (length (subPath pth)))) eqn:Hstop.
  - wp_step.
    destruct ((length possible =? 0)%nat
              || (distance pth <=? Z.of_nat (length (subPath pth)))).
    + wp_step. wp_step. split; [|done].
      eapply paths_ok_same; [apply markPath_same | done].
    + by wp_steps.
  - apply orb_false_iff in Hstop as [[_ Hne]%orb_false_iff _].
    apply Nat.eqb_neq in Hne.
    assert (Hfl : floor w a).
    { apply Hfloor. intros ->. done. }
    wp_step. apply wp_draw. intros o w1 Hr%rng_only_same.
    wp_step. destruct (scaled o 20 <? 3).
    + wp_step. wp_step. apply seed_ok.
      * by eapply paths_ok_same.
      * by eapply floor_same.
      * intros w2 Hok2 Heq. wp_step. split; [done|].
        eapply endsWith_arrays; [done|]. by eapply endsWith_same.
      * by eapply paths_ok_same.
    + wp_steps. split; [by eapply paths_ok_same | by eapply endsWith_same].
Qed.

Lemma makeSubPath_round_ok p c w :
  growing p c w ->
  wp (makeSubPath_round p c)
    (fun r w' => paths_ok w' /\
                 match r with inl c' => endsWith w' p c' | inr _ => True end)
    paths_ok w.
Proof.
  intros Hg. unfold makeSubPath_round.
  wp_step. apply wp_getBlock; [|intros; apply Hg]. intros cblk Hc.
  wp_step. eapply wp_mono;
    [apply scan_collect; [apply scan_subPathCandidate | apply subPathCandidate_self] | |].
  2:{ intros w1 Hs. by apply (scan_frame_growing w w1 p c). }
  intros possible w1 [Hs Hposs]. simpl.
  pose proof (scan_frame_growing _ _ _ _ Hs Hg) as Hg1.
  assert (Hadj1 : forall b, b ∈ possible -> forall cblk', blockStore w1 !! c = Some cblk' ->
                            b ∈ adjacentBlocks cblk').
  { intros b Hb cblk' Hc'. rewrite (scan_frame_adjacent _ _ _ _ _ Hs Hc Hc').
    rewrite Forall_forall in Hposs. by apply Hposs. }
  assert (Hrow1 : forall b, b ∈ possible -> belowTop w1 b).
  { intros b Hb. rewrite Forall_forall in Hposs. by apply Hposs. }
  clear Hs Hg Hc Hposs.
  wp_step.
  destruct (0 <? length possible)%nat eqn:Hlen.
  - (* a block is added *)
    wp_step. apply wp_pick.
    2:{ intros w2 Hr%rng_only_same. by apply (paths_ok_same w1), Hg1. }
    intros b w2 Hb Hr.
    pose proof (rng_only_same _ _ Hr) as Hr'.
    pose proof (growing_same _ _ _ _ Hr' Hg1) as [Hok2 Hend2].
    wp_step. apply (carve_ok w2 c b); [done | | | | done].
    { intros cblk2 Hc2. apply Hadj1; [done|]. destruct Hr' as (_&<-&_). done. }
    { intros blk2 Hb2. apply (Hrow1 b Hb). destruct Hr' as (_&Heq&_).
      by rewrite <- Heq. }
    intros w3 Hok3 Hfl3 Hadj3 Heq3.
    wp_step. apply (push_ok w3 p c b); [done | | done | done | | done].
    { rewrite Heq3. destruct Hend2 as (pth & ? & ?). by exists pth. }
    intros w4 Hok4 Hend4 Hfl4 Heq4 _. wp_step.
    by apply makeSubPath_finish.
  - wp_step. apply makeSubPath_finish; [apply Hg1 | apply Hg1 |].
    intros Hne. apply Nat.ltb_ge in Hlen. destruct possible; [done | simpl in Hlen; lia].
Qed.

Lemma makePath_round_ok p c w :
  growing p c w -> mainPath w = Some p ->
  wp (makePath_round c)
    (fun r w' => paths_ok w' /\ mainPath w' = Some p /\
                 match r with inl c' => endsWith w' p c' | inr _ => True end)
    paths_ok w.
Proof.
  intros Hg Hmain. unfold makePath_round.
  wp_step. apply wp_getBlock; [|intros; apply Hg]. intros cblk Hc.
  wp_step. eapply wp_mono;
    [apply scan_collect; [apply scan_mainCandidate | apply mainCandidate_self] | |].
  2:{ intros w1 Hs. by apply (scan_frame_growing w w1 p c). }
  intros possible w1 [Hs Hposs]. simpl.
  pose proof (scan_frame_growing _ _ _ _ Hs Hg) as Hg1.
  assert (Hmain1 : mainPath w1 = Some p) by (by rewrite (sc_main _ _ Hs)).
  assert (Hadj1 : forall b, b ∈ possible -> forall cblk', blockStore w1 !! c = Some cblk' ->
                            b ∈ adjacentBlocks cblk').
  { intros b Hb cblk' Hc'. rewrite (scan_frame_adjacent _ _ _ _ _ Hs Hc Hc').
    rewrite Forall_forall in Hposs. by apply Hposs. }
  assert (Hrow1 : forall b, b ∈ possible -> belowTop w1 b).
  { intros b Hb. rewrite Forall_forall in Hposs. by apply Hposs. }
  clear Hs Hg Hc Hposs Hmain.
  wp_step. apply wp_getBlock; [|intros; apply Hg1]. intros cur Hcur.
  destruct ((rowIndex cur =? 1) || (length possible =? 0)%nat).
  { wp_step. split; [apply Hg1 | done]. }
  wp_step. apply wp_pick.
  2:{ intros w2 Hr%rng_only_same. by apply (paths_ok_same w1), Hg1. }
  intros b w2 Hb Hr.
  pose proof (rng_only_same _ _ Hr) as Hr'.
  pose proof (growing_same _ _ _ _ Hr' Hg1) as [Hok2 Hend2].
  assert (Hmain2 : mainPath w2 = Some p) by (by rewrite Hr).
  wp_step. apply (carve_ok w2 c b); [done | | | | done].
  { intros cblk2 Hc2. apply Hadj1; [done|]. destruct Hr' as (_&<-&_). done. }
  { intros blk2 Hb2. apply (Hrow1 b Hb). destruct Hr' as (_&Heq&_).
    by rewrite <- Heq. }
  intros w3 Hok3 Hfl3 Hadj3 Heq3.
  assert (Hmain3 : mainPath w3 = Some p) by (by rewrite Heq3).
  unfold theMainPath. wp_step. wp_step. wp_step. rewrite Hmain3. wp_step; [|done].
  injection H as <-.
  wp_step. apply (push_ok w3 p c b); [done | | done | done | | done].
  { rewrite Heq3. destruct Hend2 as (pth & ? & ?). by exists pth. }
  intros w4 Hok4 Hend4 Hfl4 Heq4 _.
  assert (Hmain4 : mainPath w4 = Some p) by (by rewrite Heq4).
  wp_step. apply wp_draw. intros o w5 Hr5.
  pose proof (rng_only_same _ _ Hr5) as Hr5'.
  assert (Hmain5 : mainPath w5 = Some p) by (by rewrite Hr5).
  wp_step. destruct (scaled o 21 <? 4).
  - wp_step. wp_step. apply seed_ok.
    + by eapply paths_ok_same.
    + by eapply floor_same.
    + intros w6 Hok6 Heq6. wp_step. split; [done|]. split; [by rewrite Heq6|].
      eapply endsWith_arrays; [done|]. by eapply endsWith_same.
    + by eapply paths_ok_same.
  - wp_steps. split; [by eapply paths_ok_same|]. split; [done|].
    by eapply endsWith_same.
Qed.

(** [mainPath.subPath.splice(0, 1)] after a push. *)
Lemma shorten_ok w p b (Q : unit -> Engine -> Prop) (E : Engine -> Prop) :
  paths_ok w -> endsWith w p b ->
  (forall pth, pathStore w !! p = Some pth -> (2 <= length (subPath pth))%nat) ->
  (forall w', paths_ok w' -> endsWith w' p b ->
     w' = set_pathStore (pathStore w') w -> Q tt w') ->
  E w ->
  wp (modifyPath p (fun pth => set_subPath (drop 1 (subPath pth)) pth)) Q E w.
Proof.
  intros Hok (pth & Hp & Hlast) Hlen HQ HE.
  apply wp_modifyPath; [|done].
  intros pth' Hp'. rewrite Hp in Hp'. injection Hp' as <-.
  specialize (Hlen pth Hp).
  apply HQ; try done.
  - apply paths_ok_setPath; [done | |]; simpl.
    + intros x Hx. eapply (po_floor _ Hok p pth); [done|].
      apply list_elem_of_lookup in Hx as [i Hi]. eapply list_elem_of_lookup_2.
      rewrite lookup_drop in Hi. done.
    + apply linked_drop. by eapply (po_linked _ Hok p).
  - exists (set_subPath (drop 1 (subPath pth)) pth). simpl. split.
    + by rewrite list_lookup_insert_eq by (by eapply lookup_lt_Some).
    + rewrite last_lookup in Hlast |- *. rewrite lookup_drop, length_drop.
      rewrite <- Hlast. f_equal. lia.
Qed.

Lemma extendMainPath_round_ok p c w :
  growing p c w -> mainPath w = Some p ->
  wp (extendMainPath_round c)
    (fun r w' => paths_ok w' /\ mainPath w' = Some p /\
                 match r with inl c' => endsWith w' p c' | inr _ => True end)
    paths_ok w.
Proof.
  intros Hg Hmain. unfold extendMainPath_round.
  wp_step. apply wp_getBlock; [|intros; apply Hg]. intros cblk Hc.
  wp_step. eapply wp_mono;
    [apply scan_collect;
       [apply scan_extendMainCandidate | apply extendMainCandidate_self] | |].
  2:{ intros w1 Hs. by apply (scan_frame_growing w w1 p c). }
  intros possible w1 [Hs Hposs]. simpl.
  pose proof (scan_frame_growing _ _ _ _ Hs Hg) as Hg1.
  assert (Hmain1 : mainPath w1 = Some p) by (by rewrite (sc_main _ _ Hs)).
  assert (Hadj1 : forall b, b ∈ possible -> forall cblk', blockStore w1 !! c = Some cblk' ->
                            b ∈ adjacentBlocks cblk').
  { intros b Hb cblk' Hc'. rewrite (scan_frame_adjacent _ _ _ _ _ Hs Hc Hc').
    rewrite Forall_forall in Hposs. by apply Hposs. }
  assert (Hrow1 : forall b, b ∈ possible -> belowTop w1 b).
  { intros b Hb. rewrite Forall_forall in Hposs. by apply Hposs. }
  clear Hs Hg Hc Hposs Hmain.
  assert (Hfinish : forall a w2,
    paths_ok w2 -> endsWith w2 p a -> mainPath w2 = Some p ->
    (possible <> [] -> floor w2 a) ->
    wp (lb <- getBlock a;;
        (if (rowIndex lb =? 1) || (length possible =? 0)%nat
         then ret (inr ())
         else
           o <- mathRandom;;
           (if scaled o 7 <? 1
            then a0 <- gets pathSeeds;; pushArray a0 a
            else ret ());;
           ret (inl a)))
      (fun (r : ref + ()) w' =>
         paths_ok w' /\ mainPath w' = Some p /\
         match r with inl c' => endsWith w' p c' | inr _ => True end)
      paths_ok w2).
  { intros a w2 Hok2 Hend2 Hmain2 Hfloor.
    wp_step. apply wp_getBlock; [|done]. intros lb Hlb.
    destruct ((rowIndex lb =? 1) || (length possible =? 0)%nat) eqn:Hstop.
    { by wp_step. }
    apply orb_false_iff in Hstop as [_ Hne]. apply Nat.eqb_neq in Hne.
    assert (Hfl : floor w2 a).
    { apply Hfloor. intros ->. done. }
    wp_step. apply wp_draw. intros o w3 Hr3.
    pose proof (rng_only_same _ _ Hr3) as Hr3'.
    assert (Hmain3 : mainPath w3 = Some p) by (by rewrite Hr3).
    wp_step. destruct (scaled o 7 <? 1).
    - wp_step. wp_step. apply seed_ok.
      + by eapply paths_ok_same.
      + by eapply floor_same.
      + intros w4 Hok4 Heq4. wp_step. split; [done|]. split; [by rewrite Heq4|].
        eapply endsWith_arrays; [done|]. by eapply endsWith_same.
      + by eapply paths_ok_same.
    - wp_steps. split; [by eapply paths_ok_same|]. split; [done|].
      by eapply endsWith_same. }
  wp_step.
  destruct (0 <? length possible)%nat eqn:Hlen.
  - wp_step. apply wp_pick.
    2:{ intros w2 Hr%rng_only_same. by apply (paths_ok_same w1), Hg1. }
    intros b w2 Hb Hr.
    pose proof (rng_only_same _ _ Hr) as Hr'.
    pose proof (growing_same _ _ _ _ Hr' Hg1) as [Hok2 Hend2].
    assert (Hmain2 : mainPath w2 = Some p) by (by rewrite Hr).
    wp_step. apply (carve_ok w2 c b); [done | | | | done].
    { intros cblk2 Hc2. apply Hadj1; [done|]. destruct Hr' as (_&<-&_). done. }
    { intros blk2 Hb2. apply (Hrow1 b Hb). destruct Hr' as (_&Heq&_).
      by rewrite <- Heq. }
    intros w3 Hok3 Hfl3 Hadj3 Heq3.
    assert (Hmain3 : mainPath w3 = Some p) by (by rewrite Heq3).
    unfold theMainPath. wp_step. wp_step. wp_step. rewrite Hmain3. wp_step; [|done].
    injection H as <-.
    wp_step. apply (push_ok w3 p c b); [done | | done | done | | done].
    { rewrite Heq3. destruct Hend2 as (pth & ? & ?). by exists pth. }
    intros w4 Hok4 Hend4 Hfl4 Heq4 Hlen4.
    assert (Hmain4 : mainPath w4 = Some p) by (by rewrite Heq4).
    wp_step. apply (shorten_ok w4 p b); [done | done | done | | done].
    intros w5 Hok5 Hend5 Heq5. wp_step.
    apply Hfinish; [done | done | by rewrite Heq5 |].
    intros _. destruct Hfl4 as (blk & ? & ?). exists blk. by rewrite Heq5.
  - wp_step. apply Hfinish; [apply Hg1 | apply Hg1 | done |].
    intros Hne. apply Nat.ltb_ge in Hlen. destruct possible; [done | simpl in Hlen; lia].
Qed.

Lemma extendPaths_round_ok p c w :
  growing p c w ->
  wp (extendPaths_round p c)
    (fun r w' => paths_ok w' /\
                 match r with inl c' => endsWith w' p c' | inr _ => True end)
    paths_ok w.
Proof.
  intros Hg. unfold extendPaths_round.
  wp_step. apply wp_getBlock; [|intros; apply Hg]. intros cblk Hc.
  wp_step. eapply wp_mono;
    [apply scan_collect; [apply scan_extendCandidate | apply extendCandidate_self] | |].
  2:{ intros w1 Hs. by apply (scan_frame_growing w w1 p c). }
  intros possible w1 [Hs Hposs]. simpl.
  pose proof (scan_frame_growing _ _ _ _ Hs Hg) as Hg1.
  assert (Hadj1 : forall b, b ∈ possible -> forall cblk', blockStore w1 !! c = Some cblk' ->
                            b ∈ adjacentBlocks cblk').
  { intros b Hb cblk' Hc'. rewrite (scan_frame_adjacent _ _ _ _ _ Hs Hc Hc').
    rewrite Forall_forall in Hposs. by apply Hposs. }
  assert (Hrow1 : forall b, b ∈ possible -> belowTop w1 b).
  { intros b Hb. rewrite Forall_forall in Hposs. by apply Hposs. }
  clear Hs Hg Hc Hposs.
  assert (Hfinish : forall a w2,
    paths_ok w2 -> endsWith w2 p a ->
    wp (cur <- getBlock a;;
        pth <- getPath p;;
        rows <- gets maze;;
        (if (rowIndex cur =? 1) || (length possible =? 0)%nat
            || (distance pth <=? Z.of_nat (length (subPath pth)))
         then
           low <-
             (if (distance pth <=? Z.of_nat (length (subPath pth)))
                 || (length possible =? 0)%nat
              then ret true
              else
                nBlock <- defined (last (adjacentBlocks cblk));;
                nb <- getBlock nBlock;;
                ret (Z.of_nat (length rows) - 3 <=? rowIndex nb));;
           (if low : bool
            then modify (fun w0 => set_pathsToSplice (pathsToSplice w0 ++ [p]) w0)
            else ret ());;
           ret (inr ())
         else ret (inl a)))
      (fun (r : ref + ()) w' =>
         paths_ok w' /\
         match r with inl c' => endsWith w' p c' | inr _ => True end)
      paths_ok w2).
  { intros a w2 Hok2 Hend2.
    wp_step. apply wp_getBlock; [|done]. intros cur Hcur.
    wp_step. apply wp_getPath; [|done]. intros pth Hpth.
    wp_step. wp_step.
    destruct ((rowIndex cur =? 1) || (length possible =? 0)%nat
              || (distance pth <=? Z.of_nat (length (subPath pth)))).
    2:{ by wp_step. }
    assert (Hmark : forall low : bool,
      wp ((if low
           then modify (fun w0 => set_pathsToSplice (pathsToSplice w0 ++ [p]) w0)
           else ret ());;
          ret (inr ()))
        (fun (r : ref + ()) w' =>
           paths_ok w' /\
           match r with inl c' => endsWith w' p c' | inr _ => True end)
        paths_ok w2).
    { intros [|]; wp_steps; split; try done.
      eapply paths_ok_same; [apply markPath_same | done]. }
    wp_step.
    destruct ((distance pth <=? Z.of_nat (length (subPath pth)))
              || (length possible =? 0)%nat).
    { wp_step. exact (Hmark true). }
    wp_step. wp_step; [|done].
    wp_step. apply wp_getBlock; [|done]. intros nb Hnb.
    wp_step. apply Hmark. }
  wp_step.
  destruct (0 <? length possible)%nat eqn:Hlen.
  - wp_step. apply wp_pick.
    2:{ intros w2 Hr%rng_only_same. by apply (paths_ok_same w1), Hg1. }
    intros b w2 Hb Hr.
    pose proof (rng_only_same _ _ Hr) as Hr'.
    pose proof (growing_same _ _ _ _ Hr' Hg1) as [Hok2 Hend2].
    wp_step. apply (carve_ok w2 c b); [done | | | | done].
    { intros cblk2 Hc2. apply Hadj1; [done|]. destruct Hr' as (_&<-&_). done. }
    { intros blk2 Hb2. apply (Hrow1 b Hb). destruct Hr' as (_&Heq&_).
      by rewrite <- Heq. }
    intros w3 Hok3 Hfl3 Hadj3 Heq3.
    wp_step. apply (push_ok w3 p c b); [done | | done | done | | done].
    { rewrite Heq3. destruct Hend2 as (pth & ? & ?). by exists pth. }
    intros w4 Hok4 Hend4 Hfl4 Heq4 _.
    wp_step. apply wp_draw. intros o w5 Hr5.
    pose proof (rng_only_same _ _ Hr5) as Hr5'.
    wp_step. destruct (scaled o 9 <? 1).
    + wp_step. wp_step. apply seed_ok.
      * by eapply paths_ok_same.
      * by eapply floor_same.
      * intros w6 Hok6 Heq6. wp_step. apply Hfinish; [done|].
        eapply endsWith_arrays; [done|]. by eapply endsWith_same.
      * by eapply paths_ok_same.
    + wp_step. wp_step.
      apply Hfinish; [by eapply paths_ok_same | by eapply endsWith_same].
  - wp_step. apply Hfinish; apply Hg1.
Qed.

(** ** Whole passes keep the paths well-formed *)

Lemma makeSubPath_ok fuel b w :
  paths_ok w -> floor w b ->
  wp (makeSubPath fuel b) (fun _ w' => paths_ok w') paths_ok w.
Proof.
  intros Hok Hb. unfold makeSubPath, newPath.
  wp_step. wp_step. wp_step. wp_step. wp_step. wp_step. wp_step. wp_step.
  set (p := length (pathStore w)).
  set (w1 := set_paths _ _).
  assert (Hok1 : paths_ok w1).
  { eapply paths_ok_globals; [..|by apply (paths_ok_newPath w)]; done. }
  assert (Hp1 : pathStore w1 !! p = Some (mkPath [] 0)).
  { simpl. by apply list_lookup_middle. }
  assert (Hb1 : floor w1 b) by done.
  clearbody w1. clear Hok Hb.
  wp_step. apply wp_draw. intros o w2 Hr2.
  pose proof (rng_only_same _ _ Hr2) as Hs2.
  assert (Hok2 : paths_ok w2) by (by eapply paths_ok_same).
  assert (Hp2 : pathStore w2 !! p = Some (mkPath [] 0)).
  { destruct Hs2 as (_&_&->&_). done. }
  assert (Hb2 : floor w2 b) by (by eapply floor_same).
  wp_step. wp_step. wp_step.
  apply wp_modifyPath; [|done]. intros pth Hpth.
  rewrite Hp2 in Hpth. injection Hpth as <-.
  set (w3 := set_pathStore _ w2).
  assert (Hok3 : paths_ok w3).
  { apply paths_ok_setPath; [done | |]; simpl.
    - intros x Hx. by apply elem_of_nil in Hx.
    - by intros i x y ? ? Hi. }
  assert (Hp3 : pathStore w3 !! p = Some (set_distance (scaled o (numberOfRowBlocks w2 * 2)) (mkPath [] 0))).
  { simpl. apply list_lookup_insert_eq. by eapply lookup_lt_Some. }
  assert (Hb3 : floor w3 b) by done.
  clearbody w3.
  wp_step. apply wp_modifyPath; [|done]. intros pth Hpth.
  rewrite Hp3 in Hpth. injection Hpth as <-.
  set (w4 := set_pathStore _ w3).
  assert (Hok4 : paths_ok w4).
  { apply paths_ok_setPath; [done | |]; simpl.
    - intros x Hx. apply list_elem_of_singleton in Hx. by subst.
    - intros i x y ? ? Hi HSi. destruct i; done. }
  assert (Hend4 : endsWith w4 p b).
  { eexists. split; [simpl; apply list_lookup_insert_eq; by eapply lookup_lt_Some|].
    done. }
  clearbody w4.
  apply (wp_while fuel _ (fun c w' => growing p c w')); [by split|].
  intros c w5 Hg. eapply wp_mono; [by apply makeSubPath_round_ok | | done].
  intros [c'|[]] w6 [? ?]; [by split | done].
Qed.

Lemma growSeeds_ok fuel w :
  paths_ok w -> wp (growSeeds fuel) (fun _ w' => paths_ok w') paths_ok w.
Proof.
  intros Hok. unfold growSeeds.
  apply (wp_while fuel _ (fun _ w' => paths_ok w')); [done|].
  intros i w1 Hok1. wp_step. wp_step.
  wp_step. apply wp_getArray; [|done]. intros arr Harr.
  destruct (arr !! i) as [seed|] eqn:Hseed; [|by wp_step].
  wp_step. eapply wp_mono; [apply makeSubPath_ok | |]; try done.
  eapply (po_seeds _ Hok1); [done|]. by eapply list_elem_of_lookup_2.
Qed.

Lemma splicePaths_ok w :
  paths_ok w -> wp splicePaths (fun _ w' => paths_ok w') paths_ok w.
Proof.
  intros Hok. unfold splicePaths. wp_step. wp_step.
  apply (wp_forEach _ _ paths_ok); [done|].
  intros p w1 _ Hok1. wp_step. by eapply paths_ok_globals; [..|exact Hok1].
Qed.

Lemma shareSecondSeeds_ok w :
  paths_ok w -> wp shareSecondSeeds (fun _ w' => paths_ok w') paths_ok w.
Proof.
  intros Hok. unfold shareSecondSeeds. wp_steps.
  by eapply paths_ok_globals; [..|exact Hok].
Qed.

Lemma newArray_ok w (Q : aref -> Engine -> Prop) E :
  paths_ok w ->
  (forall a w', paths_ok w' -> Q a w') ->
  wp newArray Q E w.
Proof.
  intros Hok HQ. unfold newArray. wp_steps. apply HQ.
  by apply paths_ok_newArray.
Qed.

Lemma clearSeeds_ok w :
  paths_ok w -> wp clearSeeds (fun _ w' => paths_ok w') paths_ok w.
Proof.
  intros Hok. unfold clearSeeds.
  wp_step. apply newArray_ok; [done|]. intros a w1 Hok1.
  wp_step. wp_step. wp_step. apply newArray_ok.
  { by eapply paths_ok_globals; [..|exact Hok1]. }
  intros a' w2 Hok2. wp_step.
  by eapply paths_ok_globals; [..|exact Hok2].
Qed.

Lemma floor_carved w b blk :
  blockStore w !! b = Some blk -> 1 <= rowIndex blk ->
  floor (set_blockStore (<[b := set_isWall false blk]> (blockStore w)) w) b.
Proof.
  intros Hb Hr. exists (set_isWall false blk). split; [|done]. simpl.
  apply list_lookup_insert_eq. by eapply lookup_lt_Some.
Qed.

Lemma floor_carve w a b blk :
  blockStore w !! b = Some blk -> floor w a ->
  floor (set_blockStore (<[b := set_isWall false blk]> (blockStore w)) w) a.
Proof.
  intros Hb (ablk & Ha & Hw & Hr). destruct (decide (a = b)) as [->|Hne].
  - rewrite Hb in Ha. injection Ha as <-. by apply floor_carved.
  - exists ablk. simpl. by rewrite list_lookup_insert_ne.
Qed.

Lemma grid_ok_carve n w b blk :
  grid_ok n w -> blockStore w !! b = Some blk ->
  grid_ok n (set_blockStore (<[b := set_isWall false blk]> (blockStore w)) w).
Proof.
  intros [[] ? Hix] Hb. split; [by split | done |].
  eapply indexed_frame; [| |exact Hix]; [done|]. simpl.
  eapply Forall2_insert_r; [apply _ | done | apply carved_set_isWall].
Qed.

Lemma grid_ok_paths n w v :
  grid_ok n w -> grid_ok n (set_pathStore v w).
Proof. intros [[] ? ?]. by split. Qed.

(** Symbolic execution up to the next operation on a store. *)
Ltac wp_go :=
  repeat (lazymatch goal with
          | |- wpd _ (bind _ _) _ _ _ => apply wp_bind
          | |- wpd _ (ret _) _ _ _ => apply wp_ret
          | |- wpd _ (gets _) _ _ _ => apply wp_gets
          | |- wpd _ (modify _) _ _ _ => apply wp_modify
          end; cbv beta).

(** [makePath] up to its [while] loop: the main Path is made and holds
    a block of the bottom row and the block above that one. *)
Lemma makePath_trunk_unfold n fuel w (Q : unit -> Engine -> Prop) :
  grid_ok n w -> paths_ok w ->
  (forall p cb1 cb2 d w6 blk1 blk2,
     paths_ok w6 -> mainPath w6 = Some p ->
     pathStore w6 !! p = Some (mkPath [cb1; cb2] d) ->
     blockStore w6 !! cb1 = Some blk1 -> blockStore w6 !! cb2 = Some blk2 ->
     rowIndex blk2 <= rowIndex blk1 ->
     wp (while fuel makePath_round cb2) Q (fun _ => True) w6) ->
  wp (makePath_trunk fuel) Q (fun _ => True) w.
Proof.
  intros Hgrid Hok Hrest. unfold makePath_trunk, newPath.
  wp_go. set (p := length (pathStore w)).
  apply wp_modifyPath; [|done]. intros pth Hpth. simpl in Hpth.
  rewrite list_lookup_middle in Hpth by done. injection Hpth as <-.
  unfold newArray. wp_go.
  set (w1 := set_pathSeeds _ _).
  assert (Hok1 : paths_ok w1).
  { eapply paths_ok_globals; [..|apply paths_ok_newArray]; try done.
    apply paths_ok_setPath; simpl.
    - eapply paths_ok_globals; [..|by apply (paths_ok_newPath w)]; done.
    - intros x Hx. by apply elem_of_nil in Hx.
    - by intros i x y ? ? Hi. }
  assert (Hp1 : pathStore w1 !! p =
                Some (mkPath [] (numberOfRowBlocks w * 20))).
  { simpl. apply list_lookup_insert_eq. rewrite length_app. simpl. lia. }
  assert (Hmain1 : mainPath w1 = Some p) by done.
  assert (Hgrid1 : grid_ok n w1).
  { destruct Hgrid as [[] ? ?]. by split. }
  clearbody w1. clear Hok Hgrid.
  apply wp_draw. intros o w2 Hr2.
  pose proof (rng_only_same _ _ Hr2) as Hs2.
  assert (Hok2 : paths_ok w2) by (by eapply paths_ok_same).
  assert (Hp2 : pathStore w2 !! p = Some (mkPath [] (numberOfRowBlocks w * 20))).
  { destruct Hs2 as (_&_&->&_). done. }
  assert (Hmain2 : mainPath w2 = Some p) by (by rewrite Hr2).
  assert (Hgrid2 : grid_ok n w2).
  { rewrite Hr2. destruct Hgrid1 as [[] ? ?]. by split. }
  assert (Hm2 : maze w2 = maze w1) by apply Hs2.
  rewrite <- Hm2. clear Hr2 Hs2 Hok1 Hp1 Hmain1 Hgrid1 Hm2. clearbody p.
  set (L := Z.of_nat (length (maze w2))).
  unfold rowAt. wp_go. wp_step; [|done].
  rename a into currentRow, H into Hrow.
  set (idx := scaled o (Z.of_nat (length currentRow) - 1) + 1).
  wp_go. wp_step; [|done]. rename a into cb1, H into Hcb1.
  assert (Hc1 : cell w2 (L - 1) idx = Some cb1).
  { unfold cell. by rewrite Hrow. }
  destruct (cell_shape n w2 _ _ _ (gk_shape _ _ Hgrid2) Hc1) as [HL1 Hidx].
  assert (Hn : 2 <= n /\ L = 3 * n + 1).
  { unfold L in *. rewrite (proj1 (gk_shape _ _ Hgrid2)) in *.
    unfold rowCount, rowWidth in *. lia. }
  destruct Hn as [Hn HL]. clear Hrow Hcb1.
  (* the block of the bottom row *)
  destruct (gk_indexed _ _ Hgrid2 (Z.to_nat (L - 1)) (Z.to_nat idx) cb1)
    as (blk1 & Hblk1 & Hr1 & Hk1).
  { by rewrite !Z2Nat.id by lia. }
  rewrite Z2Nat.id in Hr1, Hk1 by lia.
  wp_go. apply wp_modifyBlock; [|done]. intros blk Hblk.
  rewrite Hblk1 in Hblk. injection Hblk as <-.
  set (w3 := set_blockStore _ w2).
  assert (Hok3 : paths_ok w3) by (by apply paths_ok_carve).
  assert (Hfl3 : floor w3 cb1) by (apply floor_carved; [done | lia]).
  assert (Hgrid3 : grid_ok n w3) by (by apply grid_ok_carve).
  assert (Hp3 : pathStore w3 !! p = Some (mkPath [] (numberOfRowBlocks w * 20)))
    by done.
  assert (Hmain3 : mainPath w3 = Some p) by done.
  assert (Hm3 : maze w3 = maze w2) by done.
  clearbody w3.
  wp_go. apply wp_modifyPath; [|done]. intros pth Hpth.
  rewrite Hp3 in Hpth. injection Hpth as <-.
  set (w4 := set_pathStore _ w3).
  assert (Hok4 : paths_ok w4).
  { apply paths_ok_setPath; [done | |]; simpl.
    - intros x Hx. apply list_elem_of_singleton in Hx. by subst.
    - intros i x y ? ? Hi HSi. destruct i; done. }
  assert (Hfl4 : floor w4 cb1) by done.
  assert (Hgrid4 : grid_ok n w4) by (by apply grid_ok_paths).
  assert (Hp4 : pathStore w4 !! p =
                Some (mkPath [cb1] (numberOfRowBlocks w * 20))).
  { simpl. apply list_lookup_insert_eq. by eapply lookup_lt_Some. }
  assert (Hmain4 : mainPath w4 = Some p) by done.
  assert (Hm4 : maze w4 = maze w2) by done.
  clearbody w4.
  (* the block above it *)
  unfold cellAt, rowAt. wp_go. rewrite Hm4. fold L.
  wp_step; [|done]. rename a into row2, H into Hrow2.
  wp_go. wp_step; [|done]. rename a into cb2, H into Hcb2.
  assert (Hc2 : cell w4 (L - 2) idx = Some cb2).
  { unfold cell. by rewrite Hm4, Hrow2. }
  assert (Hc1' : cell w4 (L - 1) idx = Some cb1).
  { by rewrite (cell_frame w2 w4). }
  destruct (gk_indexed _ _ Hgrid4 (Z.to_nat (L - 2)) (Z.to_nat idx) cb2)
    as (blk2 & Hblk2 & Hr2 & Hk2).
  { by rewrite !Z2Nat.id by lia. }
  rewrite Z2Nat.id in Hr2, Hk2 by lia.
  wp_go. apply wp_modifyBlock; [|done]. intros blk Hblk.
  rewrite Hblk2 in Hblk. injection Hblk as <-.
  set (w5 := set_blockStore _ w4).
  assert (Hok5 : paths_ok w5) by (by apply paths_ok_carve).
  assert (Hfl5 : floor w5 cb2) by (apply floor_carved; [done | lia]).
  assert (Hfl5' : floor w5 cb1) by (by apply floor_carve).
  assert (Hgrid5 : grid_ok n w5) by (by apply grid_ok_carve).
  assert (Hp5 : pathStore w5 !! p =
                Some (mkPath [cb1] (numberOfRowBlocks w * 20))) by done.
  assert (Hmain5 : mainPath w5 = Some p) by done.
  assert (Hc15 : cell w5 (L - 1) idx = Some cb1) by done.
  assert (Hc25 : cell w5 (L - 2) idx = Some cb2) by done.
  clearbody w5.
  wp_go. apply wp_modifyPath; [|done]. intros pth Hpth.
  rewrite Hp5 in Hpth. injection Hpth as <-.
  set (w6 := set_pathStore _ w5).
  assert (Hok6 : paths_ok w6).
  { apply paths_ok_setPath; [done | |]; simpl.
    - intros x [->|Hx]%elem_of_cons; [done|].
      apply list_elem_of_singleton in Hx. by subst.
    - intros i x y xblk yblk Hi HSi _ _ Hx Hy.
      destruct i as [|[|]]; try done. simpl in Hi, HSi.
      injection Hi as <-. injection HSi as <-.
      destruct (gk_indexed _ _ Hgrid5 (Z.to_nat (L - 1)) (Z.to_nat idx) cb1)
        as (b1 & Hb1 & Hr1' & Hk1').
      { by rewrite !Z2Nat.id by lia. }
      destruct (gk_indexed _ _ Hgrid5 (Z.to_nat (L - 2)) (Z.to_nat idx) cb2)
        as (b2 & Hb2 & Hr2' & Hk2').
      { by rewrite !Z2Nat.id by lia. }
      rewrite Hx in Hb1. injection Hb1 as <-.
      rewrite Hy in Hb2. injection Hb2 as <-.
      unfold stepApart. lia. }
  assert (Hp6 : pathStore w6 !! p =
                Some (mkPath [cb1; cb2] (numberOfRowBlocks w * 20))).
  { simpl. apply list_lookup_insert_eq. by eapply lookup_lt_Some. }
  assert (Hmain6 : mainPath w6 = Some p) by done.
  destruct (gk_indexed _ _ Hgrid5 (Z.to_nat (L - 1)) (Z.to_nat idx) cb1)
    as (b1 & Hb1 & Hr1' & _).
  { by rewrite !Z2Nat.id by lia. }
  destruct (gk_indexed _ _ Hgrid5 (Z.to_nat (L - 2)) (Z.to_nat idx) cb2)
    as (b2 & Hb2 & Hr2' & _).
  { by rewrite !Z2Nat.id by lia. }
  assert (Hb16 : blockStore w6 !! cb1 = Some b1) by done.
  assert (Hb26 : blockStore w6 !! cb2 = Some b2) by done.
  clearbody w6.
  apply (Hrest p cb1 cb2 (numberOfRowBlocks w * 20) w6 b1 b2); try done. lia.
Qed.

Lemma makePath_trunk_ok n fuel w :
  grid_ok n w -> paths_ok w ->
  wp (makePath_trunk fuel) (fun _ w' => paths_ok w') (fun _ => True) w.
Proof.
  intros Hgrid Hok. apply (makePath_trunk_unfold n); [done | done |].
  intros p cb1 cb2 d w6 blk1 blk2 Hok6 Hmain6 Hp6 _ _ _.
  eapply wp_mono;
    [apply (wp_while fuel _ (fun c w' => growing p c w' /\ mainPath w' = Some p)
              (fun _ w' => paths_ok w') paths_ok) | done | done].
  { split; [|done]. split; [done|]. by eexists. }
  intros c w7 [Hg Hmain7].
  eapply wp_mono; [by apply makePath_round_ok | | done].
  intros [c'|[]] w8 (? & ? & ?); [by split | done].
Qed.


Lemma makePath_ok n fuel w :
  grid_ok n w -> paths_ok w ->
  wp (makePath fuel) (fun _ w' => paths_ok w') (fun _ => True) w.
Proof.
  intros Hgrid Hok. unfold makePath.
  wp_step. eapply wp_mono; [by apply (makePath_trunk_ok n) | | done].
  intros ? w1 Hok1. cbv beta.
  wp_step. eapply wp_mono; [by apply growSeeds_ok | | done].
  intros ? w2 Hok2. cbv beta.
  wp_step. eapply wp_mono; [by apply shareSecondSeeds_ok | | done].
  intros ? w3 Hok3. cbv beta.
  wp_step. eapply wp_mono; [by apply growSeeds_ok | | done].
  intros ? w4 Hok4. cbv beta.
  wp_step. eapply wp_mono; [by apply splicePaths_ok | | done].
  intros ? w5 Hok5. cbv beta.
  wp_step. eapply wp_mono; [by apply clearSeeds_ok | | done].
  intros ? w6 Hok6. cbv beta.
  wp_step. by eapply paths_ok_globals; [..|exact Hok6].
Qed.

Lemma at_index_last {A} (l : list A) a :
  at_index l (Z.of_nat (length l) - 1) = Some a -> last l = Some a.
Proof.
  intros [Hi Ha]%at_index_Some. rewrite last_lookup.
  by replace (Nat.pred (length l)) with (Z.to_nat (Z.of_nat (length l) - 1)) by lia.
Qed.

Lemma extendMainPath_ok fuel w :
  paths_ok w -> wp (extendMainPath fuel) (fun _ w' => paths_ok w') paths_ok w.
Proof.
  intros Hok. unfold extendMainPath, theMainPath.
  wp_go. wp_step; [|done]. rename a into p, H into Hmain.
  wp_go. apply wp_getPath; [|done]. intros pth Hpth.
  wp_go. wp_step; [|done]. rename a into c, H into Hc.
  apply at_index_last in Hc.
  eapply wp_mono;
    [apply (wp_while fuel _ (fun c w' => growing p c w' /\ mainPath w' = Some p)
              (fun _ w' => paths_ok w') paths_ok) | done | done].
  { split; [|done]. split; [done|]. by exists pth. }
  intros c' w1 [Hg Hmain1].
  eapply wp_mono; [by apply extendMainPath_round_ok | | done].
  intros [c''|[]] w2 (? & ? & ?); [by split | done].
Qed.

(** ** Rewiring a block *)

Lemma wp_cellAt_any i k (Q : ref -> Engine -> Prop) (E : Engine -> Prop) w :
  (forall b, cell w i k = Some b -> Q b w) ->
  (cell w i k = None -> E w) ->
  wp (cellAt i k) Q E w.
Proof.
  intros HQ HE. unfold cell in *. unfold cellAt, rowAt. wp_steps.
  - apply HQ. by rewrite H.
  - apply HE. by rewrite H.
  - apply HE. by rewrite H.
Qed.

Lemma getAdjacentBlocks_any b w :
  wp (getAdjacentBlocks b)
    (fun _ w' => exists blk, blockStore w !! b = Some blk /\
       w' = set_blockStore
              (<[b := set_adjacentBlocks
                        (neighbours w (rowIndex blk) (blockIndex blk)) blk]>
                 (blockStore w)) w)
    (fun w' => w' = w) w.
Proof.
  unfold getAdjacentBlocks. wp_step. apply wp_getBlock; [|done].
  intros blk Hb. unfold neighbours.
  wp_step. wp_step. wp_step. wp_step.
  assert (Hcell : forall (c : bool) i k (Q : list ref -> Engine -> Prop),
    Q (option_list (if c then cell w i k else None)) w ->
    wp (if c then b0 <- cellAt i k;; ret [b0] else ret []) Q (fun w' => w' = w) w).
  { intros c i k Q HQ. destruct c; [|by wp_step].
    wp_step. apply wp_cellAt_any; [|done].
    intros u Hu. rewrite Hu in HQ. by wp_step. }
  wp_step. apply Hcell. wp_step. apply Hcell.
  wp_step. apply Hcell. wp_step. apply Hcell.
  apply wp_modifyBlock; [|done].
  intros blk' Hb'. rewrite Hb in Hb'. injection Hb' as <-. by exists blk.
Qed.

Lemma in_option_list {A} (mx : option A) x : x ∈ option_list mx -> mx = Some x.
Proof.
  destruct mx as [y|]; simpl.
  - intros Hx%list_elem_of_singleton. by subst.
  - by intros Hx%elem_of_nil.
Qed.

Lemma neighbours_stepApart w r k x :
  indexed w -> x ∈ neighbours w r k ->
  exists xblk, blockStore w !! x = Some xblk /\
    Z.abs (r - rowIndex xblk) + Z.abs (k - blockIndex xblk) = 1.
Proof.
  intros Hix Hx.
  assert (Hcell : forall i j, cell w i j = Some x ->
            exists xblk, blockStore w !! x = Some xblk /\
              rowIndex xblk = i /\ blockIndex xblk = j).
  { intros i j Hc. pose proof Hc as (row & Hi & Hj & _)%cell_Some.
    destruct (Hix (Z.to_nat i) (Z.to_nat j) x) as (xblk & ? & ? & ?).
    { by rewrite !Z2Nat.id by lia. }
    exists xblk. split; [done|]. lia. }
  unfold neighbours in Hx.
  repeat (apply elem_of_app in Hx as [Hx|Hx]);
    match type of Hx with
    | _ ∈ option_list (if ?c then _ else _) => destruct c; [|by apply elem_of_nil in Hx]
    end;
    apply in_option_list in Hx;
    destruct (Hcell _ _ Hx) as (xblk & ? & ? & ?);
    exists xblk; (split; [done | lia]).
Qed.

Lemma paths_ok_carved w w' :
  maze w' = maze w -> pathStore w' = pathStore w ->
  arrayStore w' = arrayStore w ->
  Forall2 carved (blockStore w) (blockStore w') ->
  adjacent_ok w' ->
  paths_ok w -> paths_ok w'.
Proof.
  intros Hm Hp Ha Hbs Had' [Hfl Hse Hli Had].
  assert (Hback : forall b blk', blockStore w' !! b = Some blk' ->
            exists blk, blockStore w !! b = Some blk /\ carved blk blk').
  { intros b blk' Hb'. by apply (Forall2_lookup_r _ _ _ _ _ Hbs). }
  assert (Hfloor : forall b, floor w b -> floor w' b).
  { intros b (blk & Hb & Hw & Hr).
    destruct (Forall2_lookup_l _ _ _ _ _ Hbs Hb) as (blk' & Hb' & (Hri & _ & Hw')).
    exists blk'. rewrite Hri. auto. }
  split; [| | |done].
  - intros p pth b Hpth Hb. rewrite Hp in Hpth. apply Hfloor. by eapply Hfl.
  - intros a arr b Harr Hb. rewrite Ha in Harr. apply Hfloor. by eapply Hse.
  - intros p pth Hpth i a b ablk' bblk' Hi HSi Hga Hgb Ha' Hb'.
    rewrite Hp in Hpth. unfold inGrid in *. rewrite Hm in Hga, Hgb.
    destruct (Hback a ablk' Ha') as (ablk & Hablk & (Ha1 & Ha2 & _)).
    destruct (Hback b bblk' Hb') as (bblk & Hbblk & (Hb1 & Hb2 & _)).
    pose proof (Hli p pth Hpth i a b ablk bblk Hi HSi Hga Hgb Hablk Hbblk) as Hstep.
    unfold stepApart in *. by rewrite Ha1, Ha2, Hb1, Hb2.
Qed.

Lemma paths_ok_rewire w b blk :
  indexed w -> paths_ok w -> blockStore w !! b = Some blk ->
  paths_ok (set_blockStore
              (<[b := set_adjacentBlocks
                        (neighbours w (rowIndex blk) (blockIndex blk)) blk]>
                 (blockStore w)) w).
Proof.
  intros Hix Hok Hb.
  assert (Hbs : Forall2 carved (blockStore w)
            (<[b := set_adjacentBlocks
                      (neighbours w (rowIndex blk) (blockIndex blk)) blk]>
               (blockStore w))).
  { eapply Forall2_insert_r; [apply _ | done | apply carved_set_adjacentBlocks]. }
  eapply paths_ok_carved; [..|exact Hok]; try done. simpl.
  intros a ablk' x Hga Ha' Hx. simpl in *.
  assert (Hfwd : forall y yblk, blockStore w !! y = Some yblk ->
            exists yblk', <[b := set_adjacentBlocks
                      (neighbours w (rowIndex blk) (blockIndex blk)) blk]>
               (blockStore w) !! y = Some yblk' /\
              rowIndex yblk' = rowIndex yblk /\ blockIndex yblk' = blockIndex yblk).
  { intros y yblk Hy.
    destruct (Forall2_lookup_l _ _ _ _ _ Hbs Hy) as (yblk' & Hy' & (? & ? & _)).
    by exists yblk'. }
  destruct (decide (a = b)) as [->|Hne].
  - rewrite list_lookup_insert_eq in Ha' by (by eapply lookup_lt_Some).
    injection Ha' as <-. simpl in *.
    destruct (neighbours_stepApart w _ _ x Hix Hx) as (xblk & Hxblk & Hstep).
    destruct (Hfwd x xblk Hxblk) as (xblk' & Hx' & Hr & Hk).
    exists xblk'. split; [done|]. unfold stepApart. simpl. by rewrite Hr, Hk.
  - rewrite list_lookup_insert_ne in Ha' by done.
    destruct (po_adjacent _ Hok a ablk' x Hga Ha' Hx) as (xblk & Hxblk & Hstep).
    destruct (Hfwd x xblk Hxblk) as (xblk' & Hx' & Hr & Hk).
    exists xblk'. split; [done|]. unfold stepApart in *. by rewrite Hr, Hk.
Qed.

Lemma extendPaths_ok n fuel p w :
  grid_ok n w -> paths_ok w ->
  wp (extendPaths fuel p) (fun _ w' => paths_ok w') paths_ok w.
Proof.
  intros Hgrid Hok. unfold extendPaths.
  wp_go. apply wp_getPath; [|done]. intros pth Hpth.
  wp_go. wp_step; [|done]. rename a into c, H into Hc.
  apply at_index_last in Hc.
  wp_go. eapply wp_mono; [apply getAdjacentBlocks_any | | by intros ? ->].
  intros ? w1 (blk & Hblk & ->). cbv beta.
  eapply wp_mono;
    [apply (wp_while fuel _ (fun c w' => growing p c w')
              (fun _ w' => paths_ok w') paths_ok) | done | done].
  { split; [apply paths_ok_rewire; [apply Hgrid | done | done]|]. by exists pth. }
  intros c' w1 Hg.
  eapply wp_mono; [by apply extendPaths_round_ok | | done].
  intros [c''|[]] w2 (? & ?); [by split | done].
Qed.

(** * The engine between two events *)

(** The grid and the paths are well-formed. *)
Definition sound (n : Z) (w : Engine) : Prop := grid_ok n w /\ paths_ok w.

Lemma with_grid {A} n (m : M A) w :
  keeps gen_frame m -> sound n w ->
  wp m (fun _ w' => paths_ok w') paths_ok w ->
  wp m (fun _ w' => sound n w') (sound n) w.
Proof.
  intros Hk [Hg Hok] Hm.
  eapply wp_mono; [apply (wp_and _ _ _ _ _ _ (Hk w) Hm) | |].
  - intros ? w' [Hf Hok']. split; [by eapply grid_ok_gen | done].
  - intros w' [Hf Hok']. split; [by eapply grid_ok_gen | done].
Qed.

Lemma sound_globals n w w' :
  numberOfRowBlocks w' = numberOfRowBlocks w ->
  numberOfRowPoints w' = numberOfRowPoints w ->
  pointGrid w' = pointGrid w ->
  maze w' = maze w -> blockStore w' = blockStore w ->
  pathStore w' = pathStore w -> arrayStore w' = arrayStore w ->
  sound n w -> sound n w'.
Proof.
  intros Hn Hnp Hpg Hm Hb Hp Ha [[[] [] Hix] Hok]. split.
  - split; [split; congruence | split; congruence |].
    intros i k b Hc. rewrite Hb. apply Hix. by rewrite <- (cell_frame w w').
  - by eapply paths_ok_globals; [..|exact Hok].
Qed.

Lemma sound_newArray n w (Q : aref -> Engine -> Prop) E :
  sound n w ->
  (forall a w', sound n w' -> Q a w') ->
  wp newArray Q E w.
Proof.
  intros [Hg Hok] HQ. unfold newArray. wp_steps. apply HQ. split.
  - destruct Hg as [[] ? ?]. by split.
  - by apply paths_ok_newArray.
Qed.

Lemma shiftPaths_ok n fuel w :
  sound n w -> wp (shiftPaths fuel) (fun _ w' => sound n w') (sound n) w.
Proof.
  intros Hs. unfold shiftPaths.
  wp_step. eapply wp_mono;
    [apply (with_grid n); [apply gen_splicePaths | exact Hs | apply splicePaths_ok, Hs] | | done].
  intros ? w1 Hs1. cbv beta. wp_go.
  assert (Hs1' : sound n (set_pathsToSplice [] w1)).
  { by eapply sound_globals; [..|exact Hs1]. }
  eapply wp_mono;
    [apply (with_grid n); [apply gen_extendMainPath | exact Hs1' | apply extendMainPath_ok, Hs1'] | | done].
  intros ? w2 Hs2. cbv beta. wp_go.
  eapply wp_mono;
    [apply (with_grid n); [apply gen_growSeeds | exact Hs2 | apply growSeeds_ok, Hs2] | | done].
  intros ? w3 Hs3. cbv beta. wp_go.
  apply (sound_newArray n); [done|]. intros sa w4 Hs4. wp_go.
  set (w5 := set_pathSeeds sa w4).
  assert (Hs5 : sound n w5) by (by eapply sound_globals; [..|exact Hs4]).
  clearbody w5.
  eapply wp_mono; [apply (wp_forEach _ _ (sound n)); [exact Hs5|] | | done].
  { intros p w6 _ Hs6. wp_step.
    eapply wp_mono;
      [apply (with_grid n);
         [apply gen_extendPaths | exact Hs6
         | apply (extendPaths_ok n); apply Hs6] | | done].
    intros ? w7 Hs7. cbv beta. wp_go.
    apply wp_getPath; [|done]. intros pth Hpth.
    destruct (length (subPath pth) =? 0)%nat; wp_go; [|done].
    by eapply sound_globals; [..|exact Hs7]. }
  intros ? w6 Hs6. cbv beta. wp_go.
  eapply wp_mono;
    [apply (with_grid n);
       [apply gen_shareSecondSeeds | exact Hs6 | apply shareSecondSeeds_ok, Hs6]
    | | done].
  intros ? w7 Hs7. cbv beta. wp_go.
  eapply wp_mono;
    [apply (with_grid n); [apply gen_growSeeds | exact Hs7 | apply growSeeds_ok, Hs7]
    | | done].
  intros ? w8 Hs8. cbv beta.
  apply (with_grid n); [apply gen_clearSeeds | exact Hs8 | apply clearSeeds_ok, Hs8].
Qed.

(** The floors and the ties after the grid has moved down a row. *)
Lemma paths_ok_shifted n w w1 :
  sound n w -> shifted n w w1 -> paths_ok w1.
Proof.
  intros [Hgrid Hok] Hs.
  pose proof (sd_only _ _ _ Hs) as Hg.
  assert (Hfloor : forall b, floor w b -> floor w1 b).
  { intros b (blk & Hb & Hw & Hr).
    destruct (sd_kept _ _ _ Hs b blk Hb) as (blk' & Hb' & Hw' & Hr').
    exists blk'. split; [done|]. split; [auto | lia]. }
  assert (Hold : forall b i k, floor w b ->
            cell w1 (Z.of_nat i) (Z.of_nat k) = Some b ->
            exists p, i = S p /\ cell w (Z.of_nat p) (Z.of_nat k) = Some b).
  { intros b i k (blk & Hb & _) Hc. destruct i as [|p].
    - apply (sd_fresh _ _ _ Hs) in Hc. apply lookup_lt_Some in Hb. lia.
    - exists p. split; [done|]. by apply (sd_up _ _ _ Hs). }
  split.
  - intros p pth b Hp Hb. rewrite (go_pathStore _ _ Hg) in Hp.
    apply Hfloor. by eapply (po_floor _ Hok).
  - intros a arr b Ha Hb. rewrite (go_arrays _ _ Hg) in Ha.
    apply Hfloor. by eapply (po_seeds _ Hok).
  - intros p pth Hp i a b ablk' bblk' Hi HSi Hga Hgb Ha' Hb'.
    rewrite (go_pathStore _ _ Hg) in Hp.
    assert (Hfa : floor w a).
    { eapply (po_floor _ Hok); [done|]. by eapply list_elem_of_lookup_2. }
    assert (Hfb : floor w b).
    { eapply (po_floor _ Hok); [done|]. by eapply list_elem_of_lookup_2. }
    apply inGrid_cell in Hga as (ia & ka & Hca).
    apply inGrid_cell in Hgb as (ib & kb & Hcb).
    destruct (Hold a ia ka Hfa Hca) as (pa & -> & Hca0).
    destruct (Hold b ib kb Hfb Hcb) as (pb & -> & Hcb0).
    destruct (gk_indexed _ _ Hgrid _ _ _ Hca0) as (ablk & Hablk & Har & Hak).
    destruct (gk_indexed _ _ Hgrid _ _ _ Hcb0) as (bblk & Hbblk & Hbr & Hbk).
    destruct (gk_indexed _ _ (sd_ok _ _ _ Hs) _ _ _ Hca) as (ablk1 & Hablk1 & Har1 & Hak1).
    destruct (gk_indexed _ _ (sd_ok _ _ _ Hs) _ _ _ Hcb) as (bblk1 & Hbblk1 & Hbr1 & Hbk1).
    rewrite Ha' in Hablk1. injection Hablk1 as <-.
    rewrite Hb' in Hbblk1. injection Hbblk1 as <-.
    pose proof (po_linked _ Hok p pth Hp i a b ablk bblk Hi HSi
                  (cell_inGrid _ _ _ _ Hca0) (cell_inGrid _ _ _ _ Hcb0)
                  Hablk Hbblk) as Hstep.
    unfold stepApart in *. lia.
  - intros a ablk' x Hga Ha' Hx.
    apply inGrid_cell in Hga as (ia & ka & Hca).
    destruct ia as [|pa].
    + destruct (sd_top _ _ _ Hs ka a Hca) as (blk & Hblk & Hnil & _).
      rewrite Ha' in Hblk. injection Hblk as <-. rewrite Hnil in Hx.
      by apply elem_of_nil in Hx.
    + assert (Hw : wiredAt w1 a).
      { apply (sd_wired _ _ _ Hs (S pa) ka); [lia | done]. }
      rewrite (Hw ablk' Ha') in Hx.
      destruct (neighbours_stepApart w1 _ _ x (gk_indexed _ _ (sd_ok _ _ _ Hs)) Hx)
        as (xblk & Hxblk & Hstep).
      by exists xblk.
Qed.


(** What holds of the engine whenever it waits for a key. *)
Record healthy (n : Z) (w : Engine) : Prop := {
  he_grid : grid_ok n w;
  he_paths : paths_ok w;
  he_char : exists c blk,
    character w = Some c /\ inGrid w c /\
    blockStore w !! c = Some blk /\ isWall blk = false
}.

Lemma healthy_width n w : healthy n w -> 2 <= n.
Proof.
  intros [Hg _ (c & blk & _ & Hin & _)].
  destruct (grid_ok_block n w c Hg Hin) as (blk' & _ & _ & Hk & _).
  unfold rowWidth in Hk. lia.
Qed.

Lemma healthy_globals n w w' :
  numberOfRowBlocks w' = numberOfRowBlocks w ->
  numberOfRowPoints w' = numberOfRowPoints w ->
  pointGrid w' = pointGrid w ->
  maze w' = maze w -> blockStore w' = blockStore w ->
  pathStore w' = pathStore w -> arrayStore w' = arrayStore w ->
  character w' = character w ->
  healthy n w -> healthy n w'.
Proof.
  intros Hn Hnp Hpg Hm Hb Hp Ha Hc [Hg Hok Hch].
  destruct (sound_globals n w w' Hn Hnp Hpg Hm Hb Hp Ha (conj Hg Hok)) as [? ?].
  split; [done | done |].
  destruct Hch as (c & blk & ? & ? & ? & ?). exists c, blk.
  unfold inGrid. by rewrite Hc, Hm, Hb.
Qed.

Lemma healthy_step n w b blk :
  sound n w ->
  inGrid w b -> blockStore w !! b = Some blk -> isWall blk = false ->
  healthy n (set_character (Some b) w).
Proof.
  intros Hs Hin Hb Hw.
  destruct (sound_globals n w (set_character (Some b) w)) as [? ?]; try done.
  split; [done | done |]. by exists b, blk.
Qed.

(** ** After [start] *)

Lemma setup_loaded n draws :
  setup n (set_pointGrid (pointGridOf n)
             (set_numberOfRowPoints (n + 1) (loaded n draws))).
Proof. by split. Qed.

Lemma wired_adjacent_ok w :
  indexed w ->
  (forall a, inGrid w a -> wiredAt w a) ->
  adjacent_ok w.
Proof.
  intros Hix Hw a blk x Ha Hblk Hx.
  rewrite (Hw a Ha blk Hblk) in Hx.
  destruct (neighbours_stepApart w _ _ x Hix Hx) as (xblk & ? & ?).
  by exists xblk.
Qed.

Lemma start_healthy n draws fuel w :
  start fuel (loaded n draws) = (Ret tt, w) -> healthy n w.
Proof.
  intros Hrun.
  apply (wp_run (D:=True) _ (fun _ w' => healthy n w') (fun _ => True)) in Hrun;
    [done|].
  clear Hrun. unfold start, calculateDimensions, makePointGrid. wp_go.
  eapply wp_post; [apply (makeMaze_spec n), setup_loaded |].
  intros [] w1 (Hg1 & Hgo & Hw1 & Hlive). cbv beta. simpl in Hlive.
  specialize (Hlive eq_refl).
  assert (Hok1 : paths_ok w1).
  { split.
    - intros p pth b Hp. rewrite (go_pathStore _ _ Hgo) in Hp. done.
    - intros sa arr b Ha Hb. rewrite (go_arrays _ _ Hgo) in Ha. simpl in Ha.
      destruct sa as [|[|]]; simpl in Ha; try done;
        injection Ha as <-; by apply elem_of_nil in Hb.
    - intros p pth Hp. rewrite (go_pathStore _ _ Hgo) in Hp. done.
    - apply wired_adjacent_ok; [apply Hg1|].
      intros a (i & k & Hc)%inGrid_cell. apply (Hw1 i k); [lia | done]. }
  wp_step. eapply wp_mono;
    [apply (wp_and _ _ _ _ _ _ (gen_makePath fuel w1)
              (makePath_ok n fuel w1 Hg1 Hok1)) | | done].
  intros [] w2 [Hf Hok2]. cbv beta.
  assert (Hg2 : grid_ok n w2) by (by eapply grid_ok_gen).
  unfold makeCharacter, theMainPath. wp_go. wp_step; [|done].
  rename a into p. wp_go. apply wp_getPath; [|done]. intros pth Hpth.
  wp_go. wp_step; [|done]. rename a into b. wp_go.
  apply at_index_Some in H0 as [_ Hb].
  destruct (po_floor _ Hok2 p pth b Hpth) as (blk & Hblk & Hwall & _).
  { by eapply list_elem_of_lookup_2. }
  apply (healthy_step n w2 b blk); try done.
  eapply inGrid_frame; [apply Hf|]. apply Hlive.
  rewrite (Forall2_length _ _ _ (gf_blocks _ _ Hf)). by eapply lookup_lt_Some.
Qed.

(** ** After a key *)

Lemma moveTo_healthy n fi fj after w :
  healthy n w ->
  (forall c cl b pb,
     character w = Some c -> blockStore w !! c = Some cl -> inGrid w c ->
     isWall cl = false ->
     cell w (fi cl) (fj cl) = Some b -> blockStore w !! b = Some pb ->
     isWall pb = false ->
     wp (after b pb) (fun _ w' => healthy n w') (healthy n) w) ->
  wp (moveTo fi fj after) (fun _ w' => healthy n w') (healthy n) w.
Proof.
  intros Hh Hafter. destruct (he_char _ _ Hh) as (c & cl & Hc & Hin & Hcl & Hwall).
  unfold moveTo, theLocation. wp_go. rewrite Hc. wp_step; [|done].
  injection H as <-. wp_go. apply wp_getBlock; [|done].
  intros cl' Hcl'. rewrite Hcl in Hcl'. injection Hcl' as <-.
  wp_go. apply wp_cellAt_any; [|done]. intros b Hb.
  wp_go. apply wp_getBlock; [|done]. intros pb Hpb.
  destruct (isWall pb) eqn:Hw; simpl; [by wp_step|].
  by apply (Hafter c cl b pb).
Qed.

Lemma step_healthy n w b pb i k :
  healthy n w -> cell w i k = Some b -> blockStore w !! b = Some pb ->
  isWall pb = false ->
  wp (modify (set_character (Some b))) (fun _ w' => healthy n w') (healthy n) w.
Proof.
  intros Hh Hb Hpb Hw. wp_step.
  apply (healthy_step n w b pb); try done.
  - split; apply Hh.
  - by eapply cell_inGrid.
Qed.

(** A block that the shift and the pass after it keep in the grid. *)
Lemma shifted_inGrid n w w1 w2 q k b :
  shifted n w w1 -> gen_frame w1 w2 ->
  cell w q k = Some b -> q + 1 < Z.of_nat (length (maze w)) ->
  inGrid w2 b.
Proof.
  intros Hs Hf Hc Hq.
  pose proof Hc as (row & Hq0 & Hk0 & _)%cell_Some.
  eapply inGrid_frame; [apply Hf|].
  apply (cell_inGrid w1 (Z.of_nat (S (Z.to_nat q))) (Z.of_nat (Z.to_nat k))).
  apply (sd_down _ _ _ Hs); [|lia].
  by rewrite !Z2Nat.id by lia.
Qed.

Lemma shifted_unwalled n w w1 w2 b blk :
  shifted n w w1 -> gen_frame w1 w2 ->
  blockStore w !! b = Some blk -> isWall blk = false ->
  exists blk2, blockStore w2 !! b = Some blk2 /\ isWall blk2 = false.
Proof.
  intros Hs Hf Hb Hw.
  destruct (sd_kept _ _ _ Hs b blk Hb) as (blk1 & Hb1 & Hw1 & _).
  destruct (Forall2_lookup_l _ _ _ _ _ (gf_blocks _ _ Hf) Hb1)
    as (blk2 & Hb2 & (_ & _ & Hw2)).
  exists blk2. auto.
Qed.

Lemma keydown_healthy n fuel k w :
  healthy n w ->
  wp (keydown fuel k) (fun _ w' => healthy n w') (healthy n) w.
Proof.
  intros Hh. pose proof (healthy_width _ _ Hh) as Hn.
  destruct k; simpl.
  - (* W *)
    apply (moveTo_healthy n (fun cl => rowIndex cl - 1) blockIndex
      (fun p pb =>
         rows <- gets maze ;;
         (if pastHalfway (rowIndex pb) rows then shiftMaze fuel else ret tt) ;;
         modify (set_character (Some p))) w Hh).
    intros c cl b pb Hc Hcl Hin Hwc Hb Hpb Hw.
    wp_go. destruct (pastHalfway (rowIndex pb) (maze w)) eqn:Hpast.
    2:{ wp_step. by eapply step_healthy. }
    apply Z.ltb_lt in Hpast.
    pose proof (he_grid _ _ Hh) as Hg.
    pose proof Hb as (row & Hr0 & Hk0 & _)%cell_Some.
    destruct (gk_indexed _ _ Hg (Z.to_nat (rowIndex cl - 1))
                (Z.to_nat (blockIndex cl)) b) as (pb' & Hpb' & Hpr & _).
    { by rewrite !Z2Nat.id by lia. }
    rewrite Hpb in Hpb'. injection Hpb' as <-. rewrite Z2Nat.id in Hpr by lia.
    destruct (grid_ok_block n w c Hg Hin) as (cl' & Hcl' & _ & _ & Hcc).
    rewrite Hcl in Hcl'. injection Hcl' as <-.
    assert (HL : 7 <= Z.of_nat (length (maze w))).
    { rewrite (proj1 (gk_shape _ _ Hg)). unfold rowCount. lia. }
    apply (shiftMaze_unfold n); [done | lia |].
    intros w1 Hs.
    assert (Hs1 : sound n w1).
    { split; [apply Hs|]. eapply paths_ok_shifted; [|done]. split; apply Hh. }
    eapply wp_mono;
      [apply (wp_and _ _ _ _ _ _ (gen_shiftPaths fuel w1)
                (shiftPaths_ok n fuel w1 Hs1)) | |].
    + intros [] w2 [Hf Hs2]. cbv beta. wp_step.
      destruct (shifted_unwalled n w w1 w2 b pb Hs Hf Hpb Hw) as (blk2 & ? & ?).
      apply (healthy_step n w2 b blk2); try done.
      eapply shifted_inGrid; [done | done | done | lia].
    + intros w2 [Hf Hs2]. cbv beta.
      destruct (shifted_unwalled n w w1 w2 c cl Hs Hf Hcl Hwc) as (blk2 & ? & ?).
      split; [apply Hs2 | apply Hs2 |].
      exists c, blk2. split.
      { by rewrite (gf_char _ _ Hf), (go_char _ _ (sd_only _ _ _ Hs)). }
      split; [|done].
      eapply shifted_inGrid; [done | done | done | lia].
  - apply (moveTo_healthy n rowIndex (fun cl => blockIndex cl - 1)
      (fun p _ => modify (set_character (Some p))) w Hh).
    intros c cl b pb Hc Hcl Hin Hwc Hb Hpb Hw. by eapply step_healthy.
  - apply (moveTo_healthy n (fun cl => rowIndex cl + 1) blockIndex
      (fun p _ => modify (set_character (Some p))) w Hh).
    intros c cl b pb Hc Hcl Hin Hwc Hb Hpb Hw. by eapply step_healthy.
  - apply (moveTo_healthy n rowIndex (fun cl => blockIndex cl + 1)
      (fun p _ => modify (set_character (Some p))) w Hh).
    intros c cl b pb Hc Hcl Hin Hwc Hb Hpb Hw. by eapply step_healthy.
Qed.

Lemma reachable_healthy n w : reachable n w -> healthy n w.
Proof.
  induction 1 as [draws fuel w Hrun | w draws fuel k o w' _ IH Hrun Ho].
  - by eapply start_healthy.
  - assert (Hh : healthy n (set_rng draws w)).
    { by eapply healthy_globals; [..|exact IH]. }
    pose proof (wp_run (D:=True) _ _ _ _ _ _ Hrun (keydown_healthy n fuel k _ Hh)) as H.
    by destruct o.
Qed.

(** * The claims about reachable states *)

(** C1 (as amended).  In every reachable state of an engine of width
    [n], [numberOfRowBlocks] is still [n], the grid has exactly
    [3 * n + 1] rows, and every row holds exactly [n - 1] blocks. *)
Theorem grid_dimensions n w :
  reachable n w ->
  numberOfRowBlocks w = n /\
  length (maze w) = Z.to_nat (3 * n + 1) /\
  Forall (fun row => length row = Z.to_nat (n - 1)) (maze w).
Proof.
  intros Hr. apply reachable_healthy in Hr.
  destruct (he_grid _ _ Hr) as [Hsu [Hlen Hrows] _].
  split; [apply Hsu|]. split; [exact Hlen | exact Hrows].
Qed.

Lemma grid_dimensions_witness :
  reachable 4 maze4 /\
  numberOfRowBlocks maze4 = 4 /\
  length (maze maze4) = Z.to_nat (3 * 4 + 1) /\
  Forall (fun row => length row = Z.to_nat (4 - 1)) (maze maze4).
Proof.
  split; [exact reachable_maze4|].
  exact (grid_dimensions 4 maze4 reachable_maze4).
Defined.

(** A block of the row that a shift drops is in no row afterwards. *)
Lemma dropped_not_inGrid n w w1 bottom b :
  grid_ok n w -> shifted n w w1 ->
  last (maze w) = Some bottom -> b ∈ bottom -> ~ inGrid w1 b.
Proof.
  intros Hg Hs Hlast Hb Hin. rewrite last_lookup in Hlast.
  apply list_elem_of_lookup in Hb as [k Hk].
  pose proof (cell_lookup _ _ _ _ _ Hlast Hk) as Hc.
  apply inGrid_cell in Hin as (i & k' & Hc1). destruct i as [|p].
  - apply (sd_fresh _ _ _ Hs) in Hc1.
    destruct (gk_indexed _ _ Hg _ _ _ Hc) as (blk & Hblk & _).
    apply lookup_lt_Some in Hblk. lia.
  - apply (sd_up _ _ _ Hs) in Hc1 as [Hc0 Hlt].
    destruct (indexed_inj w _ _ _ _ b (gk_indexed _ _ Hg) Hc Hc0) as [Hp _]. lia.
Qed.

(** C2 (as amended).  In every reachable state, so also after every
    shift of the maze, the character's location is a block of the
    current grid: it is never a block of a row that was dropped. *)
Theorem character_stays_in_grid n w :
  reachable n w ->
  exists c, character w = Some c /\ inGrid w c.
Proof.
  intros Hr. apply reachable_healthy in Hr.
  destruct (he_char _ _ Hr) as (c & blk & Hc & Hin & _).
  exists c. by split.
Qed.

Lemma character_stays_in_grid_witness :
  reachable 4 maze4_shifted_twice /\
  exists c, character maze4_shifted_twice = Some c /\ inGrid maze4_shifted_twice c.
Proof.
  split; [exact reachable_maze4_shifted_twice|].
  exact (character_stays_in_grid 4 maze4_shifted_twice reachable_maze4_shifted_twice).
Defined.

(** C5 (as amended).  In every reachable state and for every Path, live
    or not: every block of its subPath is a floor block, and two
    consecutive blocks of the subPath that are both still in the grid
    are one step apart (a block of a dropped row keeps its old row
    index, so nothing of the kind holds of it). *)
Theorem paths_on_floor_and_linked n w p pth :
  reachable n w ->
  pathStore w !! p = Some pth ->
  (forall b, b ∈ subPath pth ->
     exists blk, blockStore w !! b = Some blk /\ isWall blk = false) /\
  (forall i a b ablk bblk,
     subPath pth !! i = Some a -> subPath pth !! S i = Some b ->
     inGrid w a -> inGrid w b ->
     blockStore w !! a = Some ablk -> blockStore w !! b = Some bblk ->
     stepApart ablk bblk).
Proof.
  intros Hr Hp. apply reachable_healthy in Hr.
  pose proof (he_paths _ _ Hr) as Hok. split.
  - intros b Hb.
    destruct (po_floor _ Hok p pth b Hp Hb) as (blk & Hblk & Hw & _).
    by exists blk.
  - exact (po_linked _ Hok p pth Hp).
Qed.

Lemma paths_on_floor_and_linked_witness :
  reachable 4 maze4_shifted_twice /\
  pathStore maze4_shifted_twice !! 0%nat =
    Some (mkPath [35; 32; 29; 26; 23; 20; 17; 14; 11; 8; 5; 2; 41]%nat 80) /\
  (forall b, b ∈ [35; 32; 29; 26; 23; 20; 17; 14; 11; 8; 5; 2; 41]%nat ->
     exists blk, blockStore maze4_shifted_twice !! b = Some blk /\
                 isWall blk = false).
Proof.
  split; [exact reachable_maze4_shifted_twice|].
  split; [by vm_compute|].
  exact (proj1 (paths_on_floor_and_linked 4 maze4_shifted_twice 0
                  (mkPath [35; 32; 29; 26; 23; 20; 17; 14; 11; 8; 5; 2; 41]%nat 80)
                  reachable_maze4_shifted_twice eq_refl)).
Defined.

(** C10.  In every reachable state the character's location is a block
    that is not a wall. *)
Theorem character_on_floor n w :
  reachable n w ->
  exists c blk,
    character w = Some c /\ blockStore w !! c = Some blk /\ isWall blk = false.
Proof.
  intros Hr. apply reachable_healthy in Hr.
  destruct (he_char _ _ Hr) as (c & blk & Hc & _ & Hblk & Hw).
  by exists c, blk.
Qed.

Lemma character_on_floor_witness :
  reachable 4 maze4_shifted /\
  exists c blk,
    character maze4_shifted = Some c /\
    blockStore maze4_shifted !! c = Some blk /\ isWall blk = false.
Proof.
  split; [exact reachable_maze4_shifted|].
  exact (character_on_floor 4 maze4_shifted reachable_maze4_shifted).
Defined.

Lemma move_rejected_witness :
  character maze4 = Some 37%nat /\
  blockStore maze4 !! 37%nat = Some (mkBlock false 12 1 [34; 38; 36]%nat 0) /\
  target KeyA (mkBlock false 12 1 [34; 38; 36]%nat 0) maze4 = Some 36%nat /\
  blockStore maze4 !! 36%nat = Some (mkBlock true 12 0 [33; 37]%nat 0) /\
  target KeyS (mkBlock false 12 1 [34; 38; 36]%nat 0) maze4 = None /\
  keydown 100 KeyA maze4 = (Ret tt, maze4) /\
  keydown 100 KeyS maze4 = (Throw, maze4).
Proof.
  do 5 (split; [by vm_compute|]). split.
  - apply (proj1 (move_rejected 100 KeyA maze4 37
                    (mkBlock false 12 1 [34; 38; 36]%nat 0)
                    ltac:(by vm_compute) ltac:(by vm_compute))
             36%nat (mkBlock true 12 0 [33; 37]%nat 0));
      [by vm_compute | by vm_compute | reflexivity].
  - apply (proj2 (move_rejected 100 KeyS maze4 37
                    (mkBlock false 12 1 [34; 38; 36]%nat 0)
                    ltac:(by vm_compute) ltac:(by vm_compute))).
    by vm_compute.
Defined.

(** * Too narrow an engine *)

Lemma at_index_nil {A} i : at_index (@nil A) i = None.
Proof. unfold at_index. by destruct (i <? 0). Qed.

(** What [start] leaves behind when it fails in [makePath]. *)
Definition halfBuilt (n : Z) (w : Engine) : Prop :=
  pointGrid w = pointGridOf n /\
  length (maze w) = Z.to_nat (3 * n + 1) /\
  Forall (fun row => length row = Z.to_nat (n - 1)) (maze w) /\
  mainPath w = Some 0%nat /\ paths w = [0%nat] /\
  pathStore w = [mkPath [] (n * 20)] /\
  character w = None.

(** C9 (as amended).  The width is not checked.  With a width below 3,
    [start] sets up the point grid and the grid of blocks as for any
    width, creates the main Path, and then ends in an uncaught
    TypeError in [makePath], where it reads a block of the bottom row
    that does not exist; the globals keep what was built, and only the
    character is never created. *)
Theorem narrow_engine_fails n draws fuel :
  n < 3 ->
  exists w, start fuel (loaded n draws) = (Throw, w) /\ halfBuilt n w.
Proof.
  intros Hn.
  assert (H : wpd False (start fuel) (fun _ _ => False) (halfBuilt n)
                (loaded n draws)).
  { unfold start, calculateDimensions, makePointGrid. wp_go.
    eapply wp_mono; [apply (makeMaze_spec n), setup_loaded | | done].
    intros [] w1 (Hg1 & Hgo & _ & _). cbv beta.
    assert (Hp1 : pathStore w1 = []) by (by rewrite (go_pathStore _ _ Hgo)).
    assert (Hps1 : paths w1 = []) by (by rewrite (go_paths _ _ Hgo)).
    assert (Hc1 : character w1 = None) by (by rewrite (go_char _ _ Hgo)).
    assert (Hn1 : numberOfRowBlocks w1 = n) by apply Hg1.
    assert (Hpg1 : pointGrid w1 = pointGridOf n) by apply Hg1.
    destruct (gk_shape _ _ Hg1) as [Hlen Hrows].
    assert (Hdone : forall w',
      pointGrid w' = pointGrid w1 -> maze w' = maze w1 ->
      mainPath w' = Some 0%nat -> paths w' = [0%nat] ->
      pathStore w' = [mkPath [] (n * 20)] -> character w' = None ->
      halfBuilt n w').
    { intros w' Ha Hb Hc Hd He Hf. unfold halfBuilt.
      rewrite Ha, Hb. by repeat split. }
    unfold makePath, makePath_trunk, newPath. wp_go.
    apply wp_modifyPath;
      [|intros Hnone; simpl in Hnone; by rewrite Hp1 in Hnone].
    intros pth Hpth. simpl in Hpth.
    rewrite Hp1 in Hpth. injection Hpth as <-.
    unfold newArray. wp_go. apply wp_mathRandom.
    all: [> intros o v | ]; unfold rowAt; wp_go; simpl maze;
      (wp_step;
       [|apply Hdone; simpl; rewrite ?Hp1, ?Hps1, ?Hn1; done]);
      rename a into currentRow;
      apply at_index_Some in H as [HL Hrow];
      (assert (Hw : (length currentRow <= 1)%nat);
       [rewrite Forall_lookup in Hrows; rewrite (Hrows _ _ Hrow);
        unfold rowWidth; lia|]);
      wp_go;
      (wp_step;
       [|apply Hdone; simpl; rewrite ?Hp1, ?Hps1, ?Hn1; done]);
      exfalso; revert H;
      (destruct currentRow as [|b [|]]; simpl in Hw;
       [by rewrite at_index_nil | by vm_compute | lia]). }
  unfold wpd in H.
  destruct (start fuel (loaded n draws)) as [[[]| |] w]; [done | by exists w | done].
Qed.

Lemma narrow_engine_fails_witness :
  2 < 3 /\ exists w, start 0 (loaded 2 []) = (Throw, w) /\ halfBuilt 2 w.
Proof.
  split; [lia|]. apply (narrow_engine_fails 2 [] 0). lia.
Defined.

(** C9, as stated, fails: at width 2 [start] ends in a TypeError, and by
    then the seven rows of the grid, their blocks and the main Path have
    been made. *)
Lemma narrow_engine_half_built :
  exists w,
    start 100 (loaded 2 draws4) = (Throw, w) /\
    maze w = [[0]; [1]; [2]; [3]; [4]; [5]; [6]]%nat /\
    length (blockStore w) = 7%nat /\
    paths w = [0%nat] /\ pathStore w = [mkPath [] 40] /\
    mainPath w = Some 0%nat.
Proof.
  eexists. split; [by vm_compute|].
  repeat (split; [by vm_compute|]). by vm_compute.
Qed.

(** * Growing the seeds *)

(** A path after a change that leaves its first block in place. *)
Definition hd_kept (p p' : Path) : Prop :=
  forall b, head (subPath p) = Some b -> head (subPath p') = Some b.

(** Every Path object keeps its first block. *)
Definition heads_kept (w w' : Engine) : Prop :=
  Forall2 hd_kept (pathStore w) (pathStore w').

#[export] Instance hd_kept_preorder : PreOrder hd_kept.
Proof. split; [by intros p b | intros p q r Hpq Hqr b Hb; by apply Hqr, Hpq]. Qed.

#[export] Instance heads_kept_preorder : PreOrder heads_kept.
Proof.
  split.
  - intros w. unfold heads_kept. apply Forall2_same_length_lookup_2; [done|].
    intros i a b Ha Hb. rewrite Ha in Hb. by injection Hb as <-.
  - intros a b c Hab Hbc. unfold heads_kept in *.
    eapply Forall2_trans; [|done|done]. intros x y z ? ?. by etrans.
Qed.
#[export] Hint Resolve heads_kept_preorder : keeps.

Lemma heads_same w w' : pathStore w' = pathStore w -> heads_kept w w'.
Proof. intros Hp. unfold heads_kept. rewrite Hp. apply heads_kept_preorder. Qed.

Lemma heads_modifyBlock b f : keeps heads_kept (modifyBlock b f).
Proof.
  intros w. apply wp_modifyBlock; [|by intros; reflexivity].
  intros blk Hb. by apply heads_same.
Qed.

Lemma heads_pushArray a v : keeps heads_kept (pushArray a v).
Proof.
  intros w. apply wp_pushArray; [|by intros; reflexivity].
  intros arr Ha. by apply heads_same.
Qed.

Lemma heads_mathRandom : keeps heads_kept mathRandom.
Proof. apply keeps_mathRandom; [apply _|]. intros w v. by apply heads_same. Qed.

Lemma heads_markPath p :
  keeps heads_kept
    (modify (fun w => set_pathsToSplice (pathsToSplice w ++ [p]) w)).
Proof. apply keeps_modify. intros w. by apply heads_same. Qed.

Lemma heads_pushSubPath p b : keeps heads_kept (pushSubPath p b).
Proof.
  intros w. unfold pushSubPath. apply wp_modifyPath; [|by intros; reflexivity].
  intros pth Hp. unfold heads_kept. simpl.
  eapply Forall2_insert_r; [apply _ | done |].
  intros x Hx. simpl. destruct (subPath pth); [done | by simpl in *].
Qed.

#[export] Hint Resolve heads_modifyBlock heads_pushArray heads_mathRandom
  heads_markPath heads_pushSubPath : keeps.

Lemma heads_makeSubPath_round p c : keeps heads_kept (makeSubPath_round p c).
Proof. unfold makeSubPath_round, subPathCandidate, checkForWallBlocks, pick. keeps_auto. Qed.

Lemma keeps_both {A} (R1 R2 : Engine -> Engine -> Prop) (m : M A) :
  keeps R1 m -> keeps R2 m -> keeps (fun w w' => R1 w w' /\ R2 w w') m.
Proof. intros H1 H2 w. exact (wp_and _ _ _ _ _ _ (H1 w) (H2 w)). Qed.

(** [makeSubPath(firstBlock)] makes one Path, which begins with
    [firstBlock]; the Paths there were keep their first block, and the
    seed arrays only grow. *)
Lemma makeSubPath_grows fuel b w :
  wp (makeSubPath fuel b)
    (fun _ w' =>
       pathSeeds w' = pathSeeds w /\
       Forall2 prefix (arrayStore w) (arrayStore w') /\
       length (pathStore w') = S (length (pathStore w)) /\
       (forall q pth, pathStore w !! q = Some pth ->
          exists pth', pathStore w' !! q = Some pth' /\ hd_kept pth pth') /\
       exists pth, pathStore w' !! length (pathStore w) = Some pth /\
                   head (subPath pth) = Some b)
    (fun _ => True) w.
Proof.
  unfold makeSubPath, newPath. wp_go.
  set (p := length (pathStore w)).
  apply wp_draw. intros o w2 Hr2.
  assert (Hp2 : pathStore w2 = pathStore w ++ [mkPath [] 0]) by (by rewrite Hr2).
  assert (Ha2 : arrayStore w2 = arrayStore w) by (by rewrite Hr2).
  assert (Hs2 : pathSeeds w2 = pathSeeds w) by (by rewrite Hr2).
  clear Hr2. wp_go.
  apply wp_modifyPath; [|done]. intros pth Hpth.
  rewrite Hp2, list_lookup_middle in Hpth by done. injection Hpth as <-.
  wp_go. apply wp_modifyPath; [|done]. intros pth Hpth. simpl in Hpth.
  rewrite list_lookup_insert_eq in Hpth by (rewrite Hp2, length_app; simpl; lia).
  injection Hpth as <-.
  set (d := scaled o (numberOfRowBlocks w2 * 2)).
  set (w4 := set_pathStore _ _).
  assert (Hp4 : pathStore w4 =
                <[p := mkPath [b] d]> (pathStore w ++ [mkPath [] 0])).
  { simpl. rewrite list_insert_insert_eq. by rewrite Hp2. }
  assert (Ha4 : arrayStore w4 = arrayStore w) by done.
  assert (Hs4 : pathSeeds w4 = pathSeeds w) by done.
  clearbody w4.
  eapply wp_mono;
    [apply (keeps_both round_frame heads_kept);
     [apply keeps_while; [apply _|]; intros c; apply round_makeSubPath_round
     |apply keeps_while; [apply _|]; intros c; apply heads_makeSubPath_round]
    | | done].
  intros [] w' [Hr Hh]. cbv beta. unfold heads_kept in Hh. rewrite Hp4 in Hh.
  split; [by rewrite (rf_seeds _ _ Hr)|].
  split; [rewrite <- Ha4; exact (rf_arrays _ _ Hr)|].
  split.
  { rewrite <- (Forall2_length _ _ _ Hh).
    rewrite length_insert, length_app. simpl. lia. }
  split.
  - intros q qth Hq.
    assert (Hq4 : <[p := mkPath [b] d]> (pathStore w ++ [mkPath [] 0]) !! q
                  = Some qth).
    { apply lookup_lt_Some in Hq as Hlt.
      rewrite list_lookup_insert_ne by (unfold p; lia).
      by apply lookup_app_l_Some. }
    destruct (Forall2_lookup_l _ _ _ _ _ Hh Hq4) as (qth' & ? & ?).
    by exists qth'.
  - assert (Hq4 : <[p := mkPath [b] d]> (pathStore w ++ [mkPath [] 0]) !! p
                  = Some (mkPath [b] d)).
    { apply list_lookup_insert_eq. rewrite length_app. simpl. unfold p. lia. }
    destruct (Forall2_lookup_l _ _ _ _ _ Hh Hq4) as (pth' & ? & Hk).
    exists pth'. split; [done | by apply Hk].
Qed.

(** C7 (as amended).  The loop over [pathSeeds] reads the global and the
    length of the array it names afresh on every round, so it also
    visits what is pushed on that array while it runs (after
    [pathSeeds = secondSeeds], every second seed of the branches it is
    growing).  When it returns, every element of the array as it is
    then, whenever it was pushed, is the first block of a Path that the
    loop made: it made exactly as many Paths as the array has elements
    in the end. *)
Theorem seeds_all_grown fuel w w' :
  growSeeds fuel w = (Ret tt, w') ->
  exists arr',
    arrayStore w' !! pathSeeds w = Some arr' /\
    pathSeeds w' = pathSeeds w /\
    (forall arr, arrayStore w !! pathSeeds w = Some arr -> arr `prefix_of` arr') /\
    length (pathStore w') = (length (pathStore w) + length arr')%nat /\
    forall j seed, arr' !! j = Some seed ->
      exists pth, pathStore w' !! (length (pathStore w) + j)%nat = Some pth /\
                  head (subPath pth) = Some seed.
Proof.
  intros Hrun.
  apply (wp_run (D:=True) _ (fun _ w' => exists arr',
    arrayStore w' !! pathSeeds w = Some arr' /\
    pathSeeds w' = pathSeeds w /\
    (forall arr, arrayStore w !! pathSeeds w = Some arr -> arr `prefix_of` arr') /\
    length (pathStore w') = (length (pathStore w) + length arr')%nat /\
    forall j seed, arr' !! j = Some seed ->
      exists pth, pathStore w' !! (length (pathStore w) + j)%nat = Some pth /\
                  head (subPath pth) = Some seed) (fun _ => True)) in Hrun;
    [done|].
  clear Hrun w'. unfold growSeeds.
  apply (wp_while fuel _ (fun i w1 =>
    pathSeeds w1 = pathSeeds w /\
    Forall2 prefix (arrayStore w) (arrayStore w1) /\
    length (pathStore w1) = (length (pathStore w) + i)%nat /\
    forall arr1, arrayStore w1 !! pathSeeds w = Some arr1 ->
      (i <= length arr1)%nat /\
      forall j seed, (j < i)%nat -> arr1 !! j = Some seed ->
        exists pth, pathStore w1 !! (length (pathStore w) + j)%nat = Some pth /\
                    head (subPath pth) = Some seed)).
  { split; [done|]. split.
    { apply Forall2_same_length_lookup_2; [done|].
      intros i a b Ha Hb. rewrite Ha in Hb. by injection Hb as <-. }
    split; [lia|]. intros arr1 _. split; [lia|]. intros j seed Hj. lia. }
  intros i w1 (Hs1 & Ha1 & Hl1 & Hinv).
  wp_go. rewrite Hs1. apply wp_getArray; [|done]. intros arr1 Harr1.
  destruct (Hinv arr1 Harr1) as [Hi Hseeds].
  destruct (arr1 !! i) as [seed|] eqn:Hseed.
  - wp_step. eapply wp_mono; [apply makeSubPath_grows | | done].
    intros [] w2 (Hs2 & Ha2 & Hl2 & Hold & (pth & Hpth & Hhd)). cbv beta.
    wp_step. split; [congruence|]. split; [by etrans|]. split; [lia|].
    intros arr2 Harr2.
    destruct (Forall2_lookup_l _ _ _ _ _ Ha2 Harr1) as (arr2' & Harr2' & Hpre).
    rewrite Harr2 in Harr2'. injection Harr2' as <-.
    pose proof (lookup_lt_Some _ _ _ Hseed) as Hlt.
    pose proof (prefix_length _ _ Hpre) as Hle.
    split; [lia|]. intros j s Hj Hjs.
    assert (Hj1 : arr1 !! j = Some s).
    { destruct (lookup_lt_is_Some_2 arr1 j) as [s' Hs']; [lia|].
      rewrite (prefix_lookup_Some _ _ _ _ Hs' Hpre) in Hjs. congruence. }
    destruct (decide (j = i)) as [->|Hne].
    + rewrite Hseed in Hj1. injection Hj1 as <-.
      exists pth. by rewrite <- Hl1.
    + destruct (Hseeds j s) as (qth & Hq & Hqhd); [lia | done |].
      destruct (Hold _ _ Hq) as (qth' & Hq' & Hk).
      exists qth'. split; [done | by apply Hk].
  - wp_step. apply lookup_ge_None in Hseed.
    exists arr1. split; [done|]. split; [done|]. split.
    { intros arr Harr.
      destruct (Forall2_lookup_l _ _ _ _ _ Ha1 Harr) as (arr1' & Harr1' & Hpre).
      rewrite Harr1 in Harr1'. by injection Harr1' as <-. }
    split; [lia|]. intros j s Hjs. apply (Hseeds j s); [|done].
    apply lookup_lt_Some in Hjs. lia.
Qed.

Lemma seeds_all_grown_witness :
  exists w',
    growSeeds 100 maze6_sharing = (Ret tt, w') /\
    exists arr',
      arrayStore w' !! pathSeeds maze6_sharing = Some arr' /\
      pathSeeds w' = pathSeeds maze6_sharing /\
      (forall arr, arrayStore maze6_sharing !! pathSeeds maze6_sharing = Some arr ->
                   arr `prefix_of` arr') /\
      length (pathStore w') = (length (pathStore maze6_sharing) + length arr')%nat /\
      forall j seed, arr' !! j = Some seed ->
        exists pth,
          pathStore w' !! (length (pathStore maze6_sharing) + j)%nat = Some pth /\
          head (subPath pth) = Some seed.
Proof.
  exists (snd (growSeeds 100 maze6_sharing)).
  split; [by vm_compute|].
  apply (seeds_all_grown 100 maze6_sharing). by vm_compute.
Defined.

(** * The length of a branch *)

Lemma makeSubPath_round_cap p c w pth :
  pathStore w !! p = Some pth ->
  (length (subPath pth) = 1%nat \/
   Z.of_nat (length (subPath pth)) < distance pth) ->
  wp (makeSubPath_round p c)
    (fun r w' =>
       exists pth', pathStore w' !! p = Some pth' /\
         distance pth' = distance pth /\
         match r with
         | inl _ => Z.of_nat (length (subPath pth')) < distance pth'
         | inr _ => Z.of_nat (length (subPath pth')) <= Z.max 2 (distance pth')
         end)
    (fun _ => True) w.
Proof.
  intros Hp Hlen. unfold makeSubPath_round.
  wp_go. apply wp_getBlock; [|done]. intros cur Hcur. wp_go.
  apply (wp_keeps scan_frame);
    [apply keeps_collect; [apply _|]; intros a; apply scan_subPathCandidate
    | | done].
  intros possible w1 Hs. cbv beta.
  assert (Hp1 : pathStore w1 !! p = Some pth) by (by rewrite (sc_pathStore _ _ Hs)).
  clear Hs Hp Hcur.
  assert (Hfinish : forall a w2 pth2,
    pathStore w2 !! p = Some pth2 -> distance pth2 = distance pth ->
    (Z.of_nat (length (subPath pth2)) <= Z.max 2 (distance pth)) ->
    wp (cur0 <- getBlock a;;
        pth0 <- getPath p;;
        (if (rowIndex cur0 =? 1) || (length possible =? 0)%nat
            || (distance pth0 <=? Z.of_nat (length (subPath pth0)))
         then
           (if (length possible =? 0)%nat
               || (distance pth0 <=? Z.of_nat (length (subPath pth0)))
            then modify (fun w0 => set_pathsToSplice (pathsToSplice w0 ++ [p]) w0)
            else ret ());;
           ret (inr ())
         else
           o <- mathRandom;;
           (if scaled o 20 <? 3
            then a0 <- gets secondSeeds;; pushArray a0 a
            else ret ());;
           ret (inl a)))
      (fun (r : ref + ()) w' =>
         exists pth', pathStore w' !! p = Some pth' /\
           distance pth' = distance pth /\
           match r with
           | inl _ => Z.of_nat (length (subPath pth')) < distance pth'
           | inr _ => Z.of_nat (length (subPath pth')) <= Z.max 2 (distance pth')
           end)
      (fun _ => True) w2).
  { intros a w2 pth2 Hp2 Hd2 Hle.
    wp_go. apply wp_getBlock; [|done]. intros cur0 Hcur0.
    wp_go. apply wp_getPath; [|done]. intros pth0 Hpth0.
    rewrite Hp2 in Hpth0. injection Hpth0 as <-.
    destruct ((rowIndex cur0 =? 1) || (length possible =? 0)%nat
              || (distance pth2 <=? Z.of_nat (length (subPath pth2)))) eqn:Hstop.
    - wp_go.
      destruct ((length possible =? 0)%nat
                || (distance pth2 <=? Z.of_nat (length (subPath pth2))));
        wp_go; exists pth2; (split; [done|]); (split; [done|]); by rewrite Hd2.
    - apply orb_false_iff in Hstop as [_ Hlong]. apply Z.leb_gt in Hlong.
      wp_go. apply wp_draw. intros o w3 Hr3.
      assert (Hp3 : pathStore w3 !! p = Some pth2) by (by rewrite Hr3).
      wp_go. destruct (scaled o 20 <? 3).
      + wp_go. apply wp_pushArray; [|done]. intros arr Harr. wp_go.
        by exists pth2.
      + wp_go. by exists pth2. }
  wp_go. destruct (0 <? length possible)%nat.
  - wp_go. apply wp_pick; [|done]. intros b w2 Hb Hr2.
    assert (Hp2 : pathStore w2 !! p = Some pth) by (by rewrite Hr2).
    wp_go. apply wp_modifyBlock; [|done]. intros blk Hblk.
    wp_go. unfold pushSubPath. apply wp_modifyPath; [|done]. intros pth' Hpth'.
    simpl in Hpth'. rewrite Hp2 in Hpth'. injection Hpth' as <-. wp_step.
    apply (Hfinish b _ (set_subPath (subPath pth ++ [b]) pth)).
    + simpl. apply list_lookup_insert_eq. by eapply lookup_lt_Some.
    + done.
    + simpl. rewrite length_app. simpl. lia.
  - wp_step. apply (Hfinish c w1 pth); [done | done | lia].
Qed.

(** When [makeSubPath] returns, the branch it has made holds at most as
    many blocks as the larger of 2 and its distance: the test comes
    after the block has been added, and the path holds its first block
    before the first test. *)
Lemma makeSubPath_capped fuel b w w' :
  makeSubPath fuel b w = (Ret tt, w') ->
  exists pth,
    pathStore w' !! length (pathStore w) = Some pth /\
    Z.of_nat (length (subPath pth)) <= Z.max 2 (distance pth).
Proof.
  intros Hrun.
  apply (wp_run (D:=True) _ (fun _ w' => exists pth,
    pathStore w' !! length (pathStore w) = Some pth /\
    Z.of_nat (length (subPath pth)) <= Z.max 2 (distance pth))
    (fun _ => True)) in Hrun; [done|].
  clear Hrun w'. unfold makeSubPath, newPath. wp_go.
  set (p := length (pathStore w)).
  apply wp_draw. intros o w2 Hr2.
  assert (Hp2 : pathStore w2 = pathStore w ++ [mkPath [] 0]) by (by rewrite Hr2).
  clear Hr2. wp_go.
  apply wp_modifyPath; [|done]. intros pth Hpth.
  rewrite Hp2, list_lookup_middle in Hpth by done. injection Hpth as <-.
  wp_go. apply wp_modifyPath; [|done]. intros pth Hpth. simpl in Hpth.
  rewrite list_lookup_insert_eq in Hpth by (rewrite Hp2, length_app; simpl; lia).
  injection Hpth as <-.
  set (d := scaled o (numberOfRowBlocks w2 * 2)).
  set (w4 := set_pathStore _ _).
  assert (Hp4 : pathStore w4 !! p = Some (mkPath [b] d)).
  { simpl. apply list_lookup_insert_eq.
    rewrite length_insert, Hp2, length_app. simpl. unfold p. lia. }
  clearbody w4.
  eapply wp_mono;
    [apply (wp_while fuel _ (fun _ w5 => exists pth5,
       pathStore w5 !! p = Some pth5 /\
       (length (subPath pth5) = 1%nat \/
        Z.of_nat (length (subPath pth5)) < distance pth5))
       (fun _ w5 => exists pth5, pathStore w5 !! p = Some pth5 /\
          Z.of_nat (length (subPath pth5)) <= Z.max 2 (distance pth5))
       (fun _ => True)) | done | done].
  { exists (mkPath [b] d). split; [done | by left]. }
  intros c w5 (pth5 & Hp5 & Hlen5).
  eapply wp_mono; [by apply (makeSubPath_round_cap p c w5 pth5) | | done].
  intros [c'|[]] w6 (pth6 & Hp6 & Hd6 & Hlen6); exists pth6; (split; [done|]).
  - by right.
  - done.
Qed.

(** * The neighbour lists after a shift *)

(** C6.  After the grid part of [shiftMaze], run on a well-formed grid
    of width at least 3: every block of the rows from 1 on has the
    adjacentBlocks list that the rule calls for, computed from its
    current indices; but every block of the new row 0 has an empty
    list, although the rule gives it at least the neighbour below. *)
Theorem fresh_row_left_unwired n w :
  grid_ok n w -> 3 <= n ->
  exists w1,
    shiftGrid w = (Ret tt, w1) /\
    (forall i k b blk,
       (1 <= i)%nat -> cell w1 (Z.of_nat i) (Z.of_nat k) = Some b ->
       blockStore w1 !! b = Some blk ->
       rowIndex blk = Z.of_nat i /\ blockIndex blk = Z.of_nat k /\
       adjacentBlocks blk = neighbours w1 (Z.of_nat i) (Z.of_nat k)) /\
    (forall k b,
       cell w1 0 (Z.of_nat k) = Some b ->
       exists blk, blockStore w1 !! b = Some blk /\
         rowIndex blk = 0 /\ blockIndex blk = Z.of_nat k /\
         adjacentBlocks blk = [] /\
         neighbours w1 0 (Z.of_nat k) <> []).
Proof.
  intros Hg Hn.
  assert (Hn0 : 0 <= n) by lia.
  pose proof (shiftGrid_spec (D:=False) n w Hg Hn0) as H.
  unfold wpd in H.
  destruct (shiftGrid w) as [[[]| |] w1]; [|done..].
  exists w1. split; [done|].
  pose proof (sd_ok _ _ _ H) as Hg1. split.
  - intros i k b blk Hi Hc Hblk.
    destruct (gk_indexed _ _ Hg1 i k b Hc) as (blk' & Hblk' & Hr & Hk).
    rewrite Hblk in Hblk'. injection Hblk' as <-.
    split; [done|]. split; [done|].
    rewrite (sd_wired _ _ _ H i k b Hi Hc blk Hblk). by rewrite Hr, Hk.
  - intros k b Hc.
    destruct (sd_top _ _ _ H k b Hc) as (blk & Hblk & Hnil & _).
    destruct (gk_indexed _ _ Hg1 0%nat k b Hc) as (blk' & Hblk' & Hr & Hk).
    rewrite Hblk in Hblk'. injection Hblk' as <-.
    exists blk. split; [done|]. split; [done|]. split; [done|]. split; [done|].
    destruct (cell_shape n w1 _ _ _ (gk_shape _ _ Hg1) Hc) as [_ Hkw].
    destruct (shape_cell n w1 1 (Z.of_nat k) (gk_shape _ _ Hg1)) as [d Hd];
      [unfold rowCount; lia | done |].
    unfold neighbours. rewrite (proj1 (gk_shape _ _ Hg1)).
    destruct (Z.ltb_spec 0 (Z.of_nat (rowCount n) - 3)) as [_|Hge];
      [|unfold rowCount in Hge; lia].
    change (0 + 1) with 1. rewrite Hd. simpl.
    intros Heq. apply (f_equal length) in Heq.
    rewrite !length_app in Heq. simpl in Heq. lia.
Qed.

Lemma fresh_row_left_unwired_witness :
  grid_ok 4 maze4 /\ 3 <= 4 /\
  exists w1,
    shiftGrid maze4 = (Ret tt, w1) /\
    (forall i k b blk,
       (1 <= i)%nat -> cell w1 (Z.of_nat i) (Z.of_nat k) = Some b ->
       blockStore w1 !! b = Some blk ->
       rowIndex blk = Z.of_nat i /\ blockIndex blk = Z.of_nat k /\
       adjacentBlocks blk = neighbours w1 (Z.of_nat i) (Z.of_nat k)) /\
    (forall k b,
       cell w1 0 (Z.of_nat k) = Some b ->
       exists blk, blockStore w1 !! b = Some blk /\
         rowIndex blk = 0 /\ blockIndex blk = Z.of_nat k /\
         adjacentBlocks blk = [] /\
         neighbours w1 0 (Z.of_nat k) <> []).
Proof.
  assert (Hg : grid_ok 4 maze4) by apply (reachable_healthy 4), reachable_maze4.
  split; [exact Hg|]. split; [lia|].
  apply (fresh_row_left_unwired 4 maze4 Hg). lia.
Defined.

(** * The rows along the main path *)

(** The rowIndex of a block, if there is such a block. *)
Definition rowOf (w : Engine) (b : ref) : option Z :=
  rowIndex <$> (blockStore w !! b).

(** Going by the row indices, [b] is not below [c]. *)
Definition notBelow (w : Engine) (b c : ref) : Prop :=
  forall rb rc, rowOf w b = Some rb -> rowOf w c = Some rc -> rb <= rc.

(** Read along [l], the row indices never increase: the path never moves
    downward. *)
Definition descending (w : Engine) (l : list ref) : Prop :=
  forall i a b, l !! i = Some a -> l !! S i = Some b -> notBelow w b a.

Lemma rowOf_Some w b blk : blockStore w !! b = Some blk -> rowOf w b = Some (rowIndex blk).
Proof. unfold rowOf. by intros ->. Qed.

Lemma rowOf_carved w w' x :
  Forall2 carved (blockStore w) (blockStore w') -> rowOf w' x = rowOf w x.
Proof.
  intros Hbs. unfold rowOf.
  destruct (blockStore w !! x) as [blk|] eqn:Hx.
  - destruct (Forall2_lookup_l _ _ _ _ _ Hbs Hx) as (blk' & -> & (Hr & _)).
    simpl. by rewrite Hr.
  - apply lookup_ge_None in Hx. rewrite (Forall2_length _ _ _ Hbs) in Hx.
    apply lookup_ge_None in Hx. by rewrite Hx.
Qed.

Lemma rowOf_scan w w' x : scan_frame w w' -> rowOf w' x = rowOf w x.
Proof.
  intros Hs. apply rowOf_carved.
  eapply Forall2_impl; [apply (sc_blocks _ _ Hs)|].
  intros a b [(? & ? & _ & ?) _]. by repeat split.
Qed.

Lemma descending_frame w w' l :
  (forall x, rowOf w' x = rowOf w x) -> descending w l -> descending w' l.
Proof.
  intros Hrow Hd i a b Hi HSi rb rc. rewrite !Hrow. by apply (Hd i).
Qed.

Lemma descending_app w l c b :
  descending w l -> last l = Some c -> notBelow w b c -> descending w (l ++ [b]).
Proof.
  intros Hd Hlast Hbc i x y Hi HSi.
  destruct (decide (S i < length l)%nat) as [Hlt|Hge].
  - rewrite lookup_app_l in Hi, HSi by lia. by apply (Hd i).
  - assert (S i = length l).
    { apply lookup_lt_Some in HSi. rewrite length_app in HSi. simpl in HSi. lia. }
    rewrite lookup_app_l in Hi by lia.
    rewrite lookup_app_r in HSi by lia.
    replace (S i - length l)%nat with 0%nat in HSi by lia.
    injection HSi as <-.
    rewrite last_lookup in Hlast.
    replace (Nat.pred (length l)) with i in Hlast by lia.
    rewrite Hi in Hlast. by injection Hlast as <-.
Qed.

(** Scanning the neighbours, with what the test tells of a candidate. *)
Lemma scan_collect_with (P : ref -> Prop) (f : ref -> M (list ref)) l w :
  (forall a, keeps scan_frame (f a)) ->
  (forall a w1, scan_frame w w1 ->
     wp (f a) (fun xs _ => Forall (fun x => x = a) xs /\ (xs <> [] -> P a))
       (fun _ => True) w1) ->
  wp (collect l f)
    (fun xs w' => scan_frame w w' /\ Forall (fun x => x ∈ l /\ P x) xs)
    (fun _ => True) w.
Proof.
  intros Hk Hself.
  eapply wp_mono;
    [apply (wp_collect l f (fun w' => scan_frame w w')
              (fun x => x ∈ l /\ P x) (fun _ => True)); [done|] | done | done].
  intros a w1 Ha Hw1.
  eapply wp_mono; [apply (wp_and _ _ _ _ _ _ (Hk a w1) (Hself a w1 Hw1)) | |].
  - intros xs w2 [H2 [Hxs HP]]. simpl in *. split; [by etrans|].
    destruct xs as [|x xs']; [constructor|].
    assert (HPa : P a) by (by apply HP).
    eapply Forall_impl; [exact Hxs|]. intros y Hy. cbv beta in Hy. by subst.
  - done.
Qed.

Lemma mainCandidate_rows c b w :
  wp (mainCandidate c b)
    (fun xs w' => Forall (fun x => x = b) xs /\ (xs <> [] -> notBelow w b c))
    (fun _ => True) w.
Proof.
  unfold mainCandidate. wp_go. apply wp_getBlock; [|done]. intros nb Hnb.
  wp_go. apply wp_getBlock; [|done]. intros cur Hcur. wp_go.
  case_test H1; [|wp_go; by split].
  wp_go. apply (wp_keeps (fun _ _ => True)); [apply keeps_anything | | done].
  intros [] w1 _. cbv beta.
  wp_go. apply (wp_keeps (fun _ _ => True)); [apply keeps_anything | | done].
  intros nb' w2 _. cbv beta. wp_go. split.
  - repeat (apply Forall_app; split);
      repeat match goal with |- context [if ?c then _ else _] => destruct c end;
      by repeat constructor.
  - intros _ rb rc. rewrite (rowOf_Some _ _ _ Hnb), (rowOf_Some _ _ _ Hcur).
    intros [= <-] [= <-]. split_tests H1. lia.
Qed.

Lemma extendMainCandidate_rows c b w :
  wp (extendMainCandidate c b)
    (fun xs w' => Forall (fun x => x = b) xs /\
       (xs <> [] -> (notBelow w b c \/ rowOf w b = Some 1) /\ belowTop w b))
    (fun _ => True) w.
Proof.
  unfold extendMainCandidate. wp_go.
  apply (wp_keeps scan_frame); [apply scan_checkForWallBlocks | | done].
  intros [] w1 Hs. cbv beta.
  wp_go. apply wp_getBlock; [|done]. intros nb Hnb.
  wp_go. apply wp_getBlock; [|done]. intros lb Hlb. wp_go.
  assert (Hrb : rowOf w b = Some (rowIndex nb)).
  { by rewrite <- (rowOf_scan w w1), (rowOf_Some _ _ _ Hnb). }
  assert (Hrc : rowOf w c = Some (rowIndex lb)).
  { by rewrite <- (rowOf_scan w w1), (rowOf_Some _ _ _ Hlb). }
  assert (Hbt : 1 <= rowIndex nb -> belowTop w b).
  { intros Hr blk Hblk. rewrite (rowOf_Some _ _ _ Hblk) in Hrb.
    injection Hrb as ->. done. }
  case_test H1.
  { wp_step. split; [by repeat constructor|]. intros _. split_tests H1. split.
    - left. intros rb rc. rewrite Hrb, Hrc. intros [= <-] [= <-]. lia.
    - apply Hbt. lia. }
  case_test H2; wp_step; (split; [by repeat constructor|]); [|done].
  intros _. split_tests H2. apply Z.eqb_eq in H2. split.
  - right. by rewrite Hrb, H2.
  - apply Hbt. lia.
Qed.

(** One round of [makePath]: the block it adds, if any, is not below the
    block it was added after. *)
Lemma makePath_round_rows p c w pth :
  mainPath w = Some p -> pathStore w !! p = Some pth ->
  wp (makePath_round c)
    (fun r w' =>
       match r with
       | inl b =>
           pathStore w' !! p = Some (set_subPath (subPath pth ++ [b]) pth) /\
           notBelow w b c
       | inr _ => pathStore w' !! p = Some pth
       end)
    (fun _ => True) w.
Proof.
  intros Hmain Hp. unfold makePath_round.
  wp_go. apply wp_getBlock; [|done]. intros cur Hcur. wp_go.
  eapply wp_mono;
    [apply (scan_collect_with (fun x => notBelow w x c));
       [intros; apply scan_mainCandidate|] | | done].
  { intros a w1 Hs. eapply wp_mono; [apply mainCandidate_rows | | done].
    intros xs w2 [Hxs Hrow]. split; [done|]. intros Hne rb rc.
    rewrite <- !(rowOf_scan w w1) by done. by apply Hrow. }
  intros possible w1 [Hs Hposs]. cbv beta.
  assert (Hp1 : pathStore w1 !! p = Some pth) by (by rewrite (sc_pathStore _ _ Hs)).
  assert (Hmain1 : mainPath w1 = Some p) by (by rewrite (sc_main _ _ Hs)).
  clear Hs Hp Hmain Hcur.
  wp_go. apply wp_getBlock; [|done]. intros cur1 Hcur1.
  destruct ((rowIndex cur1 =? 1) || (length possible =? 0)%nat); [by wp_go|].
  wp_go. apply wp_pick; [|done]. intros b w2 Hb Hr2.
  assert (Hp2 : pathStore w2 !! p = Some pth) by (by rewrite Hr2).
  assert (Hmain2 : mainPath w2 = Some p) by (by rewrite Hr2).
  assert (Hbc : notBelow w b c).
  { rewrite Forall_forall in Hposs. by apply Hposs. }
  clear Hr2. wp_go. apply wp_modifyBlock; [|done]. intros blk Hblk.
  unfold theMainPath. wp_go. simpl mainPath. rewrite Hmain2.
  wp_step; [|done]. injection H as <-.
  wp_go. unfold pushSubPath. apply wp_modifyPath; [|done]. intros pth' Hpth'.
  simpl in Hpth'. rewrite Hp2 in Hpth'. injection Hpth' as <-.
  set (w4 := set_pathStore _ _).
  assert (Hp4 : pathStore w4 !! p = Some (set_subPath (subPath pth ++ [b]) pth)).
  { simpl. apply list_lookup_insert_eq. by eapply lookup_lt_Some. }
  clearbody w4.
  wp_go. apply wp_draw. intros o w5 Hr5.
  assert (Hp5 : pathStore w5 !! p = Some (set_subPath (subPath pth ++ [b]) pth))
    by (by rewrite Hr5).
  wp_go. destruct (scaled o 21 <? 4).
  - wp_go. apply wp_pushArray; [|done]. intros arr Harr. wp_go. by split.
  - wp_go. by split.
Qed.

(** One round of [extendMainPath]: the block it adds, if any, is not
    below the block it was added after, provided that one is below the
    top row; and it is below the top row itself. *)
Lemma extendMainPath_round_rows p c w pth :
  mainPath w = Some p -> pathStore w !! p = Some pth -> belowTop w c ->
  wp (extendMainPath_round c)
    (fun r w' =>
       exists added,
         pathStore w' !! p =
           Some (set_subPath (drop (length added) (subPath pth ++ added)) pth) /\
         (added = [] \/
          exists b, added = [b] /\ notBelow w b c /\ belowTop w b) /\
         match r with inl c' => last (c :: added) = Some c' | inr _ => True end)
    (fun _ => True) w.
Proof.
  intros Hmain Hp Hc. unfold extendMainPath_round.
  wp_go. apply wp_getBlock; [|done]. intros cur Hcur. wp_go.
  eapply wp_mono;
    [apply (scan_collect_with (fun x => notBelow w x c /\ belowTop w x));
       [intros; apply scan_extendMainCandidate|] | | done].
  { intros a w1 Hs. eapply wp_mono; [apply extendMainCandidate_rows | | done].
    intros xs w2 [Hxs Hrow]. split; [done|]. intros Hne.
    destruct (Hrow Hne) as [Hle Hbt].
    assert (Hbt' : belowTop w a).
    { intros blk Hblk. pose proof (rowOf_Some _ _ _ Hblk) as Hr.
      rewrite <- (rowOf_scan w w1) in Hr by done. unfold rowOf in Hr.
      destruct (blockStore w1 !! a) as [blk1|] eqn:Hblk1; [|done].
      injection Hr as <-. by apply Hbt. }
    split; [|done]. intros rb rc Hrb Hrc.
    destruct Hle as [Hle|Hone].
    - apply Hle; by rewrite (rowOf_scan w w1).
    - rewrite (rowOf_scan w w1) in Hone by done. rewrite Hone in Hrb.
      injection Hrb as <-. unfold rowOf in Hrc.
      destruct (blockStore w !! c) as [cblk|] eqn:Hcblk; [|done].
      injection Hrc as <-. by apply Hc. }
  intros possible w1 [Hs Hposs]. cbv beta.
  assert (Hp1 : pathStore w1 !! p = Some pth) by (by rewrite (sc_pathStore _ _ Hs)).
  assert (Hmain1 : mainPath w1 = Some p) by (by rewrite (sc_main _ _ Hs)).
  clear Hs Hp Hmain Hcur.
  assert (Hfinish : forall a w2 added,
    pathStore w2 !! p =
      Some (set_subPath (drop (length added) (subPath pth ++ added)) pth) ->
    (added = [] \/ exists b, added = [b] /\ notBelow w b c /\ belowTop w b) ->
    last (c :: added) = Some a ->
    wp (lb <- getBlock a;;
        (if (rowIndex lb =? 1) || (length possible =? 0)%nat
         then ret (inr ())
         else
           o <- mathRandom;;
           (if scaled o 7 <? 1
            then a0 <- gets pathSeeds;; pushArray a0 a
            else ret ());;
           ret (inl a)))
      (fun (r : ref + ()) w' =>
         exists added,
           pathStore w' !! p =
             Some (set_subPath (drop (length added) (subPath pth ++ added)) pth) /\
           (added = [] \/
            exists b, added = [b] /\ notBelow w b c /\ belowTop w b) /\
           match r with inl c' => last (c :: added) = Some c' | inr _ => True end)
      (fun _ => True) w2).
  { intros a w2 added Hp2 Hadd Hlast.
    wp_go. apply wp_getBlock; [|done]. intros lb Hlb.
    destruct ((rowIndex lb =? 1) || (length possible =? 0)%nat).
    { wp_go. by exists added. }
    wp_go. apply wp_draw. intros o w3 Hr3.
    assert (Hp3 : pathStore w3 !! p =
              Some (set_subPath (drop (length added) (subPath pth ++ added)) pth))
      by (by rewrite Hr3).
    wp_go. destruct (scaled o 7 <? 1).
    - wp_go. apply wp_pushArray; [|done]. intros arr Harr. wp_go.
      by exists added.
    - wp_go. by exists added. }
  wp_go. destruct (0 <? length possible)%nat.
  - wp_go. apply wp_pick; [|done]. intros b w2 Hb Hr2.
    assert (Hp2 : pathStore w2 !! p = Some pth) by (by rewrite Hr2).
    assert (Hmain2 : mainPath w2 = Some p) by (by rewrite Hr2).
    assert (Hbc : notBelow w b c /\ belowTop w b).
    { rewrite Forall_forall in Hposs. by apply Hposs. }
    clear Hr2. wp_go. apply wp_modifyBlock; [|done]. intros blk Hblk.
    unfold theMainPath. wp_go. simpl mainPath. rewrite Hmain2.
    wp_step; [|done]. injection H as <-.
    wp_go. unfold pushSubPath. apply wp_modifyPath; [|done]. intros pth' Hpth'.
    simpl in Hpth'. rewrite Hp2 in Hpth'. injection Hpth' as <-.
    wp_go. apply wp_modifyPath; [|done]. intros pth' Hpth'. simpl in Hpth'.
    rewrite list_lookup_insert_eq in Hpth' by (by eapply lookup_lt_Some).
    injection Hpth' as <-. wp_step.
    apply (Hfinish b _ [b]).
    + simpl. rewrite list_insert_insert_eq.
      apply list_lookup_insert_eq. by eapply lookup_lt_Some.
    + right. by exists b.
    + done.
  - wp_step. apply (Hfinish c w1 []).
    + rewrite Hp1. f_equal. destruct pth. simpl. by rewrite app_nil_r.
    + by left.
    + done.
Qed.

Lemma belowTop_rowOf w w' x :
  rowOf w' x = rowOf w x -> belowTop w x -> belowTop w' x.
Proof.
  intros Hrow Hb blk' Hblk'. rewrite (rowOf_Some _ _ _ Hblk') in Hrow.
  unfold rowOf in Hrow. destruct (blockStore w !! x) as [blk|] eqn:Hblk; [|done].
  injection Hrow as ->. by apply Hb.
Qed.

Lemma notBelow_rowOf w w' b c :
  (forall x, rowOf w' x = rowOf w x) -> notBelow w b c -> notBelow w' b c.
Proof. intros Hrow Hbc rb rc. rewrite !Hrow. apply Hbc. Qed.

(** The loop of [makePath]. *)
Lemma makePath_loop_rows p fuel c w pth :
  mainPath w = Some p -> pathStore w !! p = Some pth ->
  last (subPath pth) = Some c -> descending w (subPath pth) ->
  wp (while fuel makePath_round c)
    (fun _ w' => exists pth',
       mainPath w' = Some p /\ pathStore w' !! p = Some pth' /\
       descending w' (subPath pth'))
    (fun _ => True) w.
Proof.
  intros Hmain Hp Hlast Hd.
  apply (wp_while fuel _ (fun c1 w1 => exists pth1,
    mainPath w1 = Some p /\ pathStore w1 !! p = Some pth1 /\
    descending w1 (subPath pth1) /\ last (subPath pth1) = Some c1)).
  { by exists pth. }
  clear. intros c w (pth & Hmain & Hp & Hd & Hlast).
  eapply wp_mono;
    [apply (wp_and _ _ _ _ _ _ (round_makePath_round c w)
              (makePath_round_rows p c w pth Hmain Hp)) | | done].
  intros r w' [Hr Hrows].
  assert (Hrow : forall x, rowOf w' x = rowOf w x).
  { intros x. apply rowOf_carved, Hr. }
  assert (Hmain' : mainPath w' = Some p) by (by rewrite (rf_main _ _ Hr)).
  destruct r as [b|[]].
  - destruct Hrows as [Hp' Hbc]. eexists. split; [done|]. split; [done|]. simpl.
    split; [|by rewrite last_snoc].
    apply (descending_frame w); [done|]. by eapply descending_app.
  - exists pth. split; [done|]. split; [done|]. by apply (descending_frame w).
Qed.

(** The loop of [extendMainPath]. *)
Lemma extendMainPath_loop_rows p fuel c w pth :
  mainPath w = Some p -> pathStore w !! p = Some pth -> belowTop w c ->
  wp (while fuel extendMainPath_round c)
    (fun _ w' => exists added,
       pathStore w' !! p =
         Some (set_subPath (drop (length added) (subPath pth ++ added)) pth) /\
       descending w' (c :: added))
    (fun _ => True) w.
Proof.
  intros Hmain Hp Hc.
  apply (wp_while fuel _ (fun c1 w1 => exists added,
    mainPath w1 = Some p /\ (forall x, rowOf w1 x = rowOf w x) /\
    pathStore w1 !! p =
      Some (set_subPath (drop (length added) (subPath pth ++ added)) pth) /\
    descending w (c :: added) /\ last (c :: added) = Some c1 /\
    belowTop w c1)).
  { exists []. split; [done|]. split; [done|]. split.
    { rewrite Hp. f_equal. destruct pth. simpl. by rewrite app_nil_r. }
    split; [|done]. intros i a b Hi HSi. by destruct i. }
  clear Hp Hc Hmain.
  intros c1 w1 (added & Hmain1 & Hrow1 & Hp1 & Hd & Hlast & Hc1).
  eapply wp_mono;
    [apply (wp_and _ _ _ _ _ _ (round_extendMainPath_round c1 w1)
              (extendMainPath_round_rows p c1 w1 _ Hmain1 Hp1
                 (belowTop_rowOf w w1 c1 (Hrow1 c1) Hc1))) | | done].
  intros r w2 [Hr (added2 & Hp2 & Hadd2 & Hlast2)]. simpl in Hp2.
  assert (Hrow2 : forall x, rowOf w2 x = rowOf w x).
  { intros x. rewrite <- Hrow1. apply rowOf_carved, Hr. }
  assert (Hmain2 : mainPath w2 = Some p) by (by rewrite (rf_main _ _ Hr)).
  assert (Hp2' : pathStore w2 !! p =
    Some (set_subPath
            (drop (length (added ++ added2)) (subPath pth ++ added ++ added2)) pth)).
  { rewrite Hp2. f_equal. unfold set_subPath. simpl. f_equal.
    rewrite <- drop_app_le by (rewrite length_app; lia).
    rewrite drop_drop, length_app, <- app_assoc. done. }
  assert (Hd2 : descending w (c :: added ++ added2)).
  { destruct Hadd2 as [->|(b & -> & Hbc & _)]; [by rewrite app_nil_r|].
    change (descending w ((c :: added) ++ [b])).
    eapply descending_app; [done | done |].
    intros rb rc Hrb Hrc. apply Hbc; by rewrite Hrow1. }
  assert (Hlast' : forall c', last (c1 :: added2) = Some c' ->
            last (c :: added ++ added2) = Some c' /\ belowTop w c').
  { intros c' Hc'. destruct Hadd2 as [->|(b & -> & _ & Hb)].
    - simpl in Hc'. injection Hc' as <-. by rewrite app_nil_r.
    - simpl in Hc'. injection Hc' as <-. split.
      + change (last ((c :: added) ++ [b]) = Some b). by rewrite last_snoc.
      + intros blk Hblk. pose proof (rowOf_Some _ _ _ Hblk) as Hrb.
        rewrite <- Hrow1 in Hrb. unfold rowOf in Hrb.
        destruct (blockStore w1 !! b) as [blk1|] eqn:Hblk1; [|done].
        injection Hrb as <-. by apply Hb. }
  destruct r as [c'|[]].
  - destruct (Hlast' c' Hlast2) as [? ?]. by exists (added ++ added2).
  - exists (added ++ added2). split; [done|]. by apply (descending_frame w).
Qed.

(** The grid of the first run, lowered by a row for the first time;
    [extendMainPath] is run on it next. *)
Definition maze4_lowered : Engine :=
  snd (shiftGrid (orElse maze4 (press 100 [KeyW; KeyD; KeyW] maze4))).

Lemma shiftGrid_sound n w o w1 :
  healthy n w -> shiftGrid w = (o, w1) -> sound n w1.
Proof.
  intros Hh Hrun. pose proof (healthy_width _ _ Hh) as Hn.
  assert (Hs : shifted n w w1).
  { pose proof (wp_run (D:=False) _ _ _ _ _ _ Hrun
                  (shiftGrid_spec n w (he_grid _ _ Hh) ltac:(lia))) as H.
    by destruct o. }
  split; [apply Hs|]. eapply paths_ok_shifted; [|done]. split; apply Hh.
Qed.

Lemma sound_maze4_lowered : sound 4 maze4_lowered.
Proof.
  eapply (shiftGrid_sound 4 _ (fst (shiftGrid _))); [|apply surjective_pairing].
  apply reachable_healthy.
  apply (reachable_press 4 100 [KeyW; KeyD; KeyW] maze4);
    [apply reachable_maze4 | by vm_compute].
Qed.

(** Where [makePath] is called, in [start], the engine is sound. *)
Lemma makePath_called_sound n draws w :
  (calculateDimensions ;; makePointGrid ;; makeMaze) (loaded n draws) = (Ret tt, w) ->
  sound n w.
Proof.
  intros Hrun.
  apply (wp_run (D:=True) _ (fun _ w' => sound n w') (fun _ => True)) in Hrun;
    [done|].
  clear Hrun. unfold calculateDimensions, makePointGrid. wp_go.
  eapply wp_post; [apply (makeMaze_spec n), setup_loaded |].
  intros [] w1 (Hg1 & Hgo & Hw1 & _). split; [done|]. split.
  - intros p pth b Hp. rewrite (go_pathStore _ _ Hgo) in Hp. done.
  - intros sa arr b Ha Hb. rewrite (go_arrays _ _ Hgo) in Ha. simpl in Ha.
    destruct sa as [|[|]]; simpl in Ha; try done;
      injection Ha as <-; by apply elem_of_nil in Hb.
  - intros p pth Hp. rewrite (go_pathStore _ _ Hgo) in Hp. done.
  - apply wired_adjacent_ok; [apply Hg1|].
    intros x (i & k & Hc)%inGrid_cell. apply (Hw1 i k); [lia | done].
Qed.

(** Where [extendMainPath] is called, in [shiftPaths] after the grid has
    been lowered, the engine is sound. *)
Lemma extendMainPath_called_sound n w w' :
  reachable n w ->
  (shiftGrid ;; splicePaths ;; modify (set_pathsToSplice [])) w = (Ret tt, w') ->
  sound n w'.
Proof.
  intros Hr Hrun. apply reachable_healthy in Hr.
  unfold bind at 1 in Hrun.
  destruct (shiftGrid w) as [o w1] eqn:Hg.
  pose proof (shiftGrid_sound n w o w1 Hr Hg) as Hs1.
  destruct o as [[]| |]; [|done..].
  apply (wp_run (D:=True) _ (fun _ w' => sound n w') (sound n)) in Hrun; [done|].
  wp_step. eapply wp_mono;
    [apply (with_grid n);
       [apply gen_splicePaths | exact Hs1 | apply splicePaths_ok, Hs1] | | done].
  intros [] w2 Hs2. wp_step. by eapply sound_globals; [..|exact Hs2].
Qed.

(** C4.  The engine being sound (as it is wherever [makePath] and
    [extendMainPath] are called: the two lemmas above): the main Path that [makePath] has built
    when its loop ends never moves downward, each of its blocks having a
    rowIndex that is at most the rowIndex of the block before it; and
    when [extendMainPath] returns, the main path is what it was, with the
    blocks added at its end and as many dropped at its front, and from
    the block it ended with onward, through the blocks added, the
    rowIndex never increases. *)
Theorem main_path_never_descends n fuel w w' :
  sound n w ->
  (makePath_trunk fuel w = (Ret tt, w') ->
   exists p pth,
     mainPath w' = Some p /\ pathStore w' !! p = Some pth /\
     descending w' (subPath pth)) /\
  (extendMainPath fuel w = (Ret tt, w') ->
   forall p pth c,
     mainPath w = Some p -> pathStore w !! p = Some pth ->
     last (subPath pth) = Some c ->
     exists added,
       (subPath <$> pathStore w' !! p) =
         Some (drop (length added) (subPath pth ++ added)) /\
       descending w' (c :: added)).
Proof.
  intros [Hgrid Hok]. split; intros Hrun.
  - apply (wp_run (D:=True) _ (fun _ w' => exists p pth,
      mainPath w' = Some p /\ pathStore w' !! p = Some pth /\
      descending w' (subPath pth)) (fun _ => True)) in Hrun; [done|].
    apply (makePath_trunk_unfold n); [done | done |].
    intros p cb1 cb2 d w6 blk1 blk2 _ Hmain6 Hp6 Hb1 Hb2 Hle.
    eapply wp_mono;
      [apply (makePath_loop_rows p fuel cb2 w6 (mkPath [cb1; cb2] d)) | | done];
      try done.
    + intros i a b Hi HSi. destruct i as [|[|]]; try done.
      simpl in Hi, HSi. injection Hi as <-. injection HSi as <-.
      intros rb rc. rewrite (rowOf_Some _ _ _ Hb1), (rowOf_Some _ _ _ Hb2).
      by intros [= <-] [= <-].
    + intros [] w7 (pth' & ? & ? & ?). by exists p, pth'.
  - intros p pth c Hmain Hp Hlast.
    apply (wp_run (D:=True) _ (fun _ w' => exists added,
      (subPath <$> pathStore w' !! p) =
        Some (drop (length added) (subPath pth ++ added)) /\
      descending w' (c :: added)) (fun _ => True)) in Hrun; [done|].
    unfold extendMainPath, theMainPath. wp_go. rewrite Hmain.
    wp_step; [|done]. injection H as <-.
    wp_go. apply wp_getPath; [|done]. intros pth' Hpth'.
    rewrite Hp in Hpth'. injection Hpth' as <-.
    wp_go. wp_step; [|done]. apply at_index_last in H.
    rewrite Hlast in H. injection H as <-.
    eapply wp_mono;
      [apply (extendMainPath_loop_rows p fuel c w pth Hmain Hp) | | done].
    + intros blk Hblk.
      destruct (po_floor _ Hok p pth c Hp) as (blk' & Hblk' & _ & Hr).
      { rewrite last_lookup in Hlast. by eapply list_elem_of_lookup_2. }
      rewrite Hblk in Hblk'. by injection Hblk' as <-.
    + intros [] w1 (added & Hp1 & Hd1). exists added. by rewrite Hp1.
Qed.

Lemma main_path_never_descends_witness :
  sound 4 maze4_lowered /\
  exists added,
    (subPath <$> pathStore (snd (extendMainPath 100 maze4_lowered)) !! 0%nat) =
      Some (drop (length added)
              ([37; 34; 35; 32; 29; 26; 23; 20; 17; 14; 11; 8; 5]%nat ++ added)) /\
    descending (snd (extendMainPath 100 maze4_lowered)) (5%nat :: added).
Proof.
  split; [exact sound_maze4_lowered|].
  apply (proj2 (main_path_never_descends 4 100 maze4_lowered
                  (snd (extendMainPath 100 maze4_lowered)) sound_maze4_lowered)
           ltac:(by vm_compute) 0%nat
           (mkPath [37; 34; 35; 32; 29; 26; 23; 20; 17; 14; 11; 8; 5]%nat 80)
           5%nat);
    by vm_compute.
Defined.

(** * Further properties of the engine *)

(** ** Splicing dead paths out of [paths] *)

(** [paths] after the [for] loop that splices the entries [dead] of
    [pathsToSplice] out of it, one after the other. *)
Definition spliceAll (dead ps : list pref) : list pref :=
  foldl (fun ps p => spliceOut p ps) ps dead.

Lemma indexOf_Some v l i : indexOf v l = Some i -> l !! i = Some v.
Proof.
  revert i. induction l as [|a l IH]; intros i; simpl; [done|].
  destruct (a =? v)%nat eqn:Ha.
  - apply Nat.eqb_eq in Ha as ->. by intros [= <-].
  - destruct (indexOf v l) as [j|]; simpl; [|done].
    intros [= <-]. simpl. by apply IH.
Qed.

Lemma indexOf_None v l : indexOf v l = None -> v ∉ l.
Proof.
  induction l as [|a l IH]; simpl; [intros _; apply not_elem_of_nil|].
  destruct (a =? v)%nat eqn:Ha; [done|].
  apply Nat.eqb_neq in Ha.
  destruct (indexOf v l) as [j|]; simpl; [done|].
  intros _. apply not_elem_of_cons. split; [done | by apply IH].
Qed.

Lemma length_removelast {A} (l : list A) :
  length (removelast l) = pred (length l).
Proof.
  rewrite removelast_firstn_len, length_take. lia.
Qed.

Lemma spliceOut_length v l : length (spliceOut v l) = pred (length l).
Proof.
  unfold spliceOut. destruct (indexOf v l) as [i|] eqn:Hi.
  - rewrite length_delete; [lia|]. apply indexOf_Some in Hi. by eexists.
  - apply length_removelast.
Qed.

Lemma spliceOut_sublist v l : spliceOut v l `sublist_of` l.
Proof.
  unfold spliceOut. destruct (indexOf v l) as [i|].
  - apply sublist_delete.
  - rewrite removelast_firstn_len. apply sublist_take.
Qed.

Lemma filter_all {A} (P : A -> Prop) `{!forall x, Decision (P x)} (l : list A) :
  (forall x, x ∈ l -> P x) -> filter P l = l.
Proof.
  induction l as [|a l IH]; intros Hall; [done|].
  rewrite filter_cons_True by (apply Hall; left).
  f_equal. apply IH. intros x Hx. apply Hall. by right.
Qed.

(** Splicing out a path that is in the array, once. *)
Lemma spliceOut_present v l :
  NoDup l -> v ∈ l -> spliceOut v l = filter (fun x => x <> v) l.
Proof.
  unfold spliceOut.
  induction l as [|a l IH]; intros Hnd Hv; [by apply elem_of_nil in Hv|].
  apply NoDup_cons in Hnd as [Ha Hnd]. simpl.
  destruct (a =? v)%nat eqn:Hav.
  - apply Nat.eqb_eq in Hav as ->. simpl.
    rewrite filter_cons_False by (intros H; by apply H).
    symmetry. apply filter_all. intros x Hx ->. done.
  - apply Nat.eqb_neq in Hav.
    apply elem_of_cons in Hv as [->|Hv]; [done|].
    specialize (IH Hnd Hv).
    rewrite filter_cons_True by done.
    destruct (indexOf v l) as [i|] eqn:Hi; simpl.
    + by rewrite IH.
    + by apply indexOf_None in Hi.
Qed.

Lemma set_paths_same w : set_paths (paths w) w = w.
Proof. by destruct w. Qed.

Lemma splicePaths_run w :
  splicePaths w = (Ret tt, set_paths (spliceAll (pathsToSplice w) (paths w)) w).
Proof.
  unfold splicePaths, bind at 1, gets.
  generalize (pathsToSplice w) as dead. intros dead.
  assert (H : forall w0,
    forEach dead (fun p => modify (fun w1 => set_paths (spliceOut p (paths w1)) w1)) w0
    = (Ret tt, set_paths (spliceAll dead (paths w0)) w0)).
  { induction dead as [|p dead IH]; intros w0; simpl.
    - by rewrite set_paths_same.
    - unfold bind, modify at 1. rewrite IH. by destruct w0. }
  apply H.
Qed.

Lemma spliceAll_length dead ps :
  length (spliceAll dead ps) = (length ps - length dead)%nat.
Proof.
  unfold spliceAll. revert ps. induction dead as [|p dead IH]; intros ps; simpl.
  - lia.
  - rewrite IH, spliceOut_length. lia.
Qed.

Lemma spliceAll_sublist dead ps : spliceAll dead ps `sublist_of` ps.
Proof.
  unfold spliceAll. revert ps. induction dead as [|p dead IH]; intros ps; simpl; [done|].
  etrans; [apply IH | apply spliceOut_sublist].
Qed.

Lemma spliceAll_present dead ps :
  NoDup ps -> NoDup dead -> (forall p, p ∈ dead -> p ∈ ps) ->
  spliceAll dead ps = filter (fun q => q ∉ dead) ps.
Proof.
  unfold spliceAll. revert ps. induction dead as [|p dead IH]; intros ps Hps Hd Hin; simpl.
  - symmetry. apply filter_all. intros x _. apply not_elem_of_nil.
  - apply NoDup_cons in Hd as [Hp Hd].
    rewrite spliceOut_present; [|done | apply Hin; left].
    rewrite IH; [| by apply NoDup_filter | done |].
    + rewrite list_filter_filter. apply list_filter_iff. intros x.
      rewrite not_elem_of_cons. tauto.
    + intros q Hq. apply list_elem_of_filter. split.
      * intros ->. done.
      * apply Hin. by right.
Qed.

Lemma remove_dups_shorter (l : list nat) :
  ~ NoDup l -> (length (remove_dups l) < length l)%nat.
Proof.
  induction l as [|a l IH]; intros Hnd.
  - exfalso. apply Hnd. constructor.
  - simpl. destruct (decide_rel elem_of a l) as [Ha|Ha].
    + pose proof (length_filter (fun _ => True) l) as _.
      assert (length (remove_dups l) <= length l)%nat; [|lia].
      apply submseteq_length, NoDup_submseteq; [apply NoDup_remove_dups|].
      intros x. by rewrite elem_of_remove_dups.
    + simpl. apply Nat.succ_lt_mono in IH; [lia|].
      intros Hl. apply Hnd. by constructor.
Qed.

Lemma filter_split_length {A} (P : A -> Prop) `{!forall x, Decision (P x)}
    (l : list A) :
  (length (filter P l) + length (filter (fun x => ~ P x) l))%nat = length l.
Proof.
  rewrite <- length_app. apply Permutation_length, filter_app_complement.
Qed.

(** The loop of [splicePaths] always runs to its end, changes nothing but
    [paths], and takes one path out of [paths] for every entry of
    [pathsToSplice] for as long as [paths] holds any: [splice] is called
    whether [indexOf] finds the entry or not. *)
Theorem splicePaths_count w :
  exists w', splicePaths w = (Ret tt, w') /\
    w' = set_paths (paths w') w /\
    length (paths w') = (length (paths w) - length (pathsToSplice w))%nat.
Proof.
  eexists. split; [apply splicePaths_run|]. simpl.
  split; [by destruct w | apply spliceAll_length].
Qed.

(** When [paths] holds every path once and [pathsToSplice] lists paths
    of [paths], each once, [splicePaths] takes exactly the listed paths
    out and keeps the others in their order. *)
Theorem splicePaths_listed_once w :
  NoDup (paths w) -> NoDup (pathsToSplice w) ->
  (forall p, p ∈ pathsToSplice w -> p ∈ paths w) ->
  splicePaths w =
    (Ret tt, set_paths (filter (fun q => q ∉ pathsToSplice w) (paths w)) w).
Proof.
  intros Hps Hd Hin. rewrite splicePaths_run. by rewrite spliceAll_present.
Qed.

(** When [paths] holds every path once, [pathsToSplice] lists a path
    twice and [paths] holds a path that is not listed, a path that was
    not listed is gone from [paths] after the loop: for the doubled
    entry an [indexOf] finds nothing, and [splice(-1, 1)] takes the last
    path out instead. *)
Theorem splicePaths_listed_twice w w' :
  splicePaths w = (Ret tt, w') ->
  NoDup (paths w) -> ~ NoDup (pathsToSplice w) ->
  (exists q0, q0 ∈ paths w /\ (q0 ∉ pathsToSplice w)) ->
  exists q, q ∈ paths w /\ (q ∉ pathsToSplice w) /\ (q ∉ paths w').
Proof.
  intros Hrun Hps Hd (q0 & Hq0 & Hq0') . rewrite splicePaths_run in Hrun.
  injection Hrun as <-. simpl.
  set (dead := pathsToSplice w) in *. set (ps := paths w) in *.
  set (ps' := spliceAll dead ps).
  destruct (le_lt_dec (length dead) (length ps)) as [Hlen|Hlen].
  2:{ exists q0. split; [done|]. split; [done|].
      assert (Hnil : ps' = []).
      { apply length_zero_iff_nil. unfold ps'. rewrite spliceAll_length. lia. }
      rewrite Hnil. apply not_elem_of_nil. }
  destruct (decide (Exists (fun q => (q ∉ dead) /\ (q ∉ ps')) ps)) as [Hex|Hno].
  { apply Exists_exists in Hex as (q & ? & ? & ?). by exists q. }
  exfalso. apply not_Exists_Forall in Hno; [|intros q; apply _].
  rewrite Forall_forall in Hno.
  assert (Hkeep : (length (filter (fun q => q ∉ dead) ps) <= length ps')%nat).
  { apply submseteq_length, NoDup_submseteq; [by apply NoDup_filter|].
    intros q [Hq1 Hq2]%list_elem_of_filter.
    destruct (decide (q ∈ ps')) as [|Hq3]; [done|].
    exfalso. by apply (Hno q Hq2). }
  assert (Hgone : (length (filter (fun q => ~ (q ∉ dead)) ps)
                   <= length (remove_dups dead))%nat).
  { apply submseteq_length, NoDup_submseteq; [by apply NoDup_filter|].
    intros q [Hq1 Hq2]%list_elem_of_filter.
    apply elem_of_remove_dups. by apply dec_stable. }
  pose proof (remove_dups_shorter dead Hd) as Hshort.
  pose proof (filter_split_length (fun q => q ∉ dead) ps) as Hsplit.
  unfold ps' in Hkeep. rewrite spliceAll_length in Hkeep. lia.
Qed.

Lemma splicePaths_listed_once_witness :
  paths maze6_sharing = [0; 1]%nat /\ pathsToSplice maze6_sharing = [1%nat] /\
  splicePaths maze6_sharing = (Ret tt, set_paths [0%nat] maze6_sharing).
Proof.
  split; [by vm_compute|]. split; [by vm_compute|].
  rewrite (splicePaths_listed_once maze6_sharing).
  - by vm_compute.
  - apply (bool_decide_unpack _). by vm_compute.
  - apply (bool_decide_unpack _). by vm_compute.
  - intros p Hp. apply list_elem_of_In in Hp. vm_compute in Hp.
    destruct Hp as [<-|[]]. apply list_elem_of_In. vm_compute. tauto.
Defined.

Lemma splicePaths_listed_twice_witness :
  reachable 4 maze4_branch /\
  paths maze4_branch = [0; 1]%nat /\ pathsToSplice maze4_branch = [1; 1]%nat /\
  mainPath maze4_branch = Some 0%nat /\
  exists q, q ∈ paths maze4_branch /\ (q ∉ pathsToSplice maze4_branch) /\
            (q ∉ paths (snd (splicePaths maze4_branch))).
Proof.
  split; [apply reachable_maze4_branch|].
  split; [by vm_compute|]. split; [by vm_compute|]. split; [by vm_compute|].
  apply (splicePaths_listed_twice maze4_branch).
  - by destruct (splicePaths maze4_branch) as [[[]| |] ?] eqn:H;
      vm_compute in H; try discriminate H.
  - apply (bool_decide_unpack _). by vm_compute.
  - intros H. apply NoDup_ListNoDup in H. vm_compute in H.
    inversion H as [|? ? Hin _]. apply Hin. by left.
  - exists 0%nat. split; [vm_compute; in_list|]. vm_compute. not_in_list.
Defined.

(** ** Counting the walls around a block *)

(** Whether the block at [x] is a wall. *)
Definition isWallAt (w : Engine) (x : ref) : bool :=
  match blockStore w !! x with
  | Some blk => isWall blk
  | None => false
  end.

(** The wall blocks among the entries of [l], an entry that occurs twice
    being counted twice. *)
Fixpoint wallsAmong (w : Engine) (l : list ref) : Z :=
  match l with
  | [] => 0
  | x :: l' => (if isWallAt w x then 1 else 0) + wallsAmong w l'
  end.

Lemma modifyBlock_run b f w :
  modifyBlock b f w =
  match blockStore w !! b with
  | Some blk => (Ret tt, set_blockStore (<[b := f blk]> (blockStore w)) w)
  | None => (Throw, w)
  end.
Proof.
  unfold modifyBlock, bind. rewrite getBlock_run.
  by destruct (blockStore w !! b).
Qed.

Lemma set_blockStore_twice v v' w :
  set_blockStore v' (set_blockStore v w) = set_blockStore v' w.
Proof. done. Qed.

(** The loop of [checkForWallBlocks] from a count of [acc]. *)
Lemma countWalls_run b blk w l acc :
  blockStore w !! b = Some blk ->
  (forall x, x ∈ l -> is_Some (blockStore w !! x)) ->
  forEach l (fun a =>
    ab <- getBlock a ;;
    if isWall ab
    then modifyBlock b
           (fun x => set_numberOfAdjacentWalls (numberOfAdjacentWalls x + 1) x)
    else ret tt)
    (set_blockStore (<[b := set_numberOfAdjacentWalls acc blk]> (blockStore w)) w)
  = (Ret tt,
     set_blockStore
       (<[b := set_numberOfAdjacentWalls (acc + wallsAmong w l) blk]> (blockStore w)) w).
Proof.
  intros Hb. revert acc. induction l as [|a l IH]; intros acc Hl.
  - simpl. by rewrite Z.add_0_r.
  - assert (Hlt : (b < length (blockStore w))%nat) by (by eapply lookup_lt_Some).
    destruct (Hl a) as [ablk Ha]; [left|].
    set (w0 := set_blockStore
                 (<[b := set_numberOfAdjacentWalls acc blk]> (blockStore w)) w).
    assert (Hb0 : blockStore w0 !! b = Some (set_numberOfAdjacentWalls acc blk))
      by (simpl; by apply list_lookup_insert_eq).
    assert (exists ab, blockStore w0 !! a = Some ab /\ isWall ab = isWallAt w a)
      as (ab & Hab & Hw).
    { unfold isWallAt. destruct (decide (a = b)) as [->|Hne].
      - rewrite Hb0, Hb. by eexists.
      - simpl. rewrite list_lookup_insert_ne by done. rewrite Ha. by eexists. }
    assert (Hnext :
      set_blockStore
        (<[b := set_numberOfAdjacentWalls
                  (numberOfAdjacentWalls (set_numberOfAdjacentWalls acc blk) + 1)
                  (set_numberOfAdjacentWalls acc blk)]> (blockStore w0)) w0
      = set_blockStore
          (<[b := set_numberOfAdjacentWalls (acc + 1) blk]> (blockStore w)) w)
      by (unfold w0; simpl; by rewrite list_insert_insert_eq).
    assert (Hrest : forall x, x ∈ l -> is_Some (blockStore w !! x))
      by (intros x Hx; apply Hl; by right).
    change (forEach (a :: l) ?f) with (bind (f a) (fun _ => forEach l f)).
    unfold bind at 1. unfold bind at 1. rewrite getBlock_run, Hab, Hw.
    change (wallsAmong w (a :: l))
      with ((if isWallAt w a then 1 else 0) + wallsAmong w l).
    destruct (isWallAt w a).
    + rewrite modifyBlock_run, Hb0. cbv beta iota. rewrite Hnext, (IH _ Hrest).
      by rewrite Z.add_assoc.
    + cbv beta iota. unfold ret, w0. rewrite (IH _ Hrest). by rewrite Z.add_0_l.
Qed.

Lemma checkForWallBlocks_run b blk w :
  blockStore w !! b = Some blk ->
  (forall x, x ∈ adjacentBlocks blk -> is_Some (blockStore w !! x)) ->
  checkForWallBlocks b w =
  (Ret tt,
   set_blockStore
     (<[b := set_numberOfAdjacentWalls (wallsAmong w (adjacentBlocks blk)) blk]>
        (blockStore w)) w).
Proof.
  intros Hb Hadj.
  assert (Hlt : (b < length (blockStore w))%nat) by (by eapply lookup_lt_Some).
  unfold checkForWallBlocks. unfold bind at 1. rewrite modifyBlock_run, Hb.
  unfold bind at 1. rewrite getBlock_run. simpl.
  rewrite list_lookup_insert_eq by done. simpl.
  by rewrite (countWalls_run b blk w _ 0 Hb Hadj).
Qed.

Lemma wallsAmong_range w l : 0 <= wallsAmong w l <= Z.of_nat (length l).
Proof.
  induction l as [|x l IH]; simpl; [lia|].
  destruct (isWallAt w x); lia.
Qed.

(** [checkForWallBlocks(thisBlock)] sets [numberOfAdjacentWalls] of the
    block to the number of walls among the entries of its adjacentBlocks
    list, a number from 0 to the length of that list, whatever the field
    held before; it changes nothing else. *)
Theorem checkForWallBlocks_counts b blk w :
  blockStore w !! b = Some blk ->
  (forall x, x ∈ adjacentBlocks blk -> is_Some (blockStore w !! x)) ->
  checkForWallBlocks b w =
  (Ret tt,
   set_blockStore
     (<[b := set_numberOfAdjacentWalls (wallsAmong w (adjacentBlocks blk)) blk]>
        (blockStore w)) w) /\
  0 <= wallsAmong w (adjacentBlocks blk) <= Z.of_nat (length (adjacentBlocks blk)).
Proof.
  intros Hb Hadj. split; [by apply checkForWallBlocks_run|].
  apply wallsAmong_range.
Qed.

Lemma checkForWallBlocks_counts_witness :
  blockStore maze4 !! 31%nat = Some (mkBlock true 10 1 [28; 32; 30]%nat 2) /\
  wallsAmong maze4 [28; 32; 30]%nat = 2 /\
  checkForWallBlocks 31 maze4 =
  (Ret tt,
   set_blockStore
     (<[31%nat := mkBlock true 10 1 [28; 32; 30]%nat 2]> (blockStore maze4))
     maze4).
Proof.
  split; [by vm_compute|]. split; [by vm_compute|].
  rewrite (proj1 (checkForWallBlocks_counts 31
                    (mkBlock true 10 1 [28; 32; 30]%nat 2) maze4
                    ltac:(by vm_compute)
                    ltac:(intros x Hx; apply list_elem_of_In in Hx; simpl in Hx;
                          destruct Hx as [<-|[<-|[<-|[]]]]; vm_compute;
                          by eexists))).
  by vm_compute.
Defined.

(** * The engine runs to the end of every event *)

(** ** What a pass has left to do *)

(** The wall blocks among the Block objects there are, and the seeds set
    aside in the arrays there are.  Growing a path by a block carves a
    wall, and only a block that has just been carved is set aside as a
    seed: the sum of the two never grows while paths are grown. *)
Definition wallsIn (l : list Block) : nat :=
  length (filter (fun blk => isWall blk = true) l).

Definition walls (w : Engine) : nat := wallsIn (blockStore w).

Definition seeds (w : Engine) : nat := length (concat (arrayStore w)).

Definition work (w : Engine) : nat := (walls w + seeds w)%nat.

Lemma wallsIn_app l1 l2 : wallsIn (l1 ++ l2) = (wallsIn l1 + wallsIn l2)%nat.
Proof. unfold wallsIn. by rewrite filter_app, length_app. Qed.

Lemma wallsIn_cons blk l :
  wallsIn (blk :: l) = ((if isWall blk then 1 else 0) + wallsIn l)%nat.
Proof.
  unfold wallsIn. rewrite filter_cons.
  destruct (decide (isWall blk = true)) as [->|Hw]; [done|].
  by destruct (isWall blk).
Qed.

Lemma wallsIn_insert l b blk blk' :
  l !! b = Some blk ->
  (wallsIn (<[b:=blk']> l) + (if isWall blk then 1 else 0))%nat
  = (wallsIn l + (if isWall blk' then 1 else 0))%nat.
Proof.
  intros Hb. rewrite insert_take_drop by (by eapply lookup_lt_Some).
  rewrite <- (take_drop_middle l b blk Hb) at 3.
  rewrite !wallsIn_app, !wallsIn_cons. lia.
Qed.

Lemma wallsIn_Forall2 l l' :
  Forall2 (fun b b' => isWall b = false -> isWall b' = false) l l' ->
  (wallsIn l' <= wallsIn l)%nat.
Proof.
  induction 1 as [|b b' l l' Hb _ IH]; [done|].
  rewrite !wallsIn_cons.
  destruct (isWall b) eqn:Hw; [destruct (isWall b'); lia|].
  rewrite Hb by done. lia.
Qed.

Lemma wallsIn_Forall2_eq l l' :
  Forall2 (fun b b' => isWall b' = isWall b) l l' -> wallsIn l' = wallsIn l.
Proof.
  induction 1 as [|b b' l l' Hb _ IH]; [done|].
  rewrite !wallsIn_cons. by rewrite Hb, IH.
Qed.

Lemma walls_carved w w' :
  Forall2 carved (blockStore w) (blockStore w') -> (walls w' <= walls w)%nat.
Proof.
  intros H. apply wallsIn_Forall2. eapply Forall2_impl; [exact H|].
  by intros b b' (_ & _ & ?).
Qed.

Lemma seeds_insert (l : list (list ref)) a arr arr' :
  l !! a = Some arr ->
  (length (concat (<[a:=arr']> l)) + length arr)%nat
  = (length (concat l) + length arr')%nat.
Proof.
  intros Ha. rewrite insert_take_drop by (by eapply lookup_lt_Some).
  rewrite <- (take_drop_middle l a arr Ha) at 3.
  rewrite !concat_app, !concat_cons, !length_app. lia.
Qed.

(** ** Loops that make progress *)

(** A [while] loop whose rounds keep [I] and, when they go round again,
    lower the measure [mu]: with a budget above the measure the loop does
    not exhaust it. *)
Lemma wpd_while {S R} D fuel (body : S -> M (S + R)) (I : S -> Engine -> Prop)
    (mu : S -> Engine -> nat) (Q : R -> Engine -> Prop) E s w :
  I s w ->
  D \/ (mu s w < fuel)%nat ->
  (forall s w, I s w ->
     wpd D (body s)
       (fun r w' => match r with
                    | inl s' => I s' w' /\ (mu s' w' < mu s w)%nat
                    | inr r => Q r w'
                    end) E w) ->
  wpd D (while fuel body s) Q E w.
Proof.
  intros Hs Hfuel Hbody. revert s w Hs Hfuel.
  induction fuel as [|fuel IH]; intros s w Hs Hfuel; simpl.
  - destruct Hfuel as [?|?]; [done | lia].
  - apply wp_bind. eapply wp_mono; [by apply Hbody | | done].
    intros [s'|r] w' H; [|done]. destruct H as [Hs' Hlt].
    apply IH; [done|]. destruct Hfuel as [?|?]; [by left | right; lia].
Qed.

(** What is known of every run of [m], used where [m] is known not to
    exhaust its budget. *)
Lemma wpd_frame {A} D (R : Engine -> Engine -> Prop) (m : M A)
    (Q : A -> Engine -> Prop) (E : Engine -> Prop) w :
  keeps R m ->
  wpd D m (fun a w' => R w w' -> Q a w') (fun w' => R w w' -> E w') w ->
  wpd D m Q E w.
Proof.
  intros Hk H. specialize (Hk w). unfold wpd in *.
  destruct (m w) as [[a| |] w']; auto.
Qed.

Lemma wpd_and_wp {A} D (m : M A) (Q1 Q2 : A -> Engine -> Prop)
    (E1 E2 : Engine -> Prop) w :
  wpd D m Q1 E1 w -> wp m Q2 E2 w ->
  wpd D m (fun a w' => Q1 a w' /\ Q2 a w') (fun w' => E1 w' /\ E2 w') w.
Proof. unfold wpd. destruct (m w) as [[a| |] w']; auto. Qed.

Lemma wpd_draw {D} (Q : nat -> Engine -> Prop) (E : Engine -> Prop) w :
  (forall o v, Q o (set_rng v w)) -> wpd D mathRandom Q E w.
Proof.
  intros HQ. apply wp_mathRandom; [done|].
  rewrite <- (set_rng_same w). apply HQ.
Qed.

Lemma scaled_range o k : 0 < k -> 0 <= scaled o k < k.
Proof.
  intros Hk. unfold scaled. destruct (Z.ltb_spec 0 k); [|lia].
  apply Z.mod_pos_bound. lia.
Qed.

(** [pick] on a list that is not empty hands out one of its entries. *)
Lemma wpd_pick {D} l (Q : ref -> Engine -> Prop) (E : Engine -> Prop) w :
  l <> [] ->
  (forall b v, b ∈ l -> Q b (set_rng v w)) ->
  wpd D (pick l) Q E w.
Proof.
  intros Hl HQ. unfold pick. wp_step.
  apply wpd_draw. intros o v.
  assert (Hlen : 0 < Z.of_nat (length l)) by (destruct l; [done | simpl; lia]).
  pose proof (scaled_range o _ Hlen) as Hr.
  destruct (lookup_lt_is_Some_2 l (Z.to_nat (scaled o (Z.of_nat (length l)))))
    as [b Hb]; [lia|].
  unfold at_index. destruct (Z.ltb_spec (scaled o (Z.of_nat (length l))) 0); [lia|].
  rewrite Hb. apply (wp_ret b). apply HQ. by eapply list_elem_of_lookup_2.
Qed.

(** ** Engines without dangling references *)

(** Every block that a neighbour list, a path or a seed array refers to
    exists, and no path is empty. *)
Record closed (w : Engine) : Prop := {
  cl_adjacent : forall b blk x,
    blockStore w !! b = Some blk -> x ∈ adjacentBlocks blk ->
    (x < length (blockStore w))%nat;
  cl_paths : forall p pth,
    pathStore w !! p = Some pth ->
    subPath pth <> [] /\
    forall b, b ∈ subPath pth -> (b < length (blockStore w))%nat;
  cl_arrays : forall a arr b,
    arrayStore w !! a = Some arr -> b ∈ arr -> (b < length (blockStore w))%nat
}.

(** The indices of a block lie within a grid of width [n]. *)
Definition inBounds (n : Z) (blk : Block) : Prop :=
  0 <= rowIndex blk < Z.of_nat (rowCount n) /\
  0 <= blockIndex blk < Z.of_nat (rowWidth n).

(** The engine of width [n] at any point of an event after the grid has
    been built: the grid is well-formed, no Block object carries indices
    outside the grid, no reference dangles. *)
Record tidy (n : Z) (w : Engine) : Prop := {
  td_grid : grid_ok n w;
  td_width : 3 <= n;
  td_bounds : forall b blk, blockStore w !! b = Some blk -> inBounds n blk;
  td_closed : closed w;
  td_registered : forall p, p ∈ paths w -> (p < length (pathStore w))%nat;
  td_main : forall p, mainPath w = Some p -> (p < length (pathStore w))%nat;
  td_pathSeeds : (pathSeeds w < length (arrayStore w))%nat;
  td_secondSeeds : (secondSeeds w < length (arrayStore w))%nat
}.

Lemma closed_blocks w w' :
  Forall2 (fun b b' => adjacentBlocks b' = adjacentBlocks b)
    (blockStore w) (blockStore w') ->
  pathStore w' = pathStore w -> arrayStore w' = arrayStore w ->
  closed w -> closed w'.
Proof.
  intros Hb Hp Ha [H1 H2 H3].
  pose proof (Forall2_length _ _ _ Hb) as Hlen.
  split.
  - intros b blk' x Hblk' Hx.
    destruct (Forall2_lookup_r _ _ _ _ _ Hb Hblk') as (blk & Hblk & Hadj).
    rewrite <- Hlen. rewrite Hadj in Hx. by eapply H1.
  - intros p pth. rewrite Hp, <- Hlen. apply H2.
  - intros a arr b. rewrite Ha, <- Hlen. apply H3.
Qed.

Lemma closed_scan w w' : scan_frame w w' -> closed w -> closed w'.
Proof.
  intros Hs. apply closed_blocks; [|apply Hs..].
  eapply Forall2_impl; [apply Hs|]. by intros b b' [(_&_&?&_) _].
Qed.

Lemma closed_insert w b blk blk' :
  blockStore w !! b = Some blk -> adjacentBlocks blk' = adjacentBlocks blk ->
  closed w -> closed (set_blockStore (<[b:=blk']> (blockStore w)) w).
Proof.
  intros Hb Hadj. apply closed_blocks; [|done..]. simpl.
  eapply Forall2_insert_r; [by intros ? | done | done].
Qed.

Lemma closed_setPath w p pth' :
  (p < length (pathStore w))%nat ->
  subPath pth' <> [] ->
  (forall b, b ∈ subPath pth' -> (b < length (blockStore w))%nat) ->
  closed w -> closed (set_pathStore (<[p:=pth']> (pathStore w)) w).
Proof.
  intros Hp Hne Hval [H1 H2 H3]. split; [done | | done].
  intros q pth Hq. simpl in *.
  apply list_lookup_insert_Some in Hq as [(-> & <- & _)|[_ Hq]]; [done|].
  by apply (H2 q).
Qed.

Lemma closed_pushArray w a arr b :
  arrayStore w !! a = Some arr -> (b < length (blockStore w))%nat ->
  closed w -> closed (set_arrayStore (<[a:=arr ++ [b]]> (arrayStore w)) w).
Proof.
  intros Ha Hb [H1 H2 H3]. split; [done | done |].
  intros a' arr' x Ha' Hx. simpl in *.
  apply list_lookup_insert_Some in Ha' as [(-> & <- & _)|[_ Ha']].
  - apply elem_of_app in Hx as [Hx|Hx%list_elem_of_singleton]; [|by subst].
    by eapply H3.
  - by eapply H3.
Qed.

Lemma closed_newArray w :
  closed w -> closed (set_arrayStore (arrayStore w ++ [[]]) w).
Proof.
  intros [H1 H2 H3]. split; [done | done |].
  intros a arr x Ha Hx. simpl in *.
  apply lookup_app_Some in Ha as [Ha|[_ Ha]]; [by eapply H3|].
  destruct (a - length (arrayStore w))%nat; simpl in Ha; [|done].
  injection Ha as <-. by apply elem_of_nil in Hx.
Qed.

(** A round of a path-growing loop keeps the engine tidy if it leaves no
    reference dangling. *)
Lemma tidy_round n w w' :
  round_frame w w' -> closed w' -> tidy n w -> tidy n w'.
Proof.
  intros Hr Hc [Hg Hn Hb _ Hreg Hmain Hps Hss].
  pose proof (Forall2_length _ _ _ (rf_pathStore _ _ Hr)) as Hlp.
  pose proof (Forall2_length _ _ _ (rf_arrays _ _ Hr)) as Hla.
  split; try done.
  - by eapply grid_ok_round.
  - intros b blk' Hblk'.
    destruct (Forall2_lookup_r _ _ _ _ _ (rf_blocks _ _ Hr) Hblk')
      as (blk & Hblk & (Hri & Hbi & _)).
    unfold inBounds. rewrite Hri, Hbi. by eapply Hb.
  - intros p. rewrite (rf_paths _ _ Hr), <- Hlp. apply Hreg.
  - intros p. rewrite (rf_main _ _ Hr), <- Hlp. apply Hmain.
  - by rewrite (rf_seeds _ _ Hr), <- Hla.
  - by rewrite (rf_second _ _ Hr), <- Hla.
Qed.

(** The same for a whole pass, which may also create paths and arrays
    and rebind the globals that name them. *)
Lemma tidy_gen n w w' :
  gen_frame w w' -> closed w' ->
  (forall p, p ∈ paths w' -> (p < length (pathStore w'))%nat) ->
  (forall p, mainPath w' = Some p -> (p < length (pathStore w'))%nat) ->
  (pathSeeds w' < length (arrayStore w'))%nat ->
  (secondSeeds w' < length (arrayStore w'))%nat ->
  tidy n w -> tidy n w'.
Proof.
  intros Hf Hc Hreg Hmain Hps Hss [Hg Hn Hb _ _ _ _ _].
  split; try done.
  - by eapply grid_ok_gen.
  - intros b blk' Hblk'.
    destruct (Forall2_lookup_r _ _ _ _ _ (gf_blocks _ _ Hf) Hblk')
      as (blk & Hblk & (Hri & Hbi & _)).
    unfold inBounds. rewrite Hri, Hbi. by eapply Hb.
Qed.

(** ** Reads and writes that find their object *)

Lemma wpd_getBlock_in {D} b (Q : Block -> Engine -> Prop) E w :
  (b < length (blockStore w))%nat ->
  (forall blk, blockStore w !! b = Some blk -> Q blk w) ->
  wpd D (getBlock b) Q E w.
Proof.
  intros Hb HQ. apply wp_getBlock; [done|].
  intros Hn%lookup_ge_None. lia.
Qed.

Lemma wpd_modifyBlock_in {D} b f (Q : unit -> Engine -> Prop) E w :
  (b < length (blockStore w))%nat ->
  (forall blk, blockStore w !! b = Some blk ->
     Q tt (set_blockStore (<[b := f blk]> (blockStore w)) w)) ->
  wpd D (modifyBlock b f) Q E w.
Proof.
  intros Hb HQ. apply wp_modifyBlock; [done|].
  intros Hn%lookup_ge_None. lia.
Qed.

Lemma wpd_getPath_in {D} p (Q : Path -> Engine -> Prop) E w :
  (p < length (pathStore w))%nat ->
  (forall pth, pathStore w !! p = Some pth -> Q pth w) ->
  wpd D (getPath p) Q E w.
Proof.
  intros Hp HQ. apply wp_getPath; [done|].
  intros Hn%lookup_ge_None. lia.
Qed.

Lemma wpd_modifyPath_in {D} p f (Q : unit -> Engine -> Prop) E w :
  (p < length (pathStore w))%nat ->
  (forall pth, pathStore w !! p = Some pth ->
     Q tt (set_pathStore (<[p := f pth]> (pathStore w)) w)) ->
  wpd D (modifyPath p f) Q E w.
Proof.
  intros Hp HQ. apply wp_modifyPath; [done|].
  intros Hn%lookup_ge_None. lia.
Qed.

Lemma wpd_getArray_in {D} a (Q : list ref -> Engine -> Prop) E w :
  (a < length (arrayStore w))%nat ->
  (forall arr, arrayStore w !! a = Some arr -> Q arr w) ->
  wpd D (getArray a) Q E w.
Proof.
  intros Ha HQ. apply wp_getArray; [done|].
  intros Hn%lookup_ge_None. lia.
Qed.

Lemma wpd_pushArray_in {D} a v (Q : unit -> Engine -> Prop) E w :
  (a < length (arrayStore w))%nat ->
  (forall arr, arrayStore w !! a = Some arr ->
     Q tt (set_arrayStore (<[a := arr ++ [v]]> (arrayStore w)) w)) ->
  wpd D (pushArray a v) Q E w.
Proof.
  intros Ha HQ. apply wp_pushArray; [done|].
  intros Hn%lookup_ge_None. lia.
Qed.

(** ** Scanning the neighbours never fails *)

(** [x] is a wall; [x] is a wall or lies in row 1. *)
Definition wallAt (w : Engine) (x : ref) : Prop :=
  exists blk, blockStore w !! x = Some blk /\ isWall blk = true.

Definition wallOrFirstRow (w : Engine) (x : ref) : Prop :=
  exists blk, blockStore w !! x = Some blk /\
              (isWall blk = true \/ rowIndex blk = 1).

Lemma scan_wallAt w w' x : scan_frame w w' -> wallAt w x <-> wallAt w' x.
Proof.
  intros Hs. split; intros (blk & Hblk & Hw).
  - destruct (Forall2_lookup_l _ _ _ _ _ (sc_blocks _ _ Hs) Hblk)
      as (blk' & Hblk' & (_ & Hw')).
    exists blk'. by rewrite Hw'.
  - destruct (Forall2_lookup_r _ _ _ _ _ (sc_blocks _ _ Hs) Hblk)
      as (blk0 & Hblk0 & (_ & Hw')).
    exists blk0. by rewrite <- Hw'.
Qed.

Lemma scan_wallOrFirstRow w w' x :
  scan_frame w w' -> wallOrFirstRow w x <-> wallOrFirstRow w' x.
Proof.
  intros Hs. split; intros (blk & Hblk & Hw).
  - destruct (Forall2_lookup_l _ _ _ _ _ (sc_blocks _ _ Hs) Hblk)
      as (blk' & Hblk' & ((Hri & _) & Hw')).
    exists blk'. by rewrite Hw', Hri.
  - destruct (Forall2_lookup_r _ _ _ _ _ (sc_blocks _ _ Hs) Hblk)
      as (blk0 & Hblk0 & ((Hri & _) & Hw')).
    exists blk0. by rewrite <- Hw', <- Hri.
Qed.

Lemma scan_length w w' :
  scan_frame w w' -> length (blockStore w') = length (blockStore w).
Proof. intros Hs. symmetry. apply (Forall2_length _ _ _ (sc_blocks _ _ Hs)). Qed.

Lemma checkForWallBlocks_scan {D} a (Q : unit -> Engine -> Prop) E w :
  closed w -> (a < length (blockStore w))%nat ->
  (forall w', scan_frame w w' -> Q tt w') ->
  wpd D (checkForWallBlocks a) Q E w.
Proof.
  intros Hc Ha HQ.
  apply (wpd_frame D scan_frame); [apply scan_checkForWallBlocks|].
  destruct (lookup_lt_is_Some_2 _ _ Ha) as [blk Hblk].
  unfold wpd. rewrite (checkForWallBlocks_run a blk w Hblk).
  - apply HQ.
  - intros x Hx. apply lookup_lt_is_Some. by eapply (cl_adjacent _ Hc).
Qed.

Lemma subPathCandidate_total {D} a w :
  closed w -> (a < length (blockStore w))%nat ->
  wpd D (subPathCandidate a)
    (fun xs w' => Forall (fun x => x = a) xs /\ (xs <> [] -> wallOrFirstRow w' a))
    (fun _ => False) w.
Proof.
  intros Hc Ha. unfold subPathCandidate. wp_step.
  apply checkForWallBlocks_scan; [done | done |]. intros w1 Hs.
  wp_step. apply wpd_getBlock_in; [by rewrite (scan_length w w1)|].
  intros nb Hnb. wp_go.
  case_test H1.
  { wp_step. split; [by repeat constructor|]. intros _.
    exists nb. split; [done|]. left. split_tests H1.
    by destruct (isWall nb). }
  case_test H2; wp_step; (split; [by repeat constructor|]); [|done].
  intros _. exists nb. split; [done|]. right. split_tests H2. lia.
Qed.

Lemma extendCandidate_total {D} a w :
  closed w -> (a < length (blockStore w))%nat ->
  wpd D (extendCandidate a)
    (fun xs w' => Forall (fun x => x = a) xs /\ (xs <> [] -> wallAt w' a))
    (fun _ => False) w.
Proof.
  intros Hc Ha. unfold extendCandidate. wp_step.
  apply checkForWallBlocks_scan; [done | done |]. intros w1 Hs.
  wp_step. apply wpd_getBlock_in; [by rewrite (scan_length w w1)|].
  intros nb Hnb. wp_go.
  case_test H1; wp_step; (split; [by repeat constructor|]); [|done].
  intros _. exists nb. split; [done|]. split_tests H1.
  by destruct (isWall nb).
Qed.

Lemma extendMainCandidate_total {D} c a w :
  closed w -> (a < length (blockStore w))%nat ->
  (c < length (blockStore w))%nat ->
  wpd D (extendMainCandidate c a)
    (fun xs w' => Forall (fun x => x = a) xs /\ (xs <> [] -> wallOrFirstRow w' a))
    (fun _ => False) w.
Proof.
  intros Hc Ha Hcv. unfold extendMainCandidate. wp_step.
  apply checkForWallBlocks_scan; [done | done |]. intros w1 Hs.
  wp_step. apply wpd_getBlock_in; [by rewrite (scan_length w w1)|].
  intros nb Hnb.
  wp_step. apply wpd_getBlock_in; [by rewrite (scan_length w w1)|].
  intros lb Hlb. wp_go.
  case_test H1.
  { wp_step. split; [by repeat constructor|]. intros _.
    exists nb. split; [done|]. left. split_tests H1.
    by destruct (isWall nb). }
  case_test H2; wp_step; (split; [by repeat constructor|]); [|done].
  intros _. exists nb. split; [done|]. right. split_tests H2. lia.
Qed.

Lemma mainCandidate_total {D} c a w :
  closed w -> (a < length (blockStore w))%nat ->
  (c < length (blockStore w))%nat ->
  wpd D (mainCandidate c a)
    (fun xs w' => Forall (fun x => x = a) xs /\ (xs <> [] -> wallAt w' a))
    (fun _ => False) w.
Proof.
  intros Hc Ha Hcv. unfold mainCandidate.
  wp_step. apply wpd_getBlock_in; [done|]. intros nb Hnb.
  wp_step. apply wpd_getBlock_in; [done|]. intros cur Hcur.
  wp_go.
  case_test H1; [|wp_step; by split].
  wp_step. apply checkForWallBlocks_scan; [done | done |]. intros w1 Hs.
  wp_step. apply wpd_getBlock_in; [by rewrite (scan_length w w1)|].
  intros nb' Hnb'. wp_step. split.
  - repeat (apply Forall_app; split);
      repeat match goal with |- context [if ?c then _ else _] => destruct c end;
      by repeat constructor.
  - intros _. apply (scan_wallAt w w1); [done|].
    exists nb. split; [done|]. split_tests H1. by destruct (isWall nb).
Qed.

(** Scanning the neighbours [l] of a block with one of the four tests:
    nothing fails, only wall counts change, and every candidate is one of
    the neighbours and passes [P]. *)
Lemma scan_total {D} (f : ref -> M (list ref)) (P : Engine -> ref -> Prop) l w :
  closed w ->
  (forall a, a ∈ l -> (a < length (blockStore w))%nat) ->
  (forall a, keeps scan_frame (f a)) ->
  (forall w w' a, scan_frame w w' -> P w a <-> P w' a) ->
  (forall a w0, scan_frame w w0 -> closed w0 -> (a < length (blockStore w0))%nat ->
     wpd D (f a)
       (fun xs w' => Forall (fun x => x = a) xs /\ (xs <> [] -> P w' a))
       (fun _ => False) w0) ->
  wpd D (collect l f)
    (fun xs w' => scan_frame w w' /\ Forall (fun x => x ∈ l /\ P w' x) xs)
    (fun _ => False) w.
Proof.
  intros Hc Hl Hk HP Hf.
  eapply wp_mono;
    [apply (wp_collect l f (fun w' => scan_frame w w')
              (fun x => x ∈ l /\ P w x) (fun _ => False)); [done|] | | done].
  - intros a w1 Ha Hw1.
    apply (wpd_frame D scan_frame); [apply Hk|].
    eapply wp_mono; [apply Hf | | done].
    + done.
    + by eapply closed_scan.
    + rewrite (scan_length w w1) by done. by apply Hl.
    + intros xs w2 [Hxs HPa] H2. simpl. split; [by etrans|].
      destruct xs as [|x xs']; [constructor|].
      assert (HPw : P w a).
      { apply (HP w w2); [by etrans | by apply HPa]. }
      eapply Forall_impl; [exact Hxs|]. by intros y ->.
  - intros xs w' [Hs Hxs]. split; [done|].
    eapply Forall_impl; [exact Hxs|]. intros x [? ?]. split; [done|].
    by apply (HP w w').
Qed.

(** ** One round of each loop *)

Lemma scan_facts w w1 :
  scan_frame w w1 ->
  length (blockStore w1) = length (blockStore w) /\
  pathStore w1 = pathStore w /\ arrayStore w1 = arrayStore w /\
  walls w1 = walls w /\ seeds w1 = seeds w /\
  secondSeeds w1 = secondSeeds w /\ pathSeeds w1 = pathSeeds w /\
  mainPath w1 = mainPath w.
Proof.
  intros Hs. split; [by apply scan_length|].
  split; [apply Hs|]. split; [apply Hs|]. split.
  { apply wallsIn_Forall2_eq. eapply Forall2_impl; [apply Hs|]. by intros b b' [_ ?]. }
  split; [unfold seeds; by rewrite (sc_arrays _ _ Hs)|].
  split; [apply Hs|]. split; apply Hs.
Qed.

Lemma closed_stores w w' :
  blockStore w' = blockStore w -> pathStore w' = pathStore w ->
  arrayStore w' = arrayStore w -> closed w -> closed w'.
Proof.
  intros Hb Hp Ha. apply closed_blocks; [|done..]. rewrite Hb.
  apply Forall2_same_length_lookup_2; [done|].
  intros i x y Hx Hy. rewrite Hx in Hy. by injection Hy as <-.
Qed.

(** What a round has done when it goes round again with the block [c']:
    it has carved a wall, and set aside at most one seed. *)
Definition progress (w w' : Engine) (r : ref + unit) : Prop :=
  (work w' <= work w)%nat /\
  match r with
  | inl c' => (c' < length (blockStore w'))%nat /\ (walls w' < walls w)%nat
  | inr _ => True
  end.

Lemma walls_carve w b blk :
  blockStore w !! b = Some blk ->
  (walls (set_blockStore (<[b := set_isWall false blk]> (blockStore w)) w)
   + (if isWall blk then 1 else 0))%nat = walls w.
Proof.
  intros Hb. unfold walls. simpl.
  pose proof (wallsIn_insert _ b blk (set_isWall false blk) Hb) as H.
  simpl in H. lia.
Qed.

Lemma seeds_push w a arr b :
  arrayStore w !! a = Some arr ->
  seeds (set_arrayStore (<[a := arr ++ [b]]> (arrayStore w)) w) = S (seeds w).
Proof.
  intros Ha. unfold seeds. simpl.
  pose proof (seeds_insert _ a arr (arr ++ [b]) Ha) as H.
  rewrite length_app in H. simpl in H. lia.
Qed.

Lemma makeSubPath_round_total {D} n p c w :
  tidy n w -> (c < length (blockStore w))%nat -> (p < length (pathStore w))%nat ->
  wpd D (makeSubPath_round p c)
    (fun r w' => tidy n w' /\ round_frame w w' /\ progress w w' r)
    (fun _ => False) w.
Proof.
  intros Ht Hc Hp. pose proof (td_closed _ _ Ht) as Hcl.
  apply (wpd_frame D round_frame); [apply round_makeSubPath_round|].
  eapply wp_mono with
    (Q := fun r w' => closed w' /\ progress w w' r) (E := fun _ => False);
    [| intros r w' [? ?] Hr; split; [by apply (tidy_round n w w') | by split] | intros w' []].
  unfold makeSubPath_round.
  wp_step. apply wpd_getBlock_in; [done|]. intros cblk Hcblk.
  wp_step. eapply wp_mono;
    [apply (scan_total subPathCandidate wallOrFirstRow (adjacentBlocks cblk) w) | | done];
    [done | intros a Ha; by eapply (cl_adjacent _ Hcl) | apply scan_subPathCandidate
     | apply scan_wallOrFirstRow | intros; by apply subPathCandidate_total |].
  intros possible w1 [Hs Hposs]. cbv beta.
  destruct (scan_facts _ _ Hs) as (Hlen1 & Hps1 & Has1 & Hw1 & Hsd1 & Hss1 & _).
  pose proof (closed_scan _ _ Hs Hcl) as Hcl1.
  rewrite Forall_forall in Hposs.
  wp_step.
  destruct (0 <? length possible)%nat eqn:Hposs0.
  - (* a block is added *)
    apply Nat.ltb_lt in Hposs0.
    wp_step. apply wpd_pick; [by destruct possible; [simpl in Hposs0; lia|] |].
    intros b v Hb. destruct (Hposs b Hb) as [Hadj (blk & Hblk & Hwr)].
    assert (Hbv : (b < length (blockStore w1))%nat) by (by eapply lookup_lt_Some).
    wp_step. apply wpd_modifyBlock_in; [done|]. intros blk' Hblk'.
    simpl in Hblk'. rewrite Hblk in Hblk'. injection Hblk' as <-.
    set (w3 := set_blockStore _ (set_rng v w1)).
    assert (Hcl3 : closed w3).
    { apply closed_insert with (blk := blk); [done | done |].
      by apply (closed_stores w1). }
    assert (Hlen3 : length (blockStore w3) = length (blockStore w1))
      by (simpl; by rewrite length_insert).
    wp_step. unfold pushSubPath.
    apply wpd_modifyPath_in; [simpl; by rewrite Hps1|]. intros pth Hpth.
    set (w4 := set_pathStore _ w3).
    assert (Hcl4 : closed w4).
    { apply closed_setPath; [simpl; by rewrite Hps1 | by destruct (subPath pth) | | done].
      simpl. intros x [Hx|Hx%list_elem_of_singleton]%elem_of_app.
      - rewrite length_insert.
        apply (proj2 (cl_paths _ Hcl1 p pth Hpth)), Hx.
      - subst x. by rewrite length_insert. }
    wp_step. wp_step.
    apply wpd_getBlock_in; [simpl; by rewrite length_insert|]. intros cur Hcur.
    simpl in Hcur. rewrite list_lookup_insert_eq in Hcur by done.
    injection Hcur as <-.
    wp_step. apply wpd_getPath_in; [simpl; by rewrite length_insert, Hps1|].
    intros pth' Hpth'.
    assert (Hwalls4 : (walls w4 + (if isWall blk then 1 else 0))%nat = walls w1).
    { apply (walls_carve (set_rng v w1) b blk Hblk). }
    assert (Hseeds4 : seeds w4 = seeds w1) by done.
    case_test Hstop.
    + wp_step.
      match goal with |- wpd _ (if ?c then _ else _) _ _ _ => destruct c end.
      * wp_step. wp_step. split; [by apply (closed_stores w4)|]. split; [|done].
        unfold work. change (walls w4 + seeds w4 <= walls w + seeds w)%nat.
        lia.
      * wp_step. wp_step. split; [done|]. split; [|done]. unfold work. lia.
    + apply orb_false_iff in Hstop as [[Hrow _]%orb_false_iff _].
      simpl in Hrow. apply Z.eqb_neq in Hrow.
      assert (Hwall : isWall blk = true) by (by destruct Hwr).
      rewrite Hwall in Hwalls4.
      wp_step. apply wpd_draw. intros o v'.
      wp_step.
      match goal with |- wpd _ (if ?c then _ else _) _ _ _ => destruct c end.
      * wp_step. wp_step.
        apply wpd_pushArray_in.
        { simpl. rewrite Has1, Hss1. apply Ht. }
        intros arr Harr. set (w6 := set_arrayStore _ _).
        wp_step. split.
        { apply closed_pushArray; [done | simpl; by rewrite length_insert |].
          by apply (closed_stores w4). }
        split.
        -- unfold work. unfold w6. rewrite seeds_push by done.
           change (walls w4 + S (seeds w4) <= walls w + seeds w)%nat. lia.
        -- split; [simpl; by rewrite length_insert|].
           change (walls w4 < walls w)%nat. lia.
      * wp_step. wp_step. split; [by apply (closed_stores w4)|]. split.
        -- unfold work. change (walls w4 + seeds w4 <= walls w + seeds w)%nat. lia.
        -- split; [simpl; by rewrite length_insert|].
           change (walls w4 < walls w)%nat. lia.
  - (* no candidate: the loop stops *)
    apply Nat.ltb_ge in Hposs0.
    assert (Hnil : possible = []) by (destruct possible; [done | simpl in Hposs0; lia]).
    subst possible.
    wp_step. wp_step.
    apply wpd_getBlock_in; [lia|]. intros cur Hcur.
    wp_step. apply wpd_getPath_in; [by rewrite Hps1|]. intros pth Hpth.
    simpl. rewrite orb_true_r. simpl.
    wp_step. wp_step. wp_step. split; [by apply (closed_stores w1)|]. split; [|done].
    unfold work. change (walls w1 + seeds w1 <= walls w + seeds w)%nat. lia.
Qed.

Lemma makePath_round_total {D} n p c w :
  tidy n w -> (c < length (blockStore w))%nat -> mainPath w = Some p ->
  wpd D (makePath_round c)
    (fun r w' => tidy n w' /\ round_frame w w' /\ progress w w' r)
    (fun _ => False) w.
Proof.
  intros Ht Hc Hmain. pose proof (td_closed _ _ Ht) as Hcl.
  pose proof (td_main _ _ Ht p Hmain) as Hp.
  apply (wpd_frame D round_frame); [apply round_makePath_round|].
  eapply wp_mono with
    (Q := fun r w' => closed w' /\ progress w w' r) (E := fun _ => False);
    [| intros r w' [? ?] Hr; split; [by apply (tidy_round n w w') | by split]
     | intros w' []].
  unfold makePath_round.
  wp_step. apply wpd_getBlock_in; [done|]. intros cblk Hcblk.
  wp_step. eapply wp_mono;
    [apply (scan_total (mainCandidate c) wallAt (adjacentBlocks cblk) w) | | done];
    [done | intros a Ha; by eapply (cl_adjacent _ Hcl) | apply scan_mainCandidate
     | apply scan_wallAt | |].
  { intros a w0 Hs0 Hc0 Ha0. apply mainCandidate_total; [done | done |].
    by rewrite (scan_length w w0). }
  intros possible w1 [Hs Hposs]. cbv beta.
  destruct (scan_facts _ _ Hs) as (Hlen1 & Hps1 & Has1 & Hw1 & Hsd1 & _ & Hsp1 & Hm1).
  pose proof (closed_scan _ _ Hs Hcl) as Hcl1.
  rewrite Forall_forall in Hposs.
  wp_step. apply wpd_getBlock_in; [lia|]. intros cur Hcur.
  case_test Hstop.
  { wp_step. split; [done|]. split; [|done]. unfold work. lia. }
  apply orb_false_iff in Hstop as [_ Hne]. apply Nat.eqb_neq in Hne.
  wp_step. apply wpd_pick; [by destruct possible|].
  intros b v Hb. destruct (Hposs b Hb) as [Hadj (blk & Hblk & Hwall)].
  assert (Hbv : (b < length (blockStore w1))%nat) by (by eapply lookup_lt_Some).
  wp_step. apply wpd_modifyBlock_in; [done|]. intros blk' Hblk'.
  simpl in Hblk'. rewrite Hblk in Hblk'. injection Hblk' as <-.
  set (w3 := set_blockStore _ (set_rng v w1)).
  assert (Hcl3 : closed w3).
  { apply closed_insert with (blk := blk); [done | done |].
    by apply (closed_stores w1). }
  assert (Hwalls3 : (walls w3 + 1)%nat = walls w1).
  { pose proof (walls_carve (set_rng v w1) b blk Hblk) as H.
    rewrite Hwall in H. exact H. }
  unfold theMainPath. wp_go. simpl. rewrite Hm1, Hmain.
  wp_step; [|done]. injection H as <-.
  wp_step. unfold pushSubPath.
  apply wpd_modifyPath_in; [simpl; by rewrite Hps1|]. intros pth Hpth.
  set (w4 := set_pathStore _ w3).
  assert (Hcl4 : closed w4).
  { apply closed_setPath; [simpl; by rewrite Hps1 | by destruct (subPath pth) | | done].
    simpl. intros x [Hx|Hx%list_elem_of_singleton]%elem_of_app.
    - rewrite length_insert.
      apply (proj2 (cl_paths _ Hcl1 p pth Hpth)), Hx.
    - subst x. by rewrite length_insert. }
  wp_step. apply wpd_draw. intros o v'. wp_step.
  match goal with |- wpd _ (if ?c then _ else _) _ _ _ => destruct c end.
  - wp_step. wp_step. apply wpd_pushArray_in.
    { simpl. rewrite Has1, Hsp1. apply Ht. }
    intros arr Harr. set (w6 := set_arrayStore _ _).
    wp_step. split.
    { apply closed_pushArray; [done | simpl; by rewrite length_insert |].
      by apply (closed_stores w4). }
    split.
    + unfold work. unfold w6. rewrite seeds_push by done.
      change (walls w3 + S (seeds w1) <= walls w + seeds w)%nat. lia.
    + split; [simpl; by rewrite length_insert|].
      change (walls w3 < walls w)%nat. lia.
  - wp_step. wp_step. split; [by apply (closed_stores w4)|]. split.
    + unfold work. change (walls w3 + seeds w1 <= walls w + seeds w)%nat. lia.
    + split; [simpl; by rewrite length_insert|].
      change (walls w3 < walls w)%nat. lia.
Qed.

Lemma drop_snoc_ne {A} (l : list A) (b : A) : l <> [] -> drop 1 (l ++ [b]) <> [].
Proof. destruct l as [|a [|a' l]]; done. Qed.

Lemma extendMainPath_round_total {D} n p c w :
  tidy n w -> (c < length (blockStore w))%nat -> mainPath w = Some p ->
  wpd D (extendMainPath_round c)
    (fun r w' => tidy n w' /\ round_frame w w' /\ progress w w' r)
    (fun _ => False) w.
Proof.
  intros Ht Hc Hmain. pose proof (td_closed _ _ Ht) as Hcl.
  pose proof (td_main _ _ Ht p Hmain) as Hp.
  apply (wpd_frame D round_frame); [apply round_extendMainPath_round|].
  eapply wp_mono with
    (Q := fun r w' => closed w' /\ progress w w' r) (E := fun _ => False);
    [| intros r w' [? ?] Hr; split; [by apply (tidy_round n w w') | by split]
     | intros w' []].
  unfold extendMainPath_round.
  wp_step. apply wpd_getBlock_in; [done|]. intros cblk Hcblk.
  wp_step. eapply wp_mono;
    [apply (scan_total (extendMainCandidate c) wallOrFirstRow (adjacentBlocks cblk) w)
     | | done];
    [done | intros a Ha; by eapply (cl_adjacent _ Hcl) | apply scan_extendMainCandidate
     | apply scan_wallOrFirstRow | |].
  { intros a w0 Hs0 Hc0 Ha0. apply extendMainCandidate_total; [done | done |].
    by rewrite (scan_length w w0). }
  intros possible w1 [Hs Hposs]. cbv beta.
  destruct (scan_facts _ _ Hs) as (Hlen1 & Hps1 & Has1 & Hw1 & Hsd1 & _ & Hsp1 & Hm1).
  pose proof (closed_scan _ _ Hs Hcl) as Hcl1.
  rewrite Forall_forall in Hposs.
  wp_step.
  destruct (0 <? length possible)%nat eqn:Hposs0.
  - apply Nat.ltb_lt in Hposs0.
    wp_step. apply wpd_pick; [by destruct possible; [simpl in Hposs0; lia|] |].
    intros b v Hb. destruct (Hposs b Hb) as [Hadj (blk & Hblk & Hwr)].
    assert (Hbv : (b < length (blockStore w1))%nat) by (by eapply lookup_lt_Some).
    wp_step. apply wpd_modifyBlock_in; [done|]. intros blk' Hblk'.
    simpl in Hblk'. rewrite Hblk in Hblk'. injection Hblk' as <-.
    set (w3 := set_blockStore _ (set_rng v w1)).
    assert (Hcl3 : closed w3).
    { apply closed_insert with (blk := blk); [done | done |].
      by apply (closed_stores w1). }
    assert (Hwalls3 : (walls w3 + (if isWall blk then 1 else 0))%nat = walls w1).
    { apply (walls_carve (set_rng v w1) b blk Hblk). }
    unfold theMainPath. wp_go. simpl. rewrite Hm1, Hmain.
    wp_step; [|done]. injection H as <-.
    wp_step. unfold pushSubPath.
    apply wpd_modifyPath_in; [simpl; by rewrite Hps1|]. intros pth Hpth.
    set (w4 := set_pathStore _ w3).
    wp_step. apply wpd_modifyPath_in; [simpl; by rewrite length_insert, Hps1|].
    intros pth' Hpth'. simpl in Hpth'.
    rewrite list_lookup_insert_eq in Hpth' by (by rewrite Hps1).
    injection Hpth' as <-.
    set (w5 := set_pathStore _ w4).
    assert (Hcl5 : closed w5).
    { unfold w5, w4. simpl. rewrite list_insert_insert_eq.
      apply (closed_setPath w3);
        [simpl; by rewrite Hps1 | apply drop_snoc_ne, (cl_paths _ Hcl1 p pth Hpth)
         | | done].
      simpl. intros x Hx.
      apply (subseteq_drop 1) in Hx.
      apply elem_of_app in Hx as [Hx|Hx%list_elem_of_singleton].
      - rewrite length_insert.
        apply (proj2 (cl_paths _ Hcl1 p pth Hpth)), Hx.
      - subst x. by rewrite length_insert. }
    wp_step. wp_step.
    apply wpd_getBlock_in; [simpl; by rewrite length_insert|]. intros cur Hcur.
    simpl in Hcur. rewrite list_lookup_insert_eq in Hcur by done.
    injection Hcur as <-.
    case_test Hstop.
    + wp_step. split; [done|]. split; [|done].
      unfold work. change (walls w3 + seeds w1 <= walls w + seeds w)%nat. lia.
    + apply orb_false_iff in Hstop as [Hrow _].
      simpl in Hrow. apply Z.eqb_neq in Hrow.
      assert (Hwall : isWall blk = true) by (by destruct Hwr).
      rewrite Hwall in Hwalls3.
      wp_step. apply wpd_draw. intros o v'. wp_step.
      match goal with |- wpd _ (if ?c then _ else _) _ _ _ => destruct c end.
      * wp_step. wp_step. apply wpd_pushArray_in.
        { simpl. rewrite Has1, Hsp1. apply Ht. }
        intros arr Harr. set (w7 := set_arrayStore _ _).
        wp_step. split.
        { apply closed_pushArray; [done | simpl; by rewrite length_insert |].
          by apply (closed_stores w5). }
        split.
        -- unfold work. unfold w7. rewrite seeds_push by done.
           change (walls w3 + S (seeds w1) <= walls w + seeds w)%nat. lia.
        -- split; [simpl; by rewrite length_insert|].
           change (walls w3 < walls w)%nat. lia.
      * wp_step. wp_step. split; [by apply (closed_stores w5)|]. split.
        -- unfold work. change (walls w3 + seeds w1 <= walls w + seeds w)%nat. lia.
        -- split; [simpl; by rewrite length_insert|].
           change (walls w3 < walls w)%nat. lia.
  - apply Nat.ltb_ge in Hposs0.
    assert (Hnil : possible = []) by (destruct possible; [done | simpl in Hposs0; lia]).
    subst possible.
    wp_step. wp_step.
    apply wpd_getBlock_in; [lia|]. intros cur Hcur.
    simpl. rewrite orb_true_r.
    wp_step. split; [done|]. split; [|done]. unfold work. lia.
Qed.

Lemma extendPaths_round_total {D} n p c w :
  tidy n w -> (c < length (blockStore w))%nat -> (p < length (pathStore w))%nat ->
  wpd D (extendPaths_round p c)
    (fun r w' => tidy n w' /\ round_frame w w' /\ progress w w' r)
    (fun _ => False) w.
Proof.
  intros Ht Hc Hp. pose proof (td_closed _ _ Ht) as Hcl.
  apply (wpd_frame D round_frame); [apply round_extendPaths_round|].
  eapply wp_mono with
    (Q := fun r w' => closed w' /\ progress w w' r) (E := fun _ => False);
    [| intros r w' [? ?] Hr; split; [by apply (tidy_round n w w') | by split]
     | intros w' []].
  unfold extendPaths_round.
  wp_step. apply wpd_getBlock_in; [done|]. intros cblk Hcblk.
  wp_step. eapply wp_mono;
    [apply (scan_total extendCandidate wallAt (adjacentBlocks cblk) w) | | done];
    [done | intros a Ha; by eapply (cl_adjacent _ Hcl) | apply scan_extendCandidate
     | apply scan_wallAt | intros; by apply extendCandidate_total |].
  intros possible w1 [Hs Hposs]. cbv beta.
  destruct (scan_facts _ _ Hs) as (Hlen1 & Hps1 & Has1 & Hw1 & Hsd1 & Hss1 & _ & _).
  pose proof (closed_scan _ _ Hs Hcl) as Hcl1.
  rewrite Forall_forall in Hposs.
  (* the end of the round, from any state the first half leaves *)
  assert (Hend : forall b w5,
    closed w5 -> length (blockStore w5) = length (blockStore w1) ->
    length (pathStore w5) = length (pathStore w1) ->
    (b < length (blockStore w1))%nat ->
    (work w5 <= work w)%nat ->
    (possible <> [] -> (walls w5 < walls w)%nat) ->
    wpd D
      (cur <- getBlock b ;;
       pth <- getPath p ;;
       rows <- gets maze ;;
       (if (rowIndex cur =? 1) || (length possible =? 0)%nat
           || (distance pth <=? Z.of_nat (length (subPath pth)))
        then
          low <- (if (distance pth <=? Z.of_nat (length (subPath pth)))
                     || (length possible =? 0)%nat
                  then ret true
                  else (nBlock <- defined (last (adjacentBlocks cblk)) ;;
                        nb <- getBlock nBlock ;;
                        ret (Z.of_nat (length rows) - 3 <=? rowIndex nb))) ;;
          (if low : bool
           then modify (fun w0 => set_pathsToSplice (pathsToSplice w0 ++ [p]) w0)
           else ret tt) ;;
          ret (inr tt)
        else ret (inl b)))
      (fun r w' => closed w' /\ progress w w' r) (fun _ => False) w5).
  { intros b w5 Hcl5 Hlen5 Hlp5 Hbv Hwork5 Hstrict.
    wp_step. apply wpd_getBlock_in; [lia|]. intros cur Hcur.
    wp_step. apply wpd_getPath_in; [by rewrite Hlp5, Hps1|]. intros pth Hpth.
    wp_go. case_test Hstop.
    - wp_step.
      assert (Hdone : forall low : bool,
        wpd D ((if low
                then modify (fun w0 => set_pathsToSplice (pathsToSplice w0 ++ [p]) w0)
                else ret tt) ;; ret (inr tt))
          (fun (r : ref + unit) w' => closed w' /\ progress w w' r)
          (fun _ => False) w5).
      { intros [|]; wp_go; (split; [|by split]); [|done].
        by apply (closed_stores w5). }
      case_test Hlow; [wp_step; exact (Hdone true)|].
      apply orb_false_iff in Hlow as [_ Hne]. apply Nat.eqb_neq in Hne.
      assert (Hne' : possible <> []) by (by destruct possible).
      destruct possible as [|x possible']; [done|].
      destruct (Hposs x) as [Hx _]; [left|].
      destruct (last (adjacentBlocks cblk)) as [nBlock|] eqn:Hlast.
      2:{ apply last_None in Hlast. rewrite Hlast in Hx. by apply elem_of_nil in Hx. }
      wp_step. wp_step; [|done]. injection H as <-.
      wp_step. apply wpd_getBlock_in.
      { rewrite Hlen5, Hlen1. apply (cl_adjacent _ Hcl c cblk); [done|].
        by apply last_Some_elem_of. }
      intros nb Hnb. wp_step. exact (Hdone _).
    - apply orb_false_iff in Hstop as [[_ Hne]%orb_false_iff _].
      apply Nat.eqb_neq in Hne.
      wp_step. split; [done|]. split; [done|]. split; [lia|].
      apply Hstrict. by destruct possible. }
  wp_step.
  destruct (0 <? length possible)%nat eqn:Hposs0.
  - apply Nat.ltb_lt in Hposs0.
    wp_step. apply wpd_pick; [by destruct possible; [simpl in Hposs0; lia|] |].
    intros b v Hb. destruct (Hposs b Hb) as [Hadj (blk & Hblk & Hwall)].
    assert (Hbv : (b < length (blockStore w1))%nat) by (by eapply lookup_lt_Some).
    wp_step. apply wpd_modifyBlock_in; [done|]. intros blk' Hblk'.
    simpl in Hblk'. rewrite Hblk in Hblk'. injection Hblk' as <-.
    set (w3 := set_blockStore _ (set_rng v w1)).
    assert (Hcl3 : closed w3).
    { apply closed_insert with (blk := blk); [done | done |].
      by apply (closed_stores w1). }
    assert (Hwalls3 : (walls w3 + 1)%nat = walls w1).
    { pose proof (walls_carve (set_rng v w1) b blk Hblk) as H.
      rewrite Hwall in H. exact H. }
    wp_step. unfold pushSubPath.
    apply wpd_modifyPath_in; [simpl; by rewrite Hps1|]. intros pth Hpth.
    set (w4 := set_pathStore _ w3).
    assert (Hcl4 : closed w4).
    { apply closed_setPath; [simpl; by rewrite Hps1 | by destruct (subPath pth) | | done].
      simpl. intros x [Hx|Hx%list_elem_of_singleton]%elem_of_app.
      - rewrite length_insert.
        apply (proj2 (cl_paths _ Hcl1 p pth Hpth)), Hx.
      - subst x. by rewrite length_insert. }
    wp_step. apply wpd_draw. intros o v'. wp_step.
    match goal with |- wpd _ (if ?c then _ else _) _ _ _ => destruct c end.
    + wp_step. wp_step. apply wpd_pushArray_in.
      { simpl. rewrite Has1, Hss1. apply Ht. }
      intros arr Harr. set (w6 := set_arrayStore _ _).
      wp_step. apply Hend.
      * apply closed_pushArray; [done | simpl; by rewrite length_insert |].
        by apply (closed_stores w4).
      * simpl. by rewrite length_insert.
      * simpl. by rewrite length_insert.
      * done.
      * unfold work. unfold w6. rewrite seeds_push by done.
        change (walls w3 + S (seeds w1) <= walls w + seeds w)%nat. lia.
      * intros _. change (walls w3 < walls w)%nat. lia.
    + wp_step. wp_step. apply Hend.
      * by apply (closed_stores w4).
      * simpl. by rewrite length_insert.
      * simpl. by rewrite length_insert.
      * done.
      * unfold work. change (walls w3 + seeds w1 <= walls w + seeds w)%nat. lia.
      * intros _. change (walls w3 < walls w)%nat. lia.
  - apply Nat.ltb_ge in Hposs0.
    assert (Hnil : possible = []) by (destruct possible; [done | simpl in Hposs0; lia]).
    subst possible.
    wp_step. apply Hend; try done; [lia | unfold work; lia].
Qed.

(** ** Whole loops and passes *)

Lemma seeds_lookup w a arr :
  arrayStore w !! a = Some arr -> (length arr <= seeds w)%nat.
Proof.
  intros Ha. unfold seeds. rewrite <- (take_drop_middle _ a arr Ha).
  rewrite concat_app, concat_cons, !length_app. lia.
Qed.

Lemma at_index_last_in {A} (l : list A) :
  l <> [] -> exists a, at_index l (Z.of_nat (length l) - 1) = Some a /\ a ∈ l.
Proof.
  intros Hl. destruct (lookup_lt_is_Some_2 l (length l - 1)) as [a Ha].
  { destruct l; [done | simpl; lia]. }
  exists a. split; [|by eapply list_elem_of_lookup_2].
  unfold at_index.
  destruct (Z.ltb_spec (Z.of_nat (length l) - 1) 0) as [Hlt|_].
  { destruct l; [done | simpl in Hlt; lia]. }
  by replace (Z.to_nat (Z.of_nat (length l) - 1)) with (length l - 1)%nat by lia.
Qed.

Lemma insert_snoc {A} (l : list A) x y : <[length l := x]> (l ++ [y]) = l ++ [x].
Proof. rewrite insert_app_r_alt by lia. by rewrite Nat.sub_diag. Qed.

Lemma gen_frame_refl_blocks w w' :
  blockStore w' = blockStore w -> Forall2 carved (blockStore w) (blockStore w').
Proof.
  intros ->. apply Forall2_same_length_lookup_2; [done|].
  intros i x y Hx Hy. rewrite Hx in Hy. injection Hy as <-. reflexivity.
Qed.

(** What every pass guarantees when it returns: the engine is tidy, the
    pass has only carved blocks and grown the stores, it has not added to
    the work left, and the main path is the Path object it was. *)
Definition passed (n : Z) (w w' : Engine) : Prop :=
  tidy n w' /\ gen_frame w w' /\ (work w' <= work w)%nat /\
  mainPath w' = mainPath w.

Lemma passed_refl n w : tidy n w -> passed n w w.
Proof. intros Ht. split; [done|]. split; [reflexivity|]. split; [lia | done]. Qed.

Lemma passed_trans n w1 w2 w3 : passed n w1 w2 -> passed n w2 w3 -> passed n w1 w3.
Proof.
  intros (_ & Hf1 & Hw1 & Hm1) (Ht & Hf2 & Hw2 & Hm2).
  split; [done|]. split; [by etrans|]. split; [lia | congruence].
Qed.

Lemma fuel_passed n w w' D fuel :
  passed n w w' -> D \/ (work w < fuel)%nat -> D \/ (work w' < fuel)%nat.
Proof. intros (_ & _ & ? & _) [?|?]; [by left | right; lia]. Qed.

(** The state of a loop that grows a path from the block [c], [w0] being
    the engine the loop started from. *)
Record looping (n : Z) (w0 : Engine) (c : ref) (w : Engine) : Prop := {
  lp_tidy : tidy n w;
  lp_block : (c < length (blockStore w))%nat;
  lp_paths : length (pathStore w) = length (pathStore w0);
  lp_main : mainPath w = mainPath w0;
  lp_work : (work w <= work w0)%nat;
  lp_frame : gen_frame w0 w
}.

Lemma looping_start n w c :
  tidy n w -> (c < length (blockStore w))%nat -> looping n w c w.
Proof. intros Ht Hc. by split. Qed.

Lemma looping_round n w0 c w r w' :
  looping n w0 c w ->
  tidy n w' /\ round_frame w w' /\ progress w w' r ->
  match r with
  | inl c' => looping n w0 c' w' /\ (walls w' < walls w)%nat
  | inr _ => passed n w0 w'
  end.
Proof.
  intros [Ht Hc Hlen Hmain Hwork Hf] (Ht' & Hr & Hwork' & Hprog).
  assert (Hf' : gen_frame w0 w') by (etrans; [exact Hf | by apply round_frame_gen]).
  destruct r as [c'|[]].
  - destruct Hprog as [Hc' Hlt]. split; [|done].
    split; try done.
    + by rewrite <- (Forall2_length _ _ _ (rf_pathStore _ _ Hr)).
    + by rewrite (rf_main _ _ Hr).
    + lia.
  - split; [done|]. split; [done|]. split; [lia|].
    by rewrite (rf_main _ _ Hr).
Qed.

Lemma walls_le_work w : (walls w <= work w)%nat.
Proof. unfold work. lia. Qed.

(** [makeSubPath(firstBlock)] ends, having made one path. *)
Lemma makeSubPath_total {D} n fuel b w :
  tidy n w -> (b < length (blockStore w))%nat ->
  D \/ (work w < fuel)%nat ->
  wpd D (makeSubPath fuel b) (fun _ w' => passed n w w') (fun _ => False) w.
Proof.
  intros Ht Hb Hfuel. unfold makeSubPath, newPath. wp_go.
  apply wpd_draw. intros o v. wp_go.
  set (p := length (pathStore w)).
  apply wpd_modifyPath_in; [simpl; rewrite length_app; simpl; lia|].
  intros pth Hpth. simpl in Hpth.
  rewrite lookup_app_r, Nat.sub_diag in Hpth by done. injection Hpth as <-.
  wp_step. apply wpd_modifyPath_in; [simpl; rewrite length_insert, length_app; simpl; lia|].
  intros pth Hpth. simpl in Hpth.
  rewrite list_lookup_insert_eq in Hpth by (rewrite length_app; simpl; lia).
  injection Hpth as <-.
  set (d := scaled o (numberOfRowBlocks w * 2)).
  set (w5 := set_pathStore _ _).
  assert (Hps5 : pathStore w5 = pathStore w ++ [mkPath [b] d]).
  { unfold w5, p. simpl. rewrite list_insert_insert_eq. by rewrite insert_snoc. }
  assert (Hf5 : gen_frame w w5).
  { split; try done.
    - rewrite Hps5, length_app. lia.
    - intros a arr Ha. exists arr. by split. }
  assert (Ht5 : tidy n w5).
  { apply (tidy_gen n w w5); try done; try apply Ht.
    - destruct (td_closed _ _ Ht) as [H1 H2 H3]. split; [done | | done].
      intros q pth. rewrite Hps5.
      intros [Hq|[_ Hq]]%lookup_app_Some; [by apply (H2 q)|].
      destruct (q - length (pathStore w))%nat; [|done].
      injection Hq as <-. split; [done|].
      intros x Hx%list_elem_of_singleton. by subst.
    - intros q. rewrite Hps5, length_app. simpl.
      intros [Hq|Hq%list_elem_of_singleton]%elem_of_app.
      + pose proof (td_registered _ _ Ht q Hq). lia.
      + subst q. unfold p. lia.
    - intros q Hq. rewrite Hps5, length_app.
      pose proof (td_main _ _ Ht q Hq). lia. }
  assert (Hp5 : passed n w w5).
  { split; [done|]. split; [done|]. split; [|done].
    change (work w5) with (work w). lia. }
  eapply wp_mono;
    [apply (wpd_while D fuel _ (looping n w5) (fun _ w' => walls w')
              (fun _ w' => passed n w5 w') (fun _ => False))
    | | done].
  - apply looping_start; [done | by rewrite (Forall2_length _ _ _ (gf_blocks _ _ Hf5)) in Hb].
  - destruct Hfuel as [?|Hfuel]; [by left | right].
    pose proof (walls_le_work w5). change (work w5) with (work w) in *. lia.
  - intros c w6 Hl. pose proof Hl as [Ht6 Hc6 Hlen6 _ _ _].
    eapply wp_mono; [apply (makeSubPath_round_total n p c w6) | | done]; try done.
    + rewrite Hlen6, Hps5, length_app. unfold p. simpl. lia.
    + intros r w7 H7. apply (looping_round n w5 c w6 r w7 Hl H7).
  - intros [] w6 Hp6. by apply (passed_trans n w w5 w6).
Qed.

(** The loop over [pathSeeds] ends, however many seeds the branches it
    grows push on the array it walks. *)
Lemma growSeeds_total {D} n fuel w :
  tidy n w -> D \/ (work w < fuel)%nat ->
  wpd D (growSeeds fuel) (fun _ w' => passed n w w') (fun _ => False) w.
Proof.
  intros Ht Hfuel. unfold growSeeds.
  eapply wp_mono;
    [apply (wpd_while D fuel _
              (fun (i : nat) w' => passed n w w')
              (fun i w' => (work w' - i)%nat)
              (fun _ w' => passed n w w')
              (fun _ => False))
    | | done].
  - by apply passed_refl.
  - destruct Hfuel as [?|?]; [by left | right; lia].
  - intros i w1 Hp1. pose proof Hp1 as (Ht1 & Hf1 & Hw1 & Hm1). wp_go.
    apply wpd_getArray_in; [apply Ht1|]. intros arr Harr.
    destruct (arr !! i) as [seed|] eqn:Hseed; [|by wp_step].
    pose proof (seeds_lookup _ _ _ Harr) as Hlen.
    pose proof (lookup_lt_Some _ _ _ Hseed) as Hi.
    wp_step. eapply wp_mono; [apply (makeSubPath_total n fuel seed w1) | | done].
    + done.
    + apply (cl_arrays _ (td_closed _ _ Ht1) (pathSeeds w1) arr); [done|].
      by eapply list_elem_of_lookup_2.
    + by eapply fuel_passed.
    + intros [] w2 Hp2. wp_step.
      split; [by apply (passed_trans n w w1 w2)|].
      destruct Hp2 as (_ & _ & Hw2 & _). unfold work in *. lia.
  - by intros [] w1 ?.
Qed.

(** [extendMainPath] ends. *)
Lemma extendMainPath_total {D} n fuel p w :
  tidy n w -> mainPath w = Some p -> D \/ (work w < fuel)%nat ->
  wpd D (extendMainPath fuel) (fun _ w' => passed n w w') (fun _ => False) w.
Proof.
  intros Ht Hmain Hfuel. pose proof (td_main _ _ Ht p Hmain) as Hp.
  unfold extendMainPath, theMainPath. wp_go. rewrite Hmain.
  wp_step; [|done]. injection H as <-.
  wp_step. apply wpd_getPath_in; [done|]. intros pth Hpth.
  destruct (cl_paths _ (td_closed _ _ Ht) p pth Hpth) as [Hne Hval].
  destruct (at_index_last_in _ Hne) as (c & Hc & Hcin).
  wp_step. rewrite Hc. wp_step; [|done]. injection H as <-.
  apply (wpd_while D fuel _ (looping n w) (fun _ w' => walls w')
           (fun _ w' => passed n w w') (fun _ => False)).
  - apply looping_start; [done | by apply Hval].
  - destruct Hfuel as [?|?]; [by left | right].
    pose proof (walls_le_work w). lia.
  - intros c' w1 Hl. pose proof Hl as [Ht1 Hc1 _ Hm1 _ _].
    eapply wp_mono; [apply (extendMainPath_round_total n p c' w1) | | done];
      try done.
    + by rewrite Hm1.
    + intros r w2 H2. apply (looping_round n w c' w1 r w2 Hl H2).
Qed.

(** Recomputing the neighbour list of any block there is, whether it is
    still in the grid or not. *)
Lemma getAdjacentBlocks_total {D} n b (Q : unit -> Engine -> Prop) E w :
  tidy n w -> (b < length (blockStore w))%nat ->
  (forall w', tidy n w' -> round_frame w w' -> walls w' = walls w ->
              seeds w' = seeds w -> Q tt w') ->
  wpd D (getAdjacentBlocks b) Q E w.
Proof.
  intros Ht Hb HQ. destruct (lookup_lt_is_Some_2 _ _ Hb) as [blk Hblk].
  pose proof (td_grid _ _ Ht) as [Hsu Hsh Hix].
  destruct (td_bounds _ _ Ht b blk Hblk) as [Hr Hk].
  apply (wpd_frame D round_frame); [apply round_getAdjacentBlocks|].
  eapply wp_mono; [apply (getAdjacentBlocks_spec n b blk w) | | done]; try done.
  intros [] w' -> Hf. apply HQ; [|done | |done].
  - apply (tidy_round n w); [done | | done].
    destruct (td_closed _ _ Ht) as [H1 H2 H3]. split.
    + intros c cblk x Hc Hx. simpl in *. rewrite length_insert.
      apply list_lookup_insert_Some in Hc as [(-> & <- & _)|[_ Hc]];
        [|by eapply H1].
      simpl in Hx. unfold neighbours in Hx.
      assert (Hcell : forall i k, cell w i k = Some x ->
                (x < length (blockStore w))%nat).
      { intros i k Hc. pose proof Hc as (row & Hi & Hk' & _)%cell_Some.
        destruct (Hix (Z.to_nat i) (Z.to_nat k) x) as (xblk & Hxblk & _).
        { by rewrite !Z2Nat.id by lia. }
        by eapply lookup_lt_Some. }
      repeat (apply elem_of_app in Hx as [Hx|Hx]);
        apply in_option_list in Hx;
        repeat match type of Hx with (if ?c then _ else _) = _ => destruct c end;
        try done; by eapply Hcell.
    + intros q pth Hq. simpl. rewrite length_insert. by apply (H2 q).
    + intros a arr x Ha Hx. simpl. rewrite length_insert. by eapply H3.
  - unfold walls. simpl.
    pose proof (wallsIn_insert _ b blk
                  (set_adjacentBlocks
                     (neighbours w (rowIndex blk) (blockIndex blk)) blk) Hblk) as H.
    simpl in H. lia.
Qed.

(** [extendPaths(thisPath)] ends. *)
Lemma extendPaths_total {D} n fuel p w :
  tidy n w -> (p < length (pathStore w))%nat -> D \/ (work w < fuel)%nat ->
  wpd D (extendPaths fuel p)
    (fun _ w' => passed n w w' /\ length (pathStore w') = length (pathStore w))
    (fun _ => False) w.
Proof.
  intros Ht Hp Hfuel. unfold extendPaths.
  wp_step. apply wpd_getPath_in; [done|]. intros pth Hpth.
  destruct (cl_paths _ (td_closed _ _ Ht) p pth Hpth) as [Hne Hval].
  destruct (at_index_last_in _ Hne) as (c & Hc & Hcin).
  wp_step. rewrite Hc. wp_step; [|done]. injection H as <-.
  wp_step. apply (getAdjacentBlocks_total n); [done | by apply Hval |].
  intros w1 Ht1 Hr1 Hw1 Hs1.
  pose proof (Forall2_length _ _ _ (rf_blocks _ _ Hr1)) as Hlb.
  pose proof (Forall2_length _ _ _ (rf_pathStore _ _ Hr1)) as Hlp.
  assert (Hp1 : passed n w w1).
  { split; [done|]. split; [by apply round_frame_gen|].
    split; [unfold work; lia | apply Hr1]. }
  eapply wp_mono;
    [apply (wpd_while D fuel _
              (fun c' w' => looping n w1 c' w')
              (fun _ w' => walls w')
              (fun _ w' => passed n w1 w' /\
                           length (pathStore w') = length (pathStore w1))
              (fun _ => False))
    | | done].
  - apply looping_start; [done|]. rewrite <- Hlb. by apply Hval.
  - destruct Hfuel as [?|?]; [by left | right].
    pose proof (walls_le_work w). lia.
  - intros c' w2 Hl. pose proof Hl as [Ht2 Hc2 Hl2 _ _ _].
    eapply wp_mono; [apply (extendPaths_round_total n p c' w2) | | done];
      try done.
    + by rewrite Hl2, <- Hlp.
    + intros r w3 H3. pose proof (looping_round n w1 c' w2 r w3 Hl H3) as H.
      destruct r as [c3|[]]; [done|]. split; [done|].
      destruct H3 as (_ & Hr & _).
      by rewrite <- (Forall2_length _ _ _ (rf_pathStore _ _ Hr)).
  - intros [] w2 [Hp2 Hl2]. split; [by apply (passed_trans n w w1 w2)|].
    by rewrite Hl2, <- Hlp.
Qed.

(** ** The first pass: [makePath] *)

(** Every floor block of [w'] lies below the top row, or was a floor
    block of [w] already, in a row that is not below the one it is in
    now. *)
Definition floors_from (w w' : Engine) : Prop :=
  forall b blk', blockStore w' !! b = Some blk' -> isWall blk' = false ->
    1 <= rowIndex blk' \/
    exists blk, blockStore w !! b = Some blk /\ isWall blk = false /\
                rowIndex blk <= rowIndex blk'.


Lemma Forall2_insert2 {A} (R : A -> A -> Prop) `{!PreOrder R} (l : list A)
    i j x y x' y' :
  l !! i = Some x -> <[i:=x']> l !! j = Some y -> R x x' -> R y y' ->
  Forall2 R l (<[j:=y']> (<[i:=x']> l)).
Proof.
  intros Hi Hj Hx Hy.
  apply (Forall2_trans R R R _ (<[i:=x']> l)).
  - intros a b c ? ?. by etrans.
  - eapply Forall2_insert_r; [apply _ | exact Hi | exact Hx].
  - eapply Forall2_insert_r; [apply _ | exact Hj | exact Hy].
Qed.

#[export] Instance same_adjacent_preorder :
  PreOrder (fun b b' : Block => adjacentBlocks b' = adjacentBlocks b).
Proof. split; [done | intros x y z Hxy Hyz; by rewrite Hyz]. Qed.

(** [makePath] up to its [while] loop never fails on a grid of width 3
    or more: the main Path holds a block of the bottom row, which is not
    in column 0, and the block above it. *)
Lemma makePath_trunk_init {D} n fuel w (Q : unit -> Engine -> Prop) E :
  tidy n w ->
  (forall p cb1 cb2 k d w6,
     tidy n w6 -> gen_frame w w6 -> (work w6 <= work w)%nat ->
     p = length (pathStore w) ->
     mainPath w6 = Some p ->
     pathStore w6 !! p = Some (mkPath [cb1; cb2] d) ->
     cell w6 (3 * n) k = Some cb1 -> cell w6 (3 * n - 1) k = Some cb2 ->
     1 <= k -> floors_from w w6 ->
     wpd D (while fuel makePath_round cb2) Q E w6) ->
  wpd D (makePath_trunk fuel) Q E w.
Proof.
  intros Ht Hrest. pose proof (td_grid _ _ Ht) as Hgrid.
  pose proof (td_width _ _ Ht) as Hn.
  destruct Hgrid as [Hsu [Hrows Hcols] Hix].
  assert (HL : Z.of_nat (length (maze w)) = 3 * n + 1).
  { rewrite Hrows. unfold rowCount. lia. }
  unfold makePath_trunk, newPath.
  wp_go. set (p := length (pathStore w)).
  apply wpd_modifyPath_in; [simpl; rewrite length_app; simpl; lia|].
  intros pth Hpth. simpl in Hpth.
  rewrite list_lookup_middle in Hpth by done. injection Hpth as <-.
  unfold newArray. wp_go.
  apply wpd_draw. intros o v.
  (* the bottom row *)
  destruct (lookup_lt_is_Some_2 (maze w) (length (maze w) - 1)) as [bottom Hbottom];
    [lia|].
  wp_step. simpl.
  replace (Z.of_nat (length (maze w)) - 1) with (Z.of_nat (length (maze w) - 1)) by lia.
  apply (wp_rowAt _ bottom); [done|].
  assert (Hlb : Z.of_nat (length bottom) = n - 1).
  { rewrite Forall_lookup in Hcols. rewrite (Hcols _ _ Hbottom).
    unfold rowWidth. lia. }
  set (idx := scaled o (Z.of_nat (length bottom) - 1) + 1).
  assert (Hidx : 1 <= idx <= n - 2).
  { unfold idx. pose proof (scaled_range o (Z.of_nat (length bottom) - 1)). lia. }
  destruct (lookup_lt_is_Some_2 bottom (Z.to_nat idx)) as [cb1 Hcb1]; [lia|].
  assert (Hat1 : at_index bottom idx = Some cb1).
  { unfold at_index. by destruct (Z.ltb_spec idx 0); [lia|]. }
  wp_step. rewrite Hat1. wp_step; [|done]. injection H as <-.
  assert (Hc1 : cell w (3 * n) idx = Some cb1).
  { replace (3 * n) with (Z.of_nat (length (maze w) - 1)) by lia.
    rewrite <- (Z2Nat.id idx) by lia. by eapply cell_lookup. }
  destruct (Hix (Z.to_nat (3 * n)) (Z.to_nat idx) cb1) as (blk1 & Hblk1 & Hr1 & Hk1).
  { by rewrite !Z2Nat.id by lia. }
  wp_step. apply wpd_modifyBlock_in; [by eapply lookup_lt_Some|].
  intros blk Hblk. simpl in Hblk. rewrite Hblk1 in Hblk. injection Hblk as <-.
  wp_step. apply wpd_modifyPath_in;
    [simpl; rewrite length_insert, length_app; simpl; lia|].
  intros pth Hpth. simpl in Hpth.
  rewrite list_lookup_insert_eq in Hpth by (rewrite length_app; simpl; lia).
  injection Hpth as <-.
  (* the block above it *)
  destruct (shape_cell n w (3 * n - 1) idx) as [cb2 Hc2];
    [by split | unfold rowCount; lia | unfold rowWidth; lia|].
  wp_step. simpl.
  replace (Z.of_nat (length (maze w)) - 2) with (3 * n - 1) by lia.
  apply (wp_cellAt _ _ cb2); [done|].
  destruct (Hix (Z.to_nat (3 * n - 1)) (Z.to_nat idx) cb2)
    as (blk2 & Hblk2 & Hr2 & Hk2).
  { by rewrite !Z2Nat.id by lia. }
  assert (Hne : cb2 <> cb1).
  { intros ->. rewrite Hblk1 in Hblk2. injection Hblk2 as <-.
    rewrite !Z2Nat.id in Hr1, Hr2 by lia. lia. }
  wp_step. apply wpd_modifyBlock_in; [simpl; rewrite length_insert; by eapply lookup_lt_Some|].
  intros blk Hblk. simpl in Hblk.
  rewrite list_lookup_insert_ne in Hblk by done.
  rewrite Hblk2 in Hblk. injection Hblk as <-.
  wp_step. apply wpd_modifyPath_in;
    [simpl; rewrite !length_insert, length_app; simpl; lia|].
  intros pth Hpth. simpl in Hpth.
  rewrite list_lookup_insert_eq in Hpth
    by (rewrite length_insert, length_app; simpl; lia).
  injection Hpth as <-.
  set (d := numberOfRowBlocks w * 20).
  set (w6 := set_pathStore _ _).
  assert (Hbs6 : blockStore w6 =
                 <[cb2:=set_isWall false blk2]> (<[cb1:=set_isWall false blk1]> (blockStore w)))
    by done.
  assert (Hps6 : pathStore w6 = pathStore w ++ [mkPath [cb1; cb2] d]).
  { unfold w6, p. simpl. rewrite !list_insert_insert_eq. by rewrite insert_snoc. }
  assert (Has6 : arrayStore w6 = arrayStore w ++ [[]]) by done.
  assert (Hblk2' : <[cb1:=set_isWall false blk1]> (blockStore w) !! cb2 = Some blk2)
    by (by rewrite list_lookup_insert_ne).
  assert (Hlen6 : length (blockStore w6) = length (blockStore w))
    by (by rewrite Hbs6, !length_insert).
  assert (Hf6 : gen_frame w w6).
  { split; try done.
    - rewrite Hbs6.
      apply (Forall2_insert2 carved _ cb1 cb2 blk1 blk2);
        [done | done | apply carved_set_isWall..].
    - rewrite Hps6, length_app. lia.
    - intros a arr Ha. exists arr. split; [|done].
      rewrite Has6. by apply lookup_app_l_Some. }
  assert (Ht6 : tidy n w6).
  { apply (tidy_gen n w w6); try done.
    - destruct (td_closed _ _ Ht) as [H1 H2 H3]. split.
      + intros b blk x Hb Hx. rewrite Hlen6.
        assert (Hadj : Forall2 (fun b b' => adjacentBlocks b' = adjacentBlocks b)
                  (blockStore w) (blockStore w6)).
        { rewrite Hbs6.
          by apply (Forall2_insert2 _ _ cb1 cb2 blk1 blk2). }
        destruct (Forall2_lookup_r _ _ _ _ _ Hadj Hb) as (blk0 & Hblk0 & Heq).
        rewrite Heq in Hx. by eapply H1.
      + intros q pth. rewrite Hps6, Hlen6.
        intros [Hq|[_ Hq]]%lookup_app_Some; [by apply (H2 q)|].
        destruct (q - length (pathStore w))%nat; [|done].
        injection Hq as <-. split; [done|]. simpl.
        intros x [->|Hx%list_elem_of_singleton]%elem_of_cons;
          [|subst x]; by eapply lookup_lt_Some.
      + intros a arr x. rewrite Has6, Hlen6.
        intros [Ha|[_ Ha]]%lookup_app_Some Hx; [by eapply H3|].
        destruct (a - length (arrayStore w))%nat; [|done].
        injection Ha as <-. by apply elem_of_nil in Hx.
    - intros q. rewrite Hps6, length_app. simpl.
      intros [Hq|Hq%list_elem_of_singleton]%elem_of_app.
      + pose proof (td_registered _ _ Ht q Hq). lia.
      + subst q. unfold p. lia.
    - intros q. rewrite Hps6, length_app. simpl. intros [= <-]. unfold p. lia.
    - rewrite Has6, length_app. simpl. lia.
    - rewrite Has6, length_app. pose proof (td_secondSeeds _ _ Ht). simpl. lia. }
  apply (Hrest p cb1 cb2 idx d w6); try done.
  - unfold work, seeds. rewrite Has6, concat_app. simpl. rewrite app_nil_r.
    apply Nat.add_le_mono_r. apply walls_carved, Hf6.
  - rewrite Hps6. unfold p. by rewrite list_lookup_middle.
  - lia.
  - intros b blk' Hb Hw. rewrite Hbs6 in Hb.
    apply list_lookup_insert_Some in Hb as [(-> & <- & _)|[_ Hb]];
      [left; simpl; lia|].
    apply list_lookup_insert_Some in Hb as [(-> & <- & _)|[_ Hb]];
      [left; simpl; lia|].
    right. exists blk'. split; [done|]. split; [done | lia].
Qed.

Lemma grid_ok_stores n w w' :
  numberOfRowBlocks w' = numberOfRowBlocks w ->
  numberOfRowPoints w' = numberOfRowPoints w ->
  pointGrid w' = pointGrid w ->
  maze w' = maze w -> blockStore w' = blockStore w ->
  grid_ok n w -> grid_ok n w'.
Proof.
  intros Hn Hnp Hpg Hm Hb [[] [] Hix]. split.
  - split; congruence.
  - unfold shape. by rewrite Hm.
  - intros i k b. unfold cell. rewrite Hm, Hb. apply Hix.
Qed.

(** Changes to the globals that name paths and arrays, and new empty
    arrays, keep the engine tidy. *)
Lemma tidy_stores n w w' k :
  numberOfRowBlocks w' = numberOfRowBlocks w ->
  numberOfRowPoints w' = numberOfRowPoints w ->
  pointGrid w' = pointGrid w ->
  maze w' = maze w -> blockStore w' = blockStore w ->
  pathStore w' = pathStore w ->
  arrayStore w' = arrayStore w ++ replicate k [] ->
  mainPath w' = mainPath w ->
  paths w' ⊆ paths w ->
  (pathSeeds w' < length (arrayStore w'))%nat ->
  (secondSeeds w' < length (arrayStore w'))%nat ->
  tidy n w -> tidy n w'.
Proof.
  intros Hn Hnp Hpg Hm Hb Hp Ha Hmain Hpaths Hps Hss
    [Hg Hw Hbd [H1 H2 H3] Hreg Hmn _ _].
  split; try done.
  - by apply (grid_ok_stores n w).
  - intros b blk. rewrite Hb. apply Hbd.
  - split.
    + intros b blk x. rewrite Hb. apply H1.
    + intros p pth. rewrite Hp, Hb. apply H2.
    + intros a arr x. rewrite Ha, Hb.
      intros [Harr|[_ Harr]]%lookup_app_Some Hx; [by eapply H3|].
      apply lookup_replicate in Harr as [-> _]. by apply elem_of_nil in Hx.
  - intros p Hpin. rewrite Hp. by apply Hreg, Hpaths.
  - intros p. rewrite Hmain, Hp. apply Hmn.
Qed.

Lemma work_stores w w' k :
  blockStore w' = blockStore w ->
  arrayStore w' = arrayStore w ++ replicate k [] ->
  work w' = work w.
Proof.
  intros Hb Ha. unfold work, walls, seeds. rewrite Hb, Ha, concat_app, length_app.
  assert (Hnil : forall j, concat (replicate j (@nil ref)) = []).
  { intros j. induction j as [|j IH]; [done | simpl; exact IH]. }
  rewrite Hnil. simpl. lia.
Qed.

Lemma gen_frame_stores w w' k :
  numberOfRowBlocks w' = numberOfRowBlocks w ->
  numberOfRowPoints w' = numberOfRowPoints w ->
  pointGrid w' = pointGrid w ->
  maze w' = maze w -> character w' = character w ->
  blockStore w' = blockStore w ->
  pathStore w' = pathStore w ->
  arrayStore w' = arrayStore w ++ replicate k [] ->
  gen_frame w w'.
Proof.
  intros Hn Hnp Hpg Hm Hc Hb Hp Ha. split; try done.
  - by apply gen_frame_refl_blocks.
  - by rewrite Hp.
  - intros a arr Harr. exists arr. split; [|done].
    rewrite Ha. by apply lookup_app_l_Some.
Qed.

Lemma passed_stores n w w' k :
  numberOfRowBlocks w' = numberOfRowBlocks w ->
  numberOfRowPoints w' = numberOfRowPoints w ->
  pointGrid w' = pointGrid w ->
  maze w' = maze w -> character w' = character w ->
  blockStore w' = blockStore w ->
  pathStore w' = pathStore w ->
  arrayStore w' = arrayStore w ++ replicate k [] ->
  mainPath w' = mainPath w ->
  paths w' ⊆ paths w ->
  (pathSeeds w' < length (arrayStore w'))%nat ->
  (secondSeeds w' < length (arrayStore w'))%nat ->
  tidy n w -> passed n w w'.
Proof.
  intros. split; [by eapply (tidy_stores n w w' k)|].
  split; [by eapply (gen_frame_stores w w' k)|].
  split; [by rewrite (work_stores w w' k) | done].
Qed.

Lemma splicePaths_total {D} n w :
  tidy n w -> wpd D splicePaths (fun _ w' => passed n w w') (fun _ => False) w.
Proof.
  intros Ht. unfold wpd. rewrite splicePaths_run.
  apply (passed_stores n w _ 0); try done.
  - simpl. by rewrite app_nil_r.
  - simpl. apply sublist_subseteq, spliceAll_sublist.
  - apply Ht.
  - apply Ht.
Qed.

Lemma shareSecondSeeds_total {D} n w :
  tidy n w -> wpd D shareSecondSeeds (fun _ w' => passed n w w') (fun _ => False) w.
Proof.
  intros Ht. unfold shareSecondSeeds. wp_go.
  apply (passed_stores n w _ 0); try done.
  - simpl. by rewrite app_nil_r.
  - apply Ht.
  - apply Ht.
Qed.

Lemma clearSeeds_total {D} n w :
  tidy n w -> wpd D clearSeeds (fun _ w' => passed n w w') (fun _ => False) w.
Proof.
  intros Ht. unfold clearSeeds, newArray. wp_go.
  apply (passed_stores n w _ 2); try done.
  - simpl. by rewrite <- app_assoc.
  - simpl. rewrite !length_app. simpl. lia.
  - simpl. rewrite !length_app. simpl. lia.
Qed.

(** Running a pass after another. *)
Lemma wpd_pass {D A} n fuel (m : M A) w0 w (Q : A -> Engine -> Prop) :
  passed n w0 w -> D \/ (work w0 < fuel)%nat ->
  (tidy n w -> D \/ (work w < fuel)%nat ->
   wpd D m (fun _ w' => passed n w w') (fun _ => False) w) ->
  (forall a w', passed n w0 w' -> D \/ (work w' < fuel)%nat -> Q a w') ->
  wpd D m Q (fun _ => False) w.
Proof.
  intros Hp Hfuel Hm HQ.
  pose proof (fuel_passed _ _ _ _ _ Hp Hfuel) as Hfuel'.
  eapply wp_mono; [apply Hm; [apply Hp | done] | | done].
  intros a w' Hp'. cbv beta.
  assert (Hp0 : passed n w0 w') by (by apply (passed_trans n w0 w w')).
  apply HQ; [done|]. by eapply fuel_passed.
Qed.

(** [makePath] runs to its end on a grid of width 3 or more. *)
Lemma makePath_total {D} n fuel w :
  tidy n w -> D \/ (work w < fuel)%nat ->
  wpd D (makePath fuel)
    (fun _ w' => tidy n w' /\ gen_frame w w' /\ (work w' <= work w)%nat /\
                 mainPath w' = Some (length (pathStore w)))
    (fun _ => False) w.
Proof.
  intros Ht Hfuel. unfold makePath.
  wp_step. apply (makePath_trunk_init n); [done|].
  intros p cb1 cb2 k d w1 Ht1 Hf1 Hw1 -> Hmain1 Hpth1 _ _ _ _.
  eapply wp_mono;
    [apply (wpd_while D fuel _ (looping n w1) (fun _ w' => walls w')
              (fun _ w' => passed n w1 w') (fun _ => False))
    | | done].
  { apply looping_start; [done|].
    apply (cl_paths _ (td_closed _ _ Ht1) _ _ Hpth1). right. by left. }
  { destruct Hfuel as [?|?]; [by left | right].
    pose proof (walls_le_work w1). lia. }
  { intros c w2 Hl. pose proof Hl as [Ht2 Hc2 _ Hm2 _ _].
    eapply wp_mono;
      [apply (makePath_round_total n (length (pathStore w)) c w2) | | done];
      try done.
    - by rewrite Hm2.
    - intros r w3 H3. apply (looping_round n w1 c w2 r w3 Hl H3). }
  intros [] w2 Hp2. cbv beta.
  assert (Hfuel1 : D \/ (work w1 < fuel)%nat).
  { destruct Hfuel as [?|?]; [by left | right; lia]. }
  wp_step. apply (wpd_pass n fuel _ w1 w2); [done | done | by apply growSeeds_total |].
  intros [] w3 Hp3 Hfuel3.
  wp_step. apply (wpd_pass n fuel _ w1 w3);
    [done | done | intros; by apply shareSecondSeeds_total |].
  intros [] w4 Hp4 Hfuel4.
  wp_step. apply (wpd_pass n fuel _ w1 w4); [done | done | by apply growSeeds_total |].
  intros [] w5 Hp5 Hfuel5.
  wp_step. apply (wpd_pass n fuel _ w1 w5);
    [done | done | intros; by apply splicePaths_total |].
  intros [] w6 Hp6 Hfuel6.
  wp_step. apply (wpd_pass n fuel _ w1 w6);
    [done | done | intros; by apply clearSeeds_total |].
  intros [] w7 Hp7 Hfuel7.
  wp_step.
  assert (Hp8 : passed n w7 (set_pathsToSplice [] w7)).
  { apply (passed_stores n w7 _ 0); try done; try apply Hp7.
    simpl. by rewrite app_nil_r. }
  destruct (passed_trans n w1 w7 _ Hp7 Hp8) as (Ht8 & Hf8 & Hw8 & Hm8).
  split; [done|]. split; [by etrans|]. split; [lia | congruence].
Qed.

(** [shiftPaths] runs to its end. *)
Lemma shiftPaths_total {D} n fuel p w :
  tidy n w -> mainPath w = Some p -> D \/ (work w < fuel)%nat ->
  wpd D (shiftPaths fuel) (fun _ w' => passed n w w') (fun _ => False) w.
Proof.
  intros Ht Hmain Hfuel. unfold shiftPaths.
  wp_step. apply (wpd_pass n fuel _ w w);
    [by apply passed_refl | done | intros; by apply splicePaths_total |].
  intros [] w1 Hp1 Hfuel1.
  wp_step. wp_step.
  assert (Hp2 : passed n w (set_pathsToSplice [] w1)).
  { apply (passed_trans n w w1); [done|].
    apply (passed_stores n w1 _ 0); try done; try apply Hp1.
    simpl. by rewrite app_nil_r. }
  set (w2 := set_pathsToSplice [] w1) in *.
  assert (Hfuel2 : D \/ (work w2 < fuel)%nat) by (by eapply fuel_passed).
  wp_step. apply (wpd_pass n fuel _ w w2); [done | done | |].
  { intros Ht2 _. apply (extendMainPath_total n fuel p); [done | | done].
    destruct Hp2 as (_ & _ & _ & ->). done. }
  intros [] w3 Hp3 Hfuel3.
  wp_step. apply (wpd_pass n fuel _ w w3); [done | done | by apply growSeeds_total |].
  intros [] w4 Hp4 Hfuel4.
  unfold newArray. wp_go.
  set (w5 := set_pathSeeds _ _).
  assert (Hp5 : passed n w w5).
  { apply (passed_trans n w w4); [done|].
    apply (passed_stores n w4 _ 1); try done; try apply Hp4.
    - unfold w5. simpl. rewrite length_app. simpl. lia.
    - unfold w5. simpl. rewrite length_app.
      pose proof (td_secondSeeds _ _ (proj1 Hp4)). simpl. lia. }
  assert (Hfuel5 : D \/ (work w5 < fuel)%nat) by (by eapply fuel_passed).
  eapply wp_mono;
    [apply (wp_forEach _ _
              (fun w' => passed n w w' /\
                         length (pathStore w') = length (pathStore w5))
              (fun _ => False)) | | done].
  { by split. }
  { intros q w6 Hq [Hp6 Hl6].
    assert (Hqv : (q < length (pathStore w6))%nat).
    { rewrite Hl6. apply (td_registered _ _ (proj1 Hp5)).
      by apply (subseteq_drop 1). }
    wp_step. eapply wp_mono;
      [apply (extendPaths_total n fuel q w6) | | done];
      [apply Hp6 | done | by eapply fuel_passed |].
    intros [] w7 [Hp7 Hl7]. cbv beta.
    assert (Hp7' : passed n w w7) by (by apply (passed_trans n w w6 w7)).
    wp_step. apply wpd_getPath_in; [by rewrite Hl7|]. intros pth Hpth.
    match goal with |- wpd _ (if ?c then _ else _) _ _ _ => destruct c end.
    - wp_step. split; [|simpl; by rewrite Hl7].
      apply (passed_trans n w w7); [done|].
      apply (passed_stores n w7 _ 0); try done; try apply Hp7.
      simpl. by rewrite app_nil_r.
    - wp_step. split; [done | by rewrite Hl7]. }
  intros [] w6 [Hp6 _]. cbv beta.
  assert (Hfuel6 : D \/ (work w6 < fuel)%nat) by (by eapply fuel_passed).
  wp_step. apply (wpd_pass n fuel _ w w6);
    [done | done | intros; by apply shareSecondSeeds_total |].
  intros [] w7 Hp7 Hfuel7.
  wp_step. apply (wpd_pass n fuel _ w w7); [done | done | by apply growSeeds_total |].
  intros [] w8 Hp8 Hfuel8.
  apply (wpd_pass n fuel _ w w8); [done | done | intros; by apply clearSeeds_total |].
  by intros [] w9 Hp9 _.
Qed.

(** ** The grid part of [shiftMaze] keeps the engine tidy *)

(** The Block objects while the grid is shifted, [w0] being the engine
    before the shift: no block has indices outside the grid, no neighbour
    list refers to a block that does not exist, and the walls there are
    beyond those of [w0] are new blocks. *)
Record stored (n : Z) (w0 w : Engine) : Prop := {
  st_bounds : forall b blk, blockStore w !! b = Some blk -> inBounds n blk;
  st_adjacent : forall b blk x,
    blockStore w !! b = Some blk -> x ∈ adjacentBlocks blk ->
    (x < length (blockStore w))%nat;
  st_length : (length (blockStore w0) <= length (blockStore w))%nat;
  st_walls :
    (walls w + length (blockStore w0) <= walls w0 + length (blockStore w))%nat
}.

Lemma stored_start n w : tidy n w -> stored n w w.
Proof.
  intros Ht. split; [apply Ht | apply (td_closed _ _ Ht) | done | lia].
Qed.

(** A change to the blocks there are that keeps each within the grid,
    with a neighbour list it had or an empty one, and makes no wall. *)
Lemma stored_blocks n w0 w w' :
  Forall2 (fun b b' => inBounds n b' /\
             (adjacentBlocks b' = adjacentBlocks b \/ adjacentBlocks b' = []) /\
             (isWall b = false -> isWall b' = false))
    (blockStore w) (blockStore w') ->
  stored n w0 w -> stored n w0 w'.
Proof.
  intros Hb [H1 H2 H3 H4].
  pose proof (Forall2_length _ _ _ Hb) as Hlen.
  split.
  - intros b blk' Hblk'.
    by destruct (Forall2_lookup_r _ _ _ _ _ Hb Hblk') as (blk & _ & ? & _).
  - intros b blk' x Hblk' Hx.
    destruct (Forall2_lookup_r _ _ _ _ _ Hb Hblk') as (blk & Hblk & _ & Hadj & _).
    rewrite <- Hlen. destruct Hadj as [Hadj|Hadj]; rewrite Hadj in Hx.
    + by eapply H2.
    + by apply elem_of_nil in Hx.
  - by rewrite <- Hlen.
  - rewrite <- Hlen.
    assert (walls w' <= walls w)%nat; [|lia].
    apply wallsIn_Forall2. eapply Forall2_impl; [exact Hb|].
    by intros b b' (_ & _ & ?).
Qed.

Lemma stored_clear {D} n w0 (l : list ref) w :
  stored n w0 w ->
  wpd D (forEach l (fun b => modifyBlock b (set_adjacentBlocks [])))
    (fun _ w' => stored n w0 w') (fun _ => True) w.
Proof.
  intros Hs. apply (wp_forEach l _ (fun w' => stored n w0 w')); [done|].
  intros b w1 _ Hs1. apply wp_modifyBlock; [|done]. intros blk Hblk.
  apply (stored_blocks n w0 w1); [|done]. simpl.
  apply Forall2_same_length_lookup_2; [by rewrite length_insert|].
  intros i x y Hx Hy.
  apply list_lookup_insert_Some in Hy as [(-> & <- & _)|[_ Hy]].
  - rewrite Hblk in Hx. injection Hx as <-.
    split; [exact (st_bounds _ _ _ Hs1 i blk Hblk)|]. split; [by right | done].
  - rewrite Hx in Hy. injection Hy as <-.
    split; [exact (st_bounds _ _ _ Hs1 i x Hx)|]. split; [by left | done].
Qed.

Lemma stored_round {D} n w0 w j w1 :
  grid_ok n w -> (1 <= j < length (maze w))%nat ->
  shifting n w (S j) w1 -> stored n w0 w1 ->
  wpd D
    (above <- rowAt (Z.of_nat j - 1) ;;
     modify (fun w0 => set_maze (js_set (Z.to_nat (Z.of_nat j)) above (maze w0)) w0) ;;
     forEach above moveBlockDown)
    (fun _ w' => stored n w0 w') (fun _ => True) w1.
Proof.
  intros Hok Hj Hs Hst.
  pose proof (shifting_length _ _ _ _ Hs) as Hlen.
  destruct (lookup_lt_is_Some_2 (maze w) (j - 1)) as [above Habove]; [lia|].
  assert (Habove1 : maze w1 !! (j - 1)%nat = Some above).
  { rewrite (sh_maze _ _ _ _ Hs). by rewrite decide_True by lia. }
  replace (Z.of_nat j - 1) with (Z.of_nat (j - 1)) by lia.
  wp_step. apply (wp_rowAt (j - 1) above); [done|].
  wp_step. wp_step.
  set (w2 := set_maze _ w1).
  assert (Hin : forall b, b ∈ above ->
            exists c, cell w (Z.of_nat (j - 1)) (Z.of_nat c) = Some b).
  { intros b [c Hc]%list_elem_of_lookup. exists c. by eapply cell_lookup. }
  eapply wp_mono; [apply (lower_list above w2) | | done].
  - eapply indexed_row_NoDup; [apply Hok | done].
  - intros b [c Hc]%Hin.
    destruct (sh_blocks _ _ _ _ Hs _ _ _ Hc) as (blk & Hblk & _). by exists blk.
  - intros _ w3 (_ & _ & Hl & Hbs). cbv beta.
    apply (stored_blocks n w0 w1); [|done].
    apply Forall2_same_length_lookup_2; [done|].
    intros b blk blk' Hblk Hblk'.
    rewrite (Hbs b blk Hblk) in Hblk'. injection Hblk' as <-.
    destruct (decide (b ∈ above)) as [Hb|Hb].
    + destruct (Hin b Hb) as [c Hc].
      destruct (sh_blocks _ _ _ _ Hs _ _ _ Hc) as (blk1 & Hblk1 & Hbi & Hri).
      rewrite Hblk in Hblk1. injection Hblk1 as <-.
      rewrite decide_False in Hri by lia.
      pose proof (st_bounds _ _ _ Hst b blk Hblk) as [Hr Hk].
      split; [|split; [by left | done]].
      split; [|done]. simpl. rewrite Hri.
      assert (length (maze w) = rowCount n) by apply Hok. lia.
    + split; [by apply (st_bounds _ _ _ Hst b)|]. split; [by left | done].
Qed.

Lemma wpd_total_and {A} D (m : M A) (Q1 Q2 : A -> Engine -> Prop) w :
  wpd D m Q1 (fun _ => False) w -> wpd D m Q2 (fun _ => True) w ->
  wpd D m (fun a w' => Q1 a w' /\ Q2 a w') (fun _ => False) w.
Proof. unfold wpd. destruct (m w) as [[a| |] w']; auto. Qed.

Lemma stored_reset n w0 w w' :
  grid_ok n w' -> round_frame w w' -> wiredFrom 1 w' ->
  (forall c, (forall i k, (1 <= i)%nat ->
                cell w (Z.of_nat i) (Z.of_nat k) <> Some c) ->
             blockStore w' !! c = blockStore w !! c) ->
  stored n w0 w -> stored n w0 w'.
Proof.
  intros Hok Hr Hwired Hun [H1 H2 H3 H4].
  pose proof (Forall2_length _ _ _ (rf_blocks _ _ Hr)) as Hlen.
  split.
  - intros b blk' Hblk'.
    destruct (Forall2_lookup_r _ _ _ _ _ (rf_blocks _ _ Hr) Hblk')
      as (blk & Hblk & (Hri & Hbi & _)).
    unfold inBounds. rewrite Hri, Hbi. by apply (H1 b).
  - intros b blk' x Hblk' Hx.
    destruct (decide (b ∈ concat (drop 1 (maze w')))) as [Hin|Hout].
    + apply elem_of_concat in Hin as (row & Hb & Hrow).
      apply list_elem_of_lookup in Hrow as [i Hi].
      apply list_elem_of_lookup in Hb as [k Hk].
      rewrite lookup_drop in Hi.
      assert (Hc : cell w' (Z.of_nat (1 + i)) (Z.of_nat k) = Some b)
        by (by eapply cell_lookup).
      rewrite (Hwired (1 + i)%nat k b ltac:(lia) Hc blk' Hblk') in Hx.
      destruct (neighbours_stepApart w' _ _ x (gk_indexed _ _ Hok) Hx)
        as (xblk & Hxblk & _).
      by eapply lookup_lt_Some.
    + rewrite Hun in Hblk'.
      * rewrite <- Hlen. by eapply H2.
      * intros i k Hi Hc. apply Hout.
        rewrite <- (cell_frame w w') in Hc by apply Hr.
        apply cell_Some in Hc as (row & _ & _ & Hrow & Hb).
        rewrite !Nat2Z.id in Hrow, Hb.
        apply elem_of_concat. exists row. split; [by eapply list_elem_of_lookup_2|].
        apply list_elem_of_lookup. exists (i - 1)%nat.
        rewrite lookup_drop. by replace (1 + (i - 1))%nat with i by lia.
  - by rewrite <- Hlen.
  - rewrite <- Hlen. pose proof (walls_carved _ _ (rf_blocks _ _ Hr)). lia.
Qed.

(** The Block objects after the grid part of [shiftMaze]. *)
Lemma shiftGrid_stored {D} n w :
  tidy n w ->
  wpd D shiftGrid
    (fun _ w' => stored n w w' /\
       length (blockStore w') = (length (blockStore w) + rowWidth n)%nat)
    (fun _ => False) w.
Proof.
  intros Ht. pose proof (td_grid _ _ Ht) as Hok.
  pose proof (td_width _ _ Ht) as Hn.
  assert (HL : length (maze w) = rowCount n) by apply Hok.
  assert (HL1 : (1 <= length (maze w))%nat) by (unfold rowCount in HL; lia).
  destruct (lookup_lt_is_Some_2 (maze w) (length (maze w) - 1)) as [bottom Hbottom];
    [lia|].
  unfold shiftGrid. wp_step. wp_step. wp_step.
  replace (Z.of_nat (length (maze w)) - 1) with (Z.of_nat (length (maze w) - 1)) by lia.
  apply (wp_rowAt _ bottom); [done|].
  (* the ties of the bottom row *)
  wp_step. eapply wp_mono;
    [apply wpd_total_and;
       [apply (clear_list bottom w) | apply (stored_clear n w bottom w)] | | done].
  { intros b Hb.
    destruct (grid_ok_block n w b Hok) as (blk & Hblk & _); [|by exists blk].
    apply elem_of_concat. exists bottom.
    split; [done | by eapply list_elem_of_lookup_2]. }
  { by apply stored_start. }
  intros ? w1 [[Hr1 Hg1] Hst1]. cbv beta.
  assert (Hok1 : grid_ok n w1) by (by eapply grid_ok_round).
  assert (Hm1 : maze w1 = maze w) by apply Hr1.
  (* the rows move down *)
  wp_step. eapply wp_mono;
    [apply (wp_downto _ _ (fun j w2 => shifting n w1 j w2 /\ stored n w w2)
              (fun _ => False)) | | done].
  { split; [|done]. rewrite <- Hm1. by apply shifting_start. }
  { intros j w2 Hj [Hs Hst]. apply wpd_total_and.
    - apply (shifting_round n w1 j w2 Hok1); [|done]. rewrite Hm1. lia.
    - apply (stored_round n w w1 j w2 Hok1); [|done | done]. rewrite Hm1. lia. }
  intros ? w2 [Hs Hst2]. cbv beta. rewrite Nat.min_l in Hs by lia.
  pose proof (shifting_length _ _ _ _ Hs) as Hlen2. rewrite Hm1 in Hlen2.
  (* the new row *)
  unfold createNewRow. wp_step. wp_step. wp_step. wp_step.
  unfold js_set.
  destruct (Nat.ltb_spec 0 (length (maze w2))) as [_|?]; [|lia].
  set (w3 := set_maze (<[0%nat:=[]]> (maze w2)) w2).
  assert (Hrow : forall p row, maze w2 !! S p = Some row <->
                    maze w !! p = Some row /\ (S p < length (maze w))%nat).
  { intros p row. rewrite (sh_maze _ _ _ _ Hs), Hm1.
    rewrite decide_False by lia. simpl. rewrite Nat.sub_0_r.
    destruct (decide (S p < length (maze w))%nat); [by intuition|].
    split; [done | by intros [_ ?]]. }
  assert (Hsu3 : setup n w3).
  { destruct (sh_setup _ _ _ _ Hs). by split. }
  replace 0 with (Z.of_nat 0) by done.
  eapply wp_post; [apply (fillRow_spec n 0 w3 Hsu3) |].
  { simpl. by rewrite list_lookup_insert_eq by lia. }
  { lia. }
  intros ? w4 ->. set (w4 := fillState w3 0 (rowWidth n)).
  assert (Hmaze4 : forall p row, maze w4 !! S p = Some row <->
                      maze w !! p = Some row /\ (S p < length (maze w))%nat).
  { intros p row. simpl. rewrite list_insert_insert_eq.
    rewrite list_lookup_insert_ne by done. apply Hrow. }
  assert (Hmaze40 : maze w4 !! 0%nat =
                    Some (seq (length (blockStore w2)) (rowWidth n))).
  { simpl. rewrite list_insert_insert_eq.
    by rewrite list_lookup_insert_eq by lia. }
  assert (Hix3 : indexed w3).
  { intros i k b (row & _ & _ & Hi & Hk)%cell_Some.
    rewrite !Nat2Z.id in Hi, Hk. simpl in Hi.
    destruct i as [|p].
    { rewrite list_lookup_insert_eq in Hi by lia. injection Hi as <-. done. }
    rewrite list_lookup_insert_ne in Hi by done.
    apply Hrow in Hi as [Hi Hlt].
    assert (Hc : cell w1 (Z.of_nat p) (Z.of_nat k) = Some b).
    { rewrite (cell_frame w w1) by done. by eapply cell_lookup. }
    destruct (sh_blocks _ _ _ _ Hs _ _ _ Hc) as (blk & Hblk & Hbi & Hri).
    exists blk. split; [done|]. split; [|done].
    rewrite Hri. rewrite decide_True; [done|]. rewrite Hm1. lia. }
  assert (Hok4 : grid_ok n w4).
  { split.
    - destruct Hsu3. by split.
    - split.
      + simpl. rewrite !length_insert, Hlen2. apply Hok.
      + apply Forall_lookup. intros [|p] row Hp.
        * rewrite Hmaze40 in Hp. injection Hp as <-. by rewrite length_seq.
        * apply Hmaze4 in Hp as [Hp _].
          destruct Hok as [_ [_ Hrows] _]. rewrite Forall_lookup in Hrows.
          by eapply Hrows.
    - apply indexed_fillState; [done|].
      simpl. by rewrite list_lookup_insert_eq by lia. }
  assert (Hlen4 : length (blockStore w4)
                  = (length (blockStore w2) + rowWidth n)%nat).
  { simpl. by rewrite length_app, freshRow_length. }
  assert (Hl2 : length (blockStore w2) = length (blockStore w)).
  { rewrite (sh_length _ _ _ _ Hs).
    symmetry. apply (Forall2_length _ _ _ (rf_blocks _ _ Hr1)). }
  assert (Hst4 : stored n w w4).
  { destruct Hst2 as [H1 H2 H3 H4]. split.
    - intros b blk. simpl.
      intros [Hb|[_ Hb]]%lookup_app_Some; [by apply (H1 b)|].
      apply list_lookup_fmap_Some in Hb as (c & -> & Hc).
      apply lookup_lt_Some in Hc as Hlt. rewrite upto_length in Hlt.
      rewrite upto_lookup in Hc by done. injection Hc as <-.
      split; simpl; [unfold rowCount; lia | lia].
    - intros b blk x. rewrite Hlen4. simpl.
      intros [Hb|[_ Hb]]%lookup_app_Some Hx.
      + pose proof (H2 b blk x Hb Hx). lia.
      + apply list_lookup_fmap_Some in Hb as (c & -> & Hc).
        by apply elem_of_nil in Hx.
    - rewrite Hlen4. lia.
    - rewrite Hlen4. unfold walls in *. simpl. rewrite wallsIn_app.
      assert (wallsIn (freshRow (Z.of_nat 0) (rowWidth n)) <= rowWidth n)%nat; [|lia].
      unfold wallsIn. etrans; [apply length_filter|]. by rewrite freshRow_length. }
  (* the neighbour lists, twice *)
  eapply wp_post; [apply (resetAdjacentBlocks_spec n w4 Hok4) |].
  intros ? w5 (Hr5 & Hg5 & Hw5 & _ & Hun5). simpl.
  assert (Hok5 : grid_ok n w5) by (by eapply grid_ok_round).
  assert (Hst5 : stored n w w5) by (by eapply (stored_reset n w w4 w5)).
  eapply wp_post; [apply (resetAdjacentBlocks_spec n w5 Hok5) |].
  intros ? w6 (Hr6 & Hg6 & Hw6 & _ & Hun6). simpl.
  assert (Hok6 : grid_ok n w6) by (by eapply grid_ok_round).
  split; [by eapply (stored_reset n w w5 w6)|].
  rewrite <- (Forall2_length _ _ _ (rf_blocks _ _ Hr6)).
  rewrite <- (Forall2_length _ _ _ (rf_blocks _ _ Hr5)). lia.
Qed.

(** ** Whole events *)

Lemma shiftGrid_tidy {D} n w :
  tidy n w ->
  wpd D shiftGrid
    (fun _ w1 => shifted n w w1 /\ tidy n w1 /\
                 (work w1 <= work w + rowWidth n)%nat)
    (fun _ => False) w.
Proof.
  intros Ht. pose proof (td_width _ _ Ht) as Hn.
  eapply wp_mono;
    [apply (wp_and _ _ _ _ _ _
              (shiftGrid_spec n w (td_grid _ _ Ht) ltac:(lia))
              (shiftGrid_stored n w Ht)) | | by intros ? []].
  intros [] w1 [Hs [Hst Hlen]]. cbv beta.
  pose proof (sd_only _ _ _ Hs) as Hg.
  destruct Hst as [H1 H2 H3 H4].
  destruct (td_closed _ _ Ht) as [_ C2 C3].
  split; [done|]. split.
  - split; try done.
    + apply Hs.
    + split; [done | |].
      * intros p pth. rewrite (go_pathStore _ _ Hg). intros Hp.
        destruct (C2 p pth Hp) as [Hne Hval]. split; [done|].
        intros b Hb. specialize (Hval b Hb). lia.
      * intros a arr b. rewrite (go_arrays _ _ Hg). intros Ha Hb.
        pose proof (C3 a arr b Ha Hb). lia.
    + intros p. rewrite (go_paths _ _ Hg), (go_pathStore _ _ Hg). apply Ht.
    + intros p. rewrite (go_main _ _ Hg), (go_pathStore _ _ Hg). apply Ht.
    + rewrite (go_seeds _ _ Hg), (go_arrays _ _ Hg). apply Ht.
    + rewrite (go_second _ _ Hg), (go_arrays _ _ Hg). apply Ht.
  - unfold work, seeds. rewrite (go_arrays _ _ Hg). lia.
Qed.

(** The character stands in a row that is not above the line at which
    [moveUp] shifts the maze. *)
Definition low (w : Engine) : Prop :=
  exists c blk, character w = Some c /\ blockStore w !! c = Some blk /\
                pastHalfway (rowIndex blk) (maze w) = false.

(** The engine between two events. *)
Record steady (n : Z) (w : Engine) : Prop := {
  sy_healthy : healthy n w;
  sy_tidy : tidy n w;
  sy_main : exists p, mainPath w = Some p;
  sy_low : low w
}.

Lemma wpd_cellAt_any {D} i k (Q : ref -> Engine -> Prop) (E : Engine -> Prop) w :
  (forall b, cell w i k = Some b -> Q b w) ->
  (cell w i k = None -> E w) ->
  wpd D (cellAt i k) Q E w.
Proof.
  intros HQ HE. unfold cell in *. unfold cellAt, rowAt. wp_steps.
  - apply HQ. by rewrite H.
  - apply HE. by rewrite H.
  - apply HE. by rewrite H.
Qed.

(** The common part of the four moves, from a steady engine: the only
    failure is a look-up outside the grid, which changes nothing. *)
Lemma moveTo_total {D} n fi fj after (Q : unit -> Engine -> Prop) w :
  steady n w ->
  (forall c cl b pb,
     character w = Some c -> blockStore w !! c = Some cl ->
     inGrid w c -> pastHalfway (rowIndex cl) (maze w) = false ->
     cell w (fi cl) (fj cl) = Some b -> blockStore w !! b = Some pb ->
     rowIndex pb = fi cl -> blockIndex pb = fj cl ->
     (if isWall pb then Q tt w
      else wpd D (after b pb) Q (fun _ => False) w)) ->
  wpd D (moveTo fi fj after) Q
    (fun w' => w' = w /\
       exists c cl, character w = Some c /\ blockStore w !! c = Some cl /\
                    cell w (fi cl) (fj cl) = None) w.
Proof.
  intros Hsy Hafter.
  destruct (he_char _ _ (sy_healthy _ _ Hsy)) as (c & cl & Hc & Hin & Hcl & Hwall).
  assert (Hlow : pastHalfway (rowIndex cl) (maze w) = false).
  { destruct (sy_low _ _ Hsy) as (c' & cl' & Hc' & Hcl' & Hl).
    rewrite Hc in Hc'. injection Hc' as <-.
    rewrite Hcl in Hcl'. by injection Hcl' as <-. }
  unfold moveTo, theLocation. wp_go. rewrite Hc. wp_step; [|done].
  injection H as <-. wp_go.
  apply wpd_getBlock_in; [by eapply lookup_lt_Some|].
  intros cl' Hcl'. rewrite Hcl in Hcl'. injection Hcl' as <-.
  wp_go. apply wpd_cellAt_any.
  2:{ intros Hnone. split; [done|]. by exists c, cl. }
  intros b Hb. wp_go.
  pose proof Hb as (row & Hi & Hk & _)%cell_Some.
  destruct (gk_indexed _ _ (td_grid _ _ (sy_tidy _ _ Hsy))
              (Z.to_nat (fi cl)) (Z.to_nat (fj cl)) b) as (pb & Hpb & Hr & Hk').
  { by rewrite !Z2Nat.id by lia. }
  rewrite Z2Nat.id in Hr, Hk' by lia.
  apply wpd_getBlock_in; [by eapply lookup_lt_Some|].
  intros pb' Hpb'. rewrite Hpb in Hpb'. injection Hpb' as <-.
  specialize (Hafter c cl b pb Hc Hcl Hin Hlow Hb Hpb Hr Hk').
  destruct (isWall pb); simpl.
  - by wp_step.
  - eapply wp_mono; [exact Hafter | done | by intros ? []].
Qed.

(** The key [k] points outside the grid: the cell the move function
    looks up does not exist. *)
Definition offGrid (k : key) (w : Engine) : Prop :=
  exists c cl, character w = Some c /\ blockStore w !! c = Some cl /\
               target k cl w = None.

Lemma tidy_character n w c : tidy n w -> tidy n (set_character c w).
Proof.
  intros Ht. apply (tidy_stores n w _ 0); try done; try apply Ht.
  simpl. by rewrite app_nil_r.
Qed.

Lemma pastHalfway_rows r rows rows' :
  length rows' = length rows -> pastHalfway r rows' = pastHalfway r rows.
Proof. intros H. unfold pastHalfway. by rewrite H. Qed.

Lemma pastHalfway_down r r' rows :
  r <= r' -> pastHalfway r rows = false -> pastHalfway r' rows = false.
Proof. unfold pastHalfway. intros Hr H%Z.ltb_ge. apply Z.ltb_ge. lia. Qed.

(** What a key leaves behind when its handler returns. *)
Definition settled (n : Z) (w w' : Engine) : Prop :=
  tidy n w' /\ (exists p, mainPath w' = Some p) /\
  (work w' <= work w + rowWidth n)%nat /\ low w'.

Lemma settled_step n w b pb :
  steady n w -> blockStore w !! b = Some pb ->
  pastHalfway (rowIndex pb) (maze w) = false ->
  settled n w (set_character (Some b) w).
Proof.
  intros Hsy Hpb Hl. split; [by apply tidy_character, Hsy|].
  split; [exact (sy_main _ _ Hsy)|]. split.
  - change (work w <= work w + rowWidth n)%nat. lia.
  - by exists b, pb.
Qed.

Lemma keydown_total {D} n fuel k w :
  steady n w ->
  D \/ (work w + rowWidth n < fuel)%nat ->
  wpd D (keydown fuel k) (fun _ w' => settled n w w')
    (fun w' => w' = w /\ offGrid k w) w.
Proof.
  intros Hsy Hfuel. pose proof (sy_tidy _ _ Hsy) as Ht.
  destruct (sy_main _ _ Hsy) as [p Hp].
  assert (Hstay : settled n w w).
  { split; [done|]. split; [by exists p|]. split; [lia | apply Hsy]. }
  destruct k; simpl.
  - eapply wp_mono;
      [apply (moveTo_total n (fun cl => rowIndex cl - 1) blockIndex
        (fun q pb =>
           rows <- gets maze ;;
           (if pastHalfway (rowIndex pb) rows then shiftMaze fuel else ret tt) ;;
           modify (set_character (Some q))) _ w Hsy)
      | intros a w' H; exact H |].
    2:{ intros w' [-> (c & cl & ? & ? & ?)]. split; [done|]. by exists c, cl. }
    intros c cl b pb Hc Hcl Hin Hlow Hb Hpb Hrow Hcol.
    destruct (isWall pb) eqn:Hw; [done|].
    wp_go. destruct (pastHalfway (rowIndex pb) (maze w)) eqn:Hpast.
    2:{ wp_step. wp_step. by apply (settled_step n w b pb). }
    unfold wpd. rewrite shiftMaze_split.
    change (wpd D (shiftGrid ;; shiftPaths fuel)
              (fun _ w1 => wpd D (modify (set_character (Some b)))
                 (fun _ w' => settled n w w') (fun _ => False) w1)
              (fun _ => False) w).
    apply wp_bind. eapply wp_post; [by apply (shiftGrid_tidy n w)|].
    intros [] w1 (Hs & Ht1 & Hw1). cbv beta.
    assert (Hp1 : mainPath w1 = Some p).
    { by rewrite (go_main _ _ (sd_only _ _ _ Hs)). }
    eapply wp_post; [apply (shiftPaths_total n fuel p w1 Ht1 Hp1)|].
    { destruct Hfuel as [?|?]; [by left | right; lia]. }
    intros [] w2 (Ht2 & Hf2 & Hw2 & Hm2). cbv beta. wp_step.
    split; [by apply tidy_character|]. split.
    { exists p. simpl. by rewrite Hm2. }
    split.
    { change (work w2 <= work w + rowWidth n)%nat. lia. }
    (* the block stepped on has come down to the row of the old one *)
    pose proof (td_grid _ _ Ht) as Hg.
    destruct (grid_ok_block n w c Hg Hin) as (cl' & Hcl' & Hrc & _ & _).
    rewrite Hcl in Hcl'. injection Hcl' as <-.
    pose proof Hb as (row & Hr0 & Hk0 & _)%cell_Some.
    assert (Hb1 : cell w1 (Z.of_nat (S (Z.to_nat (rowIndex cl - 1))))
                    (Z.of_nat (Z.to_nat (blockIndex cl))) = Some b).
    { apply (sd_down _ _ _ Hs).
      - by rewrite !Z2Nat.id by lia.
      - rewrite (proj1 (gk_shape _ _ Hg)). lia. }
    destruct (gk_indexed _ _ (sd_ok _ _ _ Hs) _ _ _ Hb1) as (blk1 & Hblk1 & Hr1 & _).
    destruct (Forall2_lookup_l _ _ _ _ _ (gf_blocks _ _ Hf2) Hblk1)
      as (blk2 & Hblk2 & (Hr2 & _)).
    exists b, blk2. split; [done|]. split; [done|]. simpl.
    rewrite (gf_maze _ _ Hf2).
    rewrite (pastHalfway_rows _ (maze w) (maze w1)).
    2:{ rewrite (proj1 (gk_shape _ _ (sd_ok _ _ _ Hs))).
        by rewrite (proj1 (gk_shape _ _ Hg)). }
    replace (rowIndex blk2) with (rowIndex cl); [done|]. lia.
  - eapply wp_mono;
      [apply (moveTo_total n rowIndex (fun cl => blockIndex cl - 1)
        (fun q _ => modify (set_character (Some q))) _ w Hsy)
      | intros a w' H; exact H |].
    2:{ intros w' [-> (c & cl & ? & ? & ?)]. split; [done|]. by exists c, cl. }
    intros c cl b pb Hc Hcl Hin Hlow Hb Hpb Hrow Hcol.
    destruct (isWall pb) eqn:Hw; [done|]. wp_step.
    apply (settled_step n w b pb); [done | done |]. by rewrite Hrow.
  - eapply wp_mono;
      [apply (moveTo_total n (fun cl => rowIndex cl + 1) blockIndex
        (fun q _ => modify (set_character (Some q))) _ w Hsy)
      | intros a w' H; exact H |].
    2:{ intros w' [-> (c & cl & ? & ? & ?)]. split; [done|]. by exists c, cl. }
    intros c cl b pb Hc Hcl Hin Hlow Hb Hpb Hrow Hcol.
    destruct (isWall pb) eqn:Hw; [done|]. wp_step.
    apply (settled_step n w b pb); [done | done |].
    apply (pastHalfway_down (rowIndex cl)); [lia | done].
  - eapply wp_mono;
      [apply (moveTo_total n rowIndex (fun cl => blockIndex cl + 1)
        (fun q _ => modify (set_character (Some q))) _ w Hsy)
      | intros a w' H; exact H |].
    2:{ intros w' [-> (c & cl & ? & ? & ?)]. split; [done|]. by exists c, cl. }
    intros c cl b pb Hc Hcl Hin Hlow Hb Hpb Hrow Hcol.
    destruct (isWall pb) eqn:Hw; [done|]. wp_step.
    apply (settled_step n w b pb); [done | done |]. by rewrite Hrow.
Qed.
(** *** [start] *)

(** Every Path object there was is still there and keeps its first
    block, and the grid is the same. *)
Definition heads_grow (w w' : Engine) : Prop :=
  (forall q pth, pathStore w !! q = Some pth ->
     exists pth', pathStore w' !! q = Some pth' /\ hd_kept pth pth') /\
  maze w' = maze w.

#[export] Instance heads_grow_preorder : PreOrder heads_grow.
Proof.
  split.
  - intros w. split; [|done]. intros q pth Hq. by exists pth.
  - intros a b c [Hab Hmab] [Hbc Hmbc]. split; [|congruence].
    intros q pth Hq. destruct (Hab q pth Hq) as (pth1 & Hq1 & H1).
    destruct (Hbc q pth1 Hq1) as (pth2 & Hq2 & H2).
    exists pth2. split; [done | by etrans].
Qed.

Definition grows {A} (m : M A) : Prop :=
  forall w, wp m (fun _ w' => heads_grow w w') (fun _ => True) w.

Lemma grows_bind {A B} (m : M A) (f : A -> M B) :
  grows m -> (forall a, grows (f a)) -> grows (bind m f).
Proof.
  intros Hm Hf w. apply wp_bind. eapply wp_mono; [apply Hm | | done].
  intros a w1 H1. eapply wp_mono; [apply Hf | | done].
  intros b w2 H2. cbv beta. by transitivity w1.
Qed.

Lemma grows_keeps {A} (m : M A) :
  keeps heads_kept m -> keeps gen_frame m -> grows m.
Proof.
  intros H1 H2 w.
  eapply wp_mono; [exact (wp_and _ _ _ _ _ _ (H1 w) (H2 w)) | | done].
  intros a w' [Hh Hg]. split; [|apply Hg].
  intros q pth Hq. destruct (Forall2_lookup_l _ _ _ _ _ Hh Hq) as (pth' & ? & ?).
  by exists pth'.
Qed.

Lemma heads_modify_same f :
  (forall w, pathStore (f w) = pathStore w) -> keeps heads_kept (modify f).
Proof. intros Hf. apply keeps_modify. intros w. by apply heads_same. Qed.

Lemma heads_makePath_round c : keeps heads_kept (makePath_round c).
Proof. unfold makePath_round, mainCandidate, checkForWallBlocks, pick. keeps_auto. Qed.

Lemma heads_splicePaths : keeps heads_kept splicePaths.
Proof. unfold splicePaths. keeps_auto. by apply heads_modify_same. Qed.

Lemma heads_shareSecondSeeds : keeps heads_kept shareSecondSeeds.
Proof. unfold shareSecondSeeds. keeps_auto. by apply heads_modify_same. Qed.

Lemma heads_clearSeeds : keeps heads_kept clearSeeds.
Proof. unfold clearSeeds, newArray. keeps_auto; by apply heads_modify_same. Qed.

Lemma grows_makeSubPath fuel b : grows (makeSubPath fuel b).
Proof.
  intros w.
  eapply wp_mono;
    [exact (wp_and _ _ _ _ _ _ (makeSubPath_grows fuel b w)
              (gen_makeSubPath fuel b w)) | | done].
  intros [] w' [(_ & _ & _ & Hh & _) Hg]. split; [done | apply Hg].
Qed.

Lemma grows_growSeeds fuel : grows (growSeeds fuel).
Proof.
  intros w. unfold growSeeds.
  apply (wp_while _ _ (fun _ w' => heads_grow w w')); [reflexivity|].
  intros i w1 H1. wp_step. wp_step.
  wp_step. apply wp_getArray; [|done]. intros arr Harr.
  destruct (arr !! i) as [seed|] eqn:Hseed; [|by wp_step].
  wp_step. eapply wp_mono; [apply grows_makeSubPath | | done].
  intros [] w2 H2. cbv beta. wp_step. by transitivity w1.
Qed.

Lemma concat_length_uniform {A} (l : list (list A)) m :
  Forall (fun row => length row = m) l ->
  length (concat l) = (length l * m)%nat.
Proof.
  induction 1 as [|row l Hrow _ IH]; [done|].
  simpl. rewrite length_app, IH, Hrow. lia.
Qed.

Lemma wallsIn_le l : (wallsIn l <= length l)%nat.
Proof. unfold wallsIn. apply length_filter. Qed.

Lemma at_index_first {A} (l : list A) :
  l <> [] -> exists a, at_index l 0 = Some a /\ head l = Some a.
Proof. destruct l as [|a l]; [done|]. intros _. by exists a. Qed.

(** The grid that [makeMaze] builds in the engine as loaded. *)
Lemma makeMaze_tidy {D} n draws :
  3 <= n ->
  wpd D makeMaze
    (fun _ w1 => tidy n w1 /\ (work w1 <= rowCount n * rowWidth n)%nat /\
                 pathStore w1 = [])
    (fun _ => False)
    (set_pointGrid (pointGridOf n)
       (set_numberOfRowPoints (n + 1) (loaded n draws))).
Proof.
  intros Hn.
  eapply wp_post; [apply (makeMaze_spec n), setup_loaded |].
  intros [] w1 (Hg1 & Hgo & Hw1 & Hlive). cbv beta. simpl in Hlive.
  specialize (Hlive eq_refl).
  assert (Hadj : adjacent_ok w1).
  { apply wired_adjacent_ok; [apply Hg1|].
    intros a (i & k & Hc)%inGrid_cell. apply (Hw1 i k); [lia | done]. }
  assert (Hps : pathStore w1 = []) by (by rewrite (go_pathStore _ _ Hgo)).
  assert (Har : arrayStore w1 = [[]; []]) by (by rewrite (go_arrays _ _ Hgo)).
  split; [|split; [|done]].
  - split; try done.
    + intros b blk Hb.
      destruct (grid_ok_block n w1 b Hg1) as (blk' & Hb' & ? & ? & _).
      { apply Hlive. by eapply lookup_lt_Some. }
      rewrite Hb in Hb'. by injection Hb' as <-.
    + split.
      * intros b blk x Hb Hx.
        destruct (Hadj b blk x) as (xblk & Hxb & _); try done.
        { apply Hlive. by eapply lookup_lt_Some. }
        by eapply lookup_lt_Some.
      * intros q pth. by rewrite Hps.
      * intros a arr b. rewrite Har. intros Ha Hb.
        destruct a as [|[|]]; simpl in Ha; try done;
          injection Ha as <-; by apply elem_of_nil in Hb.
    + intros q. rewrite (go_paths _ _ Hgo). simpl. by intros ?%elem_of_nil.
    + intros q. by rewrite (go_main _ _ Hgo).
    + rewrite (go_seeds _ _ Hgo), Har. simpl. lia.
    + rewrite (go_second _ _ Hgo), Har. simpl. lia.
  - unfold work, seeds. rewrite Har. simpl.
    destruct (gk_shape _ _ Hg1) as [Hlen Hrows].
    rewrite <- Hlen, <- (concat_length_uniform _ _ Hrows).
    pose proof (wallsIn_le (blockStore w1)).
    assert (seq 0 (length (blockStore w1)) ⊆+ concat (maze w1)).
    { apply NoDup_submseteq; [apply NoDup_seq|].
      intros b Hb%elem_of_seq. apply Hlive. lia. }
    apply submseteq_length in H0. rewrite length_seq in H0.
    unfold walls. lia.
Qed.

(** [makePath] leaves the first block of the main path where it put it:
    in the bottom row. *)
Lemma makePath_head n fuel w :
  tidy n w ->
  wp (makePath fuel)
    (fun _ w' => exists pth b k,
       pathStore w' !! length (pathStore w) = Some pth /\
       head (subPath pth) = Some b /\ cell w' (3 * n) k = Some b /\ 1 <= k)
    (fun _ => True) w.
Proof.
  intros Ht. unfold makePath. apply wp_bind.
  apply (makePath_trunk_init n fuel w); [done|].
  intros p cb1 cb2 k d w6 Ht6 Hf6 _ -> Hm6 Hp6 Hc1 _ Hk _.
  assert (Hloop : grows (while fuel makePath_round cb2)).
  { apply grows_keeps.
    - apply keeps_while; [apply _|]. intros c. apply heads_makePath_round.
    - keeps_auto. }
  eapply wp_mono; [apply Hloop | | done].
  intros [] w7 H7. cbv beta.
  assert (Hrest : grows (growSeeds fuel ;; shareSecondSeeds ;; growSeeds fuel ;;
                         splicePaths ;; clearSeeds ;;
                         modify (set_pathsToSplice []))).
  { apply grows_bind; [apply grows_growSeeds | intros _].
    apply grows_bind; [apply grows_keeps;
                         [apply heads_shareSecondSeeds | keeps_auto] | intros _].
    apply grows_bind; [apply grows_growSeeds | intros _].
    apply grows_bind; [apply grows_keeps;
                         [apply heads_splicePaths | keeps_auto] | intros _].
    apply grows_bind; [apply grows_keeps;
                         [apply heads_clearSeeds | keeps_auto] | intros _].
    apply grows_keeps; [by apply heads_modify_same | keeps_auto]. }
  eapply wp_mono; [apply Hrest | | done].
  intros [] w8 H8. cbv beta.
  destruct (transitivity H7 H8) as [Hh Hmz].
  destruct (Hh _ _ Hp6) as (pth & Hpth & Hhd).
  exists pth, cb1, k. split; [done|]. split; [by apply Hhd|].
  split; [|done]. unfold cell in *. by rewrite Hmz.
Qed.

(** [start] on an engine of width at least 3. *)
Lemma start_total {D} n draws fuel :
  3 <= n ->
  D \/ (rowCount n * rowWidth n < fuel)%nat ->
  wpd D (start fuel)
    (fun _ w => tidy n w /\ (exists p, mainPath w = Some p) /\
                (work w <= rowCount n * rowWidth n)%nat)
    (fun _ => False) (loaded n draws).
Proof.
  intros Hn Hfuel.
  unfold start, calculateDimensions, makePointGrid. wp_go.
  eapply wp_post; [by apply makeMaze_tidy|].
  intros [] w1 (Ht1 & Hwork & _). cbv beta.
  wp_step. eapply wp_post; [apply (makePath_total n fuel w1 Ht1)|].
  { destruct Hfuel as [?|?]; [by left | right; lia]. }
  intros [] w2 (Ht2 & Hf2 & Hw2 & Hm2). cbv beta.
  unfold makeCharacter, theMainPath. wp_go. rewrite Hm2.
  wp_step; [|done]. injection H as <-. wp_go.
  apply wpd_getPath_in; [by apply (td_main _ _ Ht2)|].
  intros pth Hpth. wp_go.
  destruct (cl_paths _ (td_closed _ _ Ht2) _ _ Hpth) as [Hne _].
  destruct (at_index_first _ Hne) as (b & Hb & _). rewrite Hb.
  wp_step; [|done]. injection H as <-. wp_step.
  split; [by apply tidy_character|]. split.
  - by eexists.
  - change (work w2 <= rowCount n * rowWidth n)%nat. lia.
Qed.

(** The character starts on the first block of the main path, in the
    bottom row and not in its first column. *)
Lemma start_bottom n draws fuel :
  3 <= n ->
  wp (start fuel)
    (fun _ w => exists b blk p pth,
       character w = Some b /\ blockStore w !! b = Some blk /\
       rowIndex blk = 3 * n /\ 1 <= blockIndex blk /\
       cell w (3 * n) (blockIndex blk) = Some b /\
       mainPath w = Some p /\ pathStore w !! p = Some pth /\
       head (subPath pth) = Some b /\
       length (maze w) = rowCount n)
    (fun _ => True) (loaded n draws).
Proof.
  intros Hn.
  unfold start, calculateDimensions, makePointGrid. wp_go.
  eapply wp_post; [by apply makeMaze_tidy|].
  intros [] w1 (Ht1 & _ & Hps1). cbv beta. wp_step.
  eapply wp_mono;
    [exact (wp_and _ _ _ _ _ _
              (makePath_total (D:=True) n fuel w1 Ht1 (or_introl I))
              (makePath_head n fuel w1 Ht1)) | | done].
  intros [] w2 [(Ht2 & Hf2 & _ & Hm2) (pth & b & k & Hpth & Hhd & Hcell & Hk1)].
  cbv beta.
  unfold makeCharacter, theMainPath. wp_go. rewrite Hm2.
  wp_step; [|done]. injection H as <-. wp_go.
  apply wp_getPath; [|done]. intros pth' Hpth'.
  rewrite Hpth in Hpth'. injection Hpth' as <-. wp_go.
  assert (Hb : at_index (subPath pth) 0 = Some b).
  { destruct (subPath pth); [done|]. simpl in Hhd. by injection Hhd as ->. }
  rewrite Hb. wp_step; [|done]. injection H as <-. wp_step.
  pose proof (td_grid _ _ Ht2) as Hg2.
  pose proof Hcell as (row & _ & Hk & _)%cell_Some.
  destruct (gk_indexed _ _ Hg2 (Z.to_nat (3 * n)) (Z.to_nat k) b)
    as (blk & Hblk & Hr & Hc).
  { by rewrite !Z2Nat.id by lia. }
  rewrite Z2Nat.id in Hr, Hc by lia.
  exists b, blk, (length (pathStore w1)), pth.
  split; [done|]. split; [done|]. split; [done|]. split; [lia|].
  split; [by rewrite Hc|]. split; [done|]. split; [done|]. split; [done|].
  exact (proj1 (gk_shape _ _ Hg2)).
Qed.

Lemma start_low n draws fuel :
  3 <= n ->
  wp (start fuel) (fun _ w => low w) (fun _ => True) (loaded n draws).
Proof.
  intros Hn. eapply wp_mono; [by apply (start_bottom n draws fuel) | | done].
  intros [] w (b & blk & p & pth & Hc & Hblk & Hr & _ & _ & _ & _ & _ & Hlen).
  exists b, blk. split; [done|]. split; [done|].
  unfold pastHalfway. rewrite Hlen, Hr.
  apply Z.ltb_ge. unfold rowCount. lia.
Qed.

(** [start] returns only for a width of at least 3. *)
Lemma start_needs_width n draws fuel w :
  start fuel (loaded n draws) = (Ret tt, w) -> 3 <= n.
Proof.
  intros Hrun. destruct (Z.lt_ge_cases n 3) as [Hn|]; [exfalso|done].
  apply (wp_run (D:=True) _ (fun _ _ => False) (fun _ => True)) in Hrun;
    [done|].
  clear Hrun. unfold start, calculateDimensions, makePointGrid. wp_go.
  eapply wp_mono; [apply (makeMaze_spec n), setup_loaded | | done].
  intros [] w1 (Hg1 & Hgo & _ & _). cbv beta.
  assert (Hp1 : pathStore w1 = []) by (by rewrite (go_pathStore _ _ Hgo)).
  destruct (gk_shape _ _ Hg1) as [Hlen Hrows].
  unfold makePath, makePath_trunk, newPath. wp_go.
  apply wp_modifyPath; [|done].
  intros pth Hpth. unfold newArray. wp_go. apply wp_mathRandom.
  all: [> intros o v | ]; unfold rowAt; wp_go; simpl maze;
    (wp_step; [|done]);
    rename a into currentRow;
    apply at_index_Some in H as [HL Hrow];
    (assert (Hw : (length currentRow <= 1)%nat);
     [rewrite Forall_lookup in Hrows; rewrite (Hrows _ _ Hrow);
      unfold rowWidth; lia|]);
    wp_go; (wp_step; [|done]);
    exfalso; revert H;
    (destruct currentRow as [|b [|]]; simpl in Hw;
     [by rewrite at_index_nil | by vm_compute | lia]).
Qed.

Lemma steady_draws n w draws : steady n w -> steady n (set_rng draws w).
Proof.
  intros [Hh Ht Hm Hl]. split.
  - by eapply healthy_globals; [..|exact Hh].
  - apply (tidy_stores n w _ 0); try done; try apply Ht.
    simpl. by rewrite app_nil_r.
  - done.
  - done.
Qed.

Lemma reachable_steady n w : reachable n w -> steady n w.
Proof.
  induction 1 as [draws fuel w Hrun | w draws fuel k o w' Hr IH Hrun Ho].
  - pose proof (start_needs_width _ _ _ _ Hrun) as Hn.
    pose proof (wp_run (D:=True) _ _ _ _ _ _ Hrun
                  (start_total n draws fuel Hn (or_introl I))) as (? & ? & _).
    pose proof (wp_run (D:=True) _ _ _ _ _ _ Hrun (start_low n draws fuel Hn)).
    split; [by eapply start_healthy | done | done | done].
  - pose proof (steady_draws n w draws IH) as Hsy.
    pose proof (wp_run (D:=True) _ _ _ _ _ _ Hrun
                  (wpd_and_wp True _ _ _ _ _ _
                     (keydown_total n fuel k _ Hsy (or_introl I))
                     (keydown_healthy n fuel k _ (sy_healthy _ _ Hsy)))) as H.
    destruct o as [[]| |]; [| |done].
    + destruct H as ((? & ? & _ & ?) & ?). by split.
    + destruct H as ((-> & _) & _). done.
Qed.

(** * Further properties of reachable states *)

(** With a width of at least 3 and a loop budget above the number of
    blocks of the grid, [start] returns, whatever [Math.random] hands
    out: no look-up of the set-up fails and no loop of [makePath] runs
    on for ever. *)
Theorem start_returns n draws fuel :
  3 <= n -> (rowCount n * rowWidth n < fuel)%nat ->
  exists w, start fuel (loaded n draws) = (Ret tt, w).
Proof.
  intros Hn Hf.
  pose proof (start_total (D:=False) n draws fuel Hn (or_intror Hf)) as H.
  unfold wpd in H.
  destruct (start fuel (loaded n draws)) as [[[]| |] w]; [by exists w | done | done].
Qed.

Lemma start_returns_witness :
  3 <= 4 /\ (rowCount 4 * rowWidth 4 < 100)%nat /\
  exists w, start 100 (loaded 4 draws4) = (Ret tt, w).
Proof.
  split; [lia|]. split; [vm_compute; lia|].
  apply (start_returns 4 draws4 100); [lia | vm_compute; lia].
Defined.

(** In a reachable state every key handler runs to its end, whatever
    [Math.random] hands out: each round of a path-growing loop that goes
    round again carves a wall, so a loop budget above the number of
    walls and seeds there are, plus the blocks of the row that a shift
    adds, is never used up. *)
Theorem key_handled n w draws fuel k :
  reachable n w -> (work w + rowWidth n < fuel)%nat ->
  exists o w', keydown fuel k (set_rng draws w) = (o, w') /\ o <> Diverge.
Proof.
  intros Hr Hf.
  pose proof (steady_draws n w draws (reachable_steady n w Hr)) as Hsy.
  pose proof (keydown_total (D:=False) n fuel k _ Hsy (or_intror Hf)) as H.
  unfold wpd in H.
  destruct (keydown fuel k (set_rng draws w)) as [[[]| |] w'];
    [by exists (Ret tt), w' | by exists Throw, w' | done].
Qed.

Lemma key_handled_witness :
  reachable 4 maze4 /\ (work maze4 + rowWidth 4 < 100)%nat /\
  exists o w', keydown 100 KeyW (set_rng [] maze4) = (o, w') /\ o <> Diverge.
Proof.
  split; [exact reachable_maze4|]. split; [vm_compute; lia|].
  apply (key_handled 4 maze4 [] 100 KeyW reachable_maze4). vm_compute. lia.
Defined.

(** In a reachable state a key handler ends in a TypeError only when
    the cell it looks up lies outside the grid, and then the engine is
    as it was: nothing that [shiftMaze] and the path generation read is
    ever missing. *)
Theorem key_fails_only_off_grid n w draws fuel k w' :
  reachable n w ->
  keydown fuel k (set_rng draws w) = (Throw, w') ->
  w' = set_rng draws w /\ offGrid k w.
Proof.
  intros Hr Hrun.
  pose proof (steady_draws n w draws (reachable_steady n w Hr)) as Hsy.
  pose proof (wp_run (D:=True) _ _ _ _ _ _ Hrun
                (keydown_total n fuel k _ Hsy (or_introl I))) as [-> Hoff].
  split; [done | exact Hoff].
Qed.

Lemma key_fails_only_off_grid_witness :
  reachable 4 maze4 /\
  keydown 100 KeyS (set_rng [] maze4) = (Throw, set_rng [] maze4) /\
  set_rng [] maze4 = set_rng [] maze4 /\ offGrid KeyS maze4.
Proof.
  split; [exact reachable_maze4|]. split; [by vm_compute|].
  apply (key_fails_only_off_grid 4 maze4 [] 100 KeyS _ reachable_maze4).
  by vm_compute.
Defined.

(** In every reachable state the character stands in the bottom sixth of
    the grid: its row [r] has [6 * (r + 1) >= 5 * (3 * n + 1)].  A step up
    to a row above that line shifts the maze down by a row instead. *)
Theorem character_stays_low n w :
  reachable n w ->
  exists c blk, character w = Some c /\ blockStore w !! c = Some blk /\
                5 * (3 * n + 1) <= 6 * (rowIndex blk + 1).
Proof.
  intros Hr. pose proof (reachable_steady n w Hr) as Hsy.
  destruct (sy_low _ _ Hsy) as (c & blk & Hc & Hblk & Hl).
  exists c, blk. split; [done|]. split; [done|].
  unfold pastHalfway in Hl. apply Z.ltb_ge in Hl.
  rewrite (proj1 (gk_shape _ _ (td_grid _ _ (sy_tidy _ _ Hsy)))) in Hl.
  pose proof (td_width _ _ (sy_tidy _ _ Hsy)).
  unfold rowCount in Hl. lia.
Qed.

Lemma character_stays_low_witness :
  reachable 4 maze4_shifted_twice /\
  exists c blk, character maze4_shifted_twice = Some c /\
                blockStore maze4_shifted_twice !! c = Some blk /\
                5 * (3 * 4 + 1) <= 6 * (rowIndex blk + 1).
Proof.
  split; [exact reachable_maze4_shifted_twice|].
  exact (character_stays_low 4 maze4_shifted_twice reachable_maze4_shifted_twice).
Defined.

(** In a reachable state [moveUp] never ends in a TypeError: the
    character is never in the top row, so the cell above it exists. *)
Theorem moveUp_never_fails n w draws fuel o w' :
  reachable n w ->
  keydown fuel KeyW (set_rng draws w) = (o, w') -> o <> Throw.
Proof.
  intros Hr Hrun ->.
  pose proof (steady_draws n w draws (reachable_steady n w Hr)) as Hsy.
  pose proof (wp_run (D:=True) _ _ _ _ _ _ Hrun
                (keydown_total n fuel KeyW _ Hsy (or_introl I)))
    as [_ (c & cl & Hc & Hcl & Hnone)].
  pose proof (sy_tidy _ _ Hsy) as Ht. pose proof (td_width _ _ Ht) as Hn.
  destruct (he_char _ _ (sy_healthy _ _ Hsy)) as (c' & cl' & Hc' & Hin & Hcl' & _).
  rewrite Hc in Hc'. injection Hc' as <-.
  rewrite Hcl in Hcl'. injection Hcl' as <-.
  destruct (grid_ok_block _ _ c (td_grid _ _ Ht) Hin) as (cl' & Hcl' & Hrow & Hcol & _).
  rewrite Hcl in Hcl'. injection Hcl' as <-.
  destruct (sy_low _ _ Hsy) as (c' & cl' & Hc' & Hcl' & Hl).
  rewrite Hc in Hc'. injection Hc' as <-.
  rewrite Hcl in Hcl'. injection Hcl' as <-.
  unfold pastHalfway in Hl. apply Z.ltb_ge in Hl.
  rewrite (proj1 (gk_shape _ _ (td_grid _ _ Ht))) in Hl.
  destruct (shape_cell n _ (rowIndex cl - 1) (blockIndex cl)
              (gk_shape _ _ (td_grid _ _ Ht))) as [b Hb];
    [unfold rowCount in *; lia | done |].
  unfold target, cell in *. simpl in *. by rewrite Hb in Hnone.
Qed.

Lemma moveUp_never_fails_witness :
  reachable 4 maze4_shifted /\
  keydown 100 KeyW (set_rng [] maze4_shifted)
  = (Ret tt, snd (keydown 100 KeyW (set_rng [] maze4_shifted))) /\
  Ret tt <> Throw.
Proof.
  split; [exact reachable_maze4_shifted|]. split; [by vm_compute|].
  apply (moveUp_never_fails 4 maze4_shifted [] 100 _
           (snd (keydown 100 KeyW (set_rng [] maze4_shifted)))
           reachable_maze4_shifted).
  by vm_compute.
Defined.

(** In every reachable state every Path object, live or spliced out,
    holds at least one block: the test [subPath.length == 0] in
    [shiftPaths] never succeeds. *)
Theorem paths_never_empty n w p pth :
  reachable n w -> pathStore w !! p = Some pth -> subPath pth <> [].
Proof.
  intros Hr Hp.
  exact (proj1 (cl_paths _ (td_closed _ _ (sy_tidy _ _ (reachable_steady n w Hr)))
                  p pth Hp)).
Qed.

Lemma paths_never_empty_witness :
  reachable 4 maze4_branch /\
  pathStore maze4_branch !! 1%nat = Some (mkPath [4; 1]%nat 0) /\
  [4; 1]%nat <> ([] : list ref).
Proof.
  split; [exact reachable_maze4_branch|].
  assert (H : pathStore maze4_branch !! 1%nat = Some (mkPath [4; 1]%nat 0))
    by (by vm_compute).
  split; [exact H|].
  exact (paths_never_empty 4 maze4_branch 1 _ reachable_maze4_branch H).
Defined.

(** In every reachable state every Block object, in the grid or dropped
    from it, carries indices of the grid: [moveBlockDown] never takes a
    rowIndex past the bottom row [3 * n]. *)
Theorem blocks_within_bounds n w b blk :
  reachable n w -> blockStore w !! b = Some blk ->
  0 <= rowIndex blk <= 3 * n /\ 0 <= blockIndex blk <= n - 2.
Proof.
  intros Hr Hb. pose proof (sy_tidy _ _ (reachable_steady n w Hr)) as Ht.
  pose proof (td_width _ _ Ht) as Hn.
  destruct (td_bounds _ _ Ht b blk Hb) as [H1 H2].
  unfold rowCount, rowWidth in *. lia.
Qed.

Lemma blocks_within_bounds_witness :
  reachable 4 maze4_shifted /\
  blockStore maze4_shifted !! 37%nat = Some (mkBlock false 12 1 [] 0) /\
  0 <= 12 <= 3 * 4 /\ 0 <= 1 <= 4 - 2.
Proof.
  split; [exact reachable_maze4_shifted|].
  assert (H : blockStore maze4_shifted !! 37%nat = Some (mkBlock false 12 1 [] 0))
    by (by vm_compute).
  split; [exact H|].
  exact (blocks_within_bounds 4 maze4_shifted 37 _ reachable_maze4_shifted H).
Defined.

(** ** Taking a step back *)

(** The key that undoes a step. *)
Definition opposite (k : key) : key :=
  match k with
  | KeyW => KeyS
  | KeyS => KeyW
  | KeyA => KeyD
  | KeyD => KeyA
  end.

Lemma moveTo_run fi fj after w c cl b pb :
  character w = Some c -> blockStore w !! c = Some cl ->
  cell w (fi cl) (fj cl) = Some b -> blockStore w !! b = Some pb ->
  moveTo fi fj after w = (if negb (isWall pb) then after b pb else ret tt) w.
Proof.
  intros Hc Hcl Hb Hpb. unfold moveTo.
  unfold bind at 1. unfold theLocation, bind at 1, gets, defined. rewrite Hc. simpl.
  unfold bind at 1. rewrite getBlock_run, Hcl.
  unfold bind at 1. rewrite cellAt_run. unfold cell in Hb.
  destruct (at_index (maze w) (fi cl)) as [row|]; [|done].
  rewrite Hb. unfold bind. by rewrite getBlock_run, Hpb.
Qed.

Lemma set_character_back w c b :
  character w = Some c -> set_character (Some c) (set_character (Some b) w) = w.
Proof. destruct w. simpl. by intros ->. Qed.

Lemma moveTo_back n w0 fi fj fi' fj' after' w1 :
  steady n w0 ->
  (forall cl pb, rowIndex pb = fi cl -> blockIndex pb = fj cl ->
     fi' pb = rowIndex cl /\ fj' pb = blockIndex cl) ->
  (forall c cl w, pastHalfway (rowIndex cl) (maze w) = false ->
     after' c cl w = (Ret tt, set_character (Some c) w)) ->
  moveTo fi fj (fun q _ => modify (set_character (Some q))) w0 = (Ret tt, w1) ->
  character w1 <> character w0 ->
  moveTo fi' fj' after' w1 = (Ret tt, w0).
Proof.
  intros Hsy Hopp Hafter Hrun Hmoved.
  destruct (he_char _ _ (sy_healthy _ _ Hsy)) as (c & cl & Hc & Hin & Hcl & Hwall).
  pose proof (td_grid _ _ (sy_tidy _ _ Hsy)) as Hg.
  assert (Hlow : pastHalfway (rowIndex cl) (maze w0) = false).
  { destruct (sy_low _ _ Hsy) as (c' & cl' & Hc' & Hcl' & Hl).
    rewrite Hc in Hc'. injection Hc' as <-.
    rewrite Hcl in Hcl'. by injection Hcl' as <-. }
  destruct (grid_ok_block n w0 c Hg Hin) as (cl' & Hcl' & _ & _ & Hcell).
  rewrite Hcl in Hcl'. injection Hcl' as <-.
  destruct (cell w0 (fi cl) (fj cl)) as [b|] eqn:Hb.
  2:{ destruct (moveTo_rejected fi fj
                  (fun q _ => modify (set_character (Some q))) w0 c cl Hc Hcl
                  (or_introl Hb)) as (o & Ho & _).
      rewrite Ho in Hrun. by injection Hrun as _ <-. }
  pose proof Hb as (row & Hi & Hk & _)%cell_Some.
  destruct (gk_indexed _ _ Hg (Z.to_nat (fi cl)) (Z.to_nat (fj cl)) b)
    as (pb & Hpb & Hr & Hk').
  { by rewrite !Z2Nat.id by lia. }
  rewrite Z2Nat.id in Hr, Hk' by lia.
  destruct (isWall pb) eqn:Hw.
  { destruct (moveTo_rejected fi fj
                (fun q _ => modify (set_character (Some q))) w0 c cl Hc Hcl)
      as (o & Ho & _).
    { right. by exists b, pb. }
    rewrite Ho in Hrun. by injection Hrun as _ <-. }
  rewrite (moveTo_run _ _ _ _ _ _ _ _ Hc Hcl Hb Hpb), Hw in Hrun.
  simpl in Hrun. unfold modify in Hrun. injection Hrun as <-.
  destruct (Hopp cl pb Hr Hk') as [Hi' Hk''].
  rewrite (moveTo_run fi' fj' after' _ b pb c cl); try done.
  - rewrite Hwall. simpl. rewrite Hafter by done. by rewrite set_character_back.
  - by rewrite Hi', Hk''.
Qed.

(** In a reachable state a step to the left, to the right or down that
    moves the character is undone by the opposite key: the whole engine
    is again as it was before the step.  (After a step down the step up
    leads back to a row below the line at which [moveUp] shifts the
    maze.) *)
Theorem step_back n w draws fuel fuel' k w1 :
  reachable n w -> k <> KeyW ->
  keydown fuel k (set_rng draws w) = (Ret tt, w1) ->
  character w1 <> character w ->
  keydown fuel' (opposite k) w1 = (Ret tt, set_rng draws w).
Proof.
  intros Hr Hk Hrun Hmoved.
  pose proof (steady_draws n w draws (reachable_steady n w Hr)) as Hsy.
  destruct k; [done | | |].
  - exact (moveTo_back n _ rowIndex (fun cl => blockIndex cl - 1)
             rowIndex (fun cl => blockIndex cl + 1)
             (fun q _ => modify (set_character (Some q))) w1 Hsy
             ltac:(cbv beta; intros; split; lia) ltac:(done) Hrun Hmoved).
  - refine (moveTo_back n _ (fun cl => rowIndex cl + 1) blockIndex
              (fun cl => rowIndex cl - 1) blockIndex
              (fun q pb =>
                 rows <- gets maze ;;
                 (if pastHalfway (rowIndex pb) rows then shiftMaze fuel' else ret tt) ;;
                 modify (set_character (Some q))) w1 Hsy
              ltac:(cbv beta; intros; split; lia) _ Hrun Hmoved).
    intros c cl w0 Hl. unfold bind, gets. by rewrite Hl.
  - exact (moveTo_back n _ rowIndex (fun cl => blockIndex cl + 1)
             rowIndex (fun cl => blockIndex cl - 1)
             (fun q _ => modify (set_character (Some q))) w1 Hsy
             ltac:(cbv beta; intros; split; lia) ltac:(done) Hrun Hmoved).
Qed.

(** The first run after one step up: the character stands in the row
    above the bottom row, with a floor block to its right. *)
Definition maze4_up : Engine := orElse maze4 (press 100 [KeyW] maze4).

Lemma reachable_maze4_up : reachable 4 maze4_up.
Proof.
  apply (reachable_press 4 100 [KeyW] maze4); [apply reachable_maze4 | by vm_compute].
Qed.

Lemma step_back_witness :
  reachable 4 maze4_up /\ KeyD <> KeyW /\
  character maze4_up = Some 34%nat /\
  character (snd (keydown 100 KeyD (set_rng [] maze4_up))) = Some 35%nat /\
  keydown 100 KeyA (snd (keydown 100 KeyD (set_rng [] maze4_up)))
  = (Ret tt, set_rng [] maze4_up).
Proof.
  split; [exact reachable_maze4_up|]. split; [done|].
  split; [by vm_compute|]. split; [by vm_compute|].
  apply (step_back 4 maze4_up [] 100 100 KeyD _ reachable_maze4_up);
    [done | by vm_compute | by vm_compute].
Defined.

(** ** The rows after a shift *)

(** The grid part of [shiftMaze], run on a well-formed grid, always
    returns; the grid keeps its number of rows, every row but the
    bottom one has moved down by one, and the new top row is made of
    fresh Block objects that are walls; blocks that were floor still
    are. *)
Theorem shiftGrid_moves_rows n w :
  grid_ok n w -> 0 <= n ->
  exists w1,
    shiftGrid w = (Ret tt, w1) /\
    length (maze w1) = length (maze w) /\
    (forall q c, (S q < length (maze w))%nat ->
       cell w1 (Z.of_nat (S q)) (Z.of_nat c) = cell w (Z.of_nat q) (Z.of_nat c)) /\
    (forall c b, cell w1 0 (Z.of_nat c) = Some b ->
       (length (blockStore w) <= b)%nat /\
       exists blk, blockStore w1 !! b = Some blk /\ isWall blk = true) /\
    (forall b blk, blockStore w !! b = Some blk -> isWall blk = false ->
       exists blk', blockStore w1 !! b = Some blk' /\ isWall blk' = false).
Proof.
  intros Hg Hn.
  pose proof (shiftGrid_spec (D:=False) n w Hg Hn) as H. unfold wpd in H.
  destruct (shiftGrid w) as [[[]| |] w1]; [|done|done].
  exists w1. split; [done|]. split.
  { rewrite (proj1 (gk_shape _ _ (sd_ok _ _ _ H))).
    by rewrite (proj1 (gk_shape _ _ Hg)). }
  split; [|split].
  - intros q c Hq. destruct (cell w (Z.of_nat q) (Z.of_nat c)) as [b|] eqn:Hb.
    + by apply (sd_down _ _ _ H).
    + destruct (cell w1 (Z.of_nat (S q)) (Z.of_nat c)) as [b|] eqn:Hb1; [|done].
      apply (sd_up _ _ _ H) in Hb1 as [Hb1 _]. congruence.
  - intros c b Hb. split; [by apply (sd_fresh _ _ _ H c)|].
    destruct (sd_top _ _ _ H c b Hb) as (blk & ? & _ & ?). by exists blk.
  - intros b blk Hb Hw.
    destruct (sd_kept _ _ _ H b blk Hb) as (blk' & ? & Hw' & _).
    exists blk'. auto.
Qed.

Lemma shiftGrid_moves_rows_witness :
  grid_ok 4 maze4 /\ 0 <= 4 /\
  exists w1,
    shiftGrid maze4 = (Ret tt, w1) /\
    length (maze w1) = length (maze maze4) /\
    (forall q c, (S q < length (maze maze4))%nat ->
       cell w1 (Z.of_nat (S q)) (Z.of_nat c)
       = cell maze4 (Z.of_nat q) (Z.of_nat c)) /\
    (forall c b, cell w1 0 (Z.of_nat c) = Some b ->
       (length (blockStore maze4) <= b)%nat /\
       exists blk, blockStore w1 !! b = Some blk /\ isWall blk = true) /\
    (forall b blk, blockStore maze4 !! b = Some blk -> isWall blk = false ->
       exists blk', blockStore w1 !! b = Some blk' /\ isWall blk' = false).
Proof.
  pose proof (he_grid _ _ (reachable_healthy 4 maze4 reachable_maze4)) as Hg.
  split; [exact Hg|]. split; [lia|].
  apply (shiftGrid_moves_rows 4 maze4 Hg). lia.
Defined.

(** ** The main path as a sliding window *)

(** The blocks [l], in order, each in the neighbour list of the one
    before it, the first in that of [c]; the lists are those of [w]. *)
Fixpoint chained (w : Engine) (c : ref) (l : list ref) : Prop :=
  match l with
  | [] => True
  | b :: l' =>
      (exists blk, blockStore w !! c = Some blk /\ b ∈ adjacentBlocks blk) /\
      chained w b l'
  end.

Lemma chained_snoc w c0 l c b :
  chained w c0 l -> last (c0 :: l) = Some c ->
  (exists blk, blockStore w !! c = Some blk /\ b ∈ adjacentBlocks blk) ->
  chained w c0 (l ++ [b]).
Proof.
  revert c0. induction l as [|x l IH]; intros c0 Hch Hlast Hb; simpl in *.
  - injection Hlast as ->. by split.
  - destruct Hch as [Hx Hch]. split; [done|]. apply IH; [done | | done].
    by destruct l.
Qed.

Lemma last_cons_snoc {A} (c0 : A) l b : last (c0 :: l ++ [b]) = Some b.
Proof. change (last ((c0 :: l) ++ [b]) = Some b). apply last_snoc. Qed.

Lemma same_adjacent_trans (l1 l2 l3 : list Block) :
  Forall2 (fun x y => adjacentBlocks y = adjacentBlocks x) l1 l2 ->
  Forall2 (fun x y => adjacentBlocks y = adjacentBlocks x) l2 l3 ->
  Forall2 (fun x y => adjacentBlocks y = adjacentBlocks x) l1 l3.
Proof.
  intros H12 H23.
  eapply Forall2_trans; [|exact H12|exact H23].
  intros x y z Hxy Hyz. exact (eq_trans Hyz Hxy).
Qed.

(** [extendMainPath] drops a block from the start of the main path for
    every block it adds at its end.  When it returns, the blocks it has
    added form a chain of neighbours that starts at the block the path
    ended with, each being in the neighbour list of the one before; the
    main path is what was there with these blocks appended and as many
    blocks taken off the front, so it has the length it had. *)
Theorem extendMainPath_slides fuel w w' p pth :
  extendMainPath fuel w = (Ret tt, w') ->
  mainPath w = Some p -> pathStore w !! p = Some pth ->
  exists c added pth',
    last (subPath pth) = Some c /\
    chained w c added /\
    pathStore w' !! p = Some pth' /\
    subPath pth' = drop (length added) (subPath pth ++ added) /\
    length (subPath pth') = length (subPath pth) /\
    distance pth' = distance pth.
Proof.
  intros Hrun Hm Hp.
  set (same := fun w1 : Engine =>
    Forall2 (fun x y : Block => adjacentBlocks y = adjacentBlocks x)
      (blockStore w) (blockStore w1)).
  set (I := fun (c0 c : ref) (w1 : Engine) =>
    mainPath w1 = Some p /\ same w1 /\
    exists added pth1,
      pathStore w1 !! p = Some pth1 /\
      subPath pth1 = drop (length added) (subPath pth ++ added) /\
      distance pth1 = distance pth /\
      chained w c0 added /\ last (c0 :: added) = Some c).
  assert (H : wp (extendMainPath fuel)
                (fun _ w1 => exists c0 c, last (subPath pth) = Some c0 /\ I c0 c w1)
                (fun _ => True) w).
  { unfold extendMainPath, theMainPath. wp_go. rewrite Hm. wp_step; [|done].
    injection H as <-. wp_go. apply wp_getPath; [|done]. intros pth0 Hpth0.
    rewrite Hp in Hpth0. injection Hpth0 as <-.
    wp_go. wp_step; [|done]. rename a into c0.
    apply at_index_last in H. rename H into Hlast.
    eapply wp_mono;
      [apply (wp_while fuel _ (fun c w1 => I c0 c w1)
                (fun _ w1 => exists c, I c0 c w1) (fun _ => True)) | | done].
    3:{ intros [] w1 [c HI]. by exists c0, c. }
    { split; [done|]. split.
      { unfold same. apply Forall2_same_length_lookup_2; [done|].
        intros i x y Hx Hy. rewrite Hx in Hy. by injection Hy as <-. }
      exists [], pth. by rewrite app_nil_r. }
    clear Hrun Hm Hp Hlast.
    intros c w1 [Hm [Hsame (added & pth1 & Hp1 & Hsub & Hd & Hch & Hlast)]].
    unfold extendMainPath_round.
    wp_go. apply wp_getBlock; [|done]. intros lb Hlb. wp_go.
    eapply wp_mono;
      [apply scan_collect;
         [apply scan_extendMainCandidate | apply extendMainCandidate_self]
      | | done].
    intros possible w2 [Hs Hposs]. cbv beta.
    assert (Hm2 : mainPath w2 = Some p) by (by rewrite (sc_main _ _ Hs)).
    assert (Hp2 : pathStore w2 !! p = Some pth1)
      by (by rewrite (sc_pathStore _ _ Hs)).
    assert (Hsame2 : same w2).
    { unfold same in *. apply (same_adjacent_trans _ _ _ Hsame).
      eapply Forall2_impl; [exact (sc_blocks _ _ Hs)|].
      by intros x y [(_ & _ & ? & _) _]. }
    assert (Hadj : forall b, b ∈ possible ->
              exists blk, blockStore w !! c = Some blk /\ b ∈ adjacentBlocks blk).
    { intros b Hb. rewrite Forall_forall in Hposs.
      destruct (Hposs b Hb) as [Hin _].
      destruct (Forall2_lookup_r _ _ _ _ _ Hsame Hlb) as (blk0 & Hblk0 & Heq).
      exists blk0. split; [done|]. by rewrite <- Heq. }
    clear Hs Hm Hp1 Hlb Hposs Hsame.
    assert (Hfinish : forall a w3, I c0 a w3 ->
      wp (lb0 <- getBlock a ;;
          if (rowIndex lb0 =? 1) || (length possible =? 0)%nat
          then ret (inr tt)
          else
            o <- mathRandom ;;
            (if scaled o 7 <? 1
             then (a0 <- gets pathSeeds ;; pushArray a0 a)
             else ret tt) ;;
            ret (inl a))
        (fun (r : ref + ()) w' =>
           match r with
           | inl c' => I c0 c' w'
           | inr _ => exists c', I c0 c' w'
           end)
        (fun _ => True) w3).
    { intros a w3 HI. wp_go. apply wp_getBlock; [|done]. intros lb0 _.
      destruct ((rowIndex lb0 =? 1) || (length possible =? 0)%nat).
      - wp_go. by exists a.
      - wp_go. apply wp_draw. intros o w4 Hr4.
        assert (HI4 : I c0 a w4) by (by rewrite Hr4).
        wp_go. destruct (scaled o 7 <? 1).
        + wp_go. apply wp_pushArray; [|done]. intros arr Harr. by wp_go.
        + by wp_go. }
    wp_go. destruct (0 <? length possible)%nat.
    - wp_go. apply wp_pick; [|done]. intros b w3 Hb Hr3.
      assert (Hm3 : mainPath w3 = Some p) by (by rewrite Hr3).
      assert (Hp3 : pathStore w3 !! p = Some pth1) by (by rewrite Hr3).
      assert (Hsame3 : same w3) by (by rewrite Hr3).
      wp_go. apply wp_modifyBlock; [|done]. intros blk Hblk.
      wp_go. unfold theMainPath. wp_go. simpl. rewrite Hm3. wp_step; [|done].
      injection H as <-.
      wp_go. unfold pushSubPath. apply wp_modifyPath; [|done]. intros pth' Hpth'.
      simpl in Hpth'. rewrite Hp3 in Hpth'. injection Hpth' as <-.
      wp_go. apply wp_modifyPath; [|done]. intros pth' Hpth'.
      simpl in Hpth'.
      rewrite list_lookup_insert_eq in Hpth' by (by eapply lookup_lt_Some).
      injection Hpth' as <-. wp_step.
      apply (Hfinish b). split; [done|]. split.
      { unfold same in *. simpl. apply (same_adjacent_trans _ _ _ Hsame3).
        by eapply Forall2_insert_r; [apply _ | exact Hblk |]. }
      exists (added ++ [b]), (set_subPath (drop 1 (subPath pth1 ++ [b])) pth1).
      split; [|split; [|split; [done|split]]].
      + simpl. rewrite list_insert_insert_eq.
        apply list_lookup_insert_eq. by eapply lookup_lt_Some.
      + simpl. rewrite Hsub, length_app. simpl.
        rewrite (app_assoc (subPath pth)).
        rewrite <- (drop_app_le (subPath pth ++ added) [b] (length added))
          by (rewrite length_app; lia).
        by rewrite drop_drop.
      + apply (chained_snoc w c0 added c b); [done | done | by apply Hadj].
      + apply last_cons_snoc.
    - wp_step. apply (Hfinish c). split; [done|]. split; [done|].
      by exists added, pth1. }
  pose proof (wp_run (D:=True) _ _ _ _ _ _ Hrun H)
    as (c0 & c & Hlast & _ & _ & (added & pth' & ? & Hsub & ? & Hch & _)).
  exists c0, added, pth'. split; [done|]. split; [done|]. split; [done|].
  split; [done|]. split; [|done].
  rewrite Hsub, length_drop, !length_app. lia.
Qed.

Lemma extendMainPath_slides_witness :
  extendMainPath 100 maze4_lowered
  = (Ret tt, snd (extendMainPath 100 maze4_lowered)) /\
  mainPath maze4_lowered = Some 0%nat /\
  pathStore maze4_lowered !! 0%nat
  = Some (mkPath [37; 34; 35; 32; 29; 26; 23; 20; 17; 14; 11; 8; 5]%nat 80) /\
  exists c added pth',
    last [37; 34; 35; 32; 29; 26; 23; 20; 17; 14; 11; 8; 5]%nat = Some c /\
    chained maze4_lowered c added /\
    pathStore (snd (extendMainPath 100 maze4_lowered)) !! 0%nat = Some pth' /\
    subPath pth'
    = drop (length added)
        ([37; 34; 35; 32; 29; 26; 23; 20; 17; 14; 11; 8; 5]%nat ++ added) /\
    length (subPath pth') = 13%nat /\
    distance pth' = 80.
Proof.
  assert (H1 : extendMainPath 100 maze4_lowered
               = (Ret tt, snd (extendMainPath 100 maze4_lowered)))
    by (by vm_compute).
  assert (H2 : mainPath maze4_lowered = Some 0%nat) by (by vm_compute).
  assert (H3 : pathStore maze4_lowered !! 0%nat
               = Some (mkPath [37; 34; 35; 32; 29; 26; 23; 20; 17; 14; 11; 8; 5]%nat 80))
    by (by vm_compute).
  split; [exact H1|]. split; [exact H2|]. split; [exact H3|].
  exact (extendMainPath_slides 100 maze4_lowered _ 0 _ H1 H2 H3).
Defined.

(** ** Where the character starts, and where a step leads *)

(** When [start] returns, the character stands on the first block of
    the main path: a floor block of the bottom row, in a column other
    than the first. *)
Theorem character_starts_at_bottom n draws fuel w :
  start fuel (loaded n draws) = (Ret tt, w) ->
  exists b blk p pth,
    character w = Some b /\ blockStore w !! b = Some blk /\
    isWall blk = false /\ rowIndex blk = 3 * n /\ 1 <= blockIndex blk <= n - 2 /\
    mainPath w = Some p /\ pathStore w !! p = Some pth /\
    head (subPath pth) = Some b.
Proof.
  intros Hrun. pose proof (start_needs_width _ _ _ _ Hrun) as Hn.
  pose proof (wp_run (D:=True) _ _ _ _ _ _ Hrun (start_bottom n draws fuel Hn))
    as (b & blk & p & pth & Hc & Hblk & Hr & Hk & Hcell & Hm & Hp & Hhd & _).
  pose proof (start_healthy _ _ _ _ Hrun) as Hh.
  destruct (he_char _ _ Hh) as (b' & blk' & Hc' & _ & Hblk' & Hw).
  rewrite Hc in Hc'. injection Hc' as <-.
  rewrite Hblk in Hblk'. injection Hblk' as <-.
  destruct (cell_shape n w _ _ _ (gk_shape _ _ (he_grid _ _ Hh)) Hcell) as [_ Hcol].
  exists b, blk, p, pth. repeat (split; [done|]).
  split; [|done]. unfold rowWidth in Hcol. lia.
Qed.

Lemma character_starts_at_bottom_witness :
  start 100 (loaded 4 draws4) = (Ret tt, maze4) /\
  exists b blk p pth,
    character maze4 = Some b /\ blockStore maze4 !! b = Some blk /\
    isWall blk = false /\ rowIndex blk = 3 * 4 /\ 1 <= blockIndex blk <= 4 - 2 /\
    mainPath maze4 = Some p /\ pathStore maze4 !! p = Some pth /\
    head (subPath pth) = Some b.
Proof.
  assert (H : start 100 (loaded 4 draws4) = (Ret tt, maze4)) by (by vm_compute).
  split; [exact H|].
  exact (character_starts_at_bottom 4 draws4 100 maze4 H).
Defined.

(** A step onto a floor block that does not shift the maze (any step
    to the left, to the right or down, and a step up to a row that is
    not above the line) returns and changes the character's location,
    and nothing else. *)
Theorem move_accepted fuel k w c cl b pb :
  character w = Some c -> blockStore w !! c = Some cl ->
  target k cl w = Some b -> blockStore w !! b = Some pb ->
  isWall pb = false ->
  (k = KeyW -> pastHalfway (rowIndex pb) (maze w) = false) ->
  keydown fuel k w = (Ret tt, set_character (Some b) w).
Proof.
  intros Hc Hcl Hb Hpb Hw Hline. destruct k; simpl.
  - change (moveTo (fun cl => rowIndex cl - 1) blockIndex
      (fun p pb =>
         rows <- gets maze ;;
         (if pastHalfway (rowIndex pb) rows then shiftMaze fuel else ret tt) ;;
         modify (set_character (Some p))) w = (Ret tt, set_character (Some b) w)).
    rewrite (moveTo_run _ _ _ w c cl b pb Hc Hcl Hb Hpb), Hw. simpl.
    unfold bind, gets. by rewrite Hline.
  - change (moveTo rowIndex (fun cl => blockIndex cl - 1)
      (fun p _ => modify (set_character (Some p))) w
      = (Ret tt, set_character (Some b) w)).
    by rewrite (moveTo_run _ _ _ w c cl b pb Hc Hcl Hb Hpb), Hw.
  - change (moveTo (fun cl => rowIndex cl + 1) blockIndex
      (fun p _ => modify (set_character (Some p))) w
      = (Ret tt, set_character (Some b) w)).
    by rewrite (moveTo_run _ _ _ w c cl b pb Hc Hcl Hb Hpb), Hw.
  - change (moveTo rowIndex (fun cl => blockIndex cl + 1)
      (fun p _ => modify (set_character (Some p))) w
      = (Ret tt, set_character (Some b) w)).
    by rewrite (moveTo_run _ _ _ w c cl b pb Hc Hcl Hb Hpb), Hw.
Qed.

Lemma move_accepted_witness :
  character maze4 = Some 37%nat /\
  blockStore maze4 !! 37%nat = Some (mkBlock false 12 1 [34; 38; 36]%nat 0) /\
  target KeyW (mkBlock false 12 1 [34; 38; 36]%nat 0) maze4 = Some 34%nat /\
  blockStore maze4 !! 34%nat = Some (mkBlock false 11 1 [31; 35; 33]%nat 0) /\
  pastHalfway 11 (maze maze4) = false /\
  keydown 100 KeyW maze4 = (Ret tt, set_character (Some 34%nat) maze4).
Proof.
  repeat (split; [by vm_compute|]).
  apply (move_accepted 100 KeyW maze4 37 (mkBlock false 12 1 [34; 38; 36]%nat 0)
           34 (mkBlock false 11 1 [31; 35; 33]%nat 0));
    by vm_compute.
Defined.

(** A step up onto a floor block of a row above the line, on a
    well-formed grid: when the handler returns, the maze has scrolled
    instead of the character.  Every row but the bottom one has moved
    down by one, and the block stepped on, still a floor block, is the
    character's location, in the row that the character was in. *)
Theorem moveUp_scrolls n fuel w c cl b pb w' :
  grid_ok n w -> 0 <= n ->
  character w = Some c -> blockStore w !! c = Some cl ->
  target KeyW cl w = Some b -> blockStore w !! b = Some pb ->
  isWall pb = false ->
  pastHalfway (rowIndex pb) (maze w) = true ->
  keydown fuel KeyW w = (Ret tt, w') ->
  character w' = Some b /\
  length (maze w') = length (maze w) /\
  (forall q k, (S q < length (maze w))%nat ->
     cell w' (Z.of_nat (S q)) (Z.of_nat k) = cell w (Z.of_nat q) (Z.of_nat k)) /\
  exists blk', blockStore w' !! b = Some blk' /\
               rowIndex blk' = rowIndex cl /\ isWall blk' = false.
Proof.
  intros Hg Hn Hc Hcl Hb Hpb Hw Hline Hrun.
  change (moveTo (fun cl => rowIndex cl - 1) blockIndex
    (fun p pb =>
       rows <- gets maze ;;
       (if pastHalfway (rowIndex pb) rows then shiftMaze fuel else ret tt) ;;
       modify (set_character (Some p))) w = (Ret tt, w')) in Hrun.
  rewrite (moveTo_run _ _ _ w c cl b pb Hc Hcl Hb Hpb), Hw in Hrun.
  simpl in Hrun. unfold bind at 1 in Hrun. unfold gets in Hrun.
  rewrite Hline in Hrun. unfold bind, modify in Hrun.
  destruct (shiftMaze fuel w) as [[[]| |] w2] eqn:Hsm; try done.
  injection Hrun as <-.
  assert (H : wp (shiftMaze fuel)
                (fun _ w2 => exists w1, shifted n w w1 /\ gen_frame w1 w2)
                (fun _ => True) w).
  { apply (shiftMaze_unfold n); [done | done |]. intros w1 Hs.
    apply (wp_keeps gen_frame); [apply gen_shiftPaths | | done].
    intros _ w3 Hf. by exists w1. }
  pose proof (wp_run (D:=True) _ _ _ _ _ _ Hsm H) as (w1 & Hs & Hf).
  assert (Hcells : forall i k, cell w2 i k = cell w1 i k).
  { intros i k. apply cell_frame, Hf. }
  split; [done|]. split.
  { simpl. rewrite (gf_maze _ _ Hf).
    rewrite (proj1 (gk_shape _ _ (sd_ok _ _ _ Hs))).
    by rewrite (proj1 (gk_shape _ _ Hg)). }
  split.
  - intros q k Hq.
    change (cell w2 (Z.of_nat (S q)) (Z.of_nat k) = cell w (Z.of_nat q) (Z.of_nat k)).
    rewrite Hcells.
    destruct (cell w (Z.of_nat q) (Z.of_nat k)) as [x|] eqn:Hx.
    + by apply (sd_down _ _ _ Hs).
    + destruct (cell w1 (Z.of_nat (S q)) (Z.of_nat k)) as [x|] eqn:Hx1; [|done].
      apply (sd_up _ _ _ Hs) in Hx1 as [Hx1 _]. congruence.
  - assert (Hb' : cell w (rowIndex cl - 1) (blockIndex cl) = Some b) by exact Hb.
    pose proof Hb' as (row & Hr0 & Hk0 & _)%cell_Some.
    destruct (gk_indexed _ _ Hg (Z.to_nat (rowIndex cl - 1))
                (Z.to_nat (blockIndex cl)) b) as (pb' & Hpb' & Hpr & _).
    { by rewrite !Z2Nat.id by lia. }
    rewrite Hpb in Hpb'. injection Hpb' as <-. rewrite Z2Nat.id in Hpr by lia.
    unfold pastHalfway in Hline. apply Z.ltb_lt in Hline.
    assert (Hb1 : cell w1 (Z.of_nat (S (Z.to_nat (rowIndex cl - 1))))
                    (Z.of_nat (Z.to_nat (blockIndex cl))) = Some b).
    { apply (sd_down _ _ _ Hs); [by rewrite !Z2Nat.id by lia | lia]. }
    destruct (gk_indexed _ _ (sd_ok _ _ _ Hs) _ _ _ Hb1) as (blk1 & Hblk1 & Hr1 & _).
    destruct (sd_kept _ _ _ Hs b pb Hpb) as (blk1' & Hblk1' & Hw1 & _).
    rewrite Hblk1 in Hblk1'. injection Hblk1' as <-.
    destruct (Forall2_lookup_l _ _ _ _ _ (gf_blocks _ _ Hf) Hblk1)
      as (blk2 & Hblk2 & (Hr2 & _ & Hw2)).
    exists blk2. split; [done|]. split; [lia | auto].
Qed.

(** The first run at the line: up, right, up. *)
Definition maze4_line : Engine :=
  orElse maze4 (press 100 [KeyW; KeyD; KeyW] maze4).

Lemma moveUp_scrolls_witness :
  grid_ok 4 maze4_line /\ 0 <= 4 /\
  character maze4_line = Some 32%nat /\
  blockStore maze4_line !! 32%nat = Some (mkBlock false 10 2 [29; 31]%nat 2) /\
  target KeyW (mkBlock false 10 2 [29; 31]%nat 2) maze4_line = Some 29%nat /\
  blockStore maze4_line !! 29%nat = Some (mkBlock false 9 2 [26; 32; 28]%nat 2) /\
  pastHalfway 9 (maze maze4_line) = true /\
  keydown 100 KeyW maze4_line = (Ret tt, snd (keydown 100 KeyW maze4_line)) /\
  character (snd (keydown 100 KeyW maze4_line)) = Some 29%nat /\
  exists blk', blockStore (snd (keydown 100 KeyW maze4_line)) !! 29%nat = Some blk' /\
               rowIndex blk' = 10 /\ isWall blk' = false.
Proof.
  assert (Hr : reachable 4 maze4_line).
  { apply (reachable_press 4 100 [KeyW; KeyD; KeyW] maze4);
      [apply reachable_maze4 | by vm_compute]. }
  pose proof (he_grid _ _ (reachable_healthy 4 maze4_line Hr)) as Hg.
  split; [exact Hg|]. split; [lia|].
  repeat (split; [by vm_compute|]).
  destruct (moveUp_scrolls 4 100 maze4_line 32 (mkBlock false 10 2 [29; 31]%nat 2)
              29 (mkBlock false 9 2 [26; 32; 28]%nat 2)
              (snd (keydown 100 KeyW maze4_line)) Hg)
    as (_ & _ & _ & H);
    [lia | by vm_compute | by vm_compute | by vm_compute | by vm_compute
    | by vm_compute | by vm_compute | by vm_compute |].
  exact H.
Defined.

(** ** Floors stay floors *)

(** No key handler ever turns a floor block back into a wall, or loses a
    Block object: whatever the state and however the handler ends, a
    block that was floor before the key is floor after it. *)
Theorem floors_stay_floors fuel k w o w' b blk :
  keydown fuel k w = (o, w') -> o <> Diverge ->
  blockStore w !! b = Some blk -> isWall blk = false ->
  exists blk', blockStore w' !! b = Some blk' /\ isWall blk' = false.
Proof.
  intros Hrun Ho Hb Hw.
  pose proof (wp_run (D:=True) _ _ _ _ _ _ Hrun (evolve_keydown fuel k w)) as H.
  destruct o; [| |done]; exact (ev_floor _ _ H b blk Hb Hw).
Qed.

Lemma floors_stay_floors_witness :
  keydown 100 KeyW maze4_line = (Ret tt, snd (keydown 100 KeyW maze4_line)) /\
  Ret tt <> Diverge /\
  blockStore maze4_line !! 37%nat = Some (mkBlock false 12 1 [34; 38; 36]%nat 0) /\
  exists blk', blockStore (snd (keydown 100 KeyW maze4_line)) !! 37%nat = Some blk' /\
               isWall blk' = false.
Proof.
  split; [by vm_compute|]. split; [done|].
  assert (H : blockStore maze4_line !! 37%nat = Some (mkBlock false 12 1 [34; 38; 36]%nat 0))
    by (by vm_compute).
  split; [exact H|].
  apply (floors_stay_floors 100 KeyW maze4_line (Ret tt) _ 37
           (mkBlock false 12 1 [34; 38; 36]%nat 0));
    [by vm_compute | done | exact H | done].
Defined.

(** * The top row *)

(** Every floor block lies below the top row, going by its rowIndex. *)
Definition floorsBelowTop (w : Engine) : Prop :=
  forall b blk, blockStore w !! b = Some blk -> isWall blk = false ->
    1 <= rowIndex blk.

#[export] Instance floors_from_preorder : PreOrder floors_from.
Proof.
  split.
  - intros w b blk Hb Hw. right. exists blk. split; [done|]. split; [done | lia].
  - intros w1 w2 w3 H12 H23 b blk3 Hb3 Hw3.
    destruct (H23 b blk3 Hb3 Hw3) as [?|(blk2 & Hb2 & Hw2 & Hr2)]; [by left|].
    destruct (H12 b blk2 Hb2 Hw2) as [?|(blk1 & Hb1 & Hw1 & Hr1)]; [left; lia|].
    right. exists blk1. split; [done|]. split; [done | lia].
Qed.
#[export] Hint Resolve floors_from_preorder : keeps.

Lemma floors_from_top w w' :
  floors_from w w' -> floorsBelowTop w -> floorsBelowTop w'.
Proof.
  intros Hf HT b blk' Hb Hw.
  destruct (Hf b blk' Hb Hw) as [?|(blk & Hb0 & Hw0 & Hr)]; [done|].
  pose proof (HT b blk Hb0 Hw0). lia.
Qed.

Lemma floors_from_same w w' : blockStore w' = blockStore w -> floors_from w w'.
Proof.
  intros Heq b blk' Hb Hw. rewrite Heq in Hb.
  right. exists blk'. split; [done|]. split; [done | lia].
Qed.

(** ** What leaves the floors where they are *)

Lemma ff_modify_same f :
  (forall w, blockStore (f w) = blockStore w) -> keeps floors_from (modify f).
Proof. intros Hf. apply keeps_modify. intros w. by apply floors_from_same. Qed.

Lemma ff_modifyBlock b f :
  (forall blk, isWall (f blk) = isWall blk /\ rowIndex blk <= rowIndex (f blk)) ->
  keeps floors_from (modifyBlock b f).
Proof.
  intros Hf w. apply wp_modifyBlock; [|by intros; reflexivity].
  intros blk Hblk c blk' Hc Hw. simpl in Hc. right.
  apply list_lookup_insert_Some in Hc as [(-> & <- & _)|[_ Hc]].
  - destruct (Hf blk) as [Hw' Hr]. exists blk. rewrite Hw' in Hw. by split.
  - exists blk'. split; [done|]. split; [done | lia].
Qed.

Lemma ff_mathRandom : keeps floors_from mathRandom.
Proof. apply keeps_mathRandom; [apply _|]. intros w v. by apply floors_from_same. Qed.

#[export] Hint Resolve ff_mathRandom : keeps.
#[export] Hint Extern 1 (keeps floors_from (modify _)) =>
  (apply ff_modify_same; intros; reflexivity) : keeps.
#[export] Hint Extern 1 (keeps floors_from (modifyBlock _ _)) =>
  (apply ff_modifyBlock; intros; split; simpl; [reflexivity | lia]) : keeps.

Lemma ff_modifyPath p f : keeps floors_from (modifyPath p f).
Proof. unfold modifyPath. keeps_auto. Qed.

Lemma ff_pushArray a v : keeps floors_from (pushArray a v).
Proof. unfold pushArray. keeps_auto. Qed.

Lemma ff_newPath : keeps floors_from newPath.
Proof. unfold newPath. keeps_auto. Qed.

Lemma ff_newArray : keeps floors_from newArray.
Proof. unfold newArray. keeps_auto. Qed.

Lemma ff_pushSubPath p b : keeps floors_from (pushSubPath p b).
Proof. unfold pushSubPath. apply ff_modifyPath. Qed.

Lemma ff_moveBlockDown b : keeps floors_from (moveBlockDown b).
Proof. unfold moveBlockDown. keeps_auto. Qed.

#[export] Hint Resolve ff_modifyPath ff_pushArray ff_newPath ff_newArray
  ff_pushSubPath ff_moveBlockDown : keeps.

Lemma ff_checkForWallBlocks b : keeps floors_from (checkForWallBlocks b).
Proof. unfold checkForWallBlocks. keeps_auto. Qed.

Lemma ff_getAdjacentBlocks b : keeps floors_from (getAdjacentBlocks b).
Proof. unfold getAdjacentBlocks. keeps_auto. Qed.

Lemma ff_pick l : keeps floors_from (pick l).
Proof. unfold pick. keeps_auto. Qed.

#[export] Hint Resolve ff_checkForWallBlocks ff_getAdjacentBlocks ff_pick : keeps.

Lemma ff_resetAdjacentBlocks : keeps floors_from resetAdjacentBlocks.
Proof. unfold resetAdjacentBlocks. keeps_auto. Qed.

(** A new block is a wall, and is given its indices while it is one. *)
Lemma ff_fillRow i : keeps floors_from (fillRow i).
Proof.
  unfold fillRow.
  apply keeps_bind; [apply _ | keeps_auto | intros pg].
  apply keeps_bind; [apply _ | keeps_auto | intros prow].
  apply keeps_forEach; [apply _ | intros k].
  do 4 (apply keeps_bind; [apply _ | keeps_auto | intros _]).
  intros w. unfold newBlock. wp_go.
  set (w1 := set_blockStore _ w).
  assert (H1 : floors_from w w1).
  { intros c blk' Hc Hw. simpl in Hc. right.
    apply lookup_app_Some in Hc as [Hc|[_ Hc]].
    - exists blk'. split; [done|]. split; [done | lia].
    - destruct (c - length (blockStore w))%nat; [|done].
      injection Hc as <-. done. }
  unfold rowAt. wp_go. wp_step; [|done]. wp_go.
  set (w2 := set_maze _ w1).
  apply wp_modifyBlock; [|done]. intros blk Hblk.
  assert (Hwall : isWall blk = true).
  { simpl in Hblk. apply lookup_app_Some in Hblk as [Hl|[_ Hl]].
    - apply lookup_lt_Some in Hl. lia.
    - rewrite Nat.sub_diag in Hl. by injection Hl as <-. }
  set (w3 := set_blockStore _ w2).
  assert (H3 : floors_from w w3).
  { intros c blk' Hc Hw. simpl in Hc.
    apply list_lookup_insert_Some in Hc as [(_ & <- & _)|[_ Hc]].
    - simpl in Hw. congruence.
    - by apply (H1 c). }
  cbv beta.
  eapply wp_mono;
    [apply ff_modifyBlock; intros; split; simpl; [done | lia] | |];
    intros; cbv beta in *; by transitivity w3.
Qed.
#[export] Hint Resolve ff_resetAdjacentBlocks ff_fillRow : keeps.

Lemma ff_createNewRow : keeps floors_from createNewRow.
Proof. unfold createNewRow. keeps_auto. Qed.

Lemma ff_makeMaze : keeps floors_from makeMaze.
Proof. unfold makeMaze. keeps_auto. Qed.

Lemma ff_splicePaths : keeps floors_from splicePaths.
Proof. unfold splicePaths. keeps_auto. Qed.

Lemma ff_shareSecondSeeds : keeps floors_from shareSecondSeeds.
Proof. unfold shareSecondSeeds. keeps_auto. Qed.

Lemma ff_clearSeeds : keeps floors_from clearSeeds.
Proof. unfold clearSeeds. keeps_auto. Qed.

#[export] Hint Resolve ff_createNewRow ff_makeMaze ff_splicePaths
  ff_shareSecondSeeds ff_clearSeeds : keeps.
(** ** Code that keeps the floors below the top row *)

Definition tops {A} (m : M A) : Prop :=
  forall w, floorsBelowTop w ->
    wp m (fun _ w' => floorsBelowTop w') (fun _ => True) w.

Lemma tops_keeps {A} (m : M A) : keeps floors_from m -> tops m.
Proof.
  intros Hm w HT. eapply wp_mono; [apply Hm | | done].
  intros a w' Hf. by apply (floors_from_top w).
Qed.

Lemma tops_bind {A B} (m : M A) (f : A -> M B) :
  tops m -> (forall a, tops (f a)) -> tops (bind m f).
Proof.
  intros Hm Hf w HT. apply wp_bind. eapply wp_mono; [by apply Hm | | done].
  intros a w1 H1. by apply Hf.
Qed.

Lemma tops_forEach {A} (l : list A) (body : A -> M unit) :
  (forall a, tops (body a)) -> tops (forEach l body).
Proof.
  intros Hb w HT. apply (wp_forEach l body floorsBelowTop); [done|].
  intros a w1 _ H1. by apply Hb.
Qed.

Lemma tops_while {S T} fuel (body : S -> M (S + T)) s :
  (forall s, tops (body s)) -> tops (while fuel body s).
Proof.
  intros Hb w HT.
  apply (wp_while fuel body (fun _ => floorsBelowTop) (fun _ => floorsBelowTop));
    [done|].
  intros s1 w1 H1. eapply wp_mono; [by apply Hb | | done].
  by intros [s2|r] w2 H2.
Qed.

Create HintDb tops discriminated.

Ltac tops_auto :=
  repeat first
    [ solve [eauto 3 with tops]
    | solve [apply tops_keeps; keeps_auto]
    | lazymatch goal with
      | |- tops (bind _ _) => apply tops_bind; [|intros ?]
      | |- tops (forEach _ _) => apply tops_forEach; intros ?
      | |- tops (while _ _ _) => apply tops_while; intros ?
      | |- tops (if ?c then _ else _) => destruct c
      | |- tops (match ?c with _ => _ end) => destruct c
      end ].

Lemma top_scan w w' : scan_frame w w' -> floorsBelowTop w -> floorsBelowTop w'.
Proof.
  intros Hs HT b blk' Hb Hw.
  destruct (Forall2_lookup_r _ _ _ _ _ (sc_blocks _ _ Hs) Hb)
    as (blk & Hblk & ((Hri & _) & Hwall)).
  rewrite Hri. apply (HT b blk Hblk). congruence.
Qed.

(** Carving one of the candidates, which lie below the top row. *)
Lemma tops_pick_carve {A} l (rest : ref -> M A) w :
  floorsBelowTop w -> (forall b, b ∈ l -> belowTop w b) ->
  (forall b, tops (rest b)) ->
  wp (b <- pick l ;; modifyBlock b (set_isWall false) ;; rest b)
    (fun _ w' => floorsBelowTop w') (fun _ => True) w.
Proof.
  intros HT Hl Hrest. wp_step. apply wp_pick; [|done]. intros b w2 Hb Hr.
  assert (Hbs : blockStore w2 = blockStore w) by (by rewrite Hr).
  wp_step. apply wp_modifyBlock; [|done]. intros blk Hblk. cbv beta.
  apply Hrest. intros c blk' Hc Hw. simpl in Hc.
  apply list_lookup_insert_Some in Hc as [(<- & <- & _)|[_ Hc]].
  - simpl. apply (Hl b Hb). by rewrite <- Hbs.
  - rewrite Hbs in Hc. by apply (HT c).
Qed.

Lemma tops_makeSubPath_round p c : tops (makeSubPath_round p c).
Proof.
  intros w HT. unfold makeSubPath_round.
  wp_step. apply wp_getBlock; [|done]. intros cur Hcur.
  wp_step. eapply wp_mono;
    [apply scan_collect; [apply scan_subPathCandidate | apply subPathCandidate_self]
    | | done].
  intros possible w1 [Hs Hposs]. cbv beta.
  pose proof (top_scan _ _ Hs HT) as HT1.
  assert (Hrest : forall cb, tops
    (cur0 <- getBlock cb ;;
     pth <- getPath p ;;
     if (rowIndex cur0 =? 1) || (length possible =? 0)%nat
        || (distance pth <=? Z.of_nat (length (subPath pth)))
     then
       (if (length possible =? 0)%nat
           || (distance pth <=? Z.of_nat (length (subPath pth)))
        then modify (fun w0 => set_pathsToSplice (pathsToSplice w0 ++ [p]) w0)
        else ret tt) ;;
       ret (inr tt)
     else
       o <- mathRandom ;;
       (if scaled o 20 <? 3
        then (a <- gets secondSeeds ;; pushArray a cb)
        else ret tt) ;;
       ret (inl cb))).
  { intros cb. apply tops_keeps. keeps_auto. }
  wp_step. destruct (0 <? length possible)%nat.
  - eapply wp_mono;
      [apply (tops_pick_carve possible (fun b => pushSubPath p b ;; ret b) w1 HT1)
      | | done].
    + intros b Hb. rewrite Forall_forall in Hposs. by apply Hposs.
    + intros b. apply tops_keeps. keeps_auto.
    + intros cb w2 HT2. by apply Hrest.
  - wp_step. by apply Hrest.
Qed.

Lemma tops_makePath_round c : tops (makePath_round c).
Proof.
  intros w HT. unfold makePath_round.
  wp_step. apply wp_getBlock; [|done]. intros cur Hcur.
  wp_step. eapply wp_mono;
    [apply scan_collect; [apply scan_mainCandidate | apply mainCandidate_self]
    | | done].
  intros possible w1 [Hs Hposs]. cbv beta.
  pose proof (top_scan _ _ Hs HT) as HT1.
  wp_step. apply wp_getBlock; [|done]. intros cur1 _.
  destruct ((rowIndex cur1 =? 1) || (length possible =? 0)%nat); [by wp_step|].
  apply (tops_pick_carve possible
    (fun b =>
       p <- theMainPath ;;
       pushSubPath p b ;;
       o <- mathRandom ;;
       (if scaled o 21 <? 4
        then (a <- gets pathSeeds ;; pushArray a b)
        else ret tt) ;;
       ret (inl b)) w1 HT1).
  - intros b Hb. rewrite Forall_forall in Hposs. by apply Hposs.
  - intros b. apply tops_keeps. keeps_auto.
Qed.

Lemma tops_extendMainPath_round c : tops (extendMainPath_round c).
Proof.
  intros w HT. unfold extendMainPath_round.
  wp_step. apply wp_getBlock; [|done]. intros lb Hlb.
  wp_step. eapply wp_mono;
    [apply scan_collect;
       [apply scan_extendMainCandidate | apply extendMainCandidate_self]
    | | done].
  intros possible w1 [Hs Hposs]. cbv beta.
  pose proof (top_scan _ _ Hs HT) as HT1.
  assert (Hrest : forall cb, tops
    (lb0 <- getBlock cb ;;
     if (rowIndex lb0 =? 1) || (length possible =? 0)%nat
     then ret (inr tt)
     else
       o <- mathRandom ;;
       (if scaled o 7 <? 1
        then (a <- gets pathSeeds ;; pushArray a cb)
        else ret tt) ;;
       ret (inl cb))).
  { intros cb. apply tops_keeps. keeps_auto. }
  wp_step. destruct (0 <? length possible)%nat.
  - eapply wp_mono;
      [apply (tops_pick_carve possible
                (fun b =>
                   p <- theMainPath ;;
                   pushSubPath p b ;;
                   modifyPath p (fun pth => set_subPath (drop 1 (subPath pth)) pth) ;;
                   ret b) w1 HT1)
      | | done].
    + intros b Hb. rewrite Forall_forall in Hposs. by apply Hposs.
    + intros b. apply tops_keeps. keeps_auto.
    + intros cb w2 HT2. by apply Hrest.
  - wp_step. by apply Hrest.
Qed.

Lemma tops_extendPaths_round p c : tops (extendPaths_round p c).
Proof.
  intros w HT. unfold extendPaths_round.
  wp_step. apply wp_getBlock; [|done]. intros lb Hlb.
  wp_step. eapply wp_mono;
    [apply scan_collect; [apply scan_extendCandidate | apply extendCandidate_self]
    | | done].
  intros possible w1 [Hs Hposs]. cbv beta.
  pose proof (top_scan _ _ Hs HT) as HT1.
  assert (Hrest : forall cb, tops
    (cur <- getBlock cb ;;
     pth <- getPath p ;;
     rows <- gets maze ;;
     if (rowIndex cur =? 1) || (length possible =? 0)%nat
        || (distance pth <=? Z.of_nat (length (subPath pth)))
     then
       low <- (if (distance pth <=? Z.of_nat (length (subPath pth)))
                  || (length possible =? 0)%nat
               then ret true
               else (nBlock <- defined (last (adjacentBlocks lb)) ;;
                     nb <- getBlock nBlock ;;
                     ret (Z.of_nat (length rows) - 3 <=? rowIndex nb))) ;;
       (if low : bool
        then modify (fun w0 => set_pathsToSplice (pathsToSplice w0 ++ [p]) w0)
        else ret tt) ;;
       ret (inr tt)
     else ret (inl cb))).
  { intros cb. apply tops_keeps. keeps_auto. }
  wp_step. destruct (0 <? length possible)%nat.
  - eapply wp_mono;
      [apply (tops_pick_carve possible
                (fun b =>
                   pushSubPath p b ;;
                   o <- mathRandom ;;
                   (if scaled o 9 <? 1
                    then (a <- gets secondSeeds ;; pushArray a b)
                    else ret tt) ;;
                   ret b) w1 HT1)
      | | done].
    + intros b Hb. rewrite Forall_forall in Hposs. by apply Hposs.
    + intros b. apply tops_keeps. keeps_auto.
    + intros cb w2 HT2. by apply Hrest.
  - wp_step. by apply Hrest.
Qed.

#[export] Hint Resolve tops_makeSubPath_round tops_makePath_round
  tops_extendMainPath_round tops_extendPaths_round : tops.

Lemma tops_makeSubPath fuel b : tops (makeSubPath fuel b).
Proof. unfold makeSubPath. tops_auto. Qed.
#[export] Hint Resolve tops_makeSubPath : tops.

Lemma tops_growSeeds fuel : tops (growSeeds fuel).
Proof. unfold growSeeds. tops_auto. Qed.

Lemma tops_extendMainPath fuel : tops (extendMainPath fuel).
Proof. unfold extendMainPath. tops_auto. Qed.

Lemma tops_extendPaths fuel p : tops (extendPaths fuel p).
Proof. unfold extendPaths. tops_auto. Qed.

#[export] Hint Resolve tops_growSeeds tops_extendMainPath tops_extendPaths : tops.

Lemma tops_shiftPaths fuel : tops (shiftPaths fuel).
Proof. unfold shiftPaths. tops_auto. Qed.
#[export] Hint Resolve tops_shiftPaths : tops.

Lemma tops_shiftMaze fuel : tops (shiftMaze fuel).
Proof. unfold shiftMaze. tops_auto. Qed.
#[export] Hint Resolve tops_shiftMaze : tops.

Lemma tops_keydown fuel k : tops (keydown fuel k).
Proof.
  destruct k; simpl;
    [unfold moveUp | unfold moveLeft | unfold moveDown | unfold moveRight];
    tops_auto.
Qed.

Lemma tops_start n draws fuel :
  3 <= n ->
  wp (start fuel) (fun _ w => floorsBelowTop w) (fun _ => True) (loaded n draws).
Proof.
  intros Hn.
  unfold start, calculateDimensions, makePointGrid. wp_go.
  assert (HT0 : floorsBelowTop
                  (set_pointGrid (pointGridOf n)
                     (set_numberOfRowPoints (n + 1) (loaded n draws))))
    by (by intros b blk Hb).
  eapply wp_mono;
    [apply (wp_and _ _ _ _ _ _ (makeMaze_tidy (D:=True) n draws Hn)
              (tops_keeps _ ff_makeMaze _ HT0)) | | by intros ? []].
  intros [] w1 [(Ht1 & _) HT1]. cbv beta.
  wp_step. unfold makePath. apply wp_bind.
  apply (makePath_trunk_init n fuel w1); [done|].
  intros p cb1 cb2 k d w6 _ _ _ _ _ _ _ _ _ Hf6.
  pose proof (floors_from_top _ _ Hf6 HT1) as HT6.
  eapply wp_mono;
    [apply (tops_while fuel makePath_round cb2 tops_makePath_round w6 HT6) | | done].
  intros [] w7 HT7. cbv beta.
  assert (Hrest : tops (growSeeds fuel ;; shareSecondSeeds ;; growSeeds fuel ;;
                        splicePaths ;; clearSeeds ;;
                        modify (set_pathsToSplice []))) by tops_auto.
  eapply wp_mono; [by apply Hrest | | done].
  intros [] w8 HT8. cbv beta.
  assert (Hchar : tops makeCharacter) by (unfold makeCharacter; tops_auto).
  by apply Hchar.
Qed.

Lemma reachable_top n w : reachable n w -> floorsBelowTop w.
Proof.
  induction 1 as [draws fuel w Hrun | w draws fuel k o w' Hr IH Hrun Ho].
  - pose proof (start_needs_width _ _ _ _ Hrun) as Hn.
    exact (wp_run (D:=True) _ _ _ _ _ _ Hrun (tops_start n draws fuel Hn)).
  - destruct o as [[]| |]; [| |done].
    + exact (wp_run (D:=True) _ _ _ _ _ _ Hrun
               (tops_keydown fuel k (set_rng draws w) IH)).
    + pose proof (steady_draws n w draws (reachable_steady n w Hr)) as Hsy.
      pose proof (wp_run (D:=True) _ _ _ _ _ _ Hrun
                    (keydown_total n fuel k _ Hsy (or_introl I))) as [-> _].
      exact IH.
Qed.

(** In every reachable state every floor block, in the grid or dropped
    from it, has a rowIndex of at least 1: the path generation never
    carves a block of row 0, and [shiftMaze] moves blocks down only.  So
    the top row of the grid is made of walls. *)
Theorem top_row_is_wall n w :
  reachable n w ->
  (forall b blk, blockStore w !! b = Some blk -> isWall blk = false ->
     1 <= rowIndex blk) /\
  (forall k b, cell w 0 k = Some b ->
     exists blk, blockStore w !! b = Some blk /\ isWall blk = true).
Proof.
  intros Hr. pose proof (reachable_top n w Hr) as HT. split; [exact HT|].
  intros k b Hc.
  pose proof Hc as (row & _ & Hk & _)%cell_Some.
  destruct (gk_indexed _ _ (he_grid _ _ (reachable_healthy n w Hr)) 0%nat
              (Z.to_nat k) b) as (blk & Hblk & Hrow & _).
  { by rewrite Z2Nat.id by lia. }
  exists blk. split; [done|].
  destruct (isWall blk) eqn:Hw; [done|].
  pose proof (HT b blk Hblk Hw). simpl in Hrow. lia.
Qed.

Lemma top_row_is_wall_witness :
  reachable 4 maze4_shifted_twice /\
  (forall b blk, blockStore maze4_shifted_twice !! b = Some blk ->
     isWall blk = false -> 1 <= rowIndex blk) /\
  (forall k b, cell maze4_shifted_twice 0 k = Some b ->
     exists blk, blockStore maze4_shifted_twice !! b = Some blk /\
                 isWall blk = true).
Proof.
  split; [exact reachable_maze4_shifted_twice|].
  exact (top_row_is_wall 4 maze4_shifted_twice reachable_maze4_shifted_twice).
Defined.

(** * The length of a branch, in every reachable state *)

(** ** What leaves the paths alone *)

(** Nothing about the paths has changed. *)
Record pathwise (w w' : Engine) : Prop := {
  pw_main : mainPath w' = mainPath w;
  pw_paths : paths w' = paths w;
  pw_pathStore : pathStore w' = pathStore w;
  pw_splice : pathsToSplice w' = pathsToSplice w
}.

#[export] Instance pathwise_preorder : PreOrder pathwise.
Proof.
  split.
  - intros w. by split.
  - intros a b c [] []. split; congruence.
Qed.
#[export] Hint Resolve pathwise_preorder : keeps.

Lemma pathwise_grid w w' : grid_only w w' -> pathwise w w'.
Proof. intros []. by split. Qed.

Lemma pathwise_scan w w' : scan_frame w w' -> pathwise w w'.
Proof. intros []. by split. Qed.

Lemma pw_modify f :
  (forall w, mainPath (f w) = mainPath w) ->
  (forall w, paths (f w) = paths w) ->
  (forall w, pathStore (f w) = pathStore w) ->
  (forall w, pathsToSplice (f w) = pathsToSplice w) ->
  keeps pathwise (modify f).
Proof. intros H1 H2 H3 H4. apply keeps_modify. intros w. by split. Qed.

Lemma pw_modifyBlock b f : keeps pathwise (modifyBlock b f).
Proof. intros w. apply wp_modifyBlock; [|reflexivity]. intros blk _. by split. Qed.

Lemma pw_mathRandom : keeps pathwise mathRandom.
Proof. apply keeps_mathRandom; [apply _|]. intros w v. by split. Qed.

#[export] Hint Resolve pw_modifyBlock pw_mathRandom : keeps.
#[export] Hint Extern 1 (keeps pathwise (modify _)) =>
  (apply pw_modify; intros; reflexivity) : keeps.

Lemma pw_pushArray a v : keeps pathwise (pushArray a v).
Proof. unfold pushArray. keeps_auto. Qed.

Lemma pw_newArray : keeps pathwise newArray.
Proof. unfold newArray. keeps_auto. Qed.

Lemma pw_pick l : keeps pathwise (pick l).
Proof. unfold pick. keeps_auto. Qed.

Lemma pw_shareSecondSeeds : keeps pathwise shareSecondSeeds.
Proof. unfold shareSecondSeeds. keeps_auto. Qed.

#[export] Hint Resolve pw_pushArray pw_newArray pw_pick pw_shareSecondSeeds : keeps.

Lemma pw_clearSeeds : keeps pathwise clearSeeds.
Proof. unfold clearSeeds. keeps_auto. Qed.

Lemma pw_checkForWallBlocks b : keeps pathwise (checkForWallBlocks b).
Proof. exact (keeps_weaken _ _ _ pathwise_scan (scan_checkForWallBlocks b)). Qed.

Lemma pw_subPathCandidate b : keeps pathwise (subPathCandidate b).
Proof. exact (keeps_weaken _ _ _ pathwise_scan (scan_subPathCandidate b)). Qed.

Lemma pw_mainCandidate c b : keeps pathwise (mainCandidate c b).
Proof. exact (keeps_weaken _ _ _ pathwise_scan (scan_mainCandidate c b)). Qed.

Lemma pw_extendMainCandidate c b : keeps pathwise (extendMainCandidate c b).
Proof. exact (keeps_weaken _ _ _ pathwise_scan (scan_extendMainCandidate c b)). Qed.

Lemma pw_extendCandidate b : keeps pathwise (extendCandidate b).
Proof. exact (keeps_weaken _ _ _ pathwise_scan (scan_extendCandidate b)). Qed.

Lemma pw_getAdjacentBlocks b : keeps pathwise (getAdjacentBlocks b).
Proof. exact (keeps_weaken _ _ _ pathwise_grid (grid_only_getAdjacentBlocks b)). Qed.

Lemma pw_moveBlockDown b : keeps pathwise (moveBlockDown b).
Proof. exact (keeps_weaken _ _ _ pathwise_grid (grid_only_moveBlockDown b)). Qed.

Lemma pw_resetAdjacentBlocks : keeps pathwise resetAdjacentBlocks.
Proof. exact (keeps_weaken _ _ _ pathwise_grid grid_only_resetAdjacentBlocks). Qed.

Lemma pw_createNewRow : keeps pathwise createNewRow.
Proof. exact (keeps_weaken _ _ _ pathwise_grid grid_only_createNewRow). Qed.

Lemma pw_makeMaze : keeps pathwise makeMaze.
Proof. exact (keeps_weaken _ _ _ pathwise_grid grid_only_makeMaze). Qed.

#[export] Hint Resolve pw_clearSeeds pw_checkForWallBlocks pw_subPathCandidate
  pw_mainCandidate pw_extendMainCandidate pw_extendCandidate
  pw_getAdjacentBlocks pw_moveBlockDown pw_resetAdjacentBlocks
  pw_createNewRow pw_makeMaze : keeps.

(** ** What the growth of one path leaves alone *)

(** The path [q] may have changed, and may have been marked for removal;
    every other path is as it was. *)
Record touches (q : pref) (w w' : Engine) : Prop := {
  tc_main : mainPath w' = mainPath w;
  tc_paths : paths w' = paths w;
  tc_length : length (pathStore w') = length (pathStore w);
  tc_others : forall p, p <> q -> pathStore w' !! p = pathStore w !! p;
  tc_kept : forall x, x ∈ pathsToSplice w -> x ∈ pathsToSplice w';
  tc_new : forall x, x ∈ pathsToSplice w' -> x <> q -> x ∈ pathsToSplice w
}.

#[export] Instance touches_preorder q : PreOrder (touches q).
Proof.
  split.
  - intros w. by split.
  - intros a b c [] []. split; try congruence; eauto.
    intros p Hp. by rewrite tc_others1, tc_others0.
Qed.
#[export] Hint Resolve touches_preorder : keeps.

Lemma touches_pathwise q w w' : pathwise w w' -> touches q w w'.
Proof. intros [H1 H2 H3 H4]. split; try congruence; intros x; by rewrite H4. Qed.

Lemma tc_pathwise {A} q (m : M A) : keeps pathwise m -> keeps (touches q) m.
Proof. apply keeps_weaken, touches_pathwise. Qed.

Lemma tc_modifyPath q f : keeps (touches q) (modifyPath q f).
Proof.
  intros w. apply wp_modifyPath; [|reflexivity]. intros pth Hp.
  split; simpl; try done.
  - by rewrite length_insert.
  - intros p Hne. by rewrite list_lookup_insert_ne.
Qed.

Lemma tc_pushSubPath q b : keeps (touches q) (pushSubPath q b).
Proof. apply tc_modifyPath. Qed.

Lemma tc_mark q :
  keeps (touches q)
    (modify (fun w => set_pathsToSplice (pathsToSplice w ++ [q]) w)).
Proof.
  apply keeps_modify. intros w. split; simpl; try done.
  - intros x Hx. apply elem_of_app. by left.
  - intros x [Hx|Hx%list_elem_of_singleton]%elem_of_app Hne; done.
Qed.

#[export] Hint Resolve tc_modifyPath tc_pushSubPath tc_mark : keeps.
#[export] Hint Extern 3 (keeps (touches _) _) =>
  (apply tc_pathwise; solve [eauto 3 with keeps]) : keeps.

Lemma tc_makeSubPath_round q c : keeps (touches q) (makeSubPath_round q c).
Proof. unfold makeSubPath_round. keeps_auto. Qed.

Lemma tc_extendPaths_round q c : keeps (touches q) (extendPaths_round q c).
Proof. unfold extendPaths_round. keeps_auto. Qed.

(** ** One round of a branch loop *)

Lemma wp_always {A} (m : M A) (Q : A -> Engine -> Prop) (E : Engine -> Prop) w :
  (forall a w', Q a w') -> (forall w', E w') -> wp m Q E w.
Proof. intros HQ HE. unfold wpd. destruct (m w) as [[a| |] w']; auto. Qed.

(** A round of [makeSubPath] that ends the loop with the path at its
    full length has marked the path. *)
Lemma makeSubPath_round_mark q c w :
  wp (makeSubPath_round q c)
    (fun r w' =>
       match r with
       | inl _ => True
       | inr _ =>
           forall pth', pathStore w' !! q = Some pth' ->
             distance pth' <= Z.of_nat (length (subPath pth')) ->
             q ∈ pathsToSplice w'
       end)
    (fun _ => True) w.
Proof.
  unfold makeSubPath_round.
  wp_step. apply wp_always; [intros cur w1 | done].
  wp_step. apply wp_always; [intros possible w2 | done].
  wp_step. apply wp_always; [intros cb w3 | done].
  wp_step. apply wp_getBlock; [|done]. intros cur0 _.
  wp_step. apply wp_getPath; [|done]. intros pth0 Hpth0.
  destruct ((rowIndex cur0 =? 1) || (length possible =? 0)%nat
            || (distance pth0 <=? Z.of_nat (length (subPath pth0)))).
  - wp_step.
    destruct ((length possible =? 0)%nat
              || (distance pth0 <=? Z.of_nat (length (subPath pth0)))) eqn:Hm.
    + wp_go. intros pth' _ _. simpl. apply elem_of_app. right. left.
    + wp_go. intros pth' Hp' Hd. rewrite Hpth0 in Hp'. injection Hp' as <-.
      apply orb_false_iff in Hm as [_ Hm]. apply Z.leb_gt in Hm. lia.
  - wp_step. apply wp_always; [intros o w4 | done].
    wp_step. apply wp_always; [intros [] w5 | done]. by wp_step.
Qed.

(** A round of [extendPaths] adds at most one block; it goes round again
    only while the path is shorter than its distance, and marks a path
    that it leaves at its full length. *)
Lemma extendPaths_round_len q c w pth :
  pathStore w !! q = Some pth ->
  wp (extendPaths_round q c)
    (fun r w' =>
       exists pth', pathStore w' !! q = Some pth' /\
         distance pth' = distance pth /\
         (length (subPath pth') <= S (length (subPath pth)))%nat /\
         match r with
         | inl _ => Z.of_nat (length (subPath pth')) < distance pth'
         | inr _ =>
             distance pth' <= Z.of_nat (length (subPath pth')) ->
             q ∈ pathsToSplice w'
         end)
    (fun _ => True) w.
Proof.
  intros Hp. unfold extendPaths_round.
  wp_step. apply wp_getBlock; [|done]. intros lb _.
  wp_step. apply (wp_keeps pathwise); [keeps_auto | | done].
  intros possible w1 H1. cbv beta.
  assert (Hp1 : pathStore w1 !! q = Some pth) by (by rewrite (pw_pathStore _ _ H1)).
  clear H1 Hp.
  assert (Hfinish : forall a w2 pth2,
    pathStore w2 !! q = Some pth2 -> distance pth2 = distance pth ->
    (length (subPath pth2) <= S (length (subPath pth)))%nat ->
    wp (cur <- getBlock a ;;
        pth0 <- getPath q ;;
        rows <- gets maze ;;
        if (rowIndex cur =? 1) || (length possible =? 0)%nat
           || (distance pth0 <=? Z.of_nat (length (subPath pth0)))
        then
          low <- (if (distance pth0 <=? Z.of_nat (length (subPath pth0)))
                     || (length possible =? 0)%nat
                  then ret true
                  else (nBlock <- defined (last (adjacentBlocks lb)) ;;
                        nb <- getBlock nBlock ;;
                        ret (Z.of_nat (length rows) - 3 <=? rowIndex nb))) ;;
          (if low : bool
           then modify (fun w0 => set_pathsToSplice (pathsToSplice w0 ++ [q]) w0)
           else ret tt) ;;
          ret (inr tt)
        else ret (inl a))
      (fun (r : ref + ()) w' =>
         exists pth', pathStore w' !! q = Some pth' /\
           distance pth' = distance pth /\
           (length (subPath pth') <= S (length (subPath pth)))%nat /\
           match r with
           | inl _ => Z.of_nat (length (subPath pth')) < distance pth'
           | inr _ =>
               distance pth' <= Z.of_nat (length (subPath pth')) ->
               q ∈ pathsToSplice w'
           end)
      (fun _ => True) w2).
  { intros a w2 pth2 Hp2 Hd2 Hle.
    wp_step. apply wp_getBlock; [|done]. intros cur _.
    wp_step. apply wp_getPath; [|done]. intros pth0 Hpth0.
    rewrite Hp2 in Hpth0. injection Hpth0 as <-. wp_go.
    destruct ((rowIndex cur =? 1) || (length possible =? 0)%nat
              || (distance pth2 <=? Z.of_nat (length (subPath pth2)))) eqn:Hstop.
    - wp_step.
      destruct ((distance pth2 <=? Z.of_nat (length (subPath pth2)))
                || (length possible =? 0)%nat) eqn:Hm.
      + wp_go. exists pth2. split; [done|]. split; [done|]. split; [done|].
        intros _. simpl. apply elem_of_app. right. left.
      + apply orb_false_iff in Hm as [Hm _]. apply Z.leb_gt in Hm.
        wp_step. wp_step; [|done]. wp_step.
        apply wp_getBlock; [|done]. intros nb _. wp_go.
        destruct (Z.of_nat (length (maze w2)) - 3 <=? rowIndex nb);
          wp_go; exists pth2; (split; [done|]); (split; [done|]);
          (split; [done|]); intros; lia.
    - apply orb_false_iff in Hstop as [_ Hlong]. apply Z.leb_gt in Hlong.
      wp_go. exists pth2. split; [done|]. split; [done|]. split; [done|]. lia. }
  wp_step. destruct (0 <? length possible)%nat.
  - wp_step. apply (wp_keeps pathwise); [keeps_auto | | done].
    intros b w2 H2. cbv beta.
    wp_step. apply (wp_keeps pathwise); [keeps_auto | | done].
    intros [] w3 H3. cbv beta.
    assert (Hp3 : pathStore w3 !! q = Some pth)
      by (by rewrite (pw_pathStore _ _ H3), (pw_pathStore _ _ H2)).
    wp_step. unfold pushSubPath. apply wp_modifyPath; [|done]. intros pth' Hpth'.
    rewrite Hp3 in Hpth'. injection Hpth' as <-.
    apply (wp_keeps pathwise); [keeps_auto | | done].
    intros cb w5 H5. cbv beta.
    apply (Hfinish cb w5 (set_subPath (subPath pth ++ [b]) pth)).
    + rewrite (pw_pathStore _ _ H5). simpl.
      apply list_lookup_insert_eq. by eapply lookup_lt_Some.
    + done.
    + simpl. rewrite length_app. simpl. lia.
  - wp_step. apply (Hfinish c w1 pth); [done | done | lia].
Qed.

(** ** The invariant *)

(** A path that no shift has extended since it was made, or since it was
    last found shorter than its distance. *)
Definition snug (pth : Path) : Prop :=
  Z.of_nat (length (subPath pth)) <= Z.max 2 (distance pth).

(** The main path is the Path object 0; [paths] lists Path objects, each
    once; a Path object other than the main path has at most one block
    more than [max 2 distance]; and one that is listed in [paths] and not
    marked for removal is shorter than its distance. *)
Record capping (w : Engine) : Prop := {
  cp_main : mainPath w = Some 0%nat;
  cp_store : (0 < length (pathStore w))%nat;
  cp_nodup : NoDup (paths w);
  cp_registered : forall p, p ∈ paths w -> (p < length (pathStore w))%nat;
  cp_capped : forall p pth, p <> 0%nat -> pathStore w !! p = Some pth ->
    Z.of_nat (length (subPath pth)) <= Z.max 2 (distance pth) + 1;
  cp_short : forall p pth,
    p <> 0%nat -> p ∈ paths w -> p ∉ pathsToSplice w ->
    pathStore w !! p = Some pth ->
    Z.of_nat (length (subPath pth)) < distance pth
}.

(** Between the removal of the marked paths and the loop of [shiftPaths]
    that extends the branches, every listed branch is snug. *)
Definition snugs (w : Engine) : Prop :=
  forall p pth, p <> 0%nat -> p ∈ paths w -> pathStore w !! p = Some pth ->
    snug pth.

Definition trimmed (w : Engine) : Prop := capping w /\ snugs w.

Lemma capping_touches q w w' :
  touches q w w' -> capping w ->
  (q <> 0%nat -> forall pth', pathStore w' !! q = Some pth' ->
     Z.of_nat (length (subPath pth')) <= Z.max 2 (distance pth') + 1 /\
     (q ∈ paths w -> q ∉ pathsToSplice w' ->
      Z.of_nat (length (subPath pth')) < distance pth')) ->
  capping w'.
Proof.
  intros [Hm Hps Hlen Hoth Hkept Hnew] [] Hq. split.
  - congruence.
  - lia.
  - by rewrite Hps.
  - intros p Hp. rewrite Hps in Hp. rewrite Hlen. auto.
  - intros p pth Hp0 Hp. destruct (decide (p = q)) as [->|Hne].
    + by apply (Hq Hp0 pth).
    + rewrite Hoth in Hp by done. by apply (cp_capped0 p).
  - intros p pth Hp0 Hin Hout Hp. rewrite Hps in Hin.
    destruct (decide (p = q)) as [->|Hne].
    + by apply (Hq Hp0 pth).
    + rewrite Hoth in Hp by done. apply (cp_short0 p); auto.
Qed.

Lemma capping_pathwise w w' : pathwise w w' -> capping w -> capping w'.
Proof.
  intros Hpw Hc.
  apply (capping_touches 0 w w'); [by apply touches_pathwise | done | done].
Qed.

Lemma snugs_touches w w' : touches 0 w w' -> snugs w -> snugs w'.
Proof.
  intros [_ Hps _ Hoth _ _] Hs p pth Hp0 Hin Hp.
  rewrite Hps in Hin. rewrite Hoth in Hp by done. by apply (Hs p).
Qed.

Lemma trimmed_touches w w' : touches 0 w w' -> trimmed w -> trimmed w'.
Proof.
  intros Ht [Hc Hs]. split.
  - by apply (capping_touches 0 w w').
  - by apply (snugs_touches w w').
Qed.

(** ** Removing the marked paths *)

Lemma spliceOut_gone v l : NoDup l -> v ∉ spliceOut v l.
Proof.
  intros Hnd Hin. destruct (decide (v ∈ l)) as [Hv|Hv].
  - rewrite spliceOut_present in Hin by done.
    apply list_elem_of_filter in Hin as [Hne _]. done.
  - apply Hv. eapply elem_of_sublist; [exact Hin | apply spliceOut_sublist].
Qed.

Lemma spliceAll_gone dead ps p :
  NoDup ps -> p ∈ dead -> p ∉ spliceAll dead ps.
Proof.
  unfold spliceAll. revert ps.
  induction dead as [|d dead IH]; intros ps Hnd Hp; simpl.
  - by apply elem_of_nil in Hp.
  - apply elem_of_cons in Hp as [->|Hp].
    + intros Hin. apply (spliceOut_gone d ps Hnd).
      eapply elem_of_sublist; [exact Hin | apply spliceAll_sublist].
    + apply IH; [|done].
      eapply sublist_NoDup; [exact Hnd | apply spliceOut_sublist].
Qed.

Lemma wp_splicePaths {D} (Q : unit -> Engine -> Prop) E w :
  Q tt (set_paths (spliceAll (pathsToSplice w) (paths w)) w) ->
  wpd D splicePaths Q E w.
Proof. intros HQ. unfold wpd. by rewrite splicePaths_run. Qed.

(** Once the marked paths are out of [paths] and the marks are dropped,
    every listed branch is shorter than its distance. *)
Lemma capping_spliced w w' :
  capping w ->
  pathwise (set_paths (spliceAll (pathsToSplice w) (paths w)) w) w' ->
  trimmed (set_pathsToSplice [] w').
Proof.
  intros [] [Hm Hps Hst Hsp]. simpl in Hm, Hps, Hst, Hsp.
  assert (Hsub : paths w' `sublist_of` paths w)
    by (rewrite Hps; apply spliceAll_sublist).
  assert (Hshort : forall p pth, p <> 0%nat -> p ∈ paths w' ->
            pathStore w' !! p = Some pth ->
            Z.of_nat (length (subPath pth)) < distance pth).
  { intros p pth Hp0 Hin Hp. rewrite Hst in Hp.
    apply (cp_short0 p); [done | by eapply elem_of_sublist | | done].
    intros Hdead. rewrite Hps in Hin.
    by apply (spliceAll_gone (pathsToSplice w) (paths w) p). }
  split; [split|]; simpl.
  - congruence.
  - by rewrite Hst.
  - by eapply sublist_NoDup.
  - intros p Hp. rewrite Hst. apply cp_registered0. by eapply elem_of_sublist.
  - intros p pth Hp0 Hp. rewrite Hst in Hp. by apply (cp_capped0 p).
  - intros p pth Hp0 Hin _ Hp. by apply (Hshort p).
  - intros p pth Hp0 Hin Hp. unfold snug.
    pose proof (Hshort p pth Hp0 Hin Hp). lia.
Qed.

(** ** A new branch *)

(** What [makeSubPath] leaves alone: it adds one Path object, lists it
    in [paths], and may mark it. *)
Record sprout (w w' : Engine) : Prop := {
  sp_main : mainPath w' = mainPath w;
  sp_paths : paths w' = paths w ++ [length (pathStore w)];
  sp_length : length (pathStore w') = S (length (pathStore w));
  sp_others : forall p, p <> length (pathStore w) ->
    pathStore w' !! p = pathStore w !! p;
  sp_kept : forall x, x ∈ pathsToSplice w -> x ∈ pathsToSplice w';
  sp_new : forall x, x ∈ pathsToSplice w' -> x <> length (pathStore w) ->
    x ∈ pathsToSplice w
}.

Lemma sprout_touches w w1 w2 :
  sprout w w1 -> touches (length (pathStore w)) w1 w2 -> sprout w w2.
Proof.
  intros [] []. split; try congruence; eauto.
  intros p Hp. by rewrite tc_others0, sp_others0.
Qed.

Lemma capping_sprout w w' pth :
  capping w -> sprout w w' ->
  pathStore w' !! length (pathStore w) = Some pth ->
  snug pth ->
  (distance pth <= Z.of_nat (length (subPath pth)) ->
   length (pathStore w) ∈ pathsToSplice w') ->
  capping w' /\ (snugs w -> snugs w').
Proof.
  intros [] [] Hq Hsnug Hmark. unfold snug in Hsnug.
  set (q := length (pathStore w)) in *.
  assert (Hfresh : q ∉ paths w).
  { intros Hin. apply cp_registered0 in Hin. unfold q in Hin. lia. }
  split; [split|].
  - congruence.
  - lia.
  - rewrite sp_paths0. apply NoDup_app. split; [done|]. split.
    + intros x Hx Hx'%list_elem_of_singleton. by subst x.
    + apply NoDup_singleton.
  - intros p Hp. rewrite sp_paths0 in Hp. rewrite sp_length0.
    apply elem_of_app in Hp as [Hp|Hp%list_elem_of_singleton];
      [|subst p; unfold q; lia].
    apply cp_registered0 in Hp. lia.
  - intros p p' Hp0 Hp. destruct (decide (p = q)) as [->|Hne].
    + rewrite Hq in Hp. injection Hp as <-. lia.
    + rewrite sp_others0 in Hp by done. by apply (cp_capped0 p).
  - intros p p' Hp0 Hin Hout Hp. rewrite sp_paths0 in Hin.
    destruct (decide (p = q)) as [->|Hne].
    + rewrite Hq in Hp. injection Hp as <-.
      destruct (Z_lt_le_dec (Z.of_nat (length (subPath pth))) (distance pth))
        as [Hlt|Hge]; [done|].
      by apply Hmark in Hge.
    + rewrite sp_others0 in Hp by done.
      apply elem_of_app in Hin as [Hin|Hin%list_elem_of_singleton]; [|done].
      apply (cp_short0 p); auto.
  - intros Hs p p' Hp0 Hin Hp. rewrite sp_paths0 in Hin.
    destruct (decide (p = q)) as [->|Hne].
    + rewrite Hq in Hp. by injection Hp as <-.
    + rewrite sp_others0 in Hp by done.
      apply elem_of_app in Hin as [Hin|Hin%list_elem_of_singleton]; [|done].
      by apply (Hs p).
Qed.

Lemma makeSubPath_caps fuel b w :
  capping w ->
  wp (makeSubPath fuel b)
    (fun _ w' => capping w' /\ (snugs w -> snugs w')) (fun _ => True) w.
Proof.
  intros Hc. unfold makeSubPath, newPath. wp_go.
  set (q := length (pathStore w)).
  apply wp_draw. intros o w2 Hr2.
  assert (Hp2 : pathStore w2 = pathStore w ++ [mkPath [] 0]) by (by rewrite Hr2).
  assert (Hs2 : sprout w w2).
  { rewrite Hr2. split; simpl; try done.
    - rewrite length_app. simpl. lia.
    - intros p Hne. destruct (decide (p < length (pathStore w))%nat).
      + by rewrite lookup_app_l.
      + rewrite !lookup_ge_None_2; [done | lia |].
        rewrite length_app. simpl. lia. }
  clear Hr2. wp_go.
  apply wp_modifyPath; [|done]. intros pth Hpth.
  rewrite Hp2, list_lookup_middle in Hpth by done. injection Hpth as <-.
  wp_go. apply wp_modifyPath; [|done]. intros pth Hpth. simpl in Hpth.
  rewrite list_lookup_insert_eq in Hpth by (rewrite Hp2, length_app; simpl; lia).
  injection Hpth as <-.
  set (d := scaled o (numberOfRowBlocks w2 * 2)).
  set (w4 := set_pathStore _ _).
  assert (Hp4 : pathStore w4 !! q = Some (mkPath [b] d)).
  { simpl. apply list_lookup_insert_eq.
    rewrite length_insert, Hp2, length_app. simpl. unfold q. lia. }
  assert (Hs4 : sprout w w4).
  { destruct Hs2. split; simpl; try done.
    - by rewrite !length_insert.
    - intros p Hne. rewrite !list_lookup_insert_ne by done. auto. }
  clearbody w4. clear Hs2 Hp2.
  eapply wp_mono;
    [apply (wp_while fuel _ (fun _ w5 =>
       sprout w w5 /\
       exists pth5, pathStore w5 !! q = Some pth5 /\
         (length (subPath pth5) = 1%nat \/
          Z.of_nat (length (subPath pth5)) < distance pth5))
       (fun _ w5 =>
          sprout w w5 /\
          exists pth5, pathStore w5 !! q = Some pth5 /\ snug pth5 /\
            (distance pth5 <= Z.of_nat (length (subPath pth5)) ->
             q ∈ pathsToSplice w5))
       (fun _ => True)) | | done].
  - split; [done|]. exists (mkPath [b] d). split; [done | by left].
  - intros c w5 (Hs5 & pth5 & Hp5 & Hlen5).
    eapply wp_mono;
      [apply (wp_and _ _ _ _ _ _
                (wp_and _ _ _ _ _ _ (makeSubPath_round_cap q c w5 pth5 Hp5 Hlen5)
                   (makeSubPath_round_mark q c w5))
                (tc_makeSubPath_round q c w5)) | | done].
    intros [c'|[]] w6 [[(pth6 & Hp6 & Hd6 & Hlen6) Hmark] Ht];
      (split; [by apply (sprout_touches w w5)|]); exists pth6; (split; [done|]).
    + by right.
    + split; [done|]. by apply Hmark.
  - intros [] w5 (Hs5 & pth5 & Hp5 & Hsn5 & Hm5). cbv beta.
    by apply (capping_sprout w w5 pth5).
Qed.

Lemma growSeeds_caps fuel w :
  capping w ->
  wp (growSeeds fuel)
    (fun _ w' => capping w' /\ (snugs w -> snugs w')) (fun _ => True) w.
Proof.
  intros Hc. unfold growSeeds.
  apply (wp_while fuel _ (fun _ w1 => capping w1 /\ (snugs w -> snugs w1)));
    [by split|].
  intros i w1 [Hc1 Hs1]. wp_go.
  apply wp_getArray; [|done]. intros arr _.
  destruct (arr !! i) as [seed|]; [|by wp_go].
  wp_step. eapply wp_mono; [by apply makeSubPath_caps | | done].
  intros [] w2 [Hc2 Hs2]. wp_go. split; auto.
Qed.

(** ** Code that keeps an invariant *)

(** [holds J m]: run from a state where [J] holds, [m] returns in one
    where it holds. *)
Definition holds (J : Engine -> Prop) {A} (m : M A) : Prop :=
  forall w, J w -> wp m (fun _ w' => J w') (fun _ => True) w.

Lemma holds_keeps J (R : Engine -> Engine -> Prop) {A} (m : M A) :
  (forall w w', R w w' -> J w -> J w') -> keeps R m -> holds J m.
Proof.
  intros HR Hm w HJ. eapply wp_mono; [apply Hm | | done].
  intros a w' Hw. by apply (HR w).
Qed.

Lemma holds_bind J {A B} (m : M A) (f : A -> M B) :
  holds J m -> (forall a, holds J (f a)) -> holds J (bind m f).
Proof.
  intros Hm Hf w HJ. apply wp_bind. eapply wp_mono; [by apply Hm | | done].
  intros a w1 H1. by apply Hf.
Qed.

Lemma holds_forEach J {A} (l : list A) (body : A -> M unit) :
  (forall a, holds J (body a)) -> holds J (forEach l body).
Proof.
  intros Hb w HJ. apply (wp_forEach l body J); [done|].
  intros a w1 _ H1. by apply Hb.
Qed.

Lemma holds_while J {S T} fuel (body : S -> M (S + T)) s :
  (forall s, holds J (body s)) -> holds J (while fuel body s).
Proof.
  intros Hb w HJ.
  apply (wp_while fuel body (fun _ => J) (fun _ => J)); [done|].
  intros s1 w1 H1. eapply wp_mono; [by apply Hb | | done].
  by intros [s2|r] w2 H2.
Qed.

(** Where the main path is the Path object 0, the code that follows a
    read of the global [mainPath] works on that object. *)
Lemma holds_theMainPath J {A} (f : pref -> M A) :
  (forall w, J w -> mainPath w = Some 0%nat) ->
  holds J (f 0%nat) -> holds J (bind theMainPath f).
Proof.
  intros Hmain Hf w HJ. unfold theMainPath. wp_go.
  rewrite (Hmain w HJ). simpl. wp_step. by apply Hf.
Qed.

Lemma capping_touches_main w w' : touches 0 w w' -> capping w -> capping w'.
Proof. intros Ht Hc. by apply (capping_touches 0 w w'). Qed.

Lemma trimmed_main w : trimmed w -> mainPath w = Some 0%nat.
Proof. intros [Hc _]. apply (cp_main _ Hc). Qed.

Create HintDb holds discriminated.

Ltac holds_auto :=
  repeat first
    [ solve [eauto 3 with holds]
    | solve [apply (holds_keeps _ (touches 0));
              [first [apply capping_touches_main | apply trimmed_touches]
              | keeps_auto]]
    | lazymatch goal with
      | |- holds _ (bind theMainPath _) =>
          apply holds_theMainPath; [first [exact cp_main | exact trimmed_main]|]
      | |- holds _ (bind _ _) => apply holds_bind; [|intros ?]
      | |- holds _ (forEach _ _) => apply holds_forEach; intros ?
      | |- holds _ (while _ _ _) => apply holds_while; intros ?
      | |- holds _ (if ?c then _ else _) => destruct c
      | |- holds _ (match ?c with _ => _ end) => destruct c
      end ].

Lemma trimmed_extendMainPath fuel : holds trimmed (extendMainPath fuel).
Proof. unfold extendMainPath, extendMainPath_round. holds_auto. Qed.

Lemma trimmed_makePath_round c : holds trimmed (makePath_round c).
Proof. unfold makePath_round. holds_auto. Qed.

(** ** Extending a branch *)

(** [for] over an array, with an invariant that knows which elements
    have been done. *)
Lemma wp_forEach_done {D} {A} (l : list A) (body : A -> M unit)
    (I : list A -> Engine -> Prop) E w :
  I [] w ->
  (forall done a rest w, l = done ++ a :: rest -> I done w ->
     wpd D (body a) (fun _ => I (done ++ [a])) E w) ->
  wpd D (forEach l body) (fun _ => I l) E w.
Proof.
  revert I w. induction l as [|a l IH]; intros I w Hw Hbody; simpl.
  - done.
  - apply wp_bind. eapply wp_mono.
    + by apply (Hbody [] a l).
    + intros ? w' Hw'. simpl in Hw'. apply (IH (fun d => I (a :: d))); [done|].
      intros d b rest w'' -> Hd. by apply (Hbody (a :: d) b rest).
    + done.
Qed.

(** [extendPaths] on the path [q], and the test that follows it in
    [shiftPaths]: the path gains blocks one at a time, and only while it
    is shorter than its distance; it is marked if it ends at its full
    length. *)
Lemma extendPaths_len fuel q w pth :
  pathStore w !! q = Some pth ->
  wp (extendPaths fuel q ;;
      pth <- getPath q ;;
      if (length (subPath pth) =? 0)%nat
      then modify (fun w => set_pathsToSplice (pathsToSplice w ++ [q]) w)
      else ret tt)
    (fun _ w' =>
       touches q w w' /\
       exists pth', pathStore w' !! q = Some pth' /\
         distance pth' = distance pth /\
         Z.of_nat (length (subPath pth'))
           <= Z.max (Z.of_nat (length (subPath pth)) + 1) (distance pth) /\
         (distance pth' <= Z.of_nat (length (subPath pth')) ->
          q ∈ pathsToSplice w'))
    (fun _ => True) w.
Proof.
  intros Hp. unfold extendPaths.
  wp_step. wp_step. apply wp_getPath; [|done]. intros pth0 Hpth0.
  rewrite Hp in Hpth0. injection Hpth0 as <-.
  wp_step. wp_step; [|done]. wp_step.
  apply (wp_keeps pathwise); [keeps_auto | | done].
  intros [] w1 H1. cbv beta.
  assert (Ht1 : touches q w w1) by (by apply touches_pathwise).
  assert (Hp1 : pathStore w1 !! q = Some pth) by (by rewrite (pw_pathStore _ _ H1)).
  clear H1.
  eapply wp_mono;
    [apply (wp_while fuel _ (fun _ w2 =>
       touches q w w2 /\
       exists pth2, pathStore w2 !! q = Some pth2 /\
         distance pth2 = distance pth /\
         ((length (subPath pth2) <= length (subPath pth))%nat \/
          Z.of_nat (length (subPath pth2)) < distance pth))
       (fun _ w2 =>
          touches q w w2 /\
          exists pth2, pathStore w2 !! q = Some pth2 /\
            distance pth2 = distance pth /\
            Z.of_nat (length (subPath pth2))
              <= Z.max (Z.of_nat (length (subPath pth)) + 1) (distance pth) /\
            (distance pth2 <= Z.of_nat (length (subPath pth2)) ->
             q ∈ pathsToSplice w2))
       (fun _ => True)) | | done].
  - split; [done|]. exists pth. split; [done|]. split; [done|]. by left.
  - intros c w2 (Ht2 & pth2 & Hp2 & Hd2 & Hlen2).
    eapply wp_mono;
      [apply (wp_and _ _ _ _ _ _ (extendPaths_round_len q c w2 pth2 Hp2)
                (tc_extendPaths_round q c w2)) | | done].
    intros [c'|[]] w3 [(pth3 & Hp3 & Hd3 & Hle3 & Hr3) Ht3];
      (split; [by transitivity w2|]); exists pth3;
      (split; [done|]); (split; [congruence|]).
    + right. lia.
    + split; [lia | done].
  - intros [] w2 (Ht2 & pth2 & Hp2 & Hd2 & Hlen2 & Hm2). cbv beta.
    wp_step. apply wp_getPath; [|done]. intros pth0 Hpth0.
    rewrite Hp2 in Hpth0. injection Hpth0 as <-.
    destruct (length (subPath pth2) =? 0)%nat.
    + wp_go. split.
      * transitivity w2; [done|]. apply tc_mark.
      * exists pth2. split; [done|]. split; [done|]. split; [done|].
        intros _. simpl. apply elem_of_app. right. left.
    + wp_go. split; [done|]. by exists pth2.
Qed.

(** ** A shift *)

Lemma caps_growSeeds fuel : holds capping (growSeeds fuel).
Proof.
  intros w Hc. eapply wp_mono; [by apply growSeeds_caps | | done].
  by intros [] w' [Hc' _].
Qed.
#[export] Hint Resolve caps_growSeeds : holds.

Lemma caps_shiftPaths fuel : holds capping (shiftPaths fuel).
Proof.
  intros w Hc. unfold shiftPaths.
  wp_step. apply wp_splicePaths. wp_go.
  set (w1 := set_pathsToSplice [] _).
  assert (Ht1 : trimmed w1) by (by apply (capping_spliced w)).
  clearbody w1. clear Hc.
  eapply wp_mono; [by apply trimmed_extendMainPath | | done].
  intros [] w2 Ht2. cbv beta.
  wp_step. eapply wp_mono; [apply growSeeds_caps, Ht2 | | done].
  intros [] w3 [Hc3 Hs3]. cbv beta. specialize (Hs3 (proj2 Ht2)).
  wp_step. apply (wp_keeps pathwise); [keeps_auto | | done].
  intros a w4 H4. cbv beta.
  wp_step. apply (wp_keeps pathwise); [keeps_auto | | done].
  intros [] w5 H5. cbv beta.
  assert (H35 : pathwise w3 w5) by (by transitivity w4).
  assert (Hc5 : capping w5) by (by apply (capping_pathwise w3)).
  assert (Hs5 : snugs w5).
  { apply (snugs_touches w3); [by apply touches_pathwise | done]. }
  clear H4 H5 H35 Hc3 Hs3 Ht2 Ht1.
  wp_go.
  assert (Hnd : NoDup (drop 1 (paths w5))).
  { eapply sublist_NoDup; [apply (cp_nodup _ Hc5) | apply sublist_drop]. }
  eapply wp_mono;
    [apply (wp_forEach_done (drop 1 (paths w5)) _
       (fun done w6 =>
          capping w6 /\ paths w6 = paths w5 /\
          forall p pth, p <> 0%nat -> p ∈ paths w6 -> p ∉ done ->
            pathStore w6 !! p = Some pth -> snug pth)) | | done].
  - split; [done|]. split; [done|]. intros p pth Hp0 Hin _ Hp. by apply (Hs5 p).
  - clear a. intros done a rest w6 Hl (Hc6 & Hps6 & Hs6).
    assert (Hin : a ∈ paths w6).
    { rewrite Hps6. eapply elem_of_sublist; [|apply (sublist_drop _ 1)].
      rewrite Hl. apply elem_of_app. right. left. }
    assert (Hfresh : a ∉ done).
    { rewrite Hl in Hnd. apply NoDup_app in Hnd as (_ & Hnd & _).
      intros Ha. apply (Hnd a Ha). left. }
    destruct (lookup_lt_is_Some_2 (pathStore w6) a (cp_registered _ Hc6 a Hin))
      as [pth Hpa].
    eapply wp_mono; [apply (extendPaths_len fuel a w6 pth Hpa) | | done].
    intros [] w7 (Ht7 & pth7 & Hp7 & Hd7 & Hlen7 & Hm7).
    split; [|split].
    + apply (capping_touches a w6 w7); [done | done |].
      intros Ha0 pth' Hp'. rewrite Hp7 in Hp'. injection Hp' as <-.
      pose proof (Hs6 a pth Ha0 Hin Hfresh Hpa) as Hsn. unfold snug in Hsn.
      split; [lia|]. intros _ Hout.
      destruct (Z_lt_le_dec (Z.of_nat (length (subPath pth7))) (distance pth7))
        as [Hlt|Hge]; [done|].
      by apply Hm7 in Hge.
    + by rewrite (tc_paths _ _ _ Ht7).
    + intros p pth' Hp0 Hp Hout Hp'.
      rewrite (tc_paths _ _ _ Ht7) in Hp.
      apply not_elem_of_app in Hout as [Hout Hne].
      rewrite list_elem_of_singleton in Hne.
      rewrite (tc_others _ _ _ Ht7) in Hp' by done.
      by apply (Hs6 p).
  - intros [] w6 (Hc6 & _). cbv beta.
    assert (Hrest : holds capping
              (shareSecondSeeds ;; growSeeds fuel ;; clearSeeds)) by holds_auto.
    by apply Hrest.
Qed.
#[export] Hint Resolve caps_shiftPaths : holds.

Lemma caps_shiftMaze fuel : holds capping (shiftMaze fuel).
Proof. unfold shiftMaze. holds_auto. Qed.
#[export] Hint Resolve caps_shiftMaze : holds.

Lemma caps_keydown fuel k : holds capping (keydown fuel k).
Proof.
  destruct k; simpl;
    [unfold moveUp | unfold moveLeft | unfold moveDown | unfold moveRight];
    holds_auto.
Qed.

(** ** The first maze *)

Lemma trimmed_trunk fuel w :
  paths w = [] -> pathStore w = [] ->
  wp (makePath_trunk fuel) (fun _ w' => trimmed w') (fun _ => True) w.
Proof.
  intros Hps Hst. unfold makePath_trunk, newPath.
  do 10 wp_step. simpl paths. rewrite Hps, Hst. simpl.
  set (w2 := set_mainPath _ _).
  assert (Ht2 : trimmed w2).
  { split; [split|]; simpl.
    - done.
    - lia.
    - apply NoDup_singleton.
    - intros p ->%list_elem_of_singleton. lia.
    - intros [|p] pth Hp0 Hp; done.
    - intros p pth Hp0 ->%list_elem_of_singleton. done.
    - intros p pth Hp0 ->%list_elem_of_singleton. done. }
  clearbody w2.
  assert (Hrest : holds trimmed
    (n <- gets numberOfRowBlocks ;;
     modifyPath 0 (set_distance (n * 20)) ;;
     a <- newArray ;;
     modify (set_pathSeeds a) ;;
     rows <- gets maze ;;
     o <- mathRandom ;;
     currentRow <- rowAt (Z.of_nat (length rows) - 1) ;;
     currentBlock <-
       defined (at_index currentRow
                  (scaled o (Z.of_nat (length currentRow) - 1) + 1)) ;;
     modifyBlock currentBlock (set_isWall false) ;;
     modifyPath 0
       (fun pth => set_subPath (js_set 0 currentBlock (subPath pth)) pth) ;;
     currentBlock0 <-
       cellAt (Z.of_nat (length rows) - 2)
         (scaled o (Z.of_nat (length currentRow) - 1) + 1) ;;
     modifyBlock currentBlock0 (set_isWall false) ;;
     modifyPath 0
       (fun pth => set_subPath (js_set 1 currentBlock0 (subPath pth)) pth) ;;
     while fuel makePath_round currentBlock0)).
  { pose proof trimmed_makePath_round. holds_auto. }
  by apply Hrest.
Qed.

Lemma caps_start n draws fuel :
  wp (start fuel) (fun _ w => capping w) (fun _ => True) (loaded n draws).
Proof.
  unfold start, calculateDimensions, makePointGrid. wp_go.
  apply (wp_keeps pathwise); [keeps_auto | | done].
  intros [] w1 [_ Hps Hst _]. simpl in Hps, Hst. cbv beta.
  wp_step. unfold makePath. wp_step.
  eapply wp_mono; [by apply trimmed_trunk | | done].
  intros [] w2 [Hc2 _]. cbv beta.
  wp_step. eapply wp_mono; [by apply caps_growSeeds | | done].
  intros [] w3 Hc3. cbv beta.
  wp_step. apply (wp_keeps pathwise); [keeps_auto | | done].
  intros [] w4 H4. cbv beta.
  pose proof (capping_pathwise _ _ H4 Hc3) as Hc4.
  wp_step. eapply wp_mono; [by apply caps_growSeeds | | done].
  intros [] w5 Hc5. cbv beta.
  wp_step. apply wp_splicePaths.
  wp_step. apply (wp_keeps pathwise); [keeps_auto | | done].
  intros [] w6 H6. cbv beta. wp_step.
  destruct (capping_spliced w5 w6 Hc5 H6) as [Hc7 _].
  assert (Hchar : holds capping makeCharacter)
    by (unfold makeCharacter; holds_auto).
  by apply Hchar.
Qed.

Lemma reachable_capping n w : reachable n w -> capping w.
Proof.
  induction 1 as [draws fuel w Hrun | w draws fuel k o w' Hr IH Hrun Ho].
  - exact (wp_run (D:=True) _ _ _ _ _ _ Hrun (caps_start n draws fuel)).
  - assert (IH' : capping (set_rng draws w)).
    { apply (capping_pathwise w); [by split | done]. }
    destruct o as [[]| |]; [| |done].
    + exact (wp_run (D:=True) _ _ _ _ _ _ Hrun
               (caps_keydown fuel k (set_rng draws w) IH')).
    + pose proof (steady_draws n w draws (reachable_steady n w Hr)) as Hsy.
      pose proof (wp_run (D:=True) _ _ _ _ _ _ Hrun
                    (keydown_total n fuel k _ Hsy (or_introl I))) as [-> _].
      exact IH'.
Qed.

(** ** The bound *)

(** C8 (as amended).  In every reachable state a Path object other than
    the main path holds at most one block more than the larger of 2 and
    its distance: [makeSubPath] and [extendPaths] both add a block
    before they compare the length with the distance, [makeSubPath]
    starts from a path that holds its seed, and [extendPaths] runs once
    more on a branch that [makeSubPath] has just left at its full length.
    A branch that is listed in [paths] and not marked for removal is
    shorter than its distance. *)
Theorem branch_length_capped n w p pth :
  reachable n w ->
  pathStore w !! p = Some pth ->
  mainPath w <> Some p ->
  Z.of_nat (length (subPath pth)) <= Z.max 2 (distance pth) + 1 /\
  (p ∈ paths w -> p ∉ pathsToSplice w ->
   Z.of_nat (length (subPath pth)) < distance pth).
Proof.
  intros Hr Hp Hm. pose proof (reachable_capping n w Hr) as Hc.
  assert (Hp0 : p <> 0%nat).
  { intros ->. by rewrite (cp_main _ Hc) in Hm. }
  split.
  - by apply (cp_capped _ Hc p).
  - intros Hin Hout. by apply (cp_short _ Hc p).
Qed.

Lemma branch_length_capped_witness :
  reachable 6 maze6_branch /\
  pathStore maze6_branch !! 1%nat = Some (mkPath [7; 2; 3]%nat 0) /\
  mainPath maze6_branch <> Some 1%nat /\
  Z.of_nat (length [7; 2; 3]%nat) <= Z.max 2 0 + 1 /\
  (1%nat ∈ paths maze6_branch -> 1%nat ∉ pathsToSplice maze6_branch ->
   Z.of_nat (length [7; 2; 3]%nat) < 0).
Proof.
  split; [exact reachable_maze6_branch|].
  split; [by vm_compute|]. split; [by vm_compute|].
  apply (branch_length_capped 6 maze6_branch 1 (mkPath [7; 2; 3]%nat 0)
           reachable_maze6_branch); by vm_compute.
Defined.

(** The bound is reached: after the shift of this run, [paths] holds a
    branch of three blocks whose distance is 0. *)
Lemma branch_one_over :
  reachable 6 maze6_branch /\
  1%nat ∈ paths maze6_branch /\
  mainPath maze6_branch = Some 0%nat /\
  pathStore maze6_branch !! 1%nat = Some (mkPath [7; 2; 3]%nat 0).
Proof.
  split; [exact reachable_maze6_branch|].
  split; [vm_compute; in_list|]. split; by vm_compute.
Qed.
